(** * irlib: piecewise polynomials, adaptive IR-basis generator, Matsubara transform

    Shallow embedding of
      - [c++/include/irlib/piecewise_polynomial.hpp]
      - [c++/include/irlib/basis.hpp]
      - [c++/include/irlib/detail/basis_impl.ipp]
    and the properties of the specification checked against it, followed
    by further properties of the code.

    Conventions of the embedding.
      - [double] and [mpfr::mpreal] are idealised as exact rationals [Q];
        C++ [==], [<], [<=] on them are [Qeq_bool], [Qlt_bool], [Qle_bool].
      - [int] and [long] are [Z]; loop trip counts are [nat].  The
        arithmetic on the [long] entries of [n_vec] is checked against the
        64-bit range ([in_long]): leaving it is undefined behaviour.
      - A call either returns, throws [std::runtime_error(what)], or runs
        into undefined behaviour (out-of-range element access, a failed
        [assert] in a build without [NDEBUG]): type [outcome].
      - Functions of libm, Eigen and of headers that are not part of the
        translated sources ([sqrt], [exp], the SVD, the Gauss-Legendre
        table, ...) are parameters of the Sections that use them. *)

From Stdlib Require Import String DecimalString ZArith QArith Qabs List Bool Lia Arith Lqa.
Import ListNotations.

Set Implicit Arguments.

(** ** Outcomes of a C++ call *)

Inductive outcome (A : Type) : Type :=
| Ok (a : A)
| Throw (what : string)
| Undefined.

Arguments Ok {A} a.
Arguments Throw {A} what.
Arguments Undefined {A}.

Definition bind {A B : Type} (m : outcome A) (f : A -> outcome B) : outcome B :=
  match m with
  | Ok a => f a
  | Throw w => Throw w
  | Undefined => Undefined
  end.

Declare Scope outcome_scope.
Delimit Scope outcome_scope with outcome.
Notation "x <- m ;; k" := (bind m (fun x => k))
  (at level 61, m at next level, right associativity) : outcome_scope.
Notation "m ;;; k" := (bind m (fun _ => k))
  (at level 61, right associativity) : outcome_scope.
Open Scope outcome_scope.

Definition is_ok {A : Type} (m : outcome A) : bool :=
  match m with Ok _ => true | _ => false end.

Definition is_throw {A : Type} (m : outcome A) : bool :=
  match m with Throw _ => true | _ => false end.

(** [for (int i = lo; i < hi; ++i) body] threading the loop state. *)
Fixpoint for_loop {S : Type} (n : nat) (i : Z) (body : Z -> S -> outcome S) (s : S)
  : outcome S :=
  match n with
  | O => Ok s
  | Datatypes.S n' => s' <- body i s ;; for_loop n' (i + 1)%Z body s'
  end.

Definition for_range {S : Type} (lo hi : Z) (body : Z -> S -> outcome S) (s : S)
  : outcome S :=
  for_loop (Z.to_nat (hi - lo)) lo body s.

(** ** std::vector element access *)

Definition at_ {A : Type} (v : list A) (i : Z) : outcome A :=
  if (i <? 0)%Z then Undefined
  else match nth_error v (Z.to_nat i) with
       | Some a => Ok a
       | None => Undefined
       end.

Fixpoint replace_nth {A : Type} (v : list A) (n : nat) (x : A) : option (list A) :=
  match v, n with
  | [], _ => None
  | _ :: t, O => Some (x :: t)
  | h :: t, Datatypes.S n' =>
      match replace_nth t n' x with
      | Some t' => Some (h :: t')
      | None => None
      end
  end.

Definition set_at {A : Type} (v : list A) (i : Z) (x : A) : outcome (list A) :=
  if (i <? 0)%Z then Undefined
  else match replace_nth v (Z.to_nat i) x with
       | Some v' => Ok v'
       | None => Undefined
       end.

Definition size {A : Type} (v : list A) : Z := Z.of_nat (length v).

(** ** Comparisons on scalars *)

Definition Qlt_bool (x y : Q) : bool := negb (Qle_bool y x).

Fixpoint vec_eqb (a b : list Q) : bool :=
  match a, b with
  | [], [] => true
  | x :: a', y :: b' => Qeq_bool x y && vec_eqb a' b'
  | _, _ => false
  end.

(** ** std::upper_bound (the bisection of libstdc++): index of the first
    element that is greater than [x]. *)

Fixpoint upper_bound_loop (fuel : nat) (v : list Q) (x : Q) (first len : nat) : nat :=
  match fuel with
  | O => first
  | Datatypes.S fuel' =>
      match len with
      | O => first
      | _ =>
          let half := Nat.div2 len in
          let middle := (first + half)%nat in
          if Qlt_bool x (nth middle v 0)
          then upper_bound_loop fuel' v x first half
          else upper_bound_loop fuel' v x (Datatypes.S middle) (len - half - 1)%nat
      end
  end.

Definition upper_bound (v : list Q) (x : Q) : nat :=
  upper_bound_loop (length v) v x 0 (length v).

(** ** class piecewise_polynomial *)

Definition matrix := list (list Q).

Definition mat_rows (m : matrix) : Z := size m.

Definition mat_cols (m : matrix) : Z :=
  match m with
  | [] => 0%Z
  | r :: _ => size r
  end.

Definition mat_at (m : matrix) (i j : Z) : outcome Q :=
  r <- at_ m i ;; at_ r j.

Definition mat_set (m : matrix) (i j : Z) (x : Q) : outcome matrix :=
  r <- at_ m i ;; r' <- set_at r j x ;; set_at m i r'.

Definition mat_zero (r c : Z) : matrix :=
  repeat (repeat 0%Q (Z.to_nat c)) (Z.to_nat r).

Record piecewise_polynomial : Type := mk_pp {
  k_ : Z;
  n_sections_ : Z;
  section_edges_ : list Q;
  coeff_ : matrix;
  valid_ : bool
}.

Module PP.

Section Build.

(** [NDEBUG = true]: asserts and the debug-only validity checks are
    compiled out. *)
Variable NDEBUG : bool.

Definition c_assert (b : bool) : outcome unit :=
  if NDEBUG || b then Ok tt else Undefined.

Definition check_range (p : piecewise_polynomial) (x : Q) : outcome unit :=
  e0 <- at_ (section_edges_ p) 0 ;;
  eN <- at_ (section_edges_ p) (size (section_edges_ p) - 1) ;;
  if Qlt_bool x e0 || Qlt_bool eN x
  then Throw "Give x is out of the range."
  else Ok tt.

Definition check_validity (p : piecewise_polynomial) : outcome unit :=
  c_assert (0 <? size (section_edges_ p))%Z ;;;
  if valid_ p then Ok tt
  else Throw "pieacewise_polynomial object is not properly constructed!".

(** [#ifndef NDEBUG check_validity(); #endif] *)
Definition check_validity_dbg (p : piecewise_polynomial) : outcome unit :=
  if NDEBUG then Ok tt else check_validity p.

(** The edges [0 .. n] are strictly ascending (loop of [set_validity]). *)
Fixpoint ascending (edges : list Q) : bool :=
  match edges with
  | a :: ((b :: _) as t) => Qlt_bool a b && ascending t
  | _ => true
  end.

Definition validity (k n : Z) (edges : list Q) (coeff : matrix) : bool :=
  (1 <=? n)%Z
  && (size edges =? n + 1)%Z
  && (mat_rows coeff =? n)%Z
  && forallb (fun r => (size r =? k + 1)%Z) coeff
  && ascending edges.

(** [set_validity(); check_validity();] at the end of both constructors. *)
Definition construct (k : Z) (edges : list Q) (coeff : matrix)
  : outcome piecewise_polynomial :=
  let n := (size edges - 1)%Z in
  let v := validity k n edges coeff in
  c_assert v ;;;
  let p := mk_pp k n edges coeff v in
  check_validity p ;;; Ok p.

(** [piecewise_polynomial(int k, const std::vector<Tx>& section_edges)] *)
Definition make_zero (k : Z) (edges : list Q) : outcome piecewise_polynomial :=
  let n := (size edges - 1)%Z in
  if (n <? 0)%Z || (k + 1 <? 0)%Z then Undefined
  else construct k edges (mat_zero n (k + 1)).

(** [piecewise_polynomial(int n_section, section_edges, coeff)] *)
Definition make (n_section : Z) (edges : list Q) (coeff : matrix)
  : outcome piecewise_polynomial :=
  c_assert (n_section =? size edges - 1)%Z ;;;
  construct (mat_cols coeff - 1) edges coeff.

Definition order (p : piecewise_polynomial) : Z := k_ p.

Definition num_sections (p : piecewise_polynomial) : outcome Z :=
  check_validity_dbg p ;;; Ok (n_sections_ p).

Definition section_edge (p : piecewise_polynomial) (i : Z) : outcome Q :=
  c_assert ((0 <=? i)%Z && (i <? size (section_edges_ p))%Z) ;;;
  check_validity_dbg p ;;;
  at_ (section_edges_ p) i.

Definition section_edges (p : piecewise_polynomial) : outcome (list Q) :=
  check_validity_dbg p ;;; Ok (section_edges_ p).

Definition coefficient (p : piecewise_polynomial) (i j : Z) : outcome Q :=
  c_assert ((0 <=? i)%Z && (i <? size (section_edges_ p))%Z) ;;;
  c_assert ((0 <=? j)%Z && (j <=? k_ p)%Z) ;;;
  check_validity_dbg p ;;;
  mat_at (coeff_ p) i j.

(** Find the section involving the given x. *)
Definition find_section (p : piecewise_polynomial) (x : Q) : outcome Z :=
  check_validity_dbg p ;;;
  e0 <- at_ (section_edges_ p) 0 ;;
  if Qeq_bool x e0 then Ok 0%Z
  else
    eN <- at_ (section_edges_ p) (size (section_edges_ p) - 1) ;;
    if Qeq_bool x eN then Ok (size (section_edges_ p) - 2)%Z
    else
      match upper_bound (section_edges_ p) x with
      | O => Undefined (* --it on begin() *)
      | Datatypes.S i => Ok (Z.of_nat i)
      end.

(** The power-sum loop shared by [compute_value] and [derivative]:
    [for p in 0..k: r += c[p] * x_pow; x_pow *= dx]. *)
Definition power_sum (c : Z -> outcome Q) (k : Z) (dx : Q) : outcome Q :=
  st <- for_range 0 (k + 1)
          (fun p (st : Q * Q) =>
             let (r, x_pow) := st in
             cp <- c p ;;
             Ok (r + cp * x_pow, x_pow * dx)%Q)
          (0%Q, 1%Q) ;;
  Ok (fst st).

(** Compute the value at x. x must be in the given section. *)
Definition compute_value_in (p : piecewise_polynomial) (x : Q) (section : Z)
  : outcome Q :=
  check_validity_dbg p ;;;
  (if NDEBUG then Ok tt
   else
     lo <- at_ (section_edges_ p) section ;;
     if Qle_bool lo x
     then hi <- at_ (section_edges_ p) (section + 1) ;;
          c_assert (Qle_bool x hi)
     else c_assert false) ;;;
  lo <- at_ (section_edges_ p) section ;;
  power_sum (fun q => mat_at (coeff_ p) section q) (k_ p) (x - lo)%Q.

(** Compute the value at x. *)
Definition compute_value (p : piecewise_polynomial) (x : Q) : outcome Q :=
  check_validity_dbg p ;;;
  s <- find_section p x ;;
  compute_value_in p x s.

(** [derivative(x, order, section = -1)] *)
Definition derivative (p : piecewise_polynomial) (x : Q) (ord : Z) (section : Z)
  : outcome Q :=
  check_validity_dbg p ;;;
  section_eval <- (if (0 <=? section)%Z then Ok section else find_section p x) ;;
  lo <- at_ (section_edges_ p) section_eval ;;
  let dx := (x - lo)%Q in
  coeff_deriv <- for_range 0 (k_ p + 1)
                   (fun q cd => c <- mat_at (coeff_ p) section_eval q ;; set_at cd q c)
                   (repeat 0%Q (Z.to_nat (k_ p + 1))) ;;
  coeff_deriv <- for_range 0 ord
                   (fun _ cd =>
                      cd <- for_range 0 (k_ p)
                              (fun q cd =>
                                 c <- at_ cd (q + 1) ;;
                                 set_at cd q (inject_Z (q + 1) * c)%Q)
                              cd ;;
                      set_at cd (k_ p) 0%Q)
                   coeff_deriv ;;
  power_sum (fun q => at_ coeff_deriv q) (k_ p) dx.

(** Compute overlap <this | other>. The two objects must have the same
    sections. *)
Definition overlap (p other : piecewise_polynomial) : outcome Q :=
  check_validity p ;;;
  if negb (vec_eqb (section_edges_ p) (section_edges_ other))
  then Throw "Computing overlap between piecewise polynomials with different section edges are not supported"
  else
    let k := order p in
    let k2 := order other in
    for_range 0 (n_sections_ p)
      (fun s r =>
         hi <- at_ (section_edges_ p) (s + 1) ;;
         lo <- at_ (section_edges_ p) s ;;
         let dx := (hi - lo)%Q in
         dx_power <- set_at (repeat 0%Q (Z.to_nat (k + k2 + 2))) 0 1%Q ;;
         dx_power <- for_range 1 (k + k2 + 2)
                       (fun q dp => prev <- at_ dp (q - 1) ;; set_at dp q (dx * prev)%Q)
                       dx_power ;;
         for_range 0 (k + 1)
           (fun q r =>
              for_range 0 (k2 + 1)
                (fun q2 r =>
                   a <- mat_at (coeff_ p) s q ;;
                   b <- mat_at (coeff_ other) s q2 ;;
                   d <- at_ dx_power (q + q2 + 1) ;;
                   Ok (r + (a * b) * d / inject_Z (q + q2 + 1))%Q)
                r)
           r)
      0%Q.

(** Multiply piecewise_polynomial by a scalar *)
Definition scale (scalar : Q) (p : piecewise_polynomial) : piecewise_polynomial :=
  mk_pp (k_ p) (n_sections_ p) (section_edges_ p)
        (map (map (fun c => (c * scalar)%Q)) (coeff_ p)) (valid_ p).

(** [detail::pp_element_wise_op<T, Op>::perform] *)
Definition perform (op : Q -> Q -> Q) (p1 p2 p_r : list Q) (k1 k2 k_r : Z)
  : outcome (list Q) :=
  let k := Z.min k1 k2 in
  c_assert (k <=? k_r)%Z ;;;
  p_r <- for_range 0 (k_r + 1) (fun i pr => set_at pr i 0%Q) p_r ;;
  for_range 0 (k + 1)
    (fun i pr => a <- at_ p1 i ;; b <- at_ p2 i ;; set_at pr i (op a b))
    p_r.

(** [detail::do_op]: element-wise operations on piecewise_polynomial
    coefficients *)
Definition do_op (op : Q -> Q -> Q) (f1 f2 : piecewise_polynomial)
  : outcome piecewise_polynomial :=
  if negb (vec_eqb (section_edges_ f1) (section_edges_ f2))
  then Throw "Cannot add two numerical functions with different sections!"
  else
    let k_new := Z.max (order f1) (order f2) in
    edges <- section_edges f1 ;;
    result <- make_zero k_new edges ;;
    let k_min := Z.min (order f1) (order f2) in
    let coeff1 := repeat 0%Q (Z.to_nat (order f1 + 1)) in
    let coeff2 := repeat 0%Q (Z.to_nat (order f2 + 1)) in
    let coeff_r := repeat 0%Q (Z.to_nat (k_new + 1)) in
    ns <- num_sections f1 ;;
    st <- for_range 0 ns
            (fun s (st : list Q * list Q * list Q * matrix) =>
               let '(c1, c2, cr, res) := st in
               c1 <- for_range 0 (order f1 + 1)
                       (fun k c => a <- mat_at (coeff_ f1) s k ;; set_at c k a) c1 ;;
               c2 <- for_range 0 (order f2 + 1)
                       (fun k c => a <- mat_at (coeff_ f2) s k ;; set_at c k a) c2 ;;
               cr <- perform op c1 c2 cr (order f1) (order f2) k_min ;;
               res <- for_range 0 (k_new + 1)
                        (fun k res => a <- at_ cr k ;; mat_set res s k a) res ;;
               Ok (c1, c2, cr, res))
            (coeff1, coeff2, coeff_r, coeff_ result) ;;
    let '(_, _, _, res) := st in
    Ok (mk_pp (k_ result) (n_sections_ result) (section_edges_ result) res
              (valid_ result)).

(** Add piecewise_polynomial objects *)
Definition plus (f1 f2 : piecewise_polynomial) : outcome piecewise_polynomial :=
  do_op Qplus f1 f2.

(** Substract piecewise_polynomial objects *)
Definition minus (f1 f2 : piecewise_polynomial) : outcome piecewise_polynomial :=
  do_op Qminus f1 f2.

(** [multiply(f1, f2)] *)
Definition multiply (f1 f2 : piecewise_polynomial) : outcome piecewise_polynomial :=
  e1 <- section_edges f1 ;;
  e2 <- section_edges f2 ;;
  if negb (vec_eqb e1 e2)
  then Throw "Two pieacewise_polynomial objects with different sections cannot be multiplied."
  else
    let k1 := order f1 in
    let k2 := order f2 in
    let k := (k1 + k2)%Z in
    edges <- section_edges f1 ;;
    r <- make_zero k edges ;;
    ns <- num_sections f1 ;;
    for_range 0 ns
      (fun s r =>
         r <- for_range 0 (k + 1)
                (fun q r =>
                   coefficient r s q ;;;
                   m <- mat_set (coeff_ r) s q 0%Q ;;
                   Ok (mk_pp (k_ r) (n_sections_ r) (section_edges_ r) m (valid_ r)))
                r ;;
         for_range 0 (k1 + 1)
           (fun p1 r =>
              for_range 0 (k2 + 1)
                (fun p2 r =>
                   old <- coefficient r s (p1 + p2) ;;
                   a <- coefficient f1 s p1 ;;
                   b <- coefficient f2 s p2 ;;
                   m <- mat_set (coeff_ r) s (p1 + p2) (old + a * b)%Q ;;
                   Ok (mk_pp (k_ r) (n_sections_ r) (section_edges_ r) m (valid_ r)))
                r)
           r)
      r.

(** [integrate(y)] *)
Definition integrate (y : piecewise_polynomial) : outcome Q :=
  let k := order y in
  ns <- num_sections y ;;
  rvec <- for_range 0 ns
            (fun s rvec =>
               hi <- section_edge y (s + 1) ;;
               lo <- section_edge y s ;;
               let dx := (hi - lo)%Q in
               st <- for_range 0 (k + 1)
                       (fun q (st : list Q * Q) =>
                          let (rvec, dx_power) := st in
                          c <- coefficient y s q ;;
                          old <- at_ rvec q ;;
                          rvec <- set_at rvec q (old + dx_power * c)%Q ;;
                          Ok (rvec, (dx_power * dx)%Q))
                       (rvec, dx) ;;
               Ok (fst st))
            (repeat 0%Q (Z.to_nat (k + 1))) ;;
  for_range 0 (k + 1)
    (fun q r => v <- at_ rvec q ;; Ok (r + v / inject_Z (q + 1))%Q)
    0%Q.

End Build.

End PP.

(** The class invariant established by the constructors
    ([set_validity]). *)
Definition well_formed (p : piecewise_polynomial) : Prop :=
  valid_ p = true
  /\ PP.validity (k_ p) (n_sections_ p) (section_edges_ p) (coeff_ p) = true.

(** The section edge [S[i]]. *)
Definition edge (v : list Q) (i : nat) : Q := nth i v 0%Q.

(** *** Concrete piecewise polynomials used below *)

(** [f(x) = x] on the single section [0,1]: order 1, coefficients (0, 1). *)
Definition pp_x : piecewise_polynomial :=
  mk_pp 1 1 [0; 1]%Q [[0; 1]%Q] true.

(** The constant 5 on [0,1]: order 0. *)
Definition pp_five : piecewise_polynomial :=
  mk_pp 0 1 [0; 1]%Q [[5]%Q] true.

(** Three sections [0, 1/3, 1/2, 1], order 1. *)
Definition pp_three : piecewise_polynomial :=
  mk_pp 1 3 [0; 1 # 3; 1 # 2; 1]%Q [[0; 1]; [1; 2]; [3; 4]]%Q true.

(** x - 1/2 on [0, 1]. *)
Definition pp_half : piecewise_polynomial :=
  mk_pp 1 1 [0; 1]%Q [[- (1 # 2); 1]%Q] true.

(** ** std::complex *)

Definition C : Type := (Q * Q)%type.

Definition Cre (z : C) : Q := fst z.
Definition Cim (z : C) : Q := snd z.
Definition C_of_real (x : Q) : C := (x, 0%Q).
Definition Cadd (a b : C) : C := (Cre a + Cre b, Cim a + Cim b)%Q.
Definition Csub (a b : C) : C := (Cre a - Cre b, Cim a - Cim b)%Q.
Definition Cmul (a b : C) : C :=
  (Cre a * Cre b - Cim a * Cim b, Cre a * Cim b + Cim a * Cre b)%Q.
Definition Cdiv (a b : C) : C :=
  let d := (Cre b * Cre b + Cim b * Cim b)%Q in
  ((Cre a * Cre b + Cim a * Cim b) / d, (Cim a * Cre b - Cre a * Cim b) / d)%Q.
Definition Cscale (x : Q) (a : C) : C := (x * Cre a, x * Cim a)%Q.
Definition Cmul_real (a : C) (x : Q) : C := (Cre a * x, Cim a * x)%Q.
Definition Cdiv_real (a : C) (x : Q) : C := (Cre a / x, Cim a / x)%Q.

Definition cmatrix := list (list C).

Definition cmat_at (m : cmatrix) (i j : Z) : outcome C :=
  r <- at_ m i ;; at_ r j.

Definition cmat_set (m : cmatrix) (i j : Z) (x : C) : outcome cmatrix :=
  r <- at_ m i ;; r' <- set_at r j x ;; set_at m i r'.

Definition cmat_zero (r c : Z) : cmatrix :=
  repeat (repeat (0%Q, 0%Q) (Z.to_nat c)) (Z.to_nat r).

Inductive statistics_type : Type := FERMIONIC | BOSONIC.

Definition statistics_eqb (a b : statistics_type) : bool :=
  match a, b with
  | FERMIONIC, FERMIONIC | BOSONIC, BOSONIC => true
  | _, _ => false
  end.

(** [for (int i = 0; i < v.size() - 1; ++i)]: the bound is unsigned, so for
    an empty vector it wraps and the first iteration reads past the end. *)
Definition for_adjacent {A S : Type} (v : list A) (body : Z -> S -> outcome S) (s : S)
  : outcome S :=
  if (size v =? 0)%Z then (at_ v 0 ;;; Ok s)
  else for_range 0 (size v - 1) body s.

(** The ordering loop shared by [compute_Tbar_ol], [compute_integral_with_exp]
    and [compute_transformation_matrix_to_matsubara]:
    [if (v[i] > v[i + 1]) throw std::runtime_error(what)]. *)
Definition check_order {A : Type} (gt : A -> A -> bool) (what : string) (v : list A)
  : outcome unit :=
  for_adjacent v
    (fun i _ =>
       a <- at_ v i ;;
       b <- at_ v (i + 1) ;;
       if gt a b then Throw what else Ok tt)
    tt.

Definition seqZ (n : Z) : list Z := map Z.of_nat (seq 0 (Z.to_nat n)).

Fixpoint mapM {A B : Type} (f : A -> outcome B) (l : list A) : outcome (list B) :=
  match l with
  | [] => Ok []
  | a :: t => b <- f a ;; bs <- mapM f t ;; Ok (b :: bs)
  end.

(** [composite_gauss_legendre_nodes].  (The embedding takes at least one
    edge: without any, the code asks for a vector of [-n] elements, which
    ends in [std::length_error] for [n > 0], where the loop below just has
    no section to go through.) *)
Definition composite_gauss_legendre_nodes (section_edges : list Q)
           (nodes : list (Q * Q)) : outcome (list (Q * Q)) :=
  let num_sec := (size section_edges - 1)%Z in
  blocks <- mapM (fun s =>
                    a <- at_ section_edges s ;;
                    b <- at_ section_edges (s + 1) ;;
                    Ok (map (fun nd : Q * Q =>
                               (a + ((b - a) / 2) * (fst nd + 1),
                                ((b - a) / 2) * snd nd)%Q)
                            nodes))
                 (seqZ num_sec) ;;
  Ok (concat blocks).

Module Matsubara.

Section Transform.

Variable NDEBUG : bool.

(** libm / MPFR functions and the Gauss-Legendre table of
    [detail/aux.hpp], which are not part of the translated sources. *)
Variable pi : Q.
Variable sqrt : Q -> Q.
Variable rpow : Q -> Q -> Q.
Variable cexp : C -> C.
Variable cos sin : Q -> Q.
Variable digits2bits : Z -> Z.
Variable gauss_legendre_nodes : Z -> list (Q * Q).

Definition cabs (z : C) : Q := sqrt (Cre z * Cre z + Cim z * Cim z).

Definition my_exp (z_img : Q) : C := (cos z_img, sin z_img).

(** Construct piecewise polynomials representing exponential functions:
    [coeffs(n, section, j) = exp0 * z_power * pre_factor[j]]. *)
Definition construct_exp_functions_coeff (w : list Q) (section_edges : list Q) (k : Z)
  : outcome (list (list (list C))) :=
  let N := (size section_edges - 1)%Z in
  pre_factor <- set_at (repeat 0%Q (Z.to_nat (k + 1))) 0 1%Q ;;
  pre_factor <- for_range 1 (k + 1)
                  (fun j pf => prev <- at_ pf (j - 1) ;; set_at pf j (prev / inject_Z j)%Q)
                  pre_factor ;;
  mapM (fun wn =>
          let z : C := (0%Q, wn) in
          mapM (fun section =>
                  x <- at_ section_edges section ;;
                  let exp0 := cexp (Cmul_real z (x + 1)%Q) in
                  st <- for_range 0 (k + 1)
                          (fun j (st : list C * C) =>
                             let (row, z_power) := st in
                             pf <- at_ pre_factor j ;;
                             Ok (row ++ [Cmul_real (Cmul exp0 z_power) pf], Cmul z_power z))
                          ([], C_of_real 1) ;;
                  Ok (fst st))
               (seqZ N))
       w.

(** Compute [\int_x0^x1 dx exp(i w (x+1)) (x-x0)^k] for k = 0, ..., K. *)
Definition compute_Ik (x0 dx w : Q) (K : Z) (Ik : list C) : outcome (list C) :=
  let x1 := (x0 + dx)%Q in
  let iw : C := (0%Q, w) in
  let exp0 := cexp (Cmul_real iw (x0 + 1)%Q) in
  let exp1 := cexp (Cmul_real iw (x1 + 1)%Q) in
  Ik <- set_at Ik 0 (Cdiv (Csub exp1 exp0) iw) ;;
  st <- for_range 1 (K + 1)
          (fun k (st : list C * Q) =>
             let (Ik, dx_k) := st in
             prev <- at_ Ik (k - 1) ;;
             Ik <- set_at Ik k
                     (Cdiv (Csub (Cscale dx_k exp1) (Cscale (inject_Z k) prev)) iw) ;;
             Ok (Ik, (dx_k * dx)%Q))
          (Ik, dx) ;;
  Ok (fst st).

Definition csum (l : list C) : C := fold_left Cadd l (0%Q, 0%Q).

(** Compute integral of exponential functions and given piecewise
    polynomials [\int dx exp(i w_i (x+1)) p_j(x)]. *)
Definition compute_integral_with_exp (w : list Q) (pp_func : list piecewise_polynomial)
  : outcome cmatrix :=
  let k_iw := 16%Z in
  p0 <- at_ pp_func 0 ;;
  let k := PP.order p0 in
  n_section <- PP.num_sections NDEBUG p0 ;;
  for_range 0 (size pp_func)
    (fun l _ =>
       pl <- at_ pp_func l ;;
       if negb (k =? PP.order pl)%Z
       then Throw "Error in compute_transformation_matrix_to_matsubara: basis functions must be pieacewise polynomials of the same order"
       else
         e0 <- PP.section_edge NDEBUG pl 0 ;;
         if negb (Qeq_bool e0 0)
         then Throw "Piecewise polynomials must be defined on [0,1]"
         else
           eN <- PP.section_edge NDEBUG pl n_section ;;
           if negb (Qeq_bool eN 1)
           then Throw "Piecewise polynomials must be defined on [0,1]"
           else Ok tt)
    tt ;;;
  let n_iw := size w in
  let n_max := (n_iw - 1)%Z in
  check_order (fun a b => Qlt_bool b a) "w must be give in ascending order." w ;;;
  let cutoff := (1 # 10)%Q in
  edges0 <- PP.section_edges NDEBUG p0 ;;
  exp_coeffs <- construct_exp_functions_coeff w edges0 k_iw ;;
  for_range 0 n_section
    (fun s (r : cmatrix) =>
       x0 <- PP.section_edge NDEBUG p0 s ;;
       x1 <- PP.section_edge NDEBUG p0 (s + 1) ;;
       let dx := (x1 - x0)%Q in
       dx_power <- set_at (repeat 0%Q (Z.to_nat (k + k_iw + 2))) 0 1%Q ;;
       dx_power <- for_range 1 (k + k_iw + 2)
                     (fun q dp => prev <- at_ dp (q - 1) ;; set_at dp q (dx * prev)%Q)
                     dx_power ;;
       let w_max_cs := (cutoff * pi / dx)%Q in
       n_max_cs <- for_range 0 (size w)
                     (fun i (nm : Z) =>
                        wi <- at_ w i ;;
                        Ok (if Qle_bool wi w_max_cs then i else nm))
                     (-1)%Z ;;
       (* rows 0 .. n_max_cs: Taylor expansion; rows above: exact overlap *)
       low_rows <- mapM (fun n =>
                           mapM (fun p2 =>
                                   terms <- mapM (fun p =>
                                                    en <- at_ exp_coeffs n ;;
                                                    es <- at_ en s ;;
                                                    c <- at_ es p ;;
                                                    d <- at_ dx_power (p + p2 + 1) ;;
                                                    Ok (Cmul_real c (d / inject_Z (p + p2 + 1))%Q))
                                                 (seqZ (k_iw + 1)) ;;
                                   Ok (csum terms))
                                (seqZ (k + 1)))
                        (seqZ (n_max_cs + 1)) ;;
       st <- for_range (Z.max (n_max_cs + 1) 0) (n_max + 1)
               (fun n (st : list C * cmatrix) =>
                  let (Ik, rows) := st in
                  wn <- at_ w n ;;
                  Ik <- compute_Ik x0 dx wn k Ik ;;
                  Ok (Ik, rows ++ [firstn (Z.to_nat (k + 1)) Ik]))
               (repeat (0%Q, 0%Q) (Z.to_nat (k + 1)), low_rows) ;;
       let left_mid_matrix := snd st in
       right_matrix <- mapM (fun l =>
                               pl <- at_ pp_func l ;;
                               mapM (fun p2 => PP.coefficient NDEBUG pl s p2) (seqZ (k + 1)))
                            (seqZ (size pp_func)) ;;
       (* r += left_mid_matrix * right_matrix *)
       Ok (map (fun rows : list C * list C =>
                  let (r_row, lm_row) := rows in
                  map (fun cols : C * list Q =>
                         let (r_nl, a_l) := cols in
                         Cadd r_nl
                              (csum (map (fun ca : C * Q => Cmul_real (fst ca) (snd ca))
                                         (combine lm_row a_l))))
                      (combine r_row right_matrix))
               (combine r left_mid_matrix)))
    (cmat_zero n_iw (size pp_func)).

(** Post-processing of [compute_Tbar_ol]: symmetrisation by parity. *)
Definition symmetrise (l o : Z) (t : C) : C :=
  if (Z.rem (l + o) 2 =? 0)%Z
  then C_of_real (2 * Cre t)%Q
  else (0%Q, 2 * Cim t)%Q.

(** Compute a transformation matrix (\bar{T}_{nl}) from a give orthogonal
    basis set to Matsubara freq.  [Tbar_ol] is the in/out argument. *)
Definition compute_Tbar_ol (o_vec : list Z) (bf_src : list piecewise_polynomial)
           (Tbar_ol : cmatrix) : outcome cmatrix :=
  if (size o_vec =? 0)%Z then Ok Tbar_ol
  else
    check_order Z.gtb "o must be given in strictly ascending order!" o_vec ;;;
    let w := map (fun o => ((1 # 2) * pi * inject_Z o)%Q) o_vec in
    Tbar_ol <- compute_integral_with_exp w bf_src ;;
    Tbar_ol <- for_range 0 (size bf_src)
                 (fun l T =>
                    for_range 0 (size o_vec)
                      (fun i T =>
                         o <- at_ o_vec i ;;
                         t <- cmat_at T i l ;;
                         cmat_set T i l (symmetrise l o t))
                      T)
                 Tbar_ol ;;
    inv_norm <- mapM (fun l =>
                        pl <- at_ bf_src l ;;
                        ov <- PP.overlap NDEBUG pl pl ;;
                        Ok (1 / sqrt (2 * ov))%Q)
                     (seqZ (size bf_src)) ;;
    for_range 0 (size w)
      (fun n T =>
         for_range 0 (size bf_src)
           (fun l T =>
              t <- cmat_at T n l ;;
              nl <- at_ inv_norm l ;;
              cmat_set T n l (Cmul_real t (nl * sqrt (1 # 2))%Q))
           T)
      Tbar_ol.

Definition sign_of (b : bool) : Z := if b then 1%Z else (-1)%Z.

(** A value of the 64-bit [long] of the code: signed arithmetic that
    leaves the range is undefined behaviour. *)
Definition in_long (z : Z) : outcome Z :=
  if ((- 2 ^ 63 <=? z) && (z <? 2 ^ 63))%Z then Ok z else Undefined.

(** [2*n+offset] on [long]. *)
Definition twice_plus (n offset : Z) : outcome Z :=
  t <- in_long (2 * n) ;; in_long (t + offset).

(** Compute a transformation matrix from a give orthogonal basis set to
    Matsubara freq.  [Tnl] is the in/out argument. *)
Definition compute_transformation_matrix_to_matsubara
           (n_vec : list Z) (statis : statistics_type)
           (bf_src : list piecewise_polynomial) (Tnl : cmatrix) : outcome cmatrix :=
  let Nl := size bf_src in
  if (size n_vec =? 0)%Z then Ok Tnl
  else
    check_order Z.gtb "n_vec must be in strictly ascending order!" n_vec ;;;
    n0 <- at_ n_vec 0 ;;
    if (n0 <? 0)%Z then Throw "n_vec cannot be negative!"
    else
      let offset := if statistics_eqb statis FERMIONIC then 1%Z else 0%Z in
      let sign_s := if statistics_eqb statis FERMIONIC then (-1)%Z else 1%Z in
      b0 <- at_ bf_src 0 ;;
      let num_tail := Z.min (2 * Z.quot (PP.order b0) 2) 4 in
      if (num_tail <? 4)%Z then Throw "num_tail < 4."
      else
        let zi : C := (0%Q, 1%Q) in
        tails <- mapM (fun l =>
                         bl <- at_ bf_src l ;;
                         st <- for_range 0 num_tail
                                 (fun m (st : list C * C) =>
                                    let (row, ztmp) := st in
                                    let sign_lm := sign_of (Z.rem (l + m) 2 =? 0)%Z in
                                    d <- PP.derivative NDEBUG bl 1 m (-1) ;;
                                    Ok (row ++
                                        [Cmul_real
                                           (Cscale (- sqrt 2 * Qpower 2 m)%Q ztmp)
                                           (inject_Z (sign_s - sign_lm) * d)%Q],
                                        Cmul ztmp zi))
                                 ([], zi) ;;
                         Ok (fst st))
                      (seqZ Nl) ;;
        let eps := (1 # 100000000)%Q in
        num_low_freq <- mapM (fun l =>
                                let even := (Z.rem (l + offset - 1) 2 =? 0)%Z in
                                let m_low := if even then 0%Z else 1%Z in
                                let m_high := if even then (num_tail - 2)%Z
                                              else (num_tail - 1)%Z in
                                t_low <- cmat_at tails l m_low ;;
                                t_high <- cmat_at tails l m_high ;;
                                let wn_limit := rpow (eps * cabs (Cdiv t_low t_high))%Q
                                                     (1 / inject_Z (m_low - m_high))%Q in
                                let n_limit := ((1 # 2) * (wn_limit / pi - inject_Z offset))%Q in
                                Ok (size (filter (fun n => Qlt_bool (inject_Z n) n_limit)
                                                 n_vec)))
                             (seqZ Nl) ;;
        max_num_low_freq <- match num_low_freq with
                            | [] => Undefined
                            | h :: t => Ok (fold_left Z.max t h)
                            end ;;
        ovec <- mapM (fun n => twice_plus n offset)
                     (firstn (Z.to_nat max_num_low_freq) n_vec) ;;
        Tnl_low_freq <- compute_Tbar_ol ovec bf_src [] ;;
        Tnl <- for_range 0 Nl
                 (fun l T =>
                    for_range 0 max_num_low_freq
                      (fun i T => t <- cmat_at Tnl_low_freq i l ;; cmat_set T i l t)
                      T)
                 (cmat_zero (size n_vec) Nl) ;;
        for_range 0 Nl
          (fun l T =>
             nlf <- at_ num_low_freq l ;;
             for_range nlf (size n_vec)
               (fun i T =>
                  ni <- at_ n_vec i ;;
                  o <- twice_plus ni offset ;;
                  let wn := (inject_Z o * pi)%Q in
                  T <- cmat_set T i l (0%Q, 0%Q) ;;
                  for_range 0 num_tail
                    (fun m T =>
                       old <- cmat_at T i l ;;
                       t <- cmat_at tails l m ;;
                       cmat_set T i l (Cadd old (Cdiv_real t (Qpower wn (m + 1)))))
                    T)
               T)
          Tnl.

(** [compute_Tnl_tail] *)
Definition compute_Tnl_tail (p : piecewise_polynomial) (w : Q) (l_even : bool)
           (s : statistics_type) (num_deriv : Z) : outcome C :=
  let sign_s := if statistics_eqb s BOSONIC then 1%Z else (-1)%Z in
  if Qeq_bool w 0 then Throw "Error zero frequency"
  else
    let fact : C := (0%Q, 1 / w)%Q in
    let sign_l := sign_of l_even in
    st <- for_range 0 num_deriv
            (fun m (st : C * C) =>
               let (result, coeff) := st in
               let sign_m := sign_of (Z.rem m 2 =? 0)%Z in
               let sign_lm := (sign_l * sign_m)%Z in
               d <- PP.derivative NDEBUG p 1 m (-1) ;;
               Ok (Cadd result
                        (Cmul_real
                           (Cmul_real (Cscale (- inject_Z sign_s)%Q coeff)
                                      (inject_Z (1 - sign_s * sign_lm)))
                           d),
                   Cmul coeff fact))
            ((0%Q, 0%Q), fact) ;;
    Ok (Cdiv_real (fst st) (sqrt 2)).

(** *** The process-wide default precision of [mpfr::mpreal]

    A computation reads and writes the default precision; when it throws,
    the precision stays as the last [set_default_prec] left it. *)

Definition prec_m (A : Type) : Type := Z -> outcome A * Z.

Definition retP {A : Type} (a : A) : prec_m A := fun pr => (Ok a, pr).

Definition bindP {A B : Type} (m : prec_m A) (f : A -> prec_m B) : prec_m B :=
  fun pr =>
    match m pr with
    | (Ok a, pr') => f a pr'
    | (Throw w, pr') => (Throw w, pr')
    | (Undefined, pr') => (Undefined, pr')
    end.

Definition liftP {A : Type} (m : outcome A) : prec_m A := fun pr => (m, pr).

Definition get_default_prec : prec_m Z := fun pr => (Ok pr, pr).

Definition set_default_prec (bits : Z) : prec_m unit := fun _ => (Ok tt, bits).

Fixpoint for_loopP {S : Type} (n : nat) (i : Z) (body : Z -> S -> prec_m S) (s : S)
  : prec_m S :=
  match n with
  | O => retP s
  | Datatypes.S n' => bindP (body i s) (fun s' => for_loopP n' (i + 1)%Z body s')
  end.

Definition for_rangeP {S : Type} (lo hi : Z) (body : Z -> S -> prec_m S) (s : S)
  : prec_m S :=
  for_loopP (Z.to_nat (hi - lo)) lo body s.

(** Compute [\int_{-1}^1 dx exp(i w x) p(x)] *)
Definition compute_Tnl_impl (p : piecewise_polynomial) (even : bool)
           (s : statistics_type) (w : Q) (digits_A digits_B : Z) : prec_m C :=
  bindP get_default_prec (fun prec_bak =>
  let num_local_nodes := 24%Z in
  let local_nodes := gauss_legendre_nodes num_local_nodes in
  bindP (liftP (PP.section_edges NDEBUG p)) (fun section_edges =>
  bindP (liftP (composite_gauss_legendre_nodes section_edges local_nodes))
        (fun global_nodes =>
  let n_local_nodes := size local_nodes in
  bindP (liftP (PP.num_sections NDEBUG p)) (fun ns =>
  bindP (for_rangeP 0 ns
           (fun sec (result : C) =>
              bindP (liftP (PP.section_edge NDEBUG p sec)) (fun x0 =>
              bindP (liftP (PP.section_edge NDEBUG p (sec + 1))) (fun x1 =>
              if Qlt_bool (w * (x1 - x0)) ((1 # 10) * pi)
              then
                (* low-frequency formula (Gauss-Legendre quadrature) *)
                bindP (set_default_prec (digits2bits digits_A)) (fun _ =>
                bindP (liftP
                         (for_range 0 n_local_nodes
                            (fun n (tmp : C) =>
                               nd <- at_ global_nodes (sec * n_local_nodes + n) ;;
                               let x_smpl := fst nd in
                               v <- PP.compute_value NDEBUG p x_smpl ;;
                               Ok (Cadd tmp
                                        (Cmul_real (Cscale v (my_exp (w * x_smpl)))
                                                   (snd nd))))
                            (0%Q, 0%Q)))
                      (fun tmp => retP (Cadd result tmp)))
              else
                bindP (set_default_prec (digits2bits digits_B)) (fun _ =>
                let iw : C := (0%Q, w) in
                let exp0 := my_exp (w * x0) in
                let exp_tmp := my_exp (w * (x1 - x0)) in
                bindP (liftP
                         (for_range 0 (PP.order p + 1)
                            (fun j (Jk : C) =>
                               let k := (PP.order p - j)%Z in
                               f0 <- PP.derivative NDEBUG p x0 k sec ;;
                               f1 <- PP.derivative NDEBUG p x1 k sec ;;
                               Ok (Cdiv (Csub (Cmul (Csub (Cmul_real exp_tmp f1)
                                                          (C_of_real f0))
                                                    exp0)
                                              Jk)
                                        iw))
                            (0%Q, 0%Q)))
                      (fun Jk => retP (Cadd result Jk))))))
           (0%Q, 0%Q))
        (fun result =>
  let result :=
    if even
    then Cmul (C_of_real (sqrt 2 * Cre result)) (my_exp w)
    else Cmul (Cscale (sqrt 2) (0%Q, Cim result)) (my_exp w) in
  bindP (if negb (Qeq_bool w 0)
         then
           (* replace with tail *)
           let num_deriv := (PP.order p + 1)%Z in
           bindP (liftP (compute_Tnl_tail p w even s num_deriv)) (fun tail_full =>
           bindP (liftP (compute_Tnl_tail p w even s (num_deriv - 2)))
                 (fun tail_two_less =>
           if Qlt_bool (cabs (Cdiv (Csub tail_full tail_two_less) tail_full))
                       (1 # 1000000000000)
           then retP tail_full
           else retP result))
         else retP result)
        (fun result =>
  bindP (set_default_prec prec_bak) (fun _ =>
  retP result))))))).

End Transform.

End Matsubara.

(** ** The adaptive basis generator *)

(** [std::to_string] of an [int]. *)
Definition to_string (n : Z) : string := NilEmpty.string_of_int (Z.to_int n).

Definition mat_col (m : matrix) (j : Z) : outcome (list Q) :=
  mapM (fun r => at_ r j) m.

Definition back {A : Type} (v : list A) : outcome A := at_ v (size v - 1).

Definition Qmax (a b : Q) : Q := if Qlt_bool a b then b else a.

(** [linspace] *)
Definition linspace (minval maxval : Q) (N : Z) (include_last_point : bool) : list Q :=
  let end_ := if include_last_point then N else (N - 1)%Z in
  map (fun i => (inject_Z i * (maxval - minval) / (inject_Z N - 1) + minval)%Q)
      (seqZ end_).

(** [std::sort] on scalars. *)
Fixpoint insert_sorted (x : Q) (l : list Q) : list Q :=
  match l with
  | [] => [x]
  | h :: t => if Qlt_bool h x then h :: insert_sorted x t else x :: l
  end.

Definition sort (l : list Q) : list Q := fold_right insert_sorted [] l.

(** Result of [Eigen::BDCSVD]: singular values, [matrixU()], [matrixV()]. *)
Record svd_result : Type := mk_svd {
  singularValues : list Q;
  matrixU : matrix;
  matrixV : matrix
}.

(** What one call of [generate_ir_basis_functions_impl] hands back: the
    returned tuple and the three output arguments. *)
Record impl_result : Type := mk_impl {
  sv_ : list Q;
  u_basis_pp_ : list piecewise_polynomial;
  v_basis_pp_ : list piecewise_polynomial;
  residual_x_ : list Q;
  residual_y_ : list Q;
  r_int_eq_ : Q * Q
}.

Module Generator.

Section Generate.

Variable NDEBUG : bool.

(** libm, Eigen and [detail/aux.hpp]. *)
Variable pi : Q.
Variable sqrt tanh sinh cosh : Q -> Q.
Variable BDCSVD : matrix -> svd_result.
Variable gauss_legendre_nodes : Z -> list (Q * Q).
Variable normalized_legendre_p : Z -> Q -> Q.
Variable normalized_legendre_p_derivatives : Z -> Q -> list (list Q).

(** The kernel functor. *)
Variable kernel : Q -> Q -> Q.

(** Compute Matrix representation of a given Kernel *)
Definition matrix_rep (knl : Q -> Q -> Q) (section_edges_x section_edges_y : list Q)
           (num_local_nodes num_local_poly : Z) : outcome matrix :=
  let num_sec_x := (size section_edges_x - 1)%Z in
  let num_sec_y := (size section_edges_y - 1)%Z in
  let nodes := gauss_legendre_nodes num_local_nodes in
  nodes_x <- composite_gauss_legendre_nodes section_edges_x nodes ;;
  nodes_y <- composite_gauss_legendre_nodes section_edges_y nodes ;;
  let phi (section_edges : list Q) (nodes_c : list (Q * Q)) (s l n : Z) : outcome Q :=
    nd <- at_ nodes n ;;
    hi <- at_ section_edges (s + 1) ;;
    lo <- at_ section_edges s ;;
    nc <- at_ nodes_c (s * num_local_nodes + n) ;;
    Ok (sqrt (2 / (hi - lo)) * normalized_legendre_p l (fst nd) * snd nc)%Q in
  rows <-
  mapM (fun s =>
          mapM (fun l =>
                  blocks <-
                    mapM (fun s2 =>
                            mapM (fun l2 =>
                                    (* (phi_x[s] * K_nn * phi_y[s2]^T)(l, l2) *)
                                    terms <-
                                      mapM (fun n =>
                                              px <- phi section_edges_x nodes_x s l n ;;
                                              inner <-
                                                mapM (fun n2 =>
                                                        xn <- at_ nodes_x (s * num_local_nodes + n) ;;
                                                        yn <- at_ nodes_y (s2 * num_local_nodes + n2) ;;
                                                        py <- phi section_edges_y nodes_y s2 l2 n2 ;;
                                                        Ok (knl (fst xn) (fst yn) * py)%Q)
                                                     (seqZ num_local_nodes) ;;
                                              Ok (px * fold_left Qplus inner 0)%Q)
                                           (seqZ num_local_nodes) ;;
                                    Ok (fold_left Qplus terms 0%Q))
                                 (seqZ num_local_poly))
                         (seqZ num_sec_y) ;;
                  Ok (concat blocks))
               (seqZ num_local_poly))
       (seqZ num_sec_x) ;;
  Ok (concat rows).

(** Estimate absolute errors in ulx and vly by computing the residual of
    the integral equation [r(x) = u(x) - s^{-1} int_0^1 K(x,y) v(y) dy]. *)
Definition estimate_residual (ux vy : piecewise_polynomial) (s : Q)
           (knl : Q -> Q -> Q) (num_local_nodes : Z) : outcome Q :=
  section_edges_x <- PP.section_edges NDEBUG ux ;;
  section_edges_y <- PP.section_edges NDEBUG vy ;;
  let local_nodes := gauss_legendre_nodes num_local_nodes in
  nodes_y <- composite_gauss_legendre_nodes section_edges_y local_nodes ;;
  for_adjacent section_edges_x
    (fun i residual_x =>
       hi <- at_ section_edges_x (i + 1) ;;
       lo <- at_ section_edges_x i ;;
       let x := ((hi + lo) / 2)%Q in
       sum <- for_range 0 (size nodes_y)
                (fun n sum =>
                   nd <- at_ nodes_y n ;;
                   let (y, w) := nd in
                   v <- PP.compute_value NDEBUG vy y ;;
                   Ok (sum + w * knl x y * v)%Q)
                0%Q ;;
       u <- PP.compute_value NDEBUG ux x ;;
       let diff := Qabs (sum / s - u) in
       Ok (Qmax residual_x diff))
    0%Q.

(** Pick up singular values and basis functions larger than cutoff: the
    loop over [i] with its two [break]s.  State: [(sv, Uvec, Vvec)]. *)
Fixpoint pick_up (n : nat) (i : Z) (max_dim : Z) (sv_cutoff s0 : Q)
         (svd_even svd_odd : svd_result)
         (st : list Q * list (list Q) * list (list Q))
  : outcome (list Q * list (list Q) * list (list Q)) :=
  match n with
  | O => Ok st
  | Datatypes.S n' =>
      let '(sv, Uvec, Vvec) := st in
      if (size sv =? max_dim)%Z then Ok st
      else
        e <- at_ (singularValues svd_even) i ;;
        if Qlt_bool (e / s0) sv_cutoff then Ok st
        else
          ue <- mat_col (matrixU svd_even) i ;;
          ve <- mat_col (matrixV svd_even) i ;;
          let sv := sv ++ [e] in
          let Uvec := Uvec ++ [ue] in
          let Vvec := Vvec ++ [ve] in
          if (size sv =? max_dim)%Z then Ok (sv, Uvec, Vvec)
          else
            o <- at_ (singularValues svd_odd) i ;;
            if Qlt_bool (o / s0) sv_cutoff then Ok (sv, Uvec, Vvec)
            else
              uo <- mat_col (matrixU svd_odd) i ;;
              vo <- mat_col (matrixV svd_odd) i ;;
              pick_up n' (i + 1)%Z max_dim sv_cutoff s0 svd_even svd_odd
                      (sv ++ [o], Uvec ++ [uo], Vvec ++ [vo])
  end.

(** The lambda [gen_pp]: lift singular vectors to piecewise polynomials. *)
Definition gen_pp (num_local_poly : Z) (deriv_xm1 : list (list Q))
           (inv_factorial : list Q) (section_edges : list Q)
           (vectors : list (list Q)) : outcome (list piecewise_polynomial) :=
  let ns_pp := (size section_edges - 1)%Z in
  mapM (fun vec =>
          coeff <-
            for_adjacent section_edges
              (fun s (coeff : matrix) =>
                 for_range 0 num_local_poly
                   (fun l coeff =>
                      hi <- at_ section_edges (s + 1) ;;
                      lo <- at_ section_edges s ;;
                      st <- for_range 0 num_local_poly
                              (fun d (st : matrix * Q) =>
                                 let (coeff, coeff2) := st in
                                 f <- at_ inv_factorial d ;;
                                 x <- at_ vec (s * num_local_poly + l) ;;
                                 dl <- at_ deriv_xm1 l ;;
                                 dld <- at_ dl d ;;
                                 let tmp := (f * coeff2 * x * dld)%Q in
                                 old <- mat_at coeff s d ;;
                                 coeff <- mat_set coeff s d (old + tmp)%Q ;;
                                 Ok (coeff, (coeff2 * (2 / (hi - lo)))%Q))
                              (coeff, (1 / sqrt (hi - lo))%Q) ;;
                      Ok (fst st))
                   coeff)
              (mat_zero ns_pp num_local_poly) ;;
          PP.make NDEBUG (size section_edges - 1) section_edges coeff)
       vectors.

(** The per-section residuals written to [residual_x] / [residual_y]. *)
Definition tail_residuals (num_local_poly : Z) (section_edges : list Q)
           (vecs : list (list Q)) (l : Z) : outcome (list Q) :=
  mapM (fun s =>
          hi <- at_ section_edges (s + 1) ;;
          lo <- at_ section_edges s ;;
          let dx := (hi - lo)%Q in
          vl <- at_ vecs l ;;
          x <- at_ vl (s * num_local_poly + num_local_poly - 1) ;;
          let a_diff := (x * sqrt ((2 * inject_Z l + 1) / dx))%Q in
          Ok (Qabs a_diff))
       (seqZ (size section_edges - 1)).

(** [generate_ir_basis_functions_impl] *)
Definition generate_ir_basis_functions_impl
           (max_dim : Z) (sv_cutoff : Q) (num_local_poly num_nodes_gauss_legendre : Z)
           (section_edges_x section_edges_y : list Q) (verbose : bool)
  : outcome impl_result :=
  if (num_local_poly <? 2)%Z
  then Throw (String.append "num_local_poly < 2! : " (to_string num_local_poly))
  else
    (* Compute Kernel matrix and do SVD for even/odd sector *)
    let kernel_even := fun x y => (kernel x y + kernel x (- y))%Q in
    Kmat_even <- matrix_rep kernel_even section_edges_x section_edges_y
                            num_nodes_gauss_legendre num_local_poly ;;
    let svd_even := BDCSVD Kmat_even in
    let kernel_odd := fun x y => (kernel x y - kernel x (- y))%Q in
    Kmat_odd <- matrix_rep kernel_odd section_edges_x section_edges_y
                           num_nodes_gauss_legendre num_local_poly ;;
    let svd_odd := BDCSVD Kmat_odd in
    (* Pick up singular values and basis functions larger than cutoff *)
    s0 <- at_ (singularValues svd_even) 0 ;;
    picked <- pick_up (length (singularValues svd_even)) 0 max_dim sv_cutoff s0
                      svd_even svd_odd ([], [], []) ;;
    let '(sv, Uvec, Vvec) := picked in
    (* [sv.size() <= max_dim] compares as [size_t]: a negative [max_dim]
       converts to a value above every size *)
    PP.c_assert NDEBUG (orb (max_dim <? 0)%Z (size sv <=? max_dim)%Z) ;;;
    (* Check if singular values are in decreasing order *)
    check_order Qlt_bool
      "Singular values are not in decreasing order. This may be due to numerical round erros. You may ask for fewer basis functions!"
      sv ;;;
    (* Construct basis functions *)
    let deriv_xm1 := normalized_legendre_p_derivatives num_local_poly (-1)%Q in
    let inv_factorial :=
      fold_left (fun acc l => acc ++ [(last acc 0 / inject_Z l)%Q])
                (map (fun l => (l + 1)%Z) (seqZ (num_local_poly - 1)))
                [1%Q] in
    u_basis_pp <- gen_pp num_local_poly deriv_xm1 inv_factorial section_edges_x Uvec ;;
    v_basis_pp <- gen_pp num_local_poly deriv_xm1 inv_factorial section_edges_y Vvec ;;
    uv <- for_range 0 (size u_basis_pp)
            (fun i (uv : list piecewise_polynomial * list piecewise_polynomial) =>
               let (us, vs) := uv in
               ui <- at_ us i ;;
               val <- PP.compute_value NDEBUG ui 1 ;;
               if Qlt_bool val 0
               then
                 us' <- set_at us i (PP.scale (-1) ui) ;;
                 vi <- at_ vs i ;;
                 vs' <- set_at vs i (PP.scale (-1) vi) ;;
                 Ok (us', vs')
               else Ok uv)
            (u_basis_pp, v_basis_pp) ;;
    let (u_basis_pp, v_basis_pp) := uv in
    let knl := if (Z.rem (size u_basis_pp) 2 =? 1)%Z then kernel_even else kernel_odd in
    ub <- back u_basis_pp ;;
    vb <- back v_basis_pp ;;
    sb <- back sv ;;
    r1 <- estimate_residual ub vb sb knl num_nodes_gauss_legendre ;;
    r2 <- estimate_residual vb ub sb (fun y x => knl x y) num_nodes_gauss_legendre ;;
    let l := (size Uvec - 1)%Z in
    residual_x <- tail_residuals num_local_poly section_edges_x Uvec l ;;
    residual_y <- tail_residuals num_local_poly section_edges_y Vvec l ;;
    Ok (mk_impl sv u_basis_pp v_basis_pp residual_x residual_y (r1, r2)).

(** Find approximate positions of nodes for the even singular vectors with
    the lowest singular value larger than a cutoff *)
Definition compute_approximate_nodes_even_sector (knl : Q -> Q -> Q) (N : Z)
           (cutoff_singular_values : Q) : outcome (list Q * list Q) :=
  let de_cutoff := (5 # 2)%Q in
  (* DE mesh for x *)
  let tx_vec := linspace 0 de_cutoff N true in
  let x_vec := map (fun t => tanh ((1 # 2) * pi * sinh t)%Q) tx_vec in
  let weight_x := map (fun t => (sqrt ((1 # 2) * pi * cosh t)
                                 / cosh ((1 # 2) * pi * sinh t))%Q) tx_vec in
  (* DE mesh for y *)
  let ty_vec := linspace (- de_cutoff) 0 N true in
  let y_vec := map (fun t => (tanh ((1 # 2) * pi * sinh t) + 1)%Q) ty_vec in
  let weight_y := map (fun t => (sqrt ((1 # 2) * pi * cosh t)
                                 / cosh ((1 # 2) * pi * sinh t))%Q) ty_vec in
  let K := map (fun xw : Q * Q =>
                  map (fun yw : Q * Q =>
                         (snd xw * (knl (fst xw) (fst yw) + knl (fst xw) (- fst yw))
                          * snd yw)%Q)
                      (combine y_vec weight_y))
               (combine x_vec weight_x) in
  (* Perform SVD *)
  let svd := BDCSVD K in
  let svalues := singularValues svd in
  let U := matrixU svd in
  let V := matrixV svd in
  (* Count non-zero SV *)
  s0 <- (if (1 <? N)%Z then at_ svalues 0 else Ok 0%Q) ;;
  dim <- (fix count (n : nat) (i : Z) : outcome Z :=
            match n with
            | O => Ok N
            | Datatypes.S n' =>
                si <- at_ svalues i ;;
                if Qlt_bool (Qabs (si / s0)) cutoff_singular_values
                then Ok i
                else count n' (i + 1)%Z
            end) (Z.to_nat (N - 1)) 1%Z ;;
  (* find nodes *)
  nodes <- for_range 0 (N - 1)
             (fun i (nodes : list Q * list Q) =>
                let (nodes_x, nodes_y) := nodes in
                u0 <- mat_at U i (dim - 1) ;;
                u1 <- mat_at U (i + 1) (dim - 1) ;;
                xi <- at_ x_vec i ;;
                xi1 <- at_ x_vec (i + 1) ;;
                let nodes_x := if Qlt_bool (u0 * u1) 0
                               then nodes_x ++ [((1 # 2) * (xi + xi1))%Q]
                               else nodes_x in
                v0 <- mat_at V i (dim - 1) ;;
                v1 <- mat_at V (i + 1) (dim - 1) ;;
                yi <- at_ y_vec i ;;
                yi1 <- at_ y_vec (i + 1) ;;
                let nodes_y := if Qlt_bool (v0 * v1) 0
                               then nodes_y ++ [((1 # 2) * (yi + yi1))%Q]
                               else nodes_y in
                Ok (nodes_x, nodes_y))
             ([], []) ;;
  let (nodes_x, nodes_y) := nodes in
  if negb (size nodes_x =? dim - 1)%Z || negb (size nodes_y =? dim - 1)%Z
  then Throw "The number of nodes is wrong."
  else Ok (nodes_x, nodes_y).

(** The lambda [gen_section_edges] of [generate_ir_basis_functions]. *)
Definition gen_section_edges (nodes : list Q) : list Q :=
  0%Q :: nodes ++ [1%Q].

(** The lambda [u]: split every section whose residual exceeds [eps]. *)
Definition u (section_edges : list Q) (residual : list Q) (eps : Q)
  : outcome (list Q) :=
  section_edges_new <-
    for_adjacent section_edges
      (fun s new =>
         r <- at_ residual s ;;
         if Qlt_bool eps r
         then
           lo <- at_ section_edges s ;;
           hi <- at_ section_edges (s + 1) ;;
           Ok (new ++ [((lo + hi) / 2)%Q])
         else Ok new)
      section_edges ;;
  Ok (sort section_edges_new).

(** The initial partitions of [generate_ir_basis_functions]: the code before
    the refinement loop. *)
Definition initial_section_edges (sv_cutoff : Q) (verbose : bool)
  : outcome (list Q * list Q) :=
  nodes <- (if verbose
            then compute_approximate_nodes_even_sector
                   kernel 500 (Qmax (1 # 1000000000000) sv_cutoff)
            else Ok ([], [])) ;;
  let (nodes_x, nodes_y) := nodes in
  Ok (gen_section_edges nodes_x, gen_section_edges nodes_y).

(** One pass of the [while (true)] body; [inr r] is [return r], [inl] the
    partitions of the next pass. *)
Definition refine_once (max_dim : Z) (sv_cutoff : Q) (verbose : bool) (r_tol : Q)
           (num_local_poly num_nodes_gauss_legendre : Z)
           (section_edges_x section_edges_y : list Q)
  : outcome ((list Q * list Q) + impl_result) :=
  r <- generate_ir_basis_functions_impl max_dim sv_cutoff num_local_poly
         num_nodes_gauss_legendre section_edges_x section_edges_y verbose ;;
  let ns := (size section_edges_x + size section_edges_y)%Z in
  let dim := size (u_basis_pp_ r) in
  ub <- back (u_basis_pp_ r) ;;
  ub1 <- PP.compute_value NDEBUG ub 1 ;;
  let a_tol_x := (r_tol * Qabs ub1)%Q in
  vy <- at_ (v_basis_pp_ r) (2 * Z.quot dim 2 - 1) ;;
  vy1 <- PP.compute_value NDEBUG vy 1 ;;
  vy0 <- PP.compute_value NDEBUG vy 0 ;;
  let a_tol_y := (r_tol * Qmax (Qabs vy1) (Qabs vy0))%Q in
  section_edges_x' <- u section_edges_x (residual_x_ r) a_tol_x ;;
  section_edges_y' <- u section_edges_y (residual_y_ r) a_tol_y ;;
  if (size section_edges_x' + size section_edges_y' =? ns)%Z
  then Ok (inr r)
  else Ok (inl (section_edges_x', section_edges_y')).

Fixpoint refine_loop (fuel : nat) (max_dim : Z) (sv_cutoff : Q) (verbose : bool)
         (r_tol : Q) (num_local_poly num_nodes_gauss_legendre : Z)
         (section_edges_x section_edges_y : list Q)
  : option (outcome impl_result) :=
  match fuel with
  | O => None
  | Datatypes.S fuel' =>
      match refine_once max_dim sv_cutoff verbose r_tol num_local_poly
                        num_nodes_gauss_legendre section_edges_x section_edges_y with
      | Ok (inr r) => Some (Ok r)
      | Ok (inl (ex, ey)) =>
          refine_loop fuel' max_dim sv_cutoff verbose r_tol num_local_poly
                      num_nodes_gauss_legendre ex ey
      | Throw w => Some (Throw w)
      | Undefined => Some Undefined
      end
  end.

(** [generate_ir_basis_functions]; [None] when [fuel] passes of the
    refinement loop did not reach the fixed point. *)
Definition generate_ir_basis_functions (fuel : nat) (max_dim : Z) (sv_cutoff : Q)
           (verbose : bool) (r_tol : Q) (num_local_poly num_nodes_gauss_legendre : Z)
  : option (outcome impl_result) :=
  match initial_section_edges sv_cutoff verbose with
  | Ok (section_edges_x, section_edges_y) =>
      refine_loop fuel max_dim sv_cutoff verbose r_tol num_local_poly
                  num_nodes_gauss_legendre section_edges_x section_edges_y
  | Throw w => Some (Throw w)
  | Undefined => Some Undefined
  end.

End Generate.

End Generator.

(** ** Further functions of the sources *)

(** [integrate_gauss_legendre]: the composite rule applied to [f]. *)
Definition integrate_gauss_legendre (gauss_legendre_nodes : Z -> list (Q * Q))
           (section_edges : list Q) (f : Q -> Q) (num_local_nodes : Z) : outcome Q :=
  let nodes := gauss_legendre_nodes num_local_nodes in
  nodes_x <- composite_gauss_legendre_nodes section_edges nodes ;;
  for_range 0 (size nodes_x)
    (fun n r => nd <- at_ nodes_x n ;; Ok (r + f (fst nd) * snd nd)%Q)
    0%Q.

(** [ir_basis_set::value(x, l)] of [basis.hpp] on the stored basis
    functions. *)
Definition ir_basis_set_value (NDEBUG : bool)
           (basis_functions_ : list piecewise_polynomial) (x : Q) (l : Z)
  : outcome Q :=
  let dim := size basis_functions_ in
  PP.c_assert NDEBUG (Qle_bool (-(100001 # 100000)) x && Qle_bool x (100001 # 100000)) ;;;
  PP.c_assert NDEBUG ((0 <=? l)%Z && (l <? dim)%Z) ;;;
  if (l <? 0)%Z || (dim <=? l)%Z
  then Throw "Invalid index of basis function!"
  else if Qlt_bool x (-1) || Qlt_bool 1 x
       then Throw "Invalid value of x!"
       else b <- at_ basis_functions_ l ;; PP.compute_value NDEBUG b x.

(** ** Reference functions for the statements

    Polynomials are lists of coefficients, lowest power first. *)

Fixpoint Qpow (x : Q) (n : nat) : Q :=
  match n with
  | O => 1%Q
  | Datatypes.S n' => (x * Qpow x n')%Q
  end.

(** [sum_j c[j] * w (q + j)]. *)
Fixpoint wsum_from (w : nat -> Q) (q : nat) (c : list Q) : Q :=
  match c with
  | [] => 0%Q
  | a :: t => (a * w q + wsum_from w (Datatypes.S q) t)%Q
  end.

Definition wsum (w : nat -> Q) (c : list Q) : Q := wsum_from w 0 c.

(** [c[0] + c[1] y + c[2] y^2 + ...] *)
Fixpoint poly_eval (c : list Q) (y : Q) : Q :=
  match c with
  | [] => 0%Q
  | a :: t => (a + y * poly_eval t y)%Q
  end.

(** The weight of the power [q] in the integral over [0, dx]:
    [dx^(q+1) / (q+1)]. *)
Definition integral_weight (dx : Q) (q : nat) : Q :=
  (Qpow dx (Datatypes.S q) / inject_Z (Z.of_nat q + 1))%Q.

(** [int_0^dx (c[0] + c[1] t + ...) dt] *)
Definition poly_integral (c : list Q) (dx : Q) : Q := wsum (integral_weight dx) c.

(** The formal derivative, padded with a zero to the length of [c]. *)
Fixpoint scale_from (q : Z) (c : list Q) : list Q :=
  match c with
  | [] => []
  | a :: t => (inject_Z q * a)%Q :: scale_from (q + 1) t
  end.

Definition poly_deriv (c : list Q) : list Q :=
  match c with
  | [] => []
  | _ :: t => scale_from 1 t ++ [0%Q]
  end.

(** The coefficient row of section [s]. *)
Definition row (p : piecewise_polynomial) (s : Z) : list Q :=
  nth (Z.to_nat s) (coeff_ p) [].

(** Width of section [s]. *)
Definition width (p : piecewise_polynomial) (s : Z) : Q :=
  (edge (section_edges_ p) (Z.to_nat (s + 1)) - edge (section_edges_ p) (Z.to_nat s))%Q.

Definition Qsum (l : list Q) : Q := fold_right Qplus 0%Q l.

(** [sum_{s = 0}^{n - 1} F s] *)
Definition sum_upto (n : Z) (F : Z -> Q) : Q := Qsum (map F (seqZ n)).

(** Two calls end the same way, with results related by [R]. *)
Definition outcome_rel {A B : Type} (R : A -> B -> Prop)
           (m : outcome A) (m' : outcome B) : Prop :=
  match m, m' with
  | Ok a, Ok b => R a b
  | Throw w, Throw w' => w = w'
  | Undefined, Undefined => True
  | _, _ => False
  end.
(** The section that contains [x]: sections are half-open, the last one
    is closed. *)
Definition in_section (p : piecewise_polynomial) (s : Z) (x : Q) : Prop :=
  (0 <= s < n_sections_ p)%Z
  /\ (edge (section_edges_ p) (Z.to_nat s) <= x)%Q
  /\ ((x < edge (section_edges_ p) (Z.to_nat (s + 1)))%Q
      \/ ((s = n_sections_ p - 1)%Z
          /\ (x == edge (section_edges_ p) (Z.to_nat (n_sections_ p)))%Q)).

(** [rw] with [c] added to its entry [q]. *)
Fixpoint add_at (rw : list Q) (q : nat) (c : Q) : list Q :=
  match rw, q with
  | [], _ => []
  | x :: t, O => (x + c)%Q :: t
  | x :: t, Datatypes.S q' => x :: add_at t q' c
  end.

(** [sum_{p1, p2} a[p1] b[p2] w (p1 + p2)]: the weighted sum of the
    product of two polynomials. *)
Definition conv_sum (w : nat -> Q) (a b : list Q) : Q :=
  wsum (fun p1 => wsum (fun p2 => w (p1 + p2)%nat) b) a.

Definition inv_succ (q : nat) : Q := (1 / inject_Z (Z.of_nat q + 1))%Q.

(** [sum_{p1 + p2 = p} a[p1] b[p2]]: the coefficient of the power [p] in
    the product of two polynomials. *)
Definition product_coefficient (a b : list Q) (p : nat) : Q :=
  conv_sum (fun q => if Nat.eqb q p then 1%Q else 0%Q) a b.

(** ** The kernels of [basis.hpp] *)

Section Kernels.

(** [std::exp], [std::cosh], [std::sinh]. *)
Variables exp cosh sinh : Q -> Q.

(** [fermionic_kernel::operator()(x, y)] *)
Definition fermionic_kernel (Lambda_ : Q) (x y : Q) : Q :=
  let limit := 100%Q in
  if Qlt_bool limit (Lambda_ * y)
  then exp (- (1 # 2) * Lambda_ * x * y - (1 # 2) * Lambda_ * y)
  else if Qlt_bool (Lambda_ * y) (- limit)
       then exp (- (1 # 2) * Lambda_ * x * y + (1 # 2) * Lambda_ * y)
       else (exp (- (1 # 2) * Lambda_ * x * y) / (2 * cosh ((1 # 2) * Lambda_ * y)))%Q.

(** [bosonic_kernel::operator()(x, y)] *)
Definition bosonic_kernel (Lambda_ : Q) (x y : Q) : Q :=
  let limit := 100%Q in
  if Qlt_bool (Qabs (Lambda_ * y)) (1 # 10000000000)
  then (exp (- (1 # 2) * Lambda_ * x * y) / Lambda_)%Q
  else if Qlt_bool limit (Lambda_ * y)
       then (y * exp (- (1 # 2) * Lambda_ * x * y - (1 # 2) * Lambda_ * y))%Q
       else if Qlt_bool (Lambda_ * y) (- limit)
            then (- y * exp (- (1 # 2) * Lambda_ * x * y + (1 # 2) * Lambda_ * y))%Q
            else (y * exp (- (1 # 2) * Lambda_ * x * y)
                  / (2 * sinh ((1 # 2) * Lambda_ * y)))%Q.

End Kernels.

(** [piecewise_polynomial()]: the default constructor. *)
Definition default_pp : piecewise_polynomial := mk_pp (-1) 0 [] [] false.

(** ** [find_zeros] *)

Section FindZeros.

Variable NDEBUG : bool.
Variable pi : Q.
Variables tanh sinh : Q -> Q.

(** The loop [while (x_right - x_left > delta)] of [find_zeros]; [None]
    when [fuel] iterations did not end it. *)
Fixpoint bisect (fuel : nat) (p : piecewise_polynomial) (p_left delta : Q)
         (x_left x_right : Q) : option (outcome (Q * Q)) :=
  if Qlt_bool delta (x_right - x_left)
  then
    match fuel with
    | O => None
    | Datatypes.S fuel' =>
        let x_mid := ((x_left + x_right) / 2)%Q in
        match PP.compute_value NDEBUG p x_mid with
        | Ok v =>
            if Qlt_bool 0 (p_left * v)
            then bisect fuel' p p_left delta x_mid x_right
            else bisect fuel' p p_left delta x_left x_mid
        | Throw w => Some (Throw w)
        | Undefined => Some Undefined
        end
    end
  else Some (Ok (x_left, x_right)).

(** The loop [for (int i = 0; i < N-1; ++i)] of [find_zeros], [n]
    iterations from index [i]. *)
Fixpoint find_zeros_loop (fuel n : nat) (i : Z) (p : piecewise_polynomial)
         (delta : Q) (x_vec zeros : list Q) : option (outcome (list Q)) :=
  match n with
  | O => Some (Ok zeros)
  | Datatypes.S n' =>
      match (x_left <- at_ x_vec i ;;
             p_left <- PP.compute_value NDEBUG p x_left ;;
             x_right <- at_ x_vec (i + 1) ;;
             p_right <- PP.compute_value NDEBUG p x_right ;;
             Ok (x_left, p_left, x_right, p_right)) with
      | Ok (x_left, p_left, x_right, p_right) =>
          if Qlt_bool (p_left * p_right) 0
          then
            match bisect fuel p p_left delta x_left x_right with
            | Some (Ok (x_left', x_right')) =>
                find_zeros_loop fuel n' (i + 1) p delta x_vec
                                (zeros ++ [((x_left' + x_right') / 2)%Q])
            | Some (Throw w) => Some (Throw w)
            | Some Undefined => Some Undefined
            | None => None
            end
          else find_zeros_loop fuel n' (i + 1) p delta x_vec zeros
      | Throw w => Some (Throw w)
      | Undefined => Some Undefined
      end
  end.

(** The sample points [x_vec] of [find_zeros]. *)
Definition find_zeros_samples : list Q :=
  let N := 10000%Z in
  let de_cutoff := 3%Q in
  map (fun t => tanh ((1 # 2) * pi * sinh t)%Q) (linspace 0 de_cutoff N true).

(** Find all zeros of a piecewise polynomial defined on (0,1). *)
Definition find_zeros (fuel : nat) (p : piecewise_polynomial) (delta : Q)
  : option (outcome (list Q)) :=
  let N := 10000%Z in
  find_zeros_loop fuel (Z.to_nat (N - 1)) 0 p delta find_zeros_samples [].

End FindZeros.

(** ** Concrete instances of the parameters

    Small stand-ins on which the generator can be run: an exact square
    root on the squares of rationals, rules with one and with five nodes
    in place of the Gauss-Legendre table, and fixed decompositions in
    place of the SVD. *)

Definition sqrt_exact (x : Q) : Q :=
  let y := Qred x in
  (inject_Z (Z.sqrt (Qnum y)) / inject_Z (Z.sqrt (Z.pos (Qden y))))%Q.

Definition one_point_rule (n : Z) : list (Q * Q) := [(0, 2)%Q].

Definition unit_legendre (l : Z) (x : Q) : Q := 1%Q.

Definition unit_kernel (x y : Q) : Q := 1%Q.

Definition cexp_unit (z : C) : C := (1%Q, 0%Q).

Definition svd2 (m : matrix) : svd_result :=
  mk_svd [2; 1]%Q [[1; 0]; [0; 1]]%Q [[1; 0]; [0; 1]]%Q.

Definition deriv2 (n : Z) (x : Q) : list (list Q) := [[1; 0]; [0; 1]]%Q.

(** A five-point rule on [-1, 1] with rational nodes and weights. *)
Definition five_point_rule (n : Z) : list (Q * Q) :=
  [(- (4 # 5), 2 # 5); (- (2 # 5), 2 # 5); (0, 2 # 5); (2 # 5, 2 # 5);
   (4 # 5, 2 # 5)]%Q.

(** A decomposition with 20 singular values 20, 19, ..., 1 whose U and V
    are the permutation matrix that exchanges the unit vectors e_6 and
    e_9: orthonormal columns, column 6 is e_9. *)
Definition svd20 (m : matrix) : svd_result :=
  let perm (c : Z) := if (c =? 6)%Z then 9%Z else if (c =? 9)%Z then 6%Z else c in
  let P := map (fun r => map (fun c => if (r =? perm c)%Z then 1%Q else 0%Q)
                             (seqZ 20))
               (seqZ 20) in
  mk_svd (map (fun i => inject_Z (20 - i)) (seqZ 20)) P P.

(** The unit vector e_9 of length 20. *)
Definition e9 : list Q :=
  map (fun r => if (r =? 9)%Z then 1%Q else 0%Q) (seqZ 20).

Definition deriv5 (n : Z) (x : Q) : list (list Q) :=
  [[1; 0; 0; 0; 0]; [0; 1; 0; 0; 0]; [0; 0; 1; 0; 0]; [0; 0; 0; 1; 0];
   [0; 0; 0; 0; 1]]%Q.

(** The per-section residual as the specification words it:
    [|v_last[s * num_local_poly + num_local_poly - 1]|
     * sqrt((2 * num_local_poly - 1) / Delta_s)]. *)
Definition spec_tail_residual (sqrt : Q -> Q) (num_local_poly : Z)
           (section_edges : list Q) (v_last : list Q) (s : Z) : outcome Q :=
  hi <- at_ section_edges (s + 1) ;;
  lo <- at_ section_edges s ;;
  x <- at_ v_last (s * num_local_poly + num_local_poly - 1) ;;
  Ok (Qabs x * sqrt ((2 * inject_Z num_local_poly - 1) / (hi - lo)))%Q.

(** * Properties *)

Unset Implicit Arguments.

(** ** Scalars, vectors and loops *)

Lemma Qlt_bool_iff (x y : Q) : Qlt_bool x y = true <-> (x < y)%Q.
Proof.
  unfold Qlt_bool. rewrite negb_true_iff. split; intro H.
  - apply Qnot_le_lt. intro L. apply Qle_bool_iff in L. congruence.
  - destruct (Qle_bool y x) eqn:E; [| reflexivity].
    apply Qle_bool_iff in E. exfalso. exact (Qlt_not_le _ _ H E).
Qed.

Lemma Qlt_bool_false_iff (x y : Q) : Qlt_bool x y = false <-> (y <= x)%Q.
Proof.
  unfold Qlt_bool. rewrite negb_false_iff. apply Qle_bool_iff.
Qed.

Lemma Qeq_bool_false_iff (x y : Q) : Qeq_bool x y = false <-> ~ (x == y)%Q.
Proof.
  split; intro H.
  - now apply Qeq_bool_neq.
  - destruct (Qeq_bool x y) eqn:E; [| reflexivity].
    apply Qeq_bool_iff in E. contradiction.
Qed.

Lemma rem2_even (a : Z) : (Z.rem a 2 =? 0)%Z = Z.even a.
Proof.
  apply eq_true_iff_eq.
  rewrite Z.eqb_eq, Z.even_spec, Z.rem_mod_eq_0 by lia.
  rewrite Z.mod_divide by lia.
  unfold Z.divide, Z.Even. split; intros [b ->]; exists b; lia.
Qed.

Lemma at_of_nat {A : Type} (v : list A) (i : nat) :
  at_ v (Z.of_nat i) = match nth_error v i with Some a => Ok a | None => Undefined end.
Proof.
  unfold at_. destruct (Z.of_nat i <? 0)%Z eqn:E.
  - apply Z.ltb_lt in E. lia.
  - now rewrite Nat2Z.id.
Qed.

Lemma at_Ok_inv {A : Type} (v : list A) (i : Z) (a : A) :
  at_ v i = Ok a -> (0 <= i < size v)%Z /\ nth_error v (Z.to_nat i) = Some a.
Proof.
  unfold at_, size. destruct (i <? 0)%Z eqn:E; [discriminate |].
  apply Z.ltb_ge in E.
  destruct (nth_error v (Z.to_nat i)) eqn:N; [| discriminate].
  intros [= <-]. split; [| reflexivity].
  assert (Z.to_nat i < length v)%nat by (apply nth_error_Some; congruence). lia.
Qed.

Lemma at_in_range {A : Type} (v : list A) (i : Z) (d : A) :
  (0 <= i < size v)%Z -> at_ v i = Ok (nth (Z.to_nat i) v d).
Proof.
  unfold at_, size. intros [H0 H1].
  destruct (i <? 0)%Z eqn:E; [apply Z.ltb_lt in E; lia |].
  assert (L : (Z.to_nat i < length v)%nat) by lia.
  now rewrite (nth_error_nth' v d L).
Qed.

Lemma at_never_throws {A : Type} (v : list A) (i : Z) (w : string) :
  at_ v i <> Throw w.
Proof.
  unfold at_. destruct (i <? 0)%Z; [discriminate |].
  destruct (nth_error v (Z.to_nat i)); discriminate.
Qed.

Lemma at_nth {A : Type} (v : list A) (i : Z) (a d : A) :
  at_ v i = Ok a -> nth (Z.to_nat i) v d = a.
Proof.
  intro H. apply at_Ok_inv in H. destruct H as [_ H]. now apply nth_error_nth.
Qed.

Lemma at_app_head {A : Type} (pre : list A) (a : A) (t : list A) :
  at_ (pre ++ a :: t) (Z.of_nat (length pre)) = Ok a.
Proof.
  rewrite at_of_nat. rewrite nth_error_app2 by lia.
  now rewrite Nat.sub_diag.
Qed.

Lemma bind_Ok_inv {A B : Type} (m : outcome A) (f : A -> outcome B) (b : B) :
  bind m f = Ok b -> exists a, m = Ok a /\ f a = Ok b.
Proof.
  destruct m as [a | w |]; simpl; intro H; try discriminate. now exists a.
Qed.

Lemma bind_Throw_inv {A B : Type} (m : outcome A) (f : A -> outcome B) (w : string) :
  bind m f = Throw w -> m = Throw w \/ exists a, m = Ok a /\ f a = Throw w.
Proof.
  destruct m as [a | w' |]; simpl; intro H; try discriminate.
  - right. now exists a.
  - left. congruence.
Qed.

Lemma replace_nth_length {A : Type} (x : A) :
  forall (v : list A) (n : nat) (v' : list A),
    replace_nth v n x = Some v' -> length v' = length v.
Proof.
  induction v as [| h t IH]; intros n v' H; [discriminate |].
  destruct n as [| n]; cbn [replace_nth] in H.
  - injection H as <-. reflexivity.
  - destruct (replace_nth t n x) as [t' |] eqn:E; [| discriminate].
    injection H as <-. simpl. f_equal. exact (IH n t' E).
Qed.

Lemma set_at_size {A : Type} (v : list A) (i : Z) (x : A) (v' : list A) :
  set_at v i x = Ok v' -> size v' = size v.
Proof.
  unfold set_at, size. destruct (i <? 0)%Z; [discriminate |].
  destruct (replace_nth v (Z.to_nat i) x) as [v1 |] eqn:E; [| discriminate].
  intros [= <-]. f_equal. exact (replace_nth_length x v (Z.to_nat i) v1 E).
Qed.

Lemma size_app_one {A : Type} (v : list A) (x : A) : size (v ++ [x]) = (size v + 1)%Z.
Proof. unfold size. rewrite length_app. simpl. lia. Qed.

Lemma replace_nth_same {A : Type} (x : A) :
  forall (v : list A) (n : nat) (v' : list A),
    replace_nth v n x = Some v' -> nth_error v' n = Some x.
Proof.
  induction v as [| h t IH]; intros n v' H; [discriminate |].
  destruct n as [| n]; cbn [replace_nth] in H.
  - injection H as <-. reflexivity.
  - destruct (replace_nth t n x) as [t' |] eqn:E; [| discriminate].
    injection H as <-. simpl. exact (IH n t' E).
Qed.

Lemma replace_nth_other {A : Type} (x : A) :
  forall (v : list A) (n : nat) (v' : list A) (m : nat),
    replace_nth v n x = Some v' -> m <> n -> nth_error v' m = nth_error v m.
Proof.
  induction v as [| h t IH]; intros n v' m H Hm; [discriminate |].
  destruct n as [| n]; cbn [replace_nth] in H.
  - injection H as <-. destruct m; [congruence | reflexivity].
  - destruct (replace_nth t n x) as [t' |] eqn:E; [| discriminate].
    injection H as <-. destruct m as [| m]; [reflexivity |]. simpl.
    apply (IH n t' m E). congruence.
Qed.

Lemma set_at_same {A : Type} (v : list A) (i : Z) (x : A) (v' : list A) :
  set_at v i x = Ok v' -> at_ v' i = Ok x.
Proof.
  unfold set_at, at_. destruct (i <? 0)%Z; [discriminate |].
  destruct (replace_nth v (Z.to_nat i) x) as [v1 |] eqn:E; [| discriminate].
  intros [= <-]. now rewrite (replace_nth_same x v (Z.to_nat i) v1 E).
Qed.

Lemma set_at_other {A : Type} (v : list A) (i : Z) (x : A) (v' : list A) (j : Z) :
  set_at v i x = Ok v' -> j <> i -> at_ v' j = at_ v j.
Proof.
  unfold set_at, at_. destruct (i <? 0)%Z eqn:Ei; [discriminate |].
  destruct (replace_nth v (Z.to_nat i) x) as [v1 |] eqn:E; [| discriminate].
  intros [= <-] Hj. destruct (j <? 0)%Z eqn:Ej; [reflexivity |].
  apply Z.ltb_ge in Ei, Ej.
  rewrite (replace_nth_other x v (Z.to_nat i) v1 (Z.to_nat j) E) by lia.
  reflexivity.
Qed.

Lemma replace_nth_app {A : Type} (pre : list A) (x y : A) (rest : list A) :
  replace_nth (pre ++ x :: rest) (length pre) y = Some (pre ++ y :: rest).
Proof.
  induction pre as [| h t IH]; [reflexivity |].
  cbn [app length replace_nth]. now rewrite IH.
Qed.

Lemma set_at_app {A : Type} (pre : list A) (x y : A) (rest : list A) :
  set_at (pre ++ x :: rest) (Z.of_nat (length pre)) y = Ok (pre ++ y :: rest).
Proof.
  unfold set_at. destruct (Z.of_nat (length pre) <? 0)%Z eqn:E.
  - apply Z.ltb_lt in E. lia.
  - now rewrite Nat2Z.id, replace_nth_app.
Qed.

Lemma for_loop_ok {S : Type} (body : Z -> S -> outcome S) :
  forall n lo s,
    (forall i s, (lo <= i < lo + Z.of_nat n)%Z -> exists s', body i s = Ok s') ->
    exists s', for_loop n lo body s = Ok s'.
Proof.
  induction n as [| n IH]; intros lo s Hb; cbn [for_loop].
  - now exists s.
  - destruct (Hb lo s ltac:(lia)) as [s1 E1]. rewrite E1. cbn [bind].
    apply IH. intros i s2 Hi. apply Hb. lia.
Qed.

Lemma for_loop_invariant {S : Type} (P : S -> Prop) (body : Z -> S -> outcome S) :
  (forall i s s', P s -> body i s = Ok s' -> P s') ->
  forall n i s s', P s -> for_loop n i body s = Ok s' -> P s'.
Proof.
  intro Hb. induction n as [| n IH]; intros i s s' Hs H; cbn [for_loop] in H.
  - injection H as <-. exact Hs.
  - apply bind_Ok_inv in H. destruct H as (s1 & E1 & H).
    apply (IH (i + 1)%Z s1 s'); [| exact H]. exact (Hb i s s1 Hs E1).
Qed.

(** A loop that returns and carries an index-dependent invariant. *)
Lemma for_loop_total {S : Type} (I : Z -> S -> Prop) (body : Z -> S -> outcome S) :
  forall n lo s,
    (forall i s, (lo <= i < lo + Z.of_nat n)%Z -> I i s ->
                 exists s', body i s = Ok s' /\ I (i + 1)%Z s') ->
    I lo s ->
    exists s', for_loop n lo body s = Ok s' /\ I (lo + Z.of_nat n)%Z s'.
Proof.
  induction n as [| n IH]; intros lo s Hb Hs; cbn [for_loop].
  - exists s. split; [reflexivity |]. now replace (lo + Z.of_nat 0)%Z with lo by lia.
  - destruct (Hb lo s ltac:(lia) Hs) as (s1 & E1 & H1). rewrite E1. cbn [bind].
    destruct (IH (lo + 1)%Z s1) as (s' & E' & H').
    + intros i s2 Hi. apply Hb. lia.
    + exact H1.
    + exists s'. split; [exact E' |].
      now replace (lo + Z.of_nat (Datatypes.S n))%Z with (lo + 1 + Z.of_nat n)%Z by lia.
Qed.

Lemma for_range_total {S : Type} (I : Z -> S -> Prop) (body : Z -> S -> outcome S)
      (n : Z) (s : S) :
  (0 <= n)%Z ->
  (forall i s, (0 <= i < n)%Z -> I i s ->
               exists s', body i s = Ok s' /\ I (i + 1)%Z s') ->
  I 0%Z s ->
  exists s', for_range 0 n body s = Ok s' /\ I n s'.
Proof.
  intros Hn Hb Hs. unfold for_range.
  destruct (for_loop_total I body (Z.to_nat (n - 0)) 0 s) as (s' & E & H').
  - intros i s0 Hi. apply Hb. lia.
  - exact Hs.
  - exists s'. split; [exact E |].
    now replace (0 + Z.of_nat (Z.to_nat (n - 0)))%Z with n in H' by lia.
Qed.

(** A loop that writes [F i] at index [i] for [i = |pre|, ..., |pre| + n - 1]. *)
Lemma write_loop_gen {A : Type} (body : Z -> list A -> outcome (list A)) (F : Z -> A) :
  forall n pre rest,
    (n <= length rest)%nat ->
    (forall i v, (Z.of_nat (length pre) <= i < Z.of_nat (length pre) + Z.of_nat n)%Z ->
                 body i v = set_at v i (F i)) ->
    for_loop n (Z.of_nat (length pre)) body (pre ++ rest)
    = Ok (pre ++ map F (map Z.of_nat (seq (length pre) n)) ++ skipn n rest).
Proof.
  induction n as [| n IH]; intros pre rest Hn Hb.
  - reflexivity.
  - destruct rest as [| x rest]; [simpl in Hn; lia |].
    cbn [for_loop]. rewrite Hb by lia. rewrite set_at_app. cbn [bind].
    replace (pre ++ F (Z.of_nat (length pre)) :: rest)
      with ((pre ++ [F (Z.of_nat (length pre))]) ++ rest)
      by (now rewrite <- app_assoc).
    replace (Z.of_nat (length pre) + 1)%Z
      with (Z.of_nat (length (pre ++ [F (Z.of_nat (length pre))])))
      by (rewrite length_app; simpl; lia).
    rewrite IH.
    + rewrite length_app. cbn [length seq map skipn].
      replace (length pre + 1)%nat with (Datatypes.S (length pre)) by lia.
      now rewrite <- app_assoc.
    + simpl in Hn. lia.
    + intros i v Hi. apply Hb. rewrite length_app in Hi. simpl in Hi. lia.
Qed.

Lemma write_loop {A : Type} (body : Z -> list A -> outcome (list A)) (F : Z -> A)
      (m : Z) (v : list A) :
  (Z.to_nat m <= length v)%nat ->
  (forall i v', (0 <= i < m)%Z -> body i v' = set_at v' i (F i)) ->
  for_range 0 m body v = Ok (map F (seqZ m) ++ skipn (Z.to_nat m) v).
Proof.
  intros Hm Hb. unfold for_range, seqZ.
  replace (m - 0)%Z with m by lia.
  apply (write_loop_gen body F (Z.to_nat m) [] v Hm).
  intros i v' Hi. apply Hb. simpl in Hi. lia.
Qed.

Lemma mapM_Ok_nth {A B : Type} (f : A -> outcome B) :
  forall (l : list A) (bs : list B),
    mapM f l = Ok bs ->
    length bs = length l
    /\ forall i a, nth_error l i = Some a ->
                   exists b, nth_error bs i = Some b /\ f a = Ok b.
Proof.
  induction l as [| a l IH]; intros bs H; cbn [mapM] in H.
  - injection H as <-. split; [reflexivity |]. intros [| i] a H; discriminate.
  - apply bind_Ok_inv in H. destruct H as (b & Eb & H).
    apply bind_Ok_inv in H. destruct H as (bs' & Ebs & H).
    injection H as <-. destruct (IH bs' Ebs) as [L N]. split.
    + simpl. now rewrite L.
    + intros [| i] a' Ha; simpl in Ha.
      * injection Ha as <-. exists b. now split.
      * apply (N i a' Ha).
Qed.

Lemma nth_error_seqZ (n : Z) (i : nat) :
  (i < Z.to_nat n)%nat -> nth_error (seqZ n) i = Some (Z.of_nat i).
Proof.
  intro H. unfold seqZ. rewrite nth_error_map.
  rewrite nth_error_seq. destruct (Nat.ltb_spec i (Z.to_nat n)); [reflexivity | lia].
Qed.

Lemma length_seqZ (n : Z) : length (seqZ n) = Z.to_nat n.
Proof. unfold seqZ. now rewrite length_map, length_seq. Qed.

Lemma mapM_seqZ_at {B : Type} (f : Z -> outcome B) (n : Z) (bs : list B) :
  mapM f (seqZ n) = Ok bs ->
  size bs = Z.max 0 n
  /\ forall i, (0 <= i < n)%Z -> exists b, at_ bs i = Ok b /\ f i = Ok b.
Proof.
  intro H. destruct (mapM_Ok_nth f (seqZ n) bs H) as [L N]. split.
  - unfold size. rewrite L, length_seqZ. lia.
  - intros i Hi.
    destruct (N (Z.to_nat i) i) as (b & Eb & Fb).
    { rewrite nth_error_seqZ by lia. f_equal. lia. }
    exists b. split; [| exact Fb].
    unfold at_. destruct (i <? 0)%Z eqn:E; [apply Z.ltb_lt in E; lia |].
    now rewrite Eb.
Qed.

Lemma length_map_seqZ {A : Type} (F : Z -> A) (m : Z) :
  length (map F (seqZ m)) = Z.to_nat m.
Proof. now rewrite length_map, length_seqZ. Qed.

Lemma nth_error_map_seqZ {A : Type} (F : Z -> A) (m : Z) (i : nat) :
  (i < Z.to_nat m)%nat -> nth_error (map F (seqZ m)) i = Some (F (Z.of_nat i)).
Proof. intro H. now rewrite nth_error_map, nth_error_seqZ. Qed.

Lemma at_map_seqZ {A : Type} (F : Z -> A) (m i : Z) :
  (0 <= i < m)%Z -> at_ (map F (seqZ m)) i = Ok (F i).
Proof.
  intro H. unfold at_. destruct (i <? 0)%Z eqn:E; [apply Z.ltb_lt in E; lia |].
  rewrite nth_error_map_seqZ by lia. now rewrite Z2Nat.id by lia.
Qed.

Lemma nth_map_seqZ {A : Type} (F : Z -> A) (m i : Z) (d : A) :
  (0 <= i < m)%Z -> nth (Z.to_nat i) (map F (seqZ m)) d = F i.
Proof.
  intro H. apply nth_error_nth.
  rewrite nth_error_map_seqZ by lia. now rewrite Z2Nat.id by lia.
Qed.

Lemma seqZ_succ (s : Z) : (0 <= s)%Z -> seqZ (s + 1) = seqZ s ++ [s].
Proof.
  intro H. unfold seqZ.
  replace (Z.to_nat (s + 1)) with (Datatypes.S (Z.to_nat s)) by lia.
  rewrite seq_S, map_app. cbn [map Nat.add]. now rewrite Z2Nat.id by lia.
Qed.

Lemma skipn_all_length {A : Type} (v : list A) (n : nat) :
  (length v <= n)%nat -> skipn n v = [].
Proof. intro H. now apply skipn_all2. Qed.

Lemma skipn_app_exact {A : Type} (a b : list A) (n : nat) :
  length a = n -> skipn n (a ++ b) = b.
Proof.
  intros <-. rewrite skipn_app, skipn_all, Nat.sub_diag. reflexivity.
Qed.

Lemma firstn_succ_nth {A : Type} (v : list A) (j : nat) (d : A) :
  (j < length v)%nat -> firstn (Datatypes.S j) v = firstn j v ++ [nth j v d].
Proof.
  revert j. induction v as [| h t IH]; intros j H; [simpl in H; lia |].
  destruct j as [| j]; [reflexivity |].
  cbn [firstn nth app]. f_equal. apply IH. simpl in H. lia.
Qed.

(** ** Which errors a call can raise *)

(** [throws_in ws m]: when [m] throws, the message is one of [ws]. *)
Definition throws_in {A : Type} (ws : list string) (m : outcome A) : Prop :=
  forall w, m = Throw w -> In w ws.

Lemma throws_in_Ok {A : Type} (ws : list string) (a : A) : throws_in ws (Ok a).
Proof. intros w H. discriminate. Qed.

Lemma throws_in_Undefined {A : Type} (ws : list string) :
  throws_in ws (@Undefined A).
Proof. intros w H. discriminate. Qed.

Lemma throws_in_Throw {A : Type} (ws : list string) (w : string) :
  In w ws -> throws_in ws (@Throw A w).
Proof. intros H w' [= <-]. exact H. Qed.

Lemma throws_in_incl {A : Type} (ws ws' : list string) (m : outcome A) :
  incl ws ws' -> throws_in ws m -> throws_in ws' m.
Proof. intros I H w E. apply I. now apply H. Qed.

Lemma throws_in_bind {A B : Type} (ws : list string) (m : outcome A)
      (f : A -> outcome B) :
  throws_in ws m -> (forall a, m = Ok a -> throws_in ws (f a)) ->
  throws_in ws (bind m f).
Proof.
  intros Hm Hf w H. destruct (bind_Throw_inv m f w H) as [E | (a & E & F)].
  - now apply Hm.
  - now apply (Hf a E).
Qed.

Lemma throws_in_at {A : Type} (ws : list string) (v : list A) (i : Z) :
  throws_in ws (at_ v i).
Proof. intros w H. exfalso. exact (at_never_throws v i w H). Qed.

Lemma throws_in_set_at {A : Type} (ws : list string) (v : list A) (i : Z) (x : A) :
  throws_in ws (set_at v i x).
Proof.
  intros w H. unfold set_at in H. destruct (i <? 0)%Z; [discriminate |].
  destruct (replace_nth v (Z.to_nat i) x); discriminate.
Qed.

Lemma throws_in_for_loop {S : Type} (ws : list string) (body : Z -> S -> outcome S) :
  (forall i s, throws_in ws (body i s)) ->
  forall n i s, throws_in ws (for_loop n i body s).
Proof.
  intros Hb. induction n as [| n IH]; intros i s; cbn [for_loop].
  - apply throws_in_Ok.
  - apply throws_in_bind; [apply Hb | intros a _; apply IH].
Qed.

Lemma throws_in_for_range {S : Type} (ws : list string) (lo hi : Z)
      (body : Z -> S -> outcome S) (s : S) :
  (forall i s, throws_in ws (body i s)) -> throws_in ws (for_range lo hi body s).
Proof. intro Hb. unfold for_range. now apply throws_in_for_loop. Qed.

Lemma throws_in_for_adjacent {A S : Type} (ws : list string) (v : list A)
      (body : Z -> S -> outcome S) (s : S) :
  (forall i s, throws_in ws (body i s)) -> throws_in ws (for_adjacent v body s).
Proof.
  intro Hb. unfold for_adjacent. destruct (size v =? 0)%Z.
  - apply throws_in_bind; [apply throws_in_at | intros; apply throws_in_Ok].
  - now apply throws_in_for_range.
Qed.

Lemma throws_in_mapM {A B : Type} (ws : list string) (f : A -> outcome B) :
  (forall a, throws_in ws (f a)) -> forall l, throws_in ws (mapM f l).
Proof.
  intros Hf. induction l as [| a l IH]; cbn [mapM].
  - apply throws_in_Ok.
  - apply throws_in_bind; [apply Hf | intros b _].
    apply throws_in_bind; [apply IH | intros bs _; apply throws_in_Ok].
Qed.

Lemma throws_in_c_assert (ws : list string) (NDEBUG b : bool) :
  throws_in ws (PP.c_assert NDEBUG b).
Proof.
  unfold PP.c_assert. destruct (NDEBUG || b); [apply throws_in_Ok | apply throws_in_Undefined].
Qed.

Lemma throws_in_mat_at (ws : list string) (m : matrix) (i j : Z) :
  throws_in ws (mat_at m i j).
Proof.
  unfold mat_at. apply throws_in_bind; [apply throws_in_at | intros; apply throws_in_at].
Qed.

Lemma throws_in_mat_set (ws : list string) (m : matrix) (i j : Z) (x : Q) :
  throws_in ws (mat_set m i j x).
Proof.
  unfold mat_set. apply throws_in_bind; [apply throws_in_at | intros].
  apply throws_in_bind; [apply throws_in_set_at | intros; apply throws_in_set_at].
Qed.

Lemma throws_in_cmat_at (ws : list string) (m : cmatrix) (i j : Z) :
  throws_in ws (cmat_at m i j).
Proof.
  unfold cmat_at. apply throws_in_bind; [apply throws_in_at | intros; apply throws_in_at].
Qed.

Lemma throws_in_cmat_set (ws : list string) (m : cmatrix) (i j : Z) (x : C) :
  throws_in ws (cmat_set m i j x).
Proof.
  unfold cmat_set. apply throws_in_bind; [apply throws_in_at | intros].
  apply throws_in_bind; [apply throws_in_set_at | intros; apply throws_in_set_at].
Qed.

Lemma throws_in_twice_plus (ws : list string) (n offset : Z) :
  throws_in ws (Matsubara.twice_plus n offset).
Proof.
  unfold Matsubara.twice_plus, Matsubara.in_long.
  destruct (_ && _); cbn [bind]; [| apply throws_in_Undefined].
  destruct (_ && _); [apply throws_in_Ok | apply throws_in_Undefined].
Qed.

(** One structural step of a [throws_in] goal. *)
Ltac throws_step :=
  match goal with
  | |- throws_in _ (Matsubara.twice_plus _ _) => apply throws_in_twice_plus
  | |- throws_in _ (Ok _) => apply throws_in_Ok
  | |- throws_in _ Undefined => apply throws_in_Undefined
  | |- throws_in _ (Throw _) => apply throws_in_Throw; simpl; tauto
  | |- throws_in _ (bind _ _) => apply throws_in_bind; [| intros ? ?]
  | |- throws_in _ (at_ _ _) => apply throws_in_at
  | |- throws_in _ (set_at _ _ _) => apply throws_in_set_at
  | |- throws_in _ (back _) => apply throws_in_at
  | |- throws_in _ (mat_at _ _ _) => apply throws_in_mat_at
  | |- throws_in _ (mat_set _ _ _ _) => apply throws_in_mat_set
  | |- throws_in _ (cmat_at _ _ _) => apply throws_in_cmat_at
  | |- throws_in _ (cmat_set _ _ _ _) => apply throws_in_cmat_set
  | |- throws_in _ (PP.c_assert _ _) => apply throws_in_c_assert
  | |- throws_in _ (for_range _ _ _ _) => apply throws_in_for_range; intros ? ?
  | |- throws_in _ (for_adjacent _ _ _) => apply throws_in_for_adjacent; intros ? ?
  | |- throws_in _ (mapM _ _) => apply throws_in_mapM; intros ?
  | |- throws_in _ (if ?b then _ else _) => destruct b
  | |- throws_in _ (match ?x with _ => _ end) => destruct x
  end.

Ltac throws_auto := repeat throws_step.

Definition invalid_msg : string :=
  "pieacewise_polynomial object is not properly constructed!".

Section PPThrows.

Variable NDEBUG : bool.
Variable ws : list string.
Variable p : piecewise_polynomial.

(** Either the object passes the debug-only validity check, or the
    message of that check is among the permitted ones. *)
Hypothesis Hvalid : PP.check_validity_dbg NDEBUG p = Ok tt \/ In invalid_msg ws.

Lemma throws_in_check_validity_dbg : throws_in ws (PP.check_validity_dbg NDEBUG p).
Proof.
  destruct Hvalid as [E | I]; [rewrite E; apply throws_in_Ok |].
  unfold PP.check_validity_dbg, PP.check_validity.
  destruct NDEBUG; [apply throws_in_Ok |].
  apply throws_in_bind; [apply throws_in_c_assert | intros _ _].
  destruct (valid_ p); [apply throws_in_Ok | apply throws_in_Throw; exact I].
Qed.

Ltac pp_throws :=
  repeat first [ apply throws_in_check_validity_dbg | throws_step ].

Lemma throws_in_num_sections : throws_in ws (PP.num_sections NDEBUG p).
Proof. unfold PP.num_sections. pp_throws. Qed.

Lemma throws_in_section_edges : throws_in ws (PP.section_edges NDEBUG p).
Proof. unfold PP.section_edges. pp_throws. Qed.

Lemma throws_in_section_edge (i : Z) : throws_in ws (PP.section_edge NDEBUG p i).
Proof. unfold PP.section_edge. pp_throws. Qed.

Lemma throws_in_coefficient (i j : Z) : throws_in ws (PP.coefficient NDEBUG p i j).
Proof. unfold PP.coefficient. pp_throws. Qed.

Lemma throws_in_find_section (x : Q) : throws_in ws (PP.find_section NDEBUG p x).
Proof. unfold PP.find_section. pp_throws. Qed.

Lemma throws_in_power_sum (c : Z -> outcome Q) (k : Z) (dx : Q) :
  (forall q, throws_in ws (c q)) -> throws_in ws (PP.power_sum c k dx).
Proof. intro Hc. unfold PP.power_sum. pp_throws. apply Hc. Qed.

Lemma throws_in_compute_value_in (x : Q) (s : Z) :
  throws_in ws (PP.compute_value_in NDEBUG p x s).
Proof.
  unfold PP.compute_value_in. pp_throws.
  apply throws_in_power_sum. intro q. pp_throws.
Qed.

Lemma throws_in_compute_value (x : Q) : throws_in ws (PP.compute_value NDEBUG p x).
Proof.
  unfold PP.compute_value.
  apply throws_in_bind; [apply throws_in_check_validity_dbg | intros _ _].
  apply throws_in_bind; [apply throws_in_find_section | intros s _].
  apply throws_in_compute_value_in.
Qed.

Lemma throws_in_derivative (x : Q) (ord section : Z) :
  throws_in ws (PP.derivative NDEBUG p x ord section).
Proof.
  unfold PP.derivative.
  apply throws_in_bind; [apply throws_in_check_validity_dbg | intros _ _].
  apply throws_in_bind.
  { destruct (0 <=? section)%Z; [apply throws_in_Ok | apply throws_in_find_section]. }
  intros s _. pp_throws.
  apply throws_in_power_sum. intro q. pp_throws.
Qed.

End PPThrows.

(** ** Sorted edges and the bisection of [std::upper_bound] *)

Lemma ascending_cons (a : Q) (v : list Q) :
  PP.ascending (a :: v) = true ->
  PP.ascending v = true /\ (forall i, (i < length v)%nat -> (a < edge v i)%Q).
Proof.
  revert a. induction v as [| b v IH]; intros a H.
  - split; [reflexivity | simpl; intros; lia].
  - change (Qlt_bool a b && PP.ascending (b :: v) = true) in H.
    apply andb_true_iff in H. destruct H as [Hab Hv].
    apply Qlt_bool_iff in Hab. split; [exact Hv |].
    destruct (IH b Hv) as [_ Hb].
    intros [| i] Hi; unfold edge; simpl; [exact Hab |].
    apply Qlt_trans with b; [exact Hab |]. apply Hb. simpl in Hi. lia.
Qed.

Lemma ascending_lt (v : list Q) :
  PP.ascending v = true ->
  forall i j, (i < j)%nat -> (j < length v)%nat -> (edge v i < edge v j)%Q.
Proof.
  induction v as [| a v IH]; intros H i j Hij Hj; [simpl in Hj; lia |].
  destruct (ascending_cons a v H) as [Hv Ha].
  destruct j as [| j]; [lia |]. simpl in Hj.
  destruct i as [| i].
  - apply (Ha j). lia.
  - apply (IH Hv i j); lia.
Qed.

Lemma ascending_le (v : list Q) :
  PP.ascending v = true ->
  forall i j, (i <= j)%nat -> (j < length v)%nat -> (edge v i <= edge v j)%Q.
Proof.
  intros H i j Hij Hj. destruct (Nat.eq_dec i j) as [-> | N].
  - apply Qle_refl.
  - apply Qlt_le_weak. apply ascending_lt; [exact H | lia | exact Hj].
Qed.

Lemma div2_lt_pos (n : nat) : (0 < n)%nat -> (Nat.div2 n < n)%nat.
Proof. intro H. apply Nat.lt_div2. exact H. Qed.

(** The bisection returns the partition point of a sorted vector. *)
Lemma upper_bound_loop_spec (v : list Q) (x : Q) :
  PP.ascending v = true ->
  forall fuel first len,
    (len <= fuel)%nat ->
    (first + len <= length v)%nat ->
    (forall i, (i < first)%nat -> (edge v i <= x)%Q) ->
    (forall i, (first + len <= i)%nat -> (i < length v)%nat -> (x < edge v i)%Q) ->
    let r := upper_bound_loop fuel v x first len in
    (r <= length v)%nat
    /\ (forall i, (i < r)%nat -> (edge v i <= x)%Q)
    /\ (forall i, (r <= i)%nat -> (i < length v)%nat -> (x < edge v i)%Q).
Proof.
  intros Hv. induction fuel as [| fuel IH]; intros first len Hf Hl Hlo Hhi.
  - assert (len = 0)%nat by lia. subst len. simpl.
    repeat split; [lia | exact Hlo |].
    intros i H1 H2. apply Hhi; lia.
  - destruct len as [| len'].
    + simpl. repeat split; [lia | exact Hlo |].
      intros i H1 H2. apply Hhi; lia.
    + cbn [upper_bound_loop].
      remember (Datatypes.S len') as len eqn:Elen.
      assert (Hhalf : (Nat.div2 len < len)%nat) by (apply div2_lt_pos; lia).
      generalize dependent (Nat.div2 len). intros half Hhalf.
      destruct (Qlt_bool x (nth (first + half) v 0%Q)) eqn:E.
      * apply Qlt_bool_iff in E.
        apply IH; [lia | lia | exact Hlo |].
        intros i H1 H2.
        apply Qlt_le_trans with (edge v (first + half)); [exact E |].
        apply ascending_le; [exact Hv | lia | exact H2].
      * apply Qlt_bool_false_iff in E.
        apply IH; [lia | lia | |].
        -- intros i H1.
           apply Qle_trans with (edge v (first + half)); [| exact E].
           apply ascending_le; [exact Hv | lia | lia].
        -- intros i H1 H2. apply Hhi; lia.
Qed.

Lemma upper_bound_spec (v : list Q) (x : Q) :
  PP.ascending v = true ->
  (upper_bound v x <= length v)%nat
  /\ (forall i, (i < upper_bound v x)%nat -> (edge v i <= x)%Q)
  /\ (forall i, (upper_bound v x <= i)%nat -> (i < length v)%nat -> (x < edge v i)%Q).
Proof.
  intro Hv. unfold upper_bound.
  apply (upper_bound_loop_spec v x Hv); [lia | lia | intros; lia | intros; lia].
Qed.

(** At an edge the partition point is the index just after it. *)
Lemma upper_bound_at_edge (v : list Q) (x : Q) (s : nat) :
  PP.ascending v = true -> (s < length v)%nat -> (x == edge v s)%Q ->
  upper_bound v x = Datatypes.S s.
Proof.
  intros Hv Hs Hx.
  destruct (upper_bound_spec v x Hv) as (Hr & Hlo & Hhi).
  destruct (Nat.lt_trichotomy (upper_bound v x) (Datatypes.S s)) as [L | [E | G]].
  - exfalso. assert (x < edge v s)%Q by (apply Hhi; lia).
    rewrite Hx in H. exact (Qlt_irrefl _ H).
  - exact E.
  - exfalso. assert (H : (edge v (Datatypes.S s) <= x)%Q) by (apply Hlo; lia).
    rewrite Hx in H.
    assert (edge v s < edge v (Datatypes.S s))%Q
      by (apply ascending_lt; [exact Hv | lia | lia]).
    exact (Qlt_not_le _ _ H0 H).
Qed.

(** ** Well-formed piecewise polynomials *)

Lemma well_formed_facts (p : piecewise_polynomial) :
  well_formed p ->
  valid_ p = true
  /\ (1 <= n_sections_ p)%Z
  /\ size (section_edges_ p) = (n_sections_ p + 1)%Z
  /\ size (coeff_ p) = n_sections_ p
  /\ Forall (fun r => size r = (k_ p + 1)%Z) (coeff_ p)
  /\ PP.ascending (section_edges_ p) = true.
Proof.
  intros [Hv H]. unfold PP.validity in H.
  repeat (apply andb_true_iff in H; destruct H as [H ?]).
  repeat split; try assumption.
  - now apply Z.leb_le.
  - now apply Z.eqb_eq.
  - now apply Z.eqb_eq.
  - apply Forall_forall. intros r Hr.
    match goal with F : forallb _ _ = true |- _ => rewrite forallb_forall in F;
      specialize (F r Hr); now apply Z.eqb_eq in F end.
Qed.

Lemma construct_well_formed (NDEBUG : bool) (k : Z) (edges : list Q) (coeff : matrix)
      (p : piecewise_polynomial) :
  PP.construct NDEBUG k edges coeff = Ok p -> well_formed p.
Proof.
  unfold PP.construct, PP.check_validity. cbn [valid_ section_edges_].
  intro H.
  destruct (PP.c_assert NDEBUG (PP.validity k (size edges - 1) edges coeff));
    cbn [bind] in H; try discriminate.
  destruct (PP.c_assert NDEBUG (0 <? size edges)%Z); cbn [bind] in H; try discriminate.
  destruct (PP.validity k (size edges - 1) edges coeff) eqn:V; [| discriminate].
  injection H as <-. split; [reflexivity | exact V].
Qed.

Lemma check_validity_dbg_well_formed (NDEBUG : bool) (p : piecewise_polynomial) :
  well_formed p -> PP.check_validity_dbg NDEBUG p = Ok tt.
Proof.
  intro W. destruct (well_formed_facts p W) as (Hv & Hn & Hs & _).
  unfold PP.check_validity_dbg, PP.check_validity, PP.c_assert.
  destruct NDEBUG; [reflexivity |]. cbn [orb].
  replace (0 <? size (section_edges_ p))%Z with true
    by (symmetry; apply Z.ltb_lt; lia).
  cbn [bind]. now rewrite Hv.
Qed.

Lemma edge_at (v : list Q) (i : Z) :
  (0 <= i < size v)%Z -> at_ v i = Ok (edge v (Z.to_nat i)).
Proof. intro H. unfold edge. now apply at_in_range. Qed.

Lemma well_formed_order (f : piecewise_polynomial) :
  well_formed f -> (-1 <= k_ f)%Z.
Proof.
  intro W. destruct (well_formed_facts f W) as (_ & Hn & _ & Hr & Hc & _).
  destruct (coeff_ f) as [| r rows] eqn:E.
  - unfold size in Hr. simpl in Hr. lia.
  - apply Forall_inv in Hc. unfold size in Hc. lia.
Qed.

Lemma mat_at_well_formed (p : piecewise_polynomial) (s q : Z) :
  well_formed p -> (0 <= s < n_sections_ p)%Z -> (0 <= q <= k_ p)%Z ->
  exists c, mat_at (coeff_ p) s q = Ok c.
Proof.
  intros W Hs Hq. destruct (well_formed_facts p W) as (_ & _ & _ & Hr & Hc & _).
  unfold mat_at. rewrite (at_in_range (coeff_ p) s []) by lia. cbn [bind].
  assert (L : size (nth (Z.to_nat s) (coeff_ p) []) = (k_ p + 1)%Z).
  { rewrite Forall_forall in Hc. apply Hc. apply nth_In. unfold size in Hr. lia. }
  rewrite (at_in_range _ q 0%Q) by lia. eauto.
Qed.

(** The coefficient [a[s, p]] of a piecewise polynomial. *)
Definition coef (f : piecewise_polynomial) (s p : Z) : Q :=
  nth (Z.to_nat p) (nth (Z.to_nat s) (coeff_ f) []) 0%Q.

Lemma mat_at_coef (f : piecewise_polynomial) (s p : Z) :
  well_formed f -> (0 <= s < n_sections_ f)%Z -> (0 <= p <= k_ f)%Z ->
  mat_at (coeff_ f) s p = Ok (coef f s p).
Proof.
  intros W Hs Hp. destruct (well_formed_facts f W) as (_ & _ & _ & Hr & Hc & _).
  unfold mat_at, coef. rewrite (at_in_range (coeff_ f) s []) by lia. cbn [bind].
  assert (L : size (nth (Z.to_nat s) (coeff_ f) []) = (k_ f + 1)%Z).
  { rewrite Forall_forall in Hc. apply Hc. apply nth_In. unfold size in Hr. lia. }
  now rewrite (at_in_range _ p 0%Q) by lia.
Qed.

Lemma vec_eqb_length (a b : list Q) : vec_eqb a b = true -> length a = length b.
Proof.
  revert b. induction a as [| x a IH]; intros [| y b] H; try discriminate.
  - reflexivity.
  - cbn [vec_eqb] in H. apply andb_true_iff in H. destruct H as [_ H].
    simpl. f_equal. now apply IH.
Qed.

(** ** [find_section] at the section edges *)

(** The section an edge belongs to: [S[s]] lies in section [s], except the
    right end [S[N]], which lies in the last section. *)
Definition section_of_edge (p : piecewise_polynomial) (s : Z) : Z :=
  if (s =? n_sections_ p)%Z then (n_sections_ p - 1)%Z else s.

Lemma find_section_edge (NDEBUG : bool) (p : piecewise_polynomial) (s : Z) (x : Q) :
  well_formed p ->
  (0 <= s <= n_sections_ p)%Z ->
  (x == edge (section_edges_ p) (Z.to_nat s))%Q ->
  PP.find_section NDEBUG p x = Ok (section_of_edge p s).
Proof.
  intros W Hs Hx. unfold section_of_edge.
  destruct (well_formed_facts p W) as (Hv & Hn & Hsz & _ & _ & Hasc).
  assert (Hlen : Z.of_nat (length (section_edges_ p)) = (n_sections_ p + 1)%Z)
    by exact Hsz.
  unfold PP.find_section.
  rewrite (check_validity_dbg_well_formed NDEBUG p W). cbn [bind].
  rewrite (edge_at (section_edges_ p) 0) by lia. cbn [bind].
  change (Z.to_nat 0) with 0%nat.
  destruct (Z.eq_dec s 0) as [-> | Hs0].
  - change (Z.to_nat 0) with 0%nat in Hx.
    rewrite (Qeq_eq_bool _ _ Hx).
    replace (0 =? n_sections_ p)%Z with false by (symmetry; apply Z.eqb_neq; lia).
    reflexivity.
  - assert (L0 : (edge (section_edges_ p) 0 < x)%Q).
    { rewrite Hx. apply ascending_lt; [exact Hasc | lia | lia]. }
    replace (Qeq_bool x (edge (section_edges_ p) 0)) with false.
    2:{ symmetry. apply Qeq_bool_false_iff. intro E. rewrite E in L0.
        exact (Qlt_irrefl _ L0). }
    rewrite (edge_at (section_edges_ p) (size (section_edges_ p) - 1)) by lia.
    cbn [bind]. rewrite Hsz.
    replace (Z.to_nat (n_sections_ p + 1 - 1)) with (Z.to_nat (n_sections_ p)) by lia.
    destruct (s =? n_sections_ p)%Z eqn:EN.
    + apply Z.eqb_eq in EN. subst s.
      rewrite (Qeq_eq_bool _ _ Hx). f_equal. lia.
    + apply Z.eqb_neq in EN.
      replace (Qeq_bool x (edge (section_edges_ p) (Z.to_nat (n_sections_ p))))
        with false.
      2:{ symmetry. apply Qeq_bool_false_iff. intro E. rewrite Hx in E.
          assert (edge (section_edges_ p) (Z.to_nat s)
                  < edge (section_edges_ p) (Z.to_nat (n_sections_ p)))%Q
            by (apply ascending_lt; [exact Hasc | lia | lia]).
          rewrite E in H. exact (Qlt_irrefl _ H). }
      rewrite (upper_bound_at_edge (section_edges_ p) x (Z.to_nat s) Hasc)
        by (try exact Hx; lia).
      f_equal. lia.
Qed.

Lemma compute_value_edge (NDEBUG : bool) (p : piecewise_polynomial) (s : Z) (x : Q) :
  well_formed p ->
  (0 <= s <= n_sections_ p)%Z ->
  (x == edge (section_edges_ p) (Z.to_nat s))%Q ->
  PP.compute_value NDEBUG p x
  = PP.compute_value_in NDEBUG p x (section_of_edge p s).
Proof.
  intros W Hs Hx. unfold PP.compute_value.
  rewrite (check_validity_dbg_well_formed NDEBUG p W). cbn [bind].
  rewrite (find_section_edge NDEBUG p s x W Hs Hx). reflexivity.
Qed.

(** C10.  For a well-formed piecewise polynomial with sections [0 .. N-1],
    [find_section] maps x equal to the edge [S[s]] to section [s] when
    [s < N] (so to 0 at [S[0]] and to the section whose left endpoint is
    x at an interior edge) and to the last section [N-1] at [S[N]];
    [compute_value] at such an x evaluates the polynomial of that
    section. *)
Theorem find_section_at_edge (NDEBUG : bool) (p : piecewise_polynomial) (s : Z) (x : Q) :
  well_formed p ->
  (0 <= s <= n_sections_ p)%Z ->
  (x == edge (section_edges_ p) (Z.to_nat s))%Q ->
  let sec := if (s =? n_sections_ p)%Z then (n_sections_ p - 1)%Z else s in
  PP.find_section NDEBUG p x = Ok sec
  /\ PP.compute_value NDEBUG p x = PP.compute_value_in NDEBUG p x sec.
Proof.
  intros W Hs Hx sec. split.
  - exact (find_section_edge NDEBUG p s x W Hs Hx).
  - exact (compute_value_edge NDEBUG p s x W Hs Hx).
Qed.

Lemma pp_three_well_formed : well_formed pp_three.
Proof. split; reflexivity. Qed.

Lemma find_section_at_edge_witness :
  PP.find_section false pp_three (2 # 6) = Ok 1%Z
  /\ PP.compute_value false pp_three (2 # 6)
     = PP.compute_value_in false pp_three (2 # 6) 1.
Proof.
  apply (find_section_at_edge false pp_three 1 (2 # 6)).
  - exact pp_three_well_formed.
  - simpl. lia.
  - reflexivity.
Defined.

(** Evaluated in section [s] at its left edge, the polynomial gives its
    constant coefficient [a[s, 0]]: with [compute_value_edge], the value
    at an interior edge is that of the section to its right. *)
Lemma compute_value_in_left_edge (NDEBUG : bool) (p : piecewise_polynomial)
      (x : Q) (s : Z) :
  well_formed p -> (0 <= s < n_sections_ p)%Z -> (0 <= k_ p)%Z ->
  (x == edge (section_edges_ p) (Z.to_nat s))%Q ->
  exists r, PP.compute_value_in NDEBUG p x s = Ok r /\ (r == coef p s 0)%Q.
Proof.
  intros W Hs Hk Hx.
  destruct (well_formed_facts p W) as (_ & Hn & Hsz & _ & _ & Hasc).
  assert (Hlen : Z.of_nat (length (section_edges_ p)) = (n_sections_ p + 1)%Z)
    by exact Hsz.
  unfold PP.compute_value_in.
  rewrite (check_validity_dbg_well_formed NDEBUG p W). cbn [bind].
  rewrite (edge_at (section_edges_ p) s) by lia.
  rewrite (edge_at (section_edges_ p) (s + 1)) by lia.
  cbn [bind].
  assert (Hlo : Qle_bool (edge (section_edges_ p) (Z.to_nat s)) x = true).
  { apply Qle_bool_iff. rewrite Hx. apply Qle_refl. }
  assert (Hhi : Qle_bool x (edge (section_edges_ p) (Z.to_nat (s + 1))) = true).
  { apply Qle_bool_iff. rewrite Hx.
    apply ascending_le; [exact Hasc | lia | lia]. }
  rewrite Hlo, Hhi. unfold PP.c_assert. rewrite orb_true_r.
  replace (if NDEBUG then Ok tt else Ok tt) with (Ok tt) by (now destruct NDEBUG).
  cbn [bind]. unfold PP.power_sum, for_range.
  set (dx := (x - edge (section_edges_ p) (Z.to_nat s))%Q).
  assert (Hdx : (dx == 0)%Q) by (unfold dx; rewrite Hx; ring).
  replace (Z.to_nat (k_ p + 1 - 0)) with (Datatypes.S (Z.to_nat (k_ p))) by lia.
  cbn [for_loop]. rewrite (mat_at_coef p s 0 W Hs) by lia. cbn [bind].
  destruct (for_loop_total
              (fun (_ : Z) (st : Q * Q) =>
                 (fst st == coef p s 0)%Q /\ (snd st == 0)%Q)
              (fun q (st : Q * Q) =>
                 let (r, x_pow) := st in
                 cp <- mat_at (coeff_ p) s q ;;
                 Ok (r + cp * x_pow, x_pow * dx)%Q)
              (Z.to_nat (k_ p)) (0 + 1)%Z
              ((0 + coef p s 0 * 1)%Q, (1 * dx)%Q)) as (st & E & [Hr _]).
  - intros i [r xp] Hi [Ir Ixp]. cbn [fst snd] in *.
    rewrite (mat_at_coef p s i W Hs) by lia. cbn [bind].
    eexists. split; [reflexivity |]. cbn [fst snd]. split.
    + rewrite Ir, Ixp. ring.
    + rewrite Ixp. ring.
  - cbn [fst snd]. split; [ring | rewrite Hdx; ring].
  - rewrite E. cbn [bind]. exists (fst st). split; [reflexivity | exact Hr].
Qed.

(** ** [compute_value] inside and outside the domain *)

Lemma compute_value_in_ok (NDEBUG : bool) (p : piecewise_polynomial) (x : Q) (s : Z) :
  well_formed p -> (0 <= s < n_sections_ p)%Z ->
  (edge (section_edges_ p) (Z.to_nat s) <= x)%Q ->
  (x <= edge (section_edges_ p) (Z.to_nat (s + 1)))%Q ->
  exists r, PP.compute_value_in NDEBUG p x s = Ok r.
Proof.
  intros W Hs Hlo Hhi.
  destruct (well_formed_facts p W) as (_ & Hn & Hsz & _).
  unfold PP.compute_value_in.
  rewrite (check_validity_dbg_well_formed NDEBUG p W). cbn [bind].
  rewrite (edge_at (section_edges_ p) s) by lia.
  rewrite (edge_at (section_edges_ p) (s + 1)) by lia.
  cbn [bind].
  apply Qle_bool_iff in Hlo. apply Qle_bool_iff in Hhi. rewrite Hlo, Hhi.
  unfold PP.c_assert. rewrite orb_true_r.
  replace (if NDEBUG then Ok tt else Ok tt) with (Ok tt) by (now destruct NDEBUG).
  cbn [bind]. unfold PP.power_sum, for_range.
  destruct (for_loop_ok
              (fun q (st : Q * Q) =>
                 let (r, x_pow) := st in
                 cp <- mat_at (coeff_ p) s q ;;
                 Ok (r + cp * x_pow, x_pow * (x - edge (section_edges_ p) (Z.to_nat s)))%Q)
              (Z.to_nat (k_ p + 1 - 0)) 0 (0%Q, 1%Q)) as [st E].
  { intros i [r xp] Hi.
    destruct (mat_at_well_formed p s i W Hs ltac:(lia)) as [c Ec].
    rewrite Ec. cbn [bind]. eauto. }
  rewrite E. cbn [bind]. eauto.
Qed.

(** [value(S[0])] and [value(S[N])] succeed. *)
Lemma compute_value_endpoints_ok (NDEBUG : bool) (p : piecewise_polynomial) :
  well_formed p ->
  (exists r, PP.compute_value NDEBUG p (edge (section_edges_ p) 0) = Ok r)
  /\ (exists r, PP.compute_value NDEBUG p
                  (edge (section_edges_ p) (Z.to_nat (n_sections_ p))) = Ok r).
Proof.
  intro W. destruct (well_formed_facts p W) as (_ & Hn & Hsz & _ & _ & Hasc).
  assert (Hlen : Z.of_nat (length (section_edges_ p)) = (n_sections_ p + 1)%Z)
    by exact Hsz.
  split.
  - pose proof (compute_value_edge NDEBUG p 0 (edge (section_edges_ p) 0) W
                  ltac:(lia) ltac:(reflexivity)) as E.
    unfold section_of_edge in E.
    replace (0 =? n_sections_ p)%Z with false in E by (symmetry; apply Z.eqb_neq; lia).
    rewrite E. apply compute_value_in_ok; [exact W | lia | apply Qle_refl |].
    apply ascending_le; [exact Hasc | lia | lia].
  - pose proof (compute_value_edge NDEBUG p (n_sections_ p)
                  (edge (section_edges_ p) (Z.to_nat (n_sections_ p))) W
                  ltac:(lia) ltac:(reflexivity)) as E.
    unfold section_of_edge in E.
    rewrite Z.eqb_refl in E. rewrite E.
    apply compute_value_in_ok; [exact W | lia | |].
    + apply ascending_le; [exact Hasc | lia | lia].
    + replace (n_sections_ p - 1 + 1)%Z with (n_sections_ p) by lia. apply Qle_refl.
Qed.

(** No call of [compute_value] on a well-formed object throws: the
    range check [check_range] is not on its path. *)
Lemma compute_value_never_throws (NDEBUG : bool) (p : piecewise_polynomial)
      (x : Q) (w : string) :
  well_formed p -> PP.compute_value NDEBUG p x <> Throw w.
Proof.
  intros W H.
  apply (throws_in_compute_value NDEBUG [] p
           (or_introl (check_validity_dbg_well_formed NDEBUG p W)) x w H).
Qed.

(** Outside [S[0], S[N]] the evaluation of a well-formed object of order
    at least 0 runs into an out-of-range access. *)
Lemma compute_value_outside_undefined (NDEBUG : bool) (p : piecewise_polynomial)
      (x : Q) :
  well_formed p -> (0 <= k_ p)%Z ->
  (x < edge (section_edges_ p) 0
   \/ edge (section_edges_ p) (Z.to_nat (n_sections_ p)) < x)%Q ->
  PP.compute_value NDEBUG p x = Undefined.
Proof.
  intros W Hk Hx.
  destruct (well_formed_facts p W) as (_ & Hn & Hsz & Hrows & _ & Hasc).
  assert (Hlen : Z.of_nat (length (section_edges_ p)) = (n_sections_ p + 1)%Z)
    by exact Hsz.
  assert (H0N : (edge (section_edges_ p) 0
                 < edge (section_edges_ p) (Z.to_nat (n_sections_ p)))%Q)
    by (apply ascending_lt; [exact Hasc | lia | lia]).
  destruct (upper_bound_spec (section_edges_ p) x Hasc) as (Hr & Hlo & Hhi).
  unfold PP.compute_value, PP.find_section.
  rewrite (check_validity_dbg_well_formed NDEBUG p W). cbn [bind].
  rewrite (edge_at (section_edges_ p) 0) by lia. cbn [bind].
  change (Z.to_nat 0) with 0%nat.
  rewrite (edge_at (section_edges_ p) (size (section_edges_ p) - 1)) by lia.
  rewrite Hsz.
  replace (Z.to_nat (n_sections_ p + 1 - 1)) with (Z.to_nat (n_sections_ p)) by lia.
  replace (Qeq_bool x (edge (section_edges_ p) 0)) with false.
  2:{ symmetry. apply Qeq_bool_false_iff. intro E. rewrite E in Hx.
      destruct Hx as [Hx | Hx].
      - exact (Qlt_irrefl _ Hx).
      - exact (Qlt_irrefl _ (Qlt_trans _ _ _ H0N Hx)). }
  cbn [bind].
  replace (Qeq_bool x (edge (section_edges_ p) (Z.to_nat (n_sections_ p)))) with false.
  2:{ symmetry. apply Qeq_bool_false_iff. intro E. rewrite E in Hx.
      destruct Hx as [Hx | Hx].
      - exact (Qlt_irrefl _ (Qlt_trans _ _ _ Hx H0N)).
      - exact (Qlt_irrefl _ Hx). }
  destruct Hx as [Hx | Hx].
  - (* below the first edge: the iterator is decremented at begin() *)
    destruct (upper_bound (section_edges_ p) x) as [| r] eqn:U; [reflexivity |].
    exfalso. assert (edge (section_edges_ p) 0 <= x)%Q by (apply Hlo; lia).
    exact (Qlt_not_le _ _ Hx H).
  - (* above the last edge: section N does not exist *)
    assert (U : upper_bound (section_edges_ p) x = length (section_edges_ p)).
    { destruct (Nat.eq_dec (upper_bound (section_edges_ p) x)
                           (length (section_edges_ p))) as [E | N]; [exact E |].
      exfalso.
      assert (x < edge (section_edges_ p) (Z.to_nat (n_sections_ p)))%Q
        by (apply Hhi; lia).
      exact (Qlt_irrefl _ (Qlt_trans _ _ _ H Hx)). }
    rewrite U.
    destruct (length (section_edges_ p)) as [| n] eqn:L; [lia |].
    cbn [bind]. unfold PP.compute_value_in.
    rewrite (check_validity_dbg_well_formed NDEBUG p W). cbn [bind].
    assert (En : Z.of_nat n = n_sections_ p) by lia. rewrite En.
    rewrite (edge_at (section_edges_ p) (n_sections_ p)) by lia. cbn [bind].
    assert (OOB : at_ (section_edges_ p) (n_sections_ p + 1) = Undefined).
    { unfold at_. destruct (n_sections_ p + 1 <? 0)%Z; [reflexivity |].
      replace (nth_error (section_edges_ p) (Z.to_nat (n_sections_ p + 1)))
        with (@None Q); [reflexivity |].
      symmetry. apply nth_error_None. lia. }
    assert (ROW : at_ (coeff_ p) (n_sections_ p) = Undefined).
    { unfold at_. destruct (n_sections_ p <? 0)%Z; [reflexivity |].
      replace (nth_error (coeff_ p) (Z.to_nat (n_sections_ p)))
        with (@None (list Q)); [reflexivity |].
      symmetry. apply nth_error_None. unfold size in Hrows. lia. }
    destruct NDEBUG.
    + cbn [bind]. unfold PP.power_sum, for_range.
      destruct (Z.to_nat (k_ p + 1 - 0)) as [| m] eqn:K; [lia |].
      cbn [for_loop]. unfold mat_at. rewrite ROW. reflexivity.
    + replace (Qle_bool (edge (section_edges_ p) (Z.to_nat (n_sections_ p))) x)
        with true by (symmetry; apply Qle_bool_iff; now apply Qlt_le_weak).
      rewrite OOB. reflexivity.
Qed.

(** C4 (what the code does at the failing input).  For f(x) = x on [0,1]:
    [value(0)] and [value(1)] succeed, but [value(2)] and [value(-1)] are
    out-of-range accesses, not the error that the unused [check_range]
    would raise. *)
Theorem compute_value_outside_is_not_range_error (NDEBUG : bool) :
  well_formed pp_x
  /\ PP.compute_value NDEBUG pp_x 0 = Ok 0%Q
  /\ PP.compute_value NDEBUG pp_x 1 = Ok 1%Q
  /\ PP.compute_value NDEBUG pp_x 2 = Undefined
  /\ PP.compute_value NDEBUG pp_x (-1) = Undefined
  /\ PP.check_range pp_x 2 = Throw "Give x is out of the range."
  /\ PP.check_range pp_x (-1) = Throw "Give x is out of the range.".
Proof.
  split; [split; reflexivity |].
  destruct NDEBUG; repeat split; reflexivity.
Qed.

(** ** Addition and subtraction: [do_op] *)

(** Row [s] of the result of [do_op]: the common powers combined, the
    powers above the lower order zero. *)
Definition do_op_row (op : Q -> Q -> Q) (f1 f2 : piecewise_polynomial) (s : Z)
  : list Q :=
  map (fun p => op (coef f1 s p) (coef f2 s p)) (seqZ (Z.min (k_ f1) (k_ f2) + 1))
  ++ repeat 0%Q (Z.to_nat (Z.max (k_ f1) (k_ f2) - Z.min (k_ f1) (k_ f2))).

(** Writing the entries of [cr] into row [|pre|] of a matrix, one by one
    ([result.coeff_(s, k) = coeff_r[k]]). *)
Lemma row_write_loop_gen (cr : list Q) (pre post : matrix) :
  forall n j rest,
    (j + n = length cr)%nat -> length rest = n ->
    for_loop n (Z.of_nat j)
      (fun k res => a <- at_ cr k ;; mat_set res (Z.of_nat (length pre)) k a)
      (pre ++ (firstn j cr ++ rest) :: post)
    = Ok (pre ++ cr :: post).
Proof.
  induction n as [| n IH]; intros j rest Hj Hr.
  - destruct rest; [| discriminate]. cbn [for_loop].
    rewrite app_nil_r. replace j with (length cr) by lia. now rewrite firstn_all.
  - destruct rest as [| x rest]; [discriminate |]. cbn [for_loop].
    rewrite (at_in_range cr (Z.of_nat j) 0%Q) by (unfold size; lia).
    cbn [bind]. rewrite Nat2Z.id. unfold mat_set.
    rewrite at_app_head. cbn [bind].
    assert (Lj : length (firstn j cr) = j) by (rewrite length_firstn; lia).
    rewrite <- Lj at 2. rewrite set_at_app. cbn [bind]. rewrite set_at_app.
    replace (firstn j cr ++ nth j cr 0%Q :: rest)
      with (firstn (Datatypes.S j) cr ++ rest).
    2:{ rewrite (firstn_succ_nth cr j 0%Q) by lia. now rewrite <- app_assoc. }
    replace (Z.of_nat j + 1)%Z with (Z.of_nat (Datatypes.S j)) by lia.
    apply IH; [lia | simpl in Hr; lia].
Qed.

Lemma row_write_loop (cr row : list Q) (pre post : matrix) (m s : Z) :
  s = Z.of_nat (length pre) ->
  length cr = Z.to_nat m -> length row = Z.to_nat m ->
  for_range 0 m (fun k res => a <- at_ cr k ;; mat_set res s k a) (pre ++ row :: post)
  = Ok (pre ++ cr :: post).
Proof.
  intros -> Hc Hr. unfold for_range. replace (m - 0)%Z with m by lia.
  exact (row_write_loop_gen cr pre post (Z.to_nat m) 0 row ltac:(lia) Hr).
Qed.

Section DoOp.

Variable NDEBUG : bool.
Variable op : Q -> Q -> Q.
Variables f1 f2 : piecewise_polynomial.
Hypothesis W1 : well_formed f1.
Hypothesis W2 : well_formed f2.
Hypothesis Hedges : vec_eqb (section_edges_ f1) (section_edges_ f2) = true.

Lemma same_sections : n_sections_ f2 = n_sections_ f1.
Proof.
  destruct (well_formed_facts f1 W1) as (_ & _ & S1 & _).
  destruct (well_formed_facts f2 W2) as (_ & _ & S2 & _).
  apply vec_eqb_length in Hedges. unfold size in *. lia.
Qed.

(** [perform] on the copied rows of section [s]. *)
Lemma perform_row (s : Z) (cr front : list Q) :
  (0 <= s < n_sections_ f1)%Z ->
  cr = front ++ repeat 0%Q (Z.to_nat (Z.max (k_ f1) (k_ f2) - Z.min (k_ f1) (k_ f2))) ->
  length front = Z.to_nat (Z.min (k_ f1) (k_ f2) + 1) ->
  PP.perform NDEBUG op (map (coef f1 s) (seqZ (k_ f1 + 1)))
             (map (coef f2 s) (seqZ (k_ f2 + 1))) cr (k_ f1) (k_ f2)
             (Z.min (k_ f1) (k_ f2))
  = Ok (do_op_row op f1 f2 s).
Proof.
  intros Hs Hcr Hfront.
  pose proof (well_formed_order f1 W1) as O1.
  pose proof (well_formed_order f2 W2) as O2.
  unfold PP.perform, PP.c_assert.
  rewrite Z.leb_refl, orb_true_r. cbn [bind].
  rewrite (write_loop _ (fun _ => 0%Q) (Z.min (k_ f1) (k_ f2) + 1) cr).
  2:{ rewrite Hcr, length_app. lia. }
  2:{ reflexivity. }
  cbn [bind].
  rewrite (write_loop _ (fun i => op (coef f1 s i) (coef f2 s i))
                      (Z.min (k_ f1) (k_ f2) + 1)).
  2:{ rewrite length_app, length_map_seqZ. lia. }
  2:{ intros i v Hi.
      rewrite (at_map_seqZ (coef f1 s) (k_ f1 + 1) i) by lia.
      rewrite (at_map_seqZ (coef f2 s) (k_ f2 + 1) i) by lia.
      reflexivity. }
  unfold do_op_row. f_equal. f_equal.
  rewrite skipn_app_exact by apply length_map_seqZ.
  rewrite Hcr. now apply skipn_app_exact.
Qed.

(** On well-formed operands over one partition, [do_op] returns the
    piecewise polynomial of order max(k1, k2) whose row [s] is
    [do_op_row op f1 f2 s]: for p <= min(k1, k2) the coefficient is
    [op a1[s,p] a2[s,p]], for the powers above it is 0. *)
Lemma do_op_spec :
  PP.do_op NDEBUG op f1 f2
  = Ok (mk_pp (Z.max (k_ f1) (k_ f2)) (n_sections_ f1) (section_edges_ f1)
              (map (do_op_row op f1 f2) (seqZ (n_sections_ f1))) true).
Proof.
  pose proof (well_formed_order f1 W1) as O1.
  pose proof (well_formed_order f2 W2) as O2.
  pose proof same_sections as Hn2.
  destruct (well_formed_facts f1 W1) as (V1 & Hn & Hsz & Hrows & Hcols & Hasc).
  set (k_new := Z.max (k_ f1) (k_ f2)).
  set (k_min := Z.min (k_ f1) (k_ f2)).
  set (n := n_sections_ f1).
  set (zero_row := repeat 0%Q (Z.to_nat (k_new + 1))).
  unfold PP.do_op. rewrite Hedges. cbn [negb].
  unfold PP.section_edges, PP.num_sections, PP.order.
  rewrite (check_validity_dbg_well_formed NDEBUG f1 W1). cbn [bind].
  (* the zero object of order k_new *)
  assert (Ezero : PP.make_zero NDEBUG k_new (section_edges_ f1)
                  = Ok (mk_pp k_new n (section_edges_ f1)
                              (repeat zero_row (Z.to_nat n)) true)).
  { unfold PP.make_zero. rewrite Hsz.
    replace (n_sections_ f1 + 1 - 1)%Z with n by (unfold n; lia).
    replace (n <? 0)%Z with false by (symmetry; apply Z.ltb_ge; unfold n; lia).
    replace (k_new + 1 <? 0)%Z with false
      by (symmetry; apply Z.ltb_ge; unfold k_new; lia).
    cbn [orb]. unfold PP.construct. rewrite Hsz.
    replace (n_sections_ f1 + 1 - 1)%Z with n by (unfold n; lia).
    assert (V : PP.validity k_new n (section_edges_ f1) (mat_zero n (k_new + 1)) = true).
    { unfold PP.validity, mat_zero, mat_rows, size.
      rewrite repeat_length.
      repeat (apply andb_true_iff; split).
      - apply Z.leb_le. unfold n. lia.
      - apply Z.eqb_eq. exact Hsz.
      - apply Z.eqb_eq. unfold n. lia.
      - apply forallb_forall. intros r Hr. apply repeat_spec in Hr. subst r.
        rewrite repeat_length. apply Z.eqb_eq. unfold k_new. lia.
      - exact Hasc. }
    rewrite V. unfold PP.c_assert at 1. rewrite orb_true_r. cbn [bind].
    unfold PP.check_validity, PP.c_assert. cbn [section_edges_ valid_].
    replace (0 <? size (section_edges_ f1))%Z with true
      by (symmetry; apply Z.ltb_lt; lia).
    rewrite orb_true_r. reflexivity. }
  fold k_new. rewrite Ezero. cbn [bind coeff_ k_ n_sections_ section_edges_ valid_].
  fold k_min n.
  (* the loop over the sections *)
  pose (I := fun (s : Z) (st : list Q * list Q * list Q * matrix) =>
               let '(c1, c2, cr, res) := st in
               length c1 = Z.to_nat (k_ f1 + 1)
               /\ length c2 = Z.to_nat (k_ f2 + 1)
               /\ (exists front,
                     cr = front ++ repeat 0%Q (Z.to_nat (k_new - k_min))
                     /\ length front = Z.to_nat (k_min + 1))
               /\ res = map (do_op_row op f1 f2) (seqZ s)
                        ++ repeat zero_row (Z.to_nat (n - s))).
  match goal with
  | |- context [for_range 0 n ?body ?init] =>
      destruct (for_range_total I body n init) as ([[[c1 c2] cr] res] & E & Hfin)
  end.
  - unfold n. lia.
  - intros s [[[c1 c2] cr] res] Hs (L1 & L2 & (front & Hcr & Hfront) & Hres).
    assert (Hs' : (0 <= s < n)%Z) by lia.
    rewrite (write_loop _ (coef f1 s) (k_ f1 + 1) c1).
    2:{ lia. }
    2:{ intros k v Hk. rewrite (mat_at_coef f1 s k W1) by (unfold n in *; lia). reflexivity. }
    cbn [bind]. rewrite (skipn_all_length c1) by lia. rewrite app_nil_r.
    rewrite (write_loop _ (coef f2 s) (k_ f2 + 1) c2).
    2:{ lia. }
    2:{ intros k v Hk. rewrite (mat_at_coef f2 s k W2) by (unfold n in *; lia).
        reflexivity. }
    cbn [bind]. rewrite (skipn_all_length c2) by lia. rewrite app_nil_r.
    pose proof (perform_row s cr front Hs' Hcr Hfront) as Ep.
    fold k_min in Ep. rewrite Ep. clear Ep. cbn [bind].
    assert (Lrow : length (do_op_row op f1 f2 s) = Z.to_nat (k_new + 1)).
    { unfold do_op_row. rewrite length_app, length_map_seqZ, repeat_length.
      fold k_min k_new. unfold k_min, k_new. lia. }
    rewrite Hres.
    replace (Z.to_nat (n - s)) with (Datatypes.S (Z.to_nat (n - (s + 1)))) by lia.
    cbn [repeat].
    assert (Lpre : Z.of_nat (length (map (do_op_row op f1 f2) (seqZ s))) = s).
    { rewrite length_map_seqZ. lia. }
    rewrite (row_write_loop (do_op_row op f1 f2 s) zero_row _ _ (k_new + 1) s
                            (eq_sym Lpre) Lrow).
    2:{ unfold zero_row. apply repeat_length. }
    cbn [bind]. eexists. split; [reflexivity |].
    unfold I. repeat split.
    + apply length_map_seqZ.
    + apply length_map_seqZ.
    + exists (map (fun p => op (coef f1 s p) (coef f2 s p)) (seqZ (k_min + 1))).
      split; [reflexivity | apply length_map_seqZ].
    + rewrite (seqZ_succ s) by lia. rewrite map_app. cbn [map].
      now rewrite <- app_assoc.
  - unfold I. repeat split; try apply repeat_length.
    + exists (repeat 0%Q (Z.to_nat (k_min + 1))). split; [| apply repeat_length].
      rewrite <- repeat_app. f_equal. unfold k_min, k_new. lia.
    + replace (n - 0)%Z with n by lia. reflexivity.
  - rewrite E. cbn [bind]. destruct Hfin as (_ & _ & _ & Hres).
    rewrite Hres.
    replace (Z.to_nat (n - n)) with 0%nat by lia. cbn [repeat].
    now rewrite app_nil_r.
Qed.

End DoOp.

Lemma do_op_row_nth (op : Q -> Q -> Q) (f1 f2 : piecewise_polynomial) (s p : Z) :
  (0 <= p <= Z.max (k_ f1) (k_ f2))%Z ->
  nth (Z.to_nat p) (do_op_row op f1 f2 s) 0%Q
  = if (p <=? Z.min (k_ f1) (k_ f2))%Z
    then op (coef f1 s p) (coef f2 s p)
    else 0%Q.
Proof.
  intro Hp. unfold do_op_row.
  destruct (p <=? Z.min (k_ f1) (k_ f2))%Z eqn:E.
  - apply Z.leb_le in E.
    rewrite app_nth1 by (rewrite length_map_seqZ; lia).
    exact (nth_map_seqZ (fun q => op (coef f1 s q) (coef f2 s q))
                        (Z.min (k_ f1) (k_ f2) + 1) p 0%Q ltac:(lia)).
  - apply Z.leb_gt in E.
    rewrite app_nth2 by (rewrite length_map_seqZ; lia).
    apply nth_repeat.
Qed.

(** The coefficients of [f1 op f2]: the result is well formed, has order
    max(k1, k2), and its coefficient of power [p] in section [s] is
    [op a1[s,p] a2[s,p]] for p <= min(k1, k2) and 0 above. *)
Lemma do_op_coefficients (NDEBUG : bool) (op : Q -> Q -> Q)
      (f1 f2 : piecewise_polynomial) :
  well_formed f1 -> well_formed f2 ->
  vec_eqb (section_edges_ f1) (section_edges_ f2) = true ->
  exists r,
    PP.do_op NDEBUG op f1 f2 = Ok r
    /\ well_formed r
    /\ k_ r = Z.max (k_ f1) (k_ f2)
    /\ n_sections_ r = n_sections_ f1
    /\ section_edges_ r = section_edges_ f1
    /\ forall s p, (0 <= s < n_sections_ f1)%Z -> (0 <= p <= Z.max (k_ f1) (k_ f2))%Z ->
         coef r s p = if (p <=? Z.min (k_ f1) (k_ f2))%Z
                      then op (coef f1 s p) (coef f2 s p)
                      else 0%Q.
Proof.
  intros W1 W2 He.
  pose proof (well_formed_order f1 W1) as O1.
  pose proof (well_formed_order f2 W2) as O2.
  destruct (well_formed_facts f1 W1) as (V1 & Hn & Hsz & Hrows & Hcols & Hasc).
  eexists. split; [apply (do_op_spec NDEBUG op f1 f2 W1 W2 He) |].
  split.
  { split; [reflexivity |]. cbn [k_ n_sections_ section_edges_ coeff_].
    unfold PP.validity, mat_rows, size. rewrite length_map_seqZ.
    repeat (apply andb_true_iff; split).
    - now apply Z.leb_le.
    - apply Z.eqb_eq. exact Hsz.
    - apply Z.eqb_eq. lia.
    - apply forallb_forall. intros r Hr. apply in_map_iff in Hr.
      destruct Hr as (s & <- & _). apply Z.eqb_eq. unfold do_op_row.
      rewrite length_app, length_map_seqZ, repeat_length. lia.
    - exact Hasc. }
  repeat split.
  intros s p Hs Hp. unfold coef. cbn [coeff_].
  rewrite (nth_map_seqZ (do_op_row op f1 f2) (n_sections_ f1) s []) by lia.
  now apply do_op_row_nth.
Qed.

(** When the order of [f] exceeds that of [g], the powers of [f] above
    the order of [g] are lost in [f + g]. *)
Lemma plus_loses_higher_powers (NDEBUG : bool) (f g : piecewise_polynomial) :
  well_formed f -> well_formed g ->
  vec_eqb (section_edges_ f) (section_edges_ g) = true ->
  exists h,
    PP.plus NDEBUG f g = Ok h
    /\ k_ h = Z.max (k_ f) (k_ g)
    /\ forall s p, (0 <= s < n_sections_ f)%Z -> (k_ g < p <= k_ f)%Z ->
         coef h s p = 0%Q.
Proof.
  intros Wf Wg He.
  pose proof (well_formed_order g Wg) as Og.
  destruct (do_op_coefficients NDEBUG Qplus f g Wf Wg He)
    as (h & Eh & _ & Kh & _ & _ & Ch).
  exists h. split; [exact Eh |]. split; [exact Kh |].
  intros s p Hs Hp. rewrite Ch by lia.
  replace (p <=? Z.min (k_ f) (k_ g))%Z with false
    by (symmetry; apply Z.leb_gt; lia).
  reflexivity.
Qed.

(** C2 (what the code does at the failing input).  With f = x (order 1,
    coefficients (0, 1)) and g = 5 (order 0) on the partition [0,1],
    [f + g] has order max(1, 0) = 1 but coefficients (5, 0): the order-1
    coefficient of f is dropped instead of being added to the zero padding
    of g, and [(f + g) - g] has coefficients (0, 0), which is not f. *)
Theorem plus_drops_higher_coefficients (NDEBUG : bool) :
  PP.plus NDEBUG pp_x pp_five = Ok (mk_pp 1 1 [0; 1]%Q [[5; 0]%Q] true)
  /\ PP.coefficient NDEBUG pp_x 0 1 = Ok 1%Q
  /\ (h <- PP.plus NDEBUG pp_x pp_five ;; PP.coefficient NDEBUG h 0 1) = Ok 0%Q
  /\ (h <- PP.plus NDEBUG pp_x pp_five ;; PP.minus NDEBUG h pp_five)
     = Ok (mk_pp 1 1 [0; 1]%Q [[0; 0]%Q] true).
Proof.
  destruct NDEBUG; repeat split; reflexivity.
Qed.

(** ** [multiply] and [integrate] *)

(** C9.  For [f(x) = x] on [0,1] (order 1, one section, coefficients
    (0, 1)), [multiply(f, f)] is the order-2 piecewise polynomial with
    coefficients (0, 0, 1), the convolution of (0, 1) with itself, and
    [integrate(multiply(f, f))] is 1/3. *)
Theorem integrate_multiply_x_x (NDEBUG : bool) :
  PP.make NDEBUG 1 [0; 1]%Q [[0; 1]%Q] = Ok pp_x
  /\ PP.multiply NDEBUG pp_x pp_x = Ok (mk_pp 2 1 [0; 1]%Q [[0; 0; 1]%Q] true)
  /\ exists r : Q,
       (m <- PP.multiply NDEBUG pp_x pp_x ;; PP.integrate NDEBUG m) = Ok r
       /\ (r == 1 # 3)%Q.
Proof.
  destruct NDEBUG.
  - split; [reflexivity |]. split; [reflexivity |].
    exists (2 # 6)%Q. split; reflexivity.
  - split; [reflexivity |]. split; [reflexivity |].
    exists (2 # 6)%Q. split; reflexivity.
Qed.

(** ** The ordering check of the Matsubara routines *)

(** No adjacent pair [a, b] of [v] has [gt a b]. *)
Fixpoint no_descent {A : Type} (gt : A -> A -> bool) (v : list A) : bool :=
  match v with
  | a :: ((b :: _) as t) => negb (gt a b) && no_descent gt t
  | _ => true
  end.

Lemma check_order_loop {A : Type} (gt : A -> A -> bool) (what : string) :
  forall (suffix pre : list A) (a : A),
    for_loop (length suffix) (Z.of_nat (length pre))
      (fun i _ =>
         x <- at_ (pre ++ a :: suffix) i ;;
         y <- at_ (pre ++ a :: suffix) (i + 1) ;;
         if gt x y then Throw what else Ok tt)
      tt
    = if no_descent gt (a :: suffix) then Ok tt else Throw what.
Proof.
  induction suffix as [| b t IH]; intros pre a; [reflexivity |].
  cbn [length for_loop].
  rewrite at_app_head. cbn [bind].
  replace (pre ++ a :: b :: t) with ((pre ++ [a]) ++ b :: t)
    by (now rewrite <- app_assoc).
  replace (Z.of_nat (length pre) + 1)%Z with (Z.of_nat (length (pre ++ [a])))
    by (rewrite length_app; simpl; lia).
  rewrite at_app_head. cbn [bind].
  change (no_descent gt (a :: b :: t)) with (negb (gt a b) && no_descent gt (b :: t)).
  destruct (gt a b); [reflexivity |]. cbn [bind negb andb].
  apply IH.
Qed.

(** The ordering loop accepts a non-empty vector exactly when no entry
    is greater than its successor. *)
Lemma check_order_no_descent {A : Type} (gt : A -> A -> bool) (what : string)
      (v : list A) :
  v <> [] ->
  check_order gt what v = if no_descent gt v then Ok tt else Throw what.
Proof.
  destruct v as [| a t]; [congruence | intros _].
  unfold check_order, for_adjacent.
  replace (size (a :: t) =? 0)%Z with false
    by (symmetry; apply Z.eqb_neq; unfold size; cbn [length]; lia).
  unfold for_range.
  replace (Z.to_nat (size (a :: t) - 1 - 0)) with (length t)
    by (unfold size; cbn [length]; lia).
  exact (check_order_loop gt what t [] a).
Qed.

Lemma check_order_Ok_nonempty {A : Type} (gt : A -> A -> bool) (what : string)
      (v : list A) :
  check_order gt what v = Ok tt -> v <> [] /\ no_descent gt v = true.
Proof.
  intro H. destruct v as [| a t]; [discriminate |].
  split; [discriminate |].
  rewrite check_order_no_descent in H by discriminate.
  destruct (no_descent gt (a :: t)); [reflexivity | discriminate].
Qed.

Definition o_order_msg : string := "o must be given in strictly ascending order!".
Definition n_order_msg : string := "n_vec must be in strictly ascending order!".
Definition w_order_msg : string := "w must be give in ascending order.".
Definition same_order_msg : string :=
  "Error in compute_transformation_matrix_to_matsubara: basis functions must be pieacewise polynomials of the same order".
Definition unit_interval_msg : string := "Piecewise polynomials must be defined on [0,1]".
Definition overlap_msg : string :=
  "Computing overlap between piecewise polynomials with different section edges are not supported".

Section MatsubaraThrows.

Variable NDEBUG : bool.
Variable pi : Q.
Variable sqrt : Q -> Q.
Variable rpow : Q -> Q -> Q.
Variable cexp : C -> C.
Variable ws : list string.
Hypothesis Hinvalid : In invalid_msg ws.

Ltac pp_call :=
  first
    [ apply (throws_in_num_sections NDEBUG ws _ (or_intror Hinvalid))
    | apply (throws_in_section_edges NDEBUG ws _ (or_intror Hinvalid))
    | apply (throws_in_section_edge NDEBUG ws _ (or_intror Hinvalid))
    | apply (throws_in_coefficient NDEBUG ws _ (or_intror Hinvalid))
    | apply (throws_in_compute_value NDEBUG ws _ (or_intror Hinvalid))
    | apply (throws_in_derivative NDEBUG ws _ (or_intror Hinvalid)) ].

Ltac mats_throws := repeat first [ pp_call | throws_step ].

Lemma throws_in_check_order {A : Type} (gt : A -> A -> bool) (what : string)
      (v : list A) :
  In what ws -> throws_in ws (check_order gt what v).
Proof.
  intro I. unfold check_order.
  apply throws_in_for_adjacent. intros i s.
  apply throws_in_bind; [apply throws_in_at | intros a _].
  apply throws_in_bind; [apply throws_in_at | intros b _].
  destruct (gt a b); [now apply throws_in_Throw | apply throws_in_Ok].
Qed.

Lemma throws_in_construct_exp_functions_coeff (w edges : list Q) (k : Z) :
  throws_in ws (Matsubara.construct_exp_functions_coeff cexp w edges k).
Proof. unfold Matsubara.construct_exp_functions_coeff. mats_throws. Qed.

Lemma throws_in_compute_Ik (x0 dx w : Q) (K : Z) (Ik : list C) :
  throws_in ws (Matsubara.compute_Ik cexp x0 dx w K Ik).
Proof. unfold Matsubara.compute_Ik. mats_throws. Qed.

Lemma throws_in_overlap (p q : piecewise_polynomial) :
  In overlap_msg ws -> throws_in ws (PP.overlap NDEBUG p q).
Proof.
  intro I. unfold PP.overlap, PP.check_validity.
  apply throws_in_bind.
  { apply throws_in_bind; [apply throws_in_c_assert | intros _ _].
    destruct (valid_ p); [apply throws_in_Ok | now apply throws_in_Throw]. }
  intros _ _.
  destruct (negb (vec_eqb (section_edges_ p) (section_edges_ q)));
    [now apply throws_in_Throw |].
  mats_throws.
Qed.

Lemma throws_in_compute_integral_with_exp (w : list Q)
      (pp_func : list piecewise_polynomial) :
  In same_order_msg ws -> In unit_interval_msg ws -> In w_order_msg ws ->
  throws_in ws (Matsubara.compute_integral_with_exp NDEBUG pi cexp w pp_func).
Proof.
  intros I1 I2 I3. unfold Matsubara.compute_integral_with_exp.
  apply throws_in_bind; [apply throws_in_at | intros p0 _].
  apply throws_in_bind; [pp_call | intros n_section _].
  apply throws_in_bind.
  { apply throws_in_for_range. intros l [].
    apply throws_in_bind; [apply throws_in_at | intros pl _].
    destruct (negb (PP.order p0 =? PP.order pl)%Z); [now apply throws_in_Throw |].
    apply throws_in_bind; [pp_call | intros e0 _].
    destruct (negb (Qeq_bool e0 0)); [now apply throws_in_Throw |].
    apply throws_in_bind; [pp_call | intros eN _].
    destruct (negb (Qeq_bool eN 1)); [now apply throws_in_Throw | apply throws_in_Ok]. }
  intros _ _.
  apply throws_in_bind; [now apply throws_in_check_order | intros _ _].
  apply throws_in_bind; [pp_call | intros edges0 _].
  apply throws_in_bind;
    [apply throws_in_construct_exp_functions_coeff | intros exp_coeffs _].
  apply throws_in_for_range. intros s r.
  repeat first [ pp_call | apply throws_in_compute_Ik | throws_step ].
Qed.

Lemma throws_in_compute_Tbar_ol_after_check (o_vec : list Z)
      (bf_src : list piecewise_polynomial) (T : cmatrix) :
  In same_order_msg ws -> In unit_interval_msg ws -> In w_order_msg ws ->
  In overlap_msg ws ->
  (size o_vec =? 0)%Z = true \/ no_descent Z.gtb o_vec = true \/ In o_order_msg ws ->
  throws_in ws (Matsubara.compute_Tbar_ol NDEBUG pi sqrt cexp o_vec bf_src T).
Proof.
  intros I1 I2 I3 I4 Ho. unfold Matsubara.compute_Tbar_ol.
  destruct (size o_vec =? 0)%Z eqn:E0; [apply throws_in_Ok |].
  destruct Ho as [Ho | Ho]; [discriminate |].
  assert (Hne : o_vec <> []) by (intros ->; discriminate).
  apply throws_in_bind.
  { destruct Ho as [Ho | Ho].
    - rewrite (check_order_no_descent Z.gtb _ o_vec Hne), Ho. apply throws_in_Ok.
    - now apply throws_in_check_order. }
  intros _ _.
  apply throws_in_bind; [now apply throws_in_compute_integral_with_exp | intros T1 _].
  apply throws_in_bind; [mats_throws | intros T2 _].
  apply throws_in_bind.
  { apply throws_in_mapM. intro l.
    apply throws_in_bind; [apply throws_in_at | intros pl _].
    apply throws_in_bind; [now apply throws_in_overlap | intros ov _].
    apply throws_in_Ok. }
  intros inv_norm _. mats_throws.
Qed.

End MatsubaraThrows.

Section MatsubaraOrder.

Variable NDEBUG : bool.
Variable pi : Q.
Variable sqrt : Q -> Q.
Variable rpow : Q -> Q -> Q.
Variable cexp : C -> C.

Definition n_negative_msg : string := "n_vec cannot be negative!".
Definition num_tail_msg : string := "num_tail < 4.".

Definition Tbar_other_msgs : list string :=
  [invalid_msg; same_order_msg; unit_interval_msg; w_order_msg; overlap_msg].

Lemma throws_in_matsubara_after_check (ws : list string) (n_vec : list Z)
      (statis : statistics_type) (bf_src : list piecewise_polynomial) (T : cmatrix) :
  incl (o_order_msg :: n_negative_msg :: num_tail_msg :: Tbar_other_msgs) ws ->
  (size n_vec =? 0)%Z = true \/ no_descent Z.gtb n_vec = true \/ In n_order_msg ws ->
  throws_in ws
    (Matsubara.compute_transformation_matrix_to_matsubara
       NDEBUG pi sqrt rpow cexp n_vec statis bf_src T).
Proof.
  intros I Hn.
  assert (Iinv : In invalid_msg ws) by (apply I; simpl; tauto).
  unfold Matsubara.compute_transformation_matrix_to_matsubara.
  destruct (size n_vec =? 0)%Z eqn:E0; [apply throws_in_Ok |].
  destruct Hn as [Hn | Hn]; [discriminate |].
  assert (Hne : n_vec <> []) by (intros ->; discriminate).
  apply throws_in_bind.
  { destruct Hn as [Hn | Hn].
    - rewrite (check_order_no_descent Z.gtb _ n_vec Hne), Hn. apply throws_in_Ok.
    - now apply throws_in_check_order. }
  intros _ _.
  apply throws_in_bind; [apply throws_in_at | intros n0 _].
  destruct (n0 <? 0)%Z; [apply throws_in_Throw; apply I; simpl; tauto |].
  apply throws_in_bind; [apply throws_in_at | intros b0 _].
  destruct (Z.min (2 * (PP.order b0 ÷ 2)) 4 <? 4)%Z;
    [apply throws_in_Throw; apply I; simpl; tauto |].
  apply throws_in_bind.
  { apply throws_in_mapM. intro l.
    apply throws_in_bind; [apply throws_in_at | intros bl _].
    apply throws_in_bind; [| intros; apply throws_in_Ok].
    apply throws_in_for_range. intros m [row ztmp].
    apply throws_in_bind;
      [apply (throws_in_derivative NDEBUG ws bl (or_intror Iinv)) | intros d _].
    apply throws_in_Ok. }
  intros tails _.
  apply throws_in_bind; [throws_auto | intros num_low_freq _].
  apply throws_in_bind; [throws_auto | intros max_num_low_freq _].
  apply throws_in_bind; [throws_auto | intros ovec _].
  apply throws_in_bind.
  { apply throws_in_compute_Tbar_ol_after_check;
      try (apply I; simpl; tauto); try exact Iinv.
    right. right. apply I. simpl. tauto. }
  intros Tlow _. throws_auto.
Qed.

(** [compute_Tbar_ol] raises its ordering error exactly when some entry of
    a non-empty [o_vec] is greater than its successor. *)
Lemma compute_Tbar_ol_order_error_iff (o_vec : list Z)
      (bf_src : list piecewise_polynomial) (T : cmatrix) :
  Matsubara.compute_Tbar_ol NDEBUG pi sqrt cexp o_vec bf_src T = Throw o_order_msg
  <-> o_vec <> [] /\ no_descent Z.gtb o_vec = false.
Proof.
  split.
  - intro H. destruct o_vec as [| o t] eqn:Eo; [discriminate |]. rewrite <- Eo in *.
    split; [congruence |].
    destruct (no_descent Z.gtb o_vec) eqn:D; [exfalso | reflexivity].
    assert (In o_order_msg Tbar_other_msgs).
    { apply (throws_in_compute_Tbar_ol_after_check NDEBUG pi sqrt cexp Tbar_other_msgs
               ltac:(simpl; tauto) o_vec bf_src T);
        simpl; tauto. }
    simpl in H0. repeat (destruct H0 as [H0 | H0]; [discriminate |]). exact H0.
  - intros [Hne D]. unfold Matsubara.compute_Tbar_ol.
    replace (size o_vec =? 0)%Z with false.
    2:{ symmetry. apply Z.eqb_neq. destruct o_vec; [congruence |].
        unfold size. cbn [length]. lia. }
    fold o_order_msg.
    rewrite (check_order_no_descent Z.gtb o_order_msg o_vec Hne), D. reflexivity.
Qed.

(** The same for [n_vec] in [compute_Tnl]. *)
Lemma compute_Tnl_order_error_iff (n_vec : list Z) (statis : statistics_type)
      (bf_src : list piecewise_polynomial) (T : cmatrix) :
  Matsubara.compute_transformation_matrix_to_matsubara
    NDEBUG pi sqrt rpow cexp n_vec statis bf_src T = Throw n_order_msg
  <-> n_vec <> [] /\ no_descent Z.gtb n_vec = false.
Proof.
  split.
  - intro H. destruct n_vec as [| n t] eqn:En; [discriminate |]. rewrite <- En in *.
    split; [congruence |].
    destruct (no_descent Z.gtb n_vec) eqn:D; [exfalso | reflexivity].
    assert (In n_order_msg
               (o_order_msg :: n_negative_msg :: num_tail_msg :: Tbar_other_msgs)).
    { apply (throws_in_matsubara_after_check _ n_vec statis bf_src T
               (incl_refl _)); [| exact H]. right. left. exact D. }
    simpl in H0. repeat (destruct H0 as [H0 | H0]; [discriminate |]). exact H0.
  - intros [Hne D]. unfold Matsubara.compute_transformation_matrix_to_matsubara.
    replace (size n_vec =? 0)%Z with false.
    2:{ symmetry. apply Z.eqb_neq. destruct n_vec; [congruence |].
        unfold size. cbn [length]. lia. }
    fold n_order_msg.
    rewrite (check_order_no_descent Z.gtb n_order_msg n_vec Hne), D. reflexivity.
Qed.

(** Strictly ascending vectors have no descent. *)
Lemma strictly_ascending_no_descent (v : list Z) :
  (forall i a b, nth_error v i = Some a -> nth_error v (Datatypes.S i) = Some b ->
                 (a < b)%Z) ->
  no_descent Z.gtb v = true.
Proof.
  induction v as [| a [| b t] IH]; intro H; try reflexivity.
  change (negb (a >? b)%Z && no_descent Z.gtb (b :: t) = true).
  apply andb_true_iff. split.
  - specialize (H 0%nat a b eq_refl eq_refl). rewrite Z.gtb_ltb.
    apply negb_true_iff. apply Z.ltb_ge. lia.
  - apply IH. intros i x y Hx Hy. exact (H (Datatypes.S i) x y Hx Hy).
Qed.

(** C5 (what the code does at the failing input).  Two equal adjacent
    entries are not rejected: [compute_Tbar_ol] on o_vec = (1, 1) and
    [compute_Tnl] on n_vec = (0, 0) do not raise their ordering errors,
    while the descending (2, 1) and (1, 0) do. *)
Theorem order_check_accepts_equal_neighbours
        (statis : statistics_type) (bf_src : list piecewise_polynomial) (T : cmatrix) :
  Matsubara.compute_Tbar_ol NDEBUG pi sqrt cexp [1; 1]%Z bf_src T
  <> Throw "o must be given in strictly ascending order!"
  /\ Matsubara.compute_transformation_matrix_to_matsubara
       NDEBUG pi sqrt rpow cexp [0; 0]%Z statis bf_src T
     <> Throw "n_vec must be in strictly ascending order!"
  /\ Matsubara.compute_Tbar_ol NDEBUG pi sqrt cexp [2; 1]%Z bf_src T
     = Throw "o must be given in strictly ascending order!"
  /\ Matsubara.compute_transformation_matrix_to_matsubara
       NDEBUG pi sqrt rpow cexp [1; 0]%Z statis bf_src T
     = Throw "n_vec must be in strictly ascending order!".
Proof.
  split; [| split; [| split]].
  - intro H. apply compute_Tbar_ol_order_error_iff in H. destruct H as [_ H].
    discriminate.
  - intro H. apply compute_Tnl_order_error_iff in H. destruct H as [_ H].
    discriminate.
  - apply compute_Tbar_ol_order_error_iff. split; [discriminate | reflexivity].
  - apply compute_Tnl_order_error_iff. split; [discriminate | reflexivity].
Qed.

End MatsubaraOrder.

(** ** The default precision across [compute_Tnl_impl] *)

(** A run that returns or throws leaves the precision at [pr0]. *)
Definition restores {A : Type} (pr0 : Z) (r : outcome A * Z) : Prop :=
  match r with
  | (Ok _, pr') => pr' = pr0
  | (Throw _, pr') => pr' = pr0
  | (Undefined, _) => True
  end.

(** A run that does not throw. *)
Definition no_throwP {A : Type} (r : outcome A * Z) : Prop :=
  match r with
  | (Throw _, _) => False
  | _ => True
  end.

Lemma no_throwP_bindP {A B : Type} (m : Matsubara.prec_m A)
      (f : A -> Matsubara.prec_m B) (pr : Z) :
  no_throwP (m pr) -> (forall a pr', no_throwP (f a pr')) ->
  no_throwP (Matsubara.bindP m f pr).
Proof.
  intros Hm Hf. unfold Matsubara.bindP.
  destruct (m pr) as [[a | w |] pr']; simpl in *; auto.
Qed.

Lemma no_throwP_liftP {A : Type} (m : outcome A) (pr : Z) :
  throws_in [] m -> no_throwP (Matsubara.liftP m pr).
Proof.
  intro H. unfold Matsubara.liftP. destruct m as [a | w |]; simpl; auto.
  exact (H w eq_refl).
Qed.

Lemma no_throwP_for_loopP {S : Type} (body : Z -> S -> Matsubara.prec_m S) :
  (forall i s pr, no_throwP (body i s pr)) ->
  forall n i s pr, no_throwP (Matsubara.for_loopP n i body s pr).
Proof.
  intro Hb. induction n as [| n IH]; intros i s pr; cbn [Matsubara.for_loopP].
  - exact I.
  - apply no_throwP_bindP; [apply Hb | intros; apply IH].
Qed.

(** A run that does not throw and, when it returns, leaves the precision
    at [pr0]. *)
Definition clean {A : Type} (pr0 : Z) (r : outcome A * Z) : Prop :=
  match r with
  | (Ok _, pr') => pr' = pr0
  | (Throw _, _) => False
  | (Undefined, _) => True
  end.

Lemma clean_bindP {A B : Type} (pr0 : Z) (m : Matsubara.prec_m A)
      (f : A -> Matsubara.prec_m B) (pr : Z) :
  no_throwP (m pr) -> (forall a pr', clean pr0 (f a pr')) ->
  clean pr0 (Matsubara.bindP m f pr).
Proof.
  intros Hm Hf. unfold Matsubara.bindP.
  destruct (m pr) as [[a | w |] pr']; simpl in *; auto.
Qed.

Lemma clean_restores {A : Type} (pr0 : Z) (r : outcome A * Z) :
  clean pr0 r -> restores pr0 r.
Proof. destruct r as [[a | w |] pr']; simpl; auto; contradiction. Qed.

Section Precision.

Variable NDEBUG : bool.
Variable pi : Q.
Variable sqrt cos sin : Q -> Q.
Variable digits2bits : Z -> Z.
Variable gauss_legendre_nodes : Z -> list (Q * Q).

Lemma throws_in_composite_gauss_legendre_nodes (edges : list Q) (nodes : list (Q * Q)) :
  throws_in [] (composite_gauss_legendre_nodes edges nodes).
Proof. unfold composite_gauss_legendre_nodes. throws_auto. Qed.

(** The tail raises the zero-frequency error exactly at w = 0, whatever
    else it is given ... *)
Lemma compute_Tnl_tail_zero_frequency (p : piecewise_polynomial) (w : Q)
      (l_even : bool) (s : statistics_type) (num_deriv : Z) :
  (w == 0)%Q ->
  Matsubara.compute_Tnl_tail NDEBUG sqrt p w l_even s num_deriv
  = Throw "Error zero frequency".
Proof.
  intro H. unfold Matsubara.compute_Tnl_tail. now rewrite (Qeq_eq_bool _ _ H).
Qed.

(** ... and on an object that passes the validity check it raises nothing
    at any other frequency. *)
Lemma throws_in_compute_Tnl_tail (p : piecewise_polynomial) (w : Q)
      (l_even : bool) (s : statistics_type) (num_deriv : Z) :
  PP.check_validity_dbg NDEBUG p = Ok tt ->
  Qeq_bool w 0 = false ->
  throws_in [] (Matsubara.compute_Tnl_tail NDEBUG sqrt p w l_even s num_deriv).
Proof.
  intros Hv Hw. unfold Matsubara.compute_Tnl_tail. rewrite Hw.
  apply throws_in_bind; [| intros; apply throws_in_Ok].
  apply throws_in_for_range. intros m [result coeff].
  apply throws_in_bind;
    [apply (throws_in_derivative NDEBUG [] p (or_introl Hv)) | intros d _].
  apply throws_in_Ok.
Qed.

(** Once [p.section_edges()] has returned, nothing throws any more and a
    run that returns has put the saved precision back. *)
Lemma compute_Tnl_impl_after_entry
      (p : piecewise_polynomial) (even : bool) (s : statistics_type) (w : Q)
      (digits_A digits_B : Z) (prec : Z) (edges : list Q) :
  PP.section_edges NDEBUG p = Ok edges ->
  clean prec
    (Matsubara.compute_Tnl_impl NDEBUG pi sqrt cos sin digits2bits
       gauss_legendre_nodes p even s w digits_A digits_B prec).
Proof.
  intro Eedges.
  assert (Hv : PP.check_validity_dbg NDEBUG p = Ok tt).
  { unfold PP.section_edges in Eedges.
    destruct (PP.check_validity_dbg NDEBUG p) as [[] | |]; [reflexivity | |];
      discriminate. }
  unfold Matsubara.compute_Tnl_impl.
  unfold Matsubara.bindP at 1. unfold Matsubara.get_default_prec at 1.
  unfold Matsubara.bindP at 1. unfold Matsubara.liftP at 1.
  rewrite Eedges.
  apply clean_bindP.
  { apply no_throwP_liftP. apply throws_in_composite_gauss_legendre_nodes. }
  intros global_nodes pr1.
  apply clean_bindP.
  { apply no_throwP_liftP. apply (throws_in_num_sections NDEBUG [] p (or_introl Hv)). }
  intros ns pr2.
  apply clean_bindP.
  { unfold Matsubara.for_rangeP. apply no_throwP_for_loopP. intros sec result pr.
    apply no_throwP_bindP.
    { apply no_throwP_liftP.
      apply (throws_in_section_edge NDEBUG [] p (or_introl Hv)). }
    intros x0 pr3.
    apply no_throwP_bindP.
    { apply no_throwP_liftP.
      apply (throws_in_section_edge NDEBUG [] p (or_introl Hv)). }
    intros x1 pr4.
    destruct (Qlt_bool (w * (x1 - x0)) ((1 # 10) * pi)).
    - apply no_throwP_bindP; [exact I | intros _ pr5].
      apply no_throwP_bindP; [| intros; exact I].
      apply no_throwP_liftP. apply throws_in_for_range. intros n tmp.
      apply throws_in_bind; [apply throws_in_at | intros nd _].
      apply throws_in_bind;
        [apply (throws_in_compute_value NDEBUG [] p (or_introl Hv)) | intros v _].
      apply throws_in_Ok.
    - apply no_throwP_bindP; [exact I | intros _ pr5].
      apply no_throwP_bindP; [| intros; exact I].
      apply no_throwP_liftP. apply throws_in_for_range. intros j Jk.
      apply throws_in_bind;
        [apply (throws_in_derivative NDEBUG [] p (or_introl Hv)) | intros f0 _].
      apply throws_in_bind;
        [apply (throws_in_derivative NDEBUG [] p (or_introl Hv)) | intros f1 _].
      apply throws_in_Ok. }
  intros result pr3.
  apply clean_bindP.
  { destruct (Qeq_bool w 0) eqn:Ew; cbn [negb]; [exact I |].
    apply no_throwP_bindP.
    { apply no_throwP_liftP. now apply throws_in_compute_Tnl_tail. }
    intros tail_full pr4.
    apply no_throwP_bindP.
    { apply no_throwP_liftP. now apply throws_in_compute_Tnl_tail. }
    intros tail_two_less pr5.
    destruct (Qlt_bool _ _); exact I. }
  intros result' pr4. reflexivity.
Qed.

(** When [p.section_edges()] does not return, the run ends there, before
    any [set_default_prec]. *)
Lemma compute_Tnl_impl_at_entry
      (p : piecewise_polynomial) (even : bool) (s : statistics_type) (w : Q)
      (digits_A digits_B : Z) (prec : Z) :
  (forall edges, PP.section_edges NDEBUG p <> Ok edges) ->
  (PP.section_edges NDEBUG p = Throw invalid_msg \/ PP.section_edges NDEBUG p = Undefined)
  /\ Matsubara.compute_Tnl_impl NDEBUG pi sqrt cos sin digits2bits
       gauss_legendre_nodes p even s w digits_A digits_B prec
     = (match PP.section_edges NDEBUG p with
        | Throw msg => Throw msg
        | _ => Undefined
        end, prec).
Proof.
  intro H. split.
  - assert (T := throws_in_section_edges NDEBUG [invalid_msg] p
                   (or_intror (or_introl eq_refl))).
    destruct (PP.section_edges NDEBUG p) as [edges | msg |].
    + exfalso. exact (H edges eq_refl).
    + left. destruct (T msg eq_refl) as [<- | []]. reflexivity.
    + right. reflexivity.
  - unfold Matsubara.compute_Tnl_impl.
    unfold Matsubara.bindP at 1. unfold Matsubara.get_default_prec at 1.
    unfold Matsubara.bindP at 1. unfold Matsubara.liftP at 1.
    destruct (PP.section_edges NDEBUG p) as [edges | msg |]; [| reflexivity ..].
    exfalso. exact (H edges eq_refl).
Qed.

(** C7.  [compute_Tnl_impl], the one routine that changes the default
    precision, saves it on entry and every run that returns or throws ends
    with the precision of the caller: it can only throw before the first
    [set_default_prec], and the zero-frequency error of the tail is not
    reachable from it (the tail is computed only when w != 0). *)
Theorem compute_Tnl_impl_restores_precision
        (p : piecewise_polynomial) (even : bool) (s : statistics_type) (w : Q)
        (digits_A digits_B : Z) (prec : Z) :
  match Matsubara.compute_Tnl_impl NDEBUG pi sqrt cos sin digits2bits
          gauss_legendre_nodes p even s w digits_A digits_B prec with
  | (Ok _, prec') => prec' = prec
  | (Throw _, prec') => prec' = prec
  | (Undefined, _) => True
  end.
Proof.
  change (restores prec
            (Matsubara.compute_Tnl_impl NDEBUG pi sqrt cos sin digits2bits
               gauss_legendre_nodes p even s w digits_A digits_B prec)).
  destruct (PP.section_edges NDEBUG p) as [edges | msg |] eqn:E.
  - apply clean_restores. now apply (compute_Tnl_impl_after_entry _ _ _ _ _ _ _ edges).
  - destruct (compute_Tnl_impl_at_entry p even s w digits_A digits_B prec) as [_ R].
    { intros edges. congruence. }
    rewrite R, E. reflexivity.
  - destruct (compute_Tnl_impl_at_entry p even s w digits_A digits_B prec) as [_ R].
    { intros edges. congruence. }
    rewrite R, E. exact I.
Qed.

(** X2: [compute_Tnl_impl] never raises the zero-frequency error of
    [compute_Tnl_tail]: the tail is computed only when [w != 0]. *)
Lemma compute_Tnl_impl_no_zero_frequency_error
      (p : piecewise_polynomial) (even : bool) (s : statistics_type) (w : Q)
      (digits_A digits_B : Z) (prec : Z) :
  fst (Matsubara.compute_Tnl_impl NDEBUG pi sqrt cos sin digits2bits
         gauss_legendre_nodes p even s w digits_A digits_B prec)
  <> Throw "Error zero frequency".
Proof.
  destruct (PP.section_edges NDEBUG p) as [edges | msg |] eqn:E.
  - pose proof (compute_Tnl_impl_after_entry p even s w digits_A digits_B prec edges E)
      as Cl.
    destruct (Matsubara.compute_Tnl_impl _ _ _ _ _ _ _ _ _ _ _ _ _ _)
      as [[a | m |] pr']; simpl in *; [discriminate | contradiction | discriminate].
  - destruct (compute_Tnl_impl_at_entry p even s w digits_A digits_B prec) as [V R].
    { intros edges. congruence. }
    rewrite R, E. simpl. destruct V as [V | V]; rewrite E in V; [| discriminate].
    injection V as ->. discriminate.
  - destruct (compute_Tnl_impl_at_entry p even s w digits_A digits_B prec) as [_ R].
    { intros edges. congruence. }
    rewrite R, E. simpl. discriminate.
Qed.

End Precision.

(** f(x) = x, w = 1, caller's precision 53 bits: the section [0,1] takes
    the low-frequency branch (precision set from [digits_A]), the tail is
    computed, and the call returns with the precision back at 53. *)
Lemma compute_Tnl_impl_run :
  exists c,
    Matsubara.compute_Tnl_impl false 4 sqrt_exact (fun _ => 1%Q) (fun _ => 0%Q)
      (fun d => (4 * d)%Z) one_point_rule pp_x true FERMIONIC (1 # 10) 30 30 53%Z
    = (Ok c, 53%Z).
Proof. eexists. vm_compute. reflexivity. Qed.

(** ** Entry-wise updates of a complex matrix *)

Lemma cmat_set_same (T : cmatrix) (i l : Z) (x : C) (T' : cmatrix) :
  cmat_set T i l x = Ok T' -> cmat_at T' i l = Ok x.
Proof.
  unfold cmat_set, cmat_at. intro H.
  apply bind_Ok_inv in H. destruct H as (r & Er & H).
  apply bind_Ok_inv in H. destruct H as (r' & Er' & H).
  rewrite (set_at_same T i r' T' H). cbn [bind].
  exact (set_at_same r l x r' Er').
Qed.

Lemma cmat_set_other (T : cmatrix) (i l : Z) (x : C) (T' : cmatrix) (i' l' : Z) :
  cmat_set T i l x = Ok T' -> ~ (i' = i /\ l' = l) ->
  cmat_at T' i' l' = cmat_at T i' l'.
Proof.
  unfold cmat_set, cmat_at. intros H N.
  apply bind_Ok_inv in H. destruct H as (r & Er & H).
  apply bind_Ok_inv in H. destruct H as (r' & Er' & H).
  destruct (Z.eq_dec i' i) as [-> | Hi].
  - rewrite (set_at_same T i r' T' H), Er. cbn [bind].
    apply (set_at_other r l x r' l' Er'). intro E. apply N. now split.
  - now rewrite (set_at_other T i r' T' i' H Hi).
Qed.

(** [T'] is [T] with [G i l] applied to the entries selected by [P]. *)
Definition upd_spec (T T' : cmatrix) (P : Z -> Z -> Prop) (G : Z -> Z -> C -> C)
  : Prop :=
  (forall i l, P i l -> exists t, cmat_at T i l = Ok t /\ cmat_at T' i l = Ok (G i l t))
  /\ (forall i l, ~ P i l -> cmat_at T' i l = cmat_at T i l).

Lemma upd_spec_ext (T T' : cmatrix) (P P' : Z -> Z -> Prop) (G : Z -> Z -> C -> C) :
  (forall i l, P i l <-> P' i l) -> upd_spec T T' P G -> upd_spec T T' P' G.
Proof.
  intros E [H1 H2]. split.
  - intros i l H. apply H1. now apply E.
  - intros i l H. apply H2. intro H'. apply H. now apply E.
Qed.

(** A loop whose passes update pairwise disjoint sets of entries updates
    their union. *)
Lemma for_loop_upd (G : Z -> Z -> C -> C) (P : Z -> Z -> Z -> Prop)
      (body : Z -> cmatrix -> outcome cmatrix) :
  (forall k T1 T2, body k T1 = Ok T2 -> upd_spec T1 T2 (P k) G) ->
  (forall k k' i l, P k i l -> P k' i l -> k = k') ->
  forall n lo T T',
    for_loop n lo body T = Ok T' ->
    upd_spec T T' (fun i l => exists k, (lo <= k < lo + Z.of_nat n)%Z /\ P k i l) G.
Proof.
  intros Hb Hdisj. induction n as [| n IH]; intros lo T T' H; cbn [for_loop] in H.
  - injection H as <-. split.
    + intros i l (k & Hk & _). lia.
    + reflexivity.
  - apply bind_Ok_inv in H. destruct H as (T1 & E1 & H).
    destruct (Hb lo T T1 E1) as [S1 S2].
    destruct (IH (lo + 1)%Z T1 T' H) as [R1 R2].
    split.
    + intros i l (k & Hk & Pk).
      destruct (Z.eq_dec k lo) as [-> | Hne].
      * destruct (S1 i l Pk) as (t & Et & Et1). exists t. split; [exact Et |].
        rewrite R2; [exact Et1 |].
        intros (k' & Hk' & Pk'). assert (k' = lo) by exact (Hdisj _ _ _ _ Pk' Pk). lia.
      * destruct (R1 i l) as (t & Et & Et').
        { exists k. split; [lia | exact Pk]. }
        exists t. split; [| exact Et'].
        rewrite <- Et. symmetry. apply S2.
        intro Plo. apply Hne. exact (Hdisj _ _ _ _ Pk Plo).
    + intros i l N. rewrite R2, S2; [reflexivity | |].
      * intro Plo. apply N. exists lo. split; [lia | exact Plo].
      * intros (k & Hk & Pk). apply N. exists k. split; [lia | exact Pk].
Qed.

Lemma for_range_upd (G : Z -> Z -> C -> C) (P : Z -> Z -> Z -> Prop)
      (body : Z -> cmatrix -> outcome cmatrix) (n : Z) (T T' : cmatrix) :
  (forall k T1 T2, body k T1 = Ok T2 -> upd_spec T1 T2 (P k) G) ->
  (forall k k' i l, P k i l -> P k' i l -> k = k') ->
  for_range 0 n body T = Ok T' ->
  upd_spec T T' (fun i l => exists k, (0 <= k < n)%Z /\ P k i l) G.
Proof.
  intros Hb Hd H. unfold for_range in H.
  apply (for_loop_upd G P body Hb Hd) in H.
  revert H. apply upd_spec_ext.
  intros i l. split; intros (k & Hk & Pk); exists k; (split; [lia | exact Pk]).
Qed.

Lemma cell_set_spec (G : Z -> Z -> C -> C) (T T' : cmatrix) (i l : Z) (t x : C) :
  cmat_at T i l = Ok t -> x = G i l t -> cmat_set T i l x = Ok T' ->
  upd_spec T T' (fun i' l' => i' = i /\ l' = l) G.
Proof.
  intros Et -> H. split.
  - intros i' l' [-> ->]. exists t. split; [exact Et |].
    exact (cmat_set_same T i l _ T' H).
  - intros i' l' N. exact (cmat_set_other T i l _ T' i' l' H N).
Qed.

(** ** The entries returned by [compute_Tbar_ol] *)

Section TbarFacts.

Variable NDEBUG : bool.
Variable pi : Q.
Variable sqrt : Q -> Q.
Variable cexp : C -> C.

(** The symmetrisation loop of [compute_Tbar_ol]. *)
Lemma symmetrise_loop (o_vec : list Z) (nl : Z) (T0 T1 : cmatrix) :
  for_range 0 nl
    (fun l T =>
       for_range 0 (size o_vec)
         (fun i T =>
            o <- at_ o_vec i ;;
            t <- cmat_at T i l ;;
            cmat_set T i l (Matsubara.symmetrise l o t))
         T)
    T0 = Ok T1 ->
  upd_spec T0 T1 (fun i l => (0 <= i < size o_vec)%Z /\ (0 <= l < nl)%Z)
           (fun i l t => Matsubara.symmetrise l (nth (Z.to_nat i) o_vec 0%Z) t).
Proof.
  intro H.
  pose (G := fun (i l : Z) (t : C) =>
               Matsubara.symmetrise l (nth (Z.to_nat i) o_vec 0%Z) t).
  fold G.
  apply (for_range_upd G (fun l i' l' => (0 <= i' < size o_vec)%Z /\ l' = l)) in H.
  - revert H. apply upd_spec_ext. intros i l. split.
    + intros (k & Hk & Hi & ->). now split.
    + intros [Hi Hl]. exists l. now repeat split.
  - intros l Ta Tb Hin.
    apply (for_range_upd G (fun i i' l' => i' = i /\ l' = l)) in Hin.
    + revert Hin. apply upd_spec_ext. intros i' l'. split.
      * intros (k & Hk & -> & ->). now split.
      * intros [Hi ->]. exists i'. now repeat split.
    + intros i Tc Td Hb.
      apply bind_Ok_inv in Hb. destruct Hb as (o & Eo & Hb).
      apply bind_Ok_inv in Hb. destruct Hb as (t & Et & Hb).
      apply (cell_set_spec G Tc Td i l t (Matsubara.symmetrise l o t) Et); [| exact Hb].
      unfold G. now rewrite (at_nth o_vec i o 0%Z Eo).
    + intros k k' i' l' [-> _] [-> _]. reflexivity.
  - intros k k' i' l' [_ ->] [_ ->]. reflexivity.
Qed.

(** The normalisation loop of [compute_Tbar_ol]. *)
Lemma normalise_loop (inv_norm : list Q) (nw nl : Z) (T1 T2 : cmatrix) :
  for_range 0 nw
    (fun n T =>
       for_range 0 nl
         (fun l T =>
            t <- cmat_at T n l ;;
            c <- at_ inv_norm l ;;
            cmat_set T n l (Cmul_real t (c * sqrt (1 # 2))%Q))
         T)
    T1 = Ok T2 ->
  upd_spec T1 T2 (fun i l => (0 <= i < nw)%Z /\ (0 <= l < nl)%Z)
           (fun i l t => Cmul_real t (nth (Z.to_nat l) inv_norm 0 * sqrt (1 # 2))%Q).
Proof.
  intro H.
  pose (G := fun (i l : Z) (t : C) =>
               Cmul_real t (nth (Z.to_nat l) inv_norm 0 * sqrt (1 # 2))%Q).
  fold G.
  apply (for_range_upd G (fun n i' l' => i' = n /\ (0 <= l' < nl)%Z)) in H.
  - revert H. apply upd_spec_ext. intros i l. split.
    + intros (k & Hk & -> & Hl). now split.
    + intros [Hi Hl]. exists i. now repeat split.
  - intros n Ta Tb Hin.
    apply (for_range_upd G (fun l i' l' => i' = n /\ l' = l)) in Hin.
    + revert Hin. apply upd_spec_ext. intros i' l'. split.
      * intros (k & Hk & -> & ->). now split.
      * intros [-> Hl]. exists l'. now repeat split.
    + intros l Tc Td Hb.
      apply bind_Ok_inv in Hb. destruct Hb as (t & Et & Hb).
      apply bind_Ok_inv in Hb. destruct Hb as (c & Ec & Hb).
      apply (cell_set_spec G Tc Td n l t (Cmul_real t (c * sqrt (1 # 2))%Q) Et);
        [| exact Hb].
      unfold G. now rewrite (at_nth inv_norm l c 0%Q Ec).
    + intros k k' i' l' [_ ->] [_ ->]. reflexivity.
  - intros k k' i' l' [-> _] [-> _]. reflexivity.
Qed.

Lemma symmetrise_parity (l o : Z) (t : C) :
  (Z.even (l + o) = true -> Matsubara.symmetrise l o t = (2 * Cre t, 0)%Q)
  /\ (Z.even (l + o) = false -> Matsubara.symmetrise l o t = (0, 2 * Cim t)%Q).
Proof.
  unfold Matsubara.symmetrise. rewrite rem2_even.
  split; intros ->; reflexivity.
Qed.

(** C8.  For a non-empty [o_vec], every entry (i, l) of a returned
    [Tbar_ol] is the raw exponential integral [t] of
    [compute_integral_with_exp], symmetrised by the parity of l + o_i
    (twice its real part, hence real, when l + o_i is even; 2i times its
    imaginary part, hence imaginary, when it is odd) and then multiplied
    by (1 / sqrt(2 <U_l, U_l>)) * sqrt(1/2), with <U_l, U_l> the overlap of
    basis function l with itself. *)
Theorem compute_Tbar_ol_entries
        (o_vec : list Z) (bf_src : list piecewise_polynomial) (T0 T : cmatrix) :
  o_vec <> [] ->
  Matsubara.compute_Tbar_ol NDEBUG pi sqrt cexp o_vec bf_src T0 = Ok T ->
  exists raw,
    Matsubara.compute_integral_with_exp NDEBUG pi cexp
      (map (fun o => ((1 # 2) * pi * inject_Z o)%Q) o_vec) bf_src = Ok raw
    /\ forall i l, (0 <= i < size o_vec)%Z -> (0 <= l < size bf_src)%Z ->
         exists o t pl ov,
           at_ o_vec i = Ok o
           /\ cmat_at raw i l = Ok t
           /\ at_ bf_src l = Ok pl
           /\ PP.overlap NDEBUG pl pl = Ok ov
           /\ cmat_at T i l
              = Ok (Cmul_real (Matsubara.symmetrise l o t)
                              (1 / sqrt (2 * ov) * sqrt (1 # 2))%Q)
           /\ (Z.even (l + o) = true ->
               Matsubara.symmetrise l o t = (2 * Cre t, 0)%Q)
           /\ (Z.even (l + o) = false ->
               Matsubara.symmetrise l o t = (0, 2 * Cim t)%Q).
Proof.
  intros Hne H. unfold Matsubara.compute_Tbar_ol in H.
  replace (size o_vec =? 0)%Z with false in H.
  2:{ symmetry. apply Z.eqb_neq. destruct o_vec; [congruence |].
      unfold size. cbn [length]. lia. }
  apply bind_Ok_inv in H. destruct H as ([] & _ & H).
  apply bind_Ok_inv in H. destruct H as (raw & Eraw & H).
  apply bind_Ok_inv in H. destruct H as (T1 & Esym & H).
  apply bind_Ok_inv in H. destruct H as (inv_norm & Einv & H).
  exists raw. split; [exact Eraw |].
  apply symmetrise_loop in Esym. destruct Esym as [S1 _].
  apply normalise_loop in H. destruct H as [N1 _].
  apply mapM_seqZ_at in Einv. destruct Einv as [_ Einv].
  intros i l Hi Hl.
  destruct (S1 i l (conj Hi Hl)) as (t & Et & Et1).
  destruct (N1 i l) as (t1 & Et1' & Et2).
  { split; [| exact Hl]. unfold size in *. rewrite length_map. exact Hi. }
  rewrite Et1 in Et1'. injection Et1' as <-.
  destruct (Einv l Hl) as (c & Ec & Fc).
  apply bind_Ok_inv in Fc. destruct Fc as (pl & Epl & Fc).
  apply bind_Ok_inv in Fc. destruct Fc as (ov & Eov & Fc).
  injection Fc as <-.
  rewrite (at_nth inv_norm l _ 0%Q Ec) in Et2.
  exists (nth (Z.to_nat i) o_vec 0%Z), t, pl, ov.
  split; [apply at_in_range; exact Hi |].
  split; [exact Et |]. split; [exact Epl |]. split; [exact Eov |].
  split; [exact Et2 |]. apply symmetrise_parity.
Qed.

(** An entry with l + o even is real, one with l + o odd imaginary. *)
Lemma Tbar_entry_parity (l o : Z) (t : C) (c : Q) :
  (Z.even (l + o) = true ->
   (Cim (Cmul_real (Matsubara.symmetrise l o t) c) == 0)%Q
   /\ (Cre (Cmul_real (Matsubara.symmetrise l o t) c) == 2 * Cre t * c)%Q)
  /\ (Z.even (l + o) = false ->
      (Cre (Cmul_real (Matsubara.symmetrise l o t) c) == 0)%Q
      /\ (Cim (Cmul_real (Matsubara.symmetrise l o t) c) == 2 * Cim t * c)%Q).
Proof.
  destruct (symmetrise_parity l o t) as [He Ho].
  split; intro E.
  - rewrite (He E). unfold Cmul_real, Cre, Cim. cbn [fst snd]. split; ring.
  - rewrite (Ho E). unfold Cmul_real, Cre, Cim. cbn [fst snd]. split; ring.
Qed.

(** The factor of column l is sqrt(1/2) / sqrt(2 <U_l, U_l>). *)
Lemma normalisation_factor (ov : Q) :
  (1 / sqrt (2 * ov) * sqrt (1 # 2) == sqrt (1 # 2) / sqrt (2 * ov))%Q.
Proof. unfold Qdiv. ring. Qed.

(** An empty [o_vec] returns at once and leaves [Tbar_ol] as it was. *)
Lemma compute_Tbar_ol_empty (bf_src : list piecewise_polynomial) (T0 : cmatrix) :
  Matsubara.compute_Tbar_ol NDEBUG pi sqrt cexp [] bf_src T0 = Ok T0.
Proof. reflexivity. Qed.

End TbarFacts.

Definition Tbar_x : cmatrix := [[(0, -139968 # 104976)%Q]].

Lemma compute_Tbar_ol_entries_witness :
  exists raw,
    Matsubara.compute_integral_with_exp false 3 cexp_unit
      (map (fun o => ((1 # 2) * 3 * inject_Z o)%Q) [1%Z]) [pp_x] = Ok raw
    /\ forall i l, (0 <= i < size [1%Z])%Z -> (0 <= l < size [pp_x])%Z ->
         exists o t pl ov,
           at_ [1%Z] i = Ok o
           /\ cmat_at raw i l = Ok t
           /\ at_ [pp_x] l = Ok pl
           /\ PP.overlap false pl pl = Ok ov
           /\ cmat_at Tbar_x i l
              = Ok (Cmul_real (Matsubara.symmetrise l o t)
                              (1 / sqrt_exact (2 * ov) * sqrt_exact (1 # 2))%Q)
           /\ (Z.even (l + o) = true ->
               Matsubara.symmetrise l o t = (2 * Cre t, 0)%Q)
           /\ (Z.even (l + o) = false ->
               Matsubara.symmetrise l o t = (0, 2 * Cim t)%Q).
Proof.
  apply (compute_Tbar_ol_entries false 3 sqrt_exact cexp_unit [1%Z] [pp_x] [] Tbar_x).
  - discriminate.
  - vm_compute. reflexivity.
Defined.

(** ** The adaptive generator: initial partitions and residuals *)

Section GeneratorFacts.

Variable NDEBUG : bool.
Variable pi : Q.
Variable sqrt tanh sinh cosh : Q -> Q.
Variable BDCSVD : matrix -> svd_result.
Variable gauss_legendre_nodes : Z -> list (Q * Q).
Variable normalized_legendre_p : Z -> Q -> Q.
Variable normalized_legendre_p_derivatives : Z -> Q -> list (list Q).
Variable kernel : Q -> Q -> Q.

(** C1 (what the code does).  Without [verbose] the approximate nodes are
    never computed and both initial partitions are {0, 1}; only with
    [verbose] set are they {0} + nodes + {1} for the nodes of the
    500-point mesh with cutoff max(1e-12, sv_cutoff). *)
Theorem initial_section_edges_by_verbose (sv_cutoff : Q) :
  Generator.initial_section_edges pi sqrt tanh sinh cosh BDCSVD kernel sv_cutoff false
  = Ok ([0; 1]%Q, [0; 1]%Q)
  /\ Generator.initial_section_edges pi sqrt tanh sinh cosh BDCSVD kernel sv_cutoff true
     = (nodes <- Generator.compute_approximate_nodes_even_sector
                   pi sqrt tanh sinh cosh BDCSVD kernel 500
                   (Qmax (1 # 1000000000000) sv_cutoff) ;;
        Ok (0%Q :: fst nodes ++ [1%Q], 0%Q :: snd nodes ++ [1%Q])).
Proof.
  split; [reflexivity |].
  unfold Generator.initial_section_edges.
  destruct (Generator.compute_approximate_nodes_even_sector _ _ _ _ _ _ _ _ _)
    as [[nx ny] | w |]; reflexivity.
Qed.

(** The generator started without [verbose] runs its first pass on the
    partitions {0, 1} whatever the kernel. *)
Lemma generate_without_verbose_starts_from_unit_interval
      (fuel : nat) (max_dim : Z) (sv_cutoff r_tol : Q) (nlp ngl : Z) :
  Generator.generate_ir_basis_functions NDEBUG pi sqrt tanh sinh cosh BDCSVD
    gauss_legendre_nodes normalized_legendre_p normalized_legendre_p_derivatives
    kernel fuel max_dim sv_cutoff false r_tol nlp ngl
  = Generator.refine_loop NDEBUG sqrt BDCSVD gauss_legendre_nodes normalized_legendre_p
      normalized_legendre_p_derivatives kernel fuel max_dim sv_cutoff false r_tol
      nlp ngl [0; 1]%Q [0; 1]%Q.
Proof. reflexivity. Qed.

(** The per-section residual written by the generator: for section [s]
    of width [dx], the entry is
    [| v_l[s * num_local_poly + num_local_poly - 1] * sqrt((2 l + 1) / dx) |]
    where [l] is the index handed in (the index of the last basis
    function). *)
Lemma tail_residuals_entries (nlp : Z) (edges : list Q) (vecs : list (list Q))
      (l : Z) (res : list Q) :
  Generator.tail_residuals sqrt nlp edges vecs l = Ok res ->
  size res = Z.max 0 (size edges - 1)
  /\ forall s, (0 <= s < size edges - 1)%Z ->
       exists hi lo vl x,
         at_ edges (s + 1) = Ok hi /\ at_ edges s = Ok lo
         /\ at_ vecs l = Ok vl /\ at_ vl (s * nlp + nlp - 1) = Ok x
         /\ at_ res s = Ok (Qabs (x * sqrt ((2 * inject_Z l + 1) / (hi - lo)))).
Proof.
  intro H. unfold Generator.tail_residuals in H.
  apply mapM_seqZ_at in H. destruct H as [L N]. split; [exact L |].
  intros s Hs. destruct (N s Hs) as (b & Eb & F).
  apply bind_Ok_inv in F. destruct F as (hi & Ehi & F).
  apply bind_Ok_inv in F. destruct F as (lo & Elo & F).
  apply bind_Ok_inv in F. destruct F as (vl & Evl & F).
  apply bind_Ok_inv in F. destruct F as (x & Ex & F).
  injection F as <-. exists hi, lo, vl, x. auto.
Qed.

(** One basis function (so l = 0), num_local_poly = 2, one section [0,1],
    last singular vector (3, 4): the reported residual is
    |4 * sqrt((2*0 + 1) / 1)|, with the index of the basis function under
    the root and not sqrt((2*2 - 1) / 1). *)
Lemma tail_residual_uses_basis_index :
  Generator.tail_residuals sqrt 2 [0; 1]%Q [[3; 4]%Q] (size [[3; 4]%Q] - 1)
  = Ok [Qabs (4 * sqrt (1 # 1))].
Proof. reflexivity. Qed.

End GeneratorFacts.

(** ** The adaptive generator: what a pass returns *)

Section PassFacts.

Variable NDEBUG : bool.
Variable pi : Q.
Variable sqrt tanh sinh cosh : Q -> Q.
Variable BDCSVD : matrix -> svd_result.
Variable gauss_legendre_nodes : Z -> list (Q * Q).
Variable normalized_legendre_p : Z -> Q -> Q.
Variable normalized_legendre_p_derivatives : Z -> Q -> list (list Q).
Variable kernel : Q -> Q -> Q.

(** The three vectors filled by the pick-up loop grow together. *)
Lemma pick_up_sizes (max_dim : Z) (sv_cutoff s0 : Q) (svd_even svd_odd : svd_result) :
  forall n i sv Uvec Vvec sv' Uvec' Vvec',
    size Uvec = size sv -> size Vvec = size sv ->
    Generator.pick_up n i max_dim sv_cutoff s0 svd_even svd_odd (sv, Uvec, Vvec)
    = Ok (sv', Uvec', Vvec') ->
    size Uvec' = size sv' /\ size Vvec' = size sv'.
Proof.
  induction n as [| n IH]; intros i sv Uvec Vvec sv' Uvec' Vvec' HU HV H;
    cbn [Generator.pick_up] in H.
  - injection H as <- <- <-. now split.
  - destruct (size sv =? max_dim)%Z; [injection H as <- <- <-; now split |].
    apply bind_Ok_inv in H. destruct H as (e & Ee & H).
    destruct (Qlt_bool (e / s0) sv_cutoff); [injection H as <- <- <-; now split |].
    apply bind_Ok_inv in H. destruct H as (ue & Eue & H).
    apply bind_Ok_inv in H. destruct H as (ve & Eve & H).
    assert (HU1 : size (Uvec ++ [ue]) = size (sv ++ [e]))
      by (rewrite !size_app_one; lia).
    assert (HV1 : size (Vvec ++ [ve]) = size (sv ++ [e]))
      by (rewrite !size_app_one; lia).
    destruct (size (sv ++ [e]) =? max_dim)%Z; [injection H as <- <- <-; now split |].
    apply bind_Ok_inv in H. destruct H as (o & Eo & H).
    destruct (Qlt_bool (o / s0) sv_cutoff); [injection H as <- <- <-; now split |].
    apply bind_Ok_inv in H. destruct H as (uo & Euo & H).
    apply bind_Ok_inv in H. destruct H as (vo & Evo & H).
    apply (IH _ _ _ _ _ _ _) in H; [exact H | |]; rewrite !size_app_one; lia.
Qed.

(** With a cutoff above 1 the loop stops before it picks anything.  (The
    first singular value is taken non-zero: [s0 / s0] is then 1, where
    for [s0 = 0] the arithmetic of the code gives NaN and [Q] gives 0.) *)
Lemma pick_up_cutoff_above_1 (max_dim : Z) (sv_cutoff s0 : Q)
      (svd_even svd_odd : svd_result) (n : nat) :
  (1 < sv_cutoff)%Q ->
  ~ (s0 == 0)%Q ->
  at_ (singularValues svd_even) 0 = Ok s0 ->
  Generator.pick_up n 0 max_dim sv_cutoff s0 svd_even svd_odd ([], [], [])
  = Ok ([], [], []).
Proof.
  intros Hc Hnz Hs0. destruct n as [| n]; [reflexivity |]. cbn [Generator.pick_up].
  destruct (size [] =? max_dim)%Z; [reflexivity |].
  rewrite Hs0. cbn [bind].
  replace (Qlt_bool (s0 / s0) sv_cutoff) with true; [reflexivity |].
  symmetry. apply Qlt_bool_iff.
  setoid_replace (s0 / s0)%Q with 1%Q by (now field). exact Hc.
Qed.

Lemma gen_pp_size (nlp : Z) (deriv : list (list Q)) (inv_fact edges : list Q)
      (vectors : list (list Q)) (pps : list piecewise_polynomial) :
  Generator.gen_pp NDEBUG sqrt nlp deriv inv_fact edges vectors = Ok pps ->
  size pps = size vectors.
Proof.
  intro H. unfold Generator.gen_pp in H.
  apply mapM_Ok_nth in H. destruct H as [L _]. unfold size. now rewrite L.
Qed.

(** What a returning call of [generate_ir_basis_functions_impl] has
    done. *)
Lemma impl_Ok_inv (max_dim : Z) (sv_cutoff : Q) (nlp ngl : Z) (ex ey : list Q)
      (verbose : bool) (r : impl_result) :
  Generator.generate_ir_basis_functions_impl NDEBUG sqrt BDCSVD gauss_legendre_nodes
    normalized_legendre_p normalized_legendre_p_derivatives kernel
    max_dim sv_cutoff nlp ngl ex ey verbose = Ok r ->
  exists svd_even svd_odd s0 Uvec Vvec,
    at_ (singularValues svd_even) 0 = Ok s0
    /\ Generator.pick_up (length (singularValues svd_even)) 0 max_dim sv_cutoff s0
         svd_even svd_odd ([], [], []) = Ok (sv_ r, Uvec, Vvec)
    /\ sv_ r <> []
    /\ no_descent Qlt_bool (sv_ r) = true
    /\ size Uvec = size (sv_ r)
    /\ size Vvec = size (sv_ r)
    /\ size (u_basis_pp_ r) = size (sv_ r)
    /\ size (v_basis_pp_ r) = size (sv_ r)
    /\ Generator.tail_residuals sqrt nlp ex Uvec (size Uvec - 1) = Ok (residual_x_ r)
    /\ Generator.tail_residuals sqrt nlp ey Vvec (size Uvec - 1) = Ok (residual_y_ r).
Proof.
  intro H. unfold Generator.generate_ir_basis_functions_impl in H.
  destruct (nlp <? 2)%Z; [discriminate |].
  apply bind_Ok_inv in H. destruct H as (Ke & EKe & H).
  apply bind_Ok_inv in H. destruct H as (Ko & EKo & H).
  apply bind_Ok_inv in H. destruct H as (s0 & Es0 & H).
  apply bind_Ok_inv in H. destruct H as ([[sv Uvec] Vvec] & Epick & H).
  apply bind_Ok_inv in H. destruct H as (? & _ & H).
  apply bind_Ok_inv in H. destruct H as ([] & Eorder & H).
  apply bind_Ok_inv in H. destruct H as (u1 & Eu & H).
  apply bind_Ok_inv in H. destruct H as (v1 & Ev & H).
  apply bind_Ok_inv in H. destruct H as ([us vs] & Euv & H).
  apply bind_Ok_inv in H. destruct H as (ub & _ & H).
  apply bind_Ok_inv in H. destruct H as (vb & _ & H).
  apply bind_Ok_inv in H. destruct H as (sb & _ & H).
  apply bind_Ok_inv in H. destruct H as (r1 & _ & H).
  apply bind_Ok_inv in H. destruct H as (r2 & _ & H).
  apply bind_Ok_inv in H. destruct H as (rx & Erx & H).
  apply bind_Ok_inv in H. destruct H as (ry & Ery & H).
  injection H as <-. cbn [sv_ u_basis_pp_ v_basis_pp_ residual_x_ residual_y_].
  destruct (pick_up_sizes max_dim sv_cutoff s0 (BDCSVD Ke) (BDCSVD Ko) _ 0 [] [] []
              sv Uvec Vvec eq_refl eq_refl Epick) as [SU SV].
  destruct (check_order_Ok_nonempty _ _ _ Eorder) as [Hne Hdesc].
  assert (Hsz : size us = size u1 /\ size vs = size v1).
  { unfold for_range in Euv.
    refine (for_loop_invariant
              (fun uv : list piecewise_polynomial * list piecewise_polynomial =>
                 size (fst uv) = size u1 /\ size (snd uv) = size v1)
              _ _ _ _ (u1, v1) (us, vs) _ Euv); [| now split].
    intros i [us0 vs0] [us1 vs1] [Hu Hv] Hb. cbn [fst snd] in *.
    apply bind_Ok_inv in Hb. destruct Hb as (ui & _ & Hb).
    apply bind_Ok_inv in Hb. destruct Hb as (val & _ & Hb).
    destruct (Qlt_bool val 0).
    - apply bind_Ok_inv in Hb. destruct Hb as (us' & Eus & Hb).
      apply bind_Ok_inv in Hb. destruct Hb as (vi & _ & Hb).
      apply bind_Ok_inv in Hb. destruct Hb as (vs' & Evs & Hb).
      injection Hb as <- <-.
      rewrite (set_at_size _ _ _ _ Eus), (set_at_size _ _ _ _ Evs). now split.
    - injection Hb as <- <-. now split. }
  destruct Hsz as [Hus Hvs].
  apply gen_pp_size in Eu. apply gen_pp_size in Ev.
  exists (BDCSVD Ke), (BDCSVD Ko), s0, Uvec, Vvec.
  repeat split; try assumption; congruence.
Qed.


(** A pass that ends the refinement has read [V[2 * (dim / 2) - 1]], so
    it has at least two basis functions. *)
Lemma refine_once_inr (max_dim : Z) (sv_cutoff : Q) (verbose : bool) (r_tol : Q)
      (nlp ngl : Z) (ex ey : list Q) (r : impl_result) :
  Generator.refine_once NDEBUG sqrt BDCSVD gauss_legendre_nodes normalized_legendre_p
    normalized_legendre_p_derivatives kernel max_dim sv_cutoff verbose r_tol nlp ngl
    ex ey = Ok (inr r) ->
  Generator.generate_ir_basis_functions_impl NDEBUG sqrt BDCSVD gauss_legendre_nodes
    normalized_legendre_p normalized_legendre_p_derivatives kernel
    max_dim sv_cutoff nlp ngl ex ey verbose = Ok r
  /\ (2 <= size (u_basis_pp_ r))%Z.
Proof.
  intro H. unfold Generator.refine_once in H.
  apply bind_Ok_inv in H. destruct H as (r' & Er & H).
  apply bind_Ok_inv in H. destruct H as (ub & _ & H).
  apply bind_Ok_inv in H. destruct H as (ub1 & _ & H).
  apply bind_Ok_inv in H. destruct H as (vy & Evy & H).
  apply bind_Ok_inv in H. destruct H as (vy1 & _ & H).
  apply bind_Ok_inv in H. destruct H as (vy0 & _ & H).
  apply bind_Ok_inv in H. destruct H as (ex' & _ & H).
  apply bind_Ok_inv in H. destruct H as (ey' & _ & H).
  destruct (size ex' + size ey' =? size ex + size ey)%Z; [| discriminate].
  injection H as <-. split; [exact Er |].
  apply at_Ok_inv in Evy. destruct Evy as [[Hlo _] _].
  assert (Hq : (1 <= size (u_basis_pp_ r') ÷ 2)%Z) by lia.
  assert (Hnn : (0 <= size (u_basis_pp_ r'))%Z) by (unfold size; lia).
  destruct (Z_lt_le_dec (size (u_basis_pp_ r')) 2) as [L | G]; [| exact G].
  rewrite Z.quot_small in Hq by lia. lia.
Qed.

Lemma refine_loop_Ok (max_dim : Z) (sv_cutoff : Q) (verbose : bool) (r_tol : Q)
      (nlp ngl : Z) (r : impl_result) :
  forall fuel ex ey,
    Generator.refine_loop NDEBUG sqrt BDCSVD gauss_legendre_nodes normalized_legendre_p
      normalized_legendre_p_derivatives kernel fuel max_dim sv_cutoff verbose r_tol
      nlp ngl ex ey = Some (Ok r) ->
    exists ex' ey',
      Generator.refine_once NDEBUG sqrt BDCSVD gauss_legendre_nodes
        normalized_legendre_p normalized_legendre_p_derivatives kernel max_dim
        sv_cutoff verbose r_tol nlp ngl ex' ey' = Ok (inr r).
Proof.
  induction fuel as [| fuel IH]; intros ex ey H; cbn [Generator.refine_loop] in H;
    [discriminate |].
  destruct (Generator.refine_once _ _ _ _ _ _ _ _ _ _ _ _ _ ex ey)
    as [[[ex1 ey1] | r'] | w |] eqn:E; try discriminate.
  - exact (IH ex1 ey1 H).
  - injection H as <-. now exists ex, ey.
Qed.

(** A pass with a cutoff above 1 (and a non-zero first singular value)
    does not return: nothing is picked and [sv[0]] is read from the empty
    vector. *)
Lemma impl_cutoff_above_1 (max_dim : Z) (sv_cutoff : Q) (nlp ngl : Z)
      (ex ey : list Q) (verbose : bool) (r : impl_result) :
  (1 < sv_cutoff)%Q ->
  (forall m s0, at_ (singularValues (BDCSVD m)) 0 = Ok s0 -> ~ (s0 == 0)%Q) ->
  Generator.generate_ir_basis_functions_impl NDEBUG sqrt BDCSVD gauss_legendre_nodes
    normalized_legendre_p normalized_legendre_p_derivatives kernel
    max_dim sv_cutoff nlp ngl ex ey verbose <> Ok r.
Proof.
  intros Hc Hnz H. unfold Generator.generate_ir_basis_functions_impl in H.
  destruct (nlp <? 2)%Z; [discriminate |].
  apply bind_Ok_inv in H. destruct H as (Ke & _ & H).
  apply bind_Ok_inv in H. destruct H as (Ko & _ & H).
  apply bind_Ok_inv in H. destruct H as (s0 & Es0 & H).
  rewrite (pick_up_cutoff_above_1 max_dim sv_cutoff s0 (BDCSVD Ke) (BDCSVD Ko) _
             Hc (Hnz Ke s0 Es0) Es0) in H.
  cbn [bind] in H.
  apply bind_Ok_inv in H. destruct H as (? & _ & H).
  apply bind_Ok_inv in H. destruct H as (? & E & _).
  discriminate E.
Qed.

(** C3 (what the code does).  Whenever the adaptive generator returns,
    at least two basis functions come back (sv, U and V of one common
    length): with a single selected pair the driver reads
    [V[2 * (1 / 2) - 1] = V[-1]], and when nothing is selected [sv[0]] is
    read from an empty vector.  It never returns exactly one basis
    function. *)
Theorem generate_returns_at_least_two
        (fuel : nat) (max_dim : Z) (sv_cutoff : Q) (verbose : bool) (r_tol : Q)
        (nlp ngl : Z) (r : impl_result) :
  Generator.generate_ir_basis_functions NDEBUG pi sqrt tanh sinh cosh BDCSVD
    gauss_legendre_nodes normalized_legendre_p normalized_legendre_p_derivatives
    kernel fuel max_dim sv_cutoff verbose r_tol nlp ngl = Some (Ok r) ->
  (2 <= size (sv_ r))%Z
  /\ size (u_basis_pp_ r) = size (sv_ r)
  /\ size (v_basis_pp_ r) = size (sv_ r).
Proof.
  intro H. unfold Generator.generate_ir_basis_functions in H.
  destruct (Generator.initial_section_edges _ _ _ _ _ _ _ _ _)
    as [[ex ey] | w |]; try discriminate.
  apply refine_loop_Ok in H. destruct H as (ex' & ey' & H).
  apply refine_once_inr in H. destruct H as [Himpl Hdim].
  apply impl_Ok_inv in Himpl.
  destruct Himpl as (se & so & s0 & Uvec & Vvec & _ & _ & _ & _ & _ & _
                     & Hu & Hv & _).
  repeat split; try assumption. lia.
Qed.

(** What a returning pass has done, with the matrices it decomposed: the
    kernel matrices of the even and the odd sector, the pick-up loop on
    their decompositions, and the residuals computed from the picked
    vectors. *)
Lemma impl_Ok_inv_matrices (max_dim : Z) (sv_cutoff : Q) (nlp ngl : Z)
      (ex ey : list Q) (verbose : bool) (r : impl_result) :
  Generator.generate_ir_basis_functions_impl NDEBUG sqrt BDCSVD gauss_legendre_nodes
    normalized_legendre_p normalized_legendre_p_derivatives kernel
    max_dim sv_cutoff nlp ngl ex ey verbose = Ok r ->
  exists Kmat_even Kmat_odd s0 Uvec Vvec,
    Generator.matrix_rep sqrt gauss_legendre_nodes normalized_legendre_p
      (fun x y => (kernel x y + kernel x (- y))%Q) ex ey ngl nlp = Ok Kmat_even
    /\ Generator.matrix_rep sqrt gauss_legendre_nodes normalized_legendre_p
         (fun x y => (kernel x y - kernel x (- y))%Q) ex ey ngl nlp = Ok Kmat_odd
    /\ at_ (singularValues (BDCSVD Kmat_even)) 0 = Ok s0
    /\ Generator.pick_up (length (singularValues (BDCSVD Kmat_even))) 0 max_dim
         sv_cutoff s0 (BDCSVD Kmat_even) (BDCSVD Kmat_odd) ([], [], [])
       = Ok (sv_ r, Uvec, Vvec)
    /\ size Uvec = size (sv_ r)
    /\ size Vvec = size (sv_ r)
    /\ Generator.tail_residuals sqrt nlp ex Uvec (size (sv_ r) - 1)
       = Ok (residual_x_ r)
    /\ Generator.tail_residuals sqrt nlp ey Vvec (size (sv_ r) - 1)
       = Ok (residual_y_ r).
Proof.
  intro H. unfold Generator.generate_ir_basis_functions_impl in H.
  destruct (nlp <? 2)%Z; [discriminate |].
  apply bind_Ok_inv in H. destruct H as (Ke & EKe & H).
  apply bind_Ok_inv in H. destruct H as (Ko & EKo & H).
  apply bind_Ok_inv in H. destruct H as (s0 & Es0 & H).
  apply bind_Ok_inv in H. destruct H as ([[sv Uvec] Vvec] & Epick & H).
  apply bind_Ok_inv in H. destruct H as (? & _ & H).
  apply bind_Ok_inv in H. destruct H as ([] & _ & H).
  apply bind_Ok_inv in H. destruct H as (u1 & _ & H).
  apply bind_Ok_inv in H. destruct H as (v1 & _ & H).
  apply bind_Ok_inv in H. destruct H as ([us vs] & _ & H).
  apply bind_Ok_inv in H. destruct H as (ub & _ & H).
  apply bind_Ok_inv in H. destruct H as (vb & _ & H).
  apply bind_Ok_inv in H. destruct H as (sb & _ & H).
  apply bind_Ok_inv in H. destruct H as (r1 & _ & H).
  apply bind_Ok_inv in H. destruct H as (r2 & _ & H).
  apply bind_Ok_inv in H. destruct H as (rx & Erx & H).
  apply bind_Ok_inv in H. destruct H as (ry & Ery & H).
  injection H as <-. cbn [sv_ residual_x_ residual_y_].
  destruct (pick_up_sizes max_dim sv_cutoff s0 (BDCSVD Ke) (BDCSVD Ko) _ 0 [] [] []
              sv Uvec Vvec eq_refl eq_refl Epick) as [SU SV].
  rewrite SU in Erx, Ery.
  exists Ke, Ko, s0, Uvec, Vvec. repeat split; assumption.
Qed.

(** The entries computed by [tail_residuals], next to the entries that the
    wording of the specification gives for the same vector. *)
Lemma tail_residuals_against_spec (nlp : Z) (edges : list Q) (vecs : list (list Q))
      (l : Z) (res : list Q) :
  Generator.tail_residuals sqrt nlp edges vecs l = Ok res ->
  size res = Z.max 0 (size edges - 1)
  /\ forall s, (0 <= s < size edges - 1)%Z ->
       exists hi lo vl x,
         at_ edges (s + 1) = Ok hi /\ at_ edges s = Ok lo
         /\ at_ vecs l = Ok vl /\ at_ vl (s * nlp + nlp - 1) = Ok x
         /\ at_ res s = Ok (Qabs (x * sqrt ((2 * inject_Z l + 1) / (hi - lo))))
         /\ spec_tail_residual sqrt nlp edges vl s
            = Ok (Qabs x * sqrt ((2 * inject_Z nlp - 1) / (hi - lo)))%Q.
Proof.
  intro H. destruct (tail_residuals_entries sqrt nlp edges vecs l res H) as [L N].
  split; [exact L |]. intros s Hs.
  destruct (N s Hs) as (hi & lo & vl & x & Ehi & Elo & Evl & Ex & Er).
  exists hi, lo, vl, x. repeat split; try assumption.
  unfold spec_tail_residual. rewrite Ehi, Elo. cbn [bind]. rewrite Ex. reflexivity.
Qed.

(** C6 (what the code does).  A pass that returns decomposes the kernel
    matrices [Kmat_even] and [Kmat_odd] of [matrix_rep] and picks L
    singular triples from the two decompositions.  The residual it reports
    for x-section [s] of width Delta_s is then
    [| u[s * nlp + nlp - 1] * sqrt((2 (L - 1) + 1) / Delta_s) |] for the
    last picked U singular vector [u], and likewise for each y-section
    with the last picked V singular vector: under the root stands the
    index L - 1 of the last basis function.  The wording of the
    specification gives [|u[s * nlp + nlp - 1]| * sqrt((2 nlp - 1) / Delta_s)]
    for the same entry, with the order nlp - 1 of the local Legendre
    polynomial that the entry belongs to. *)
Theorem impl_tail_residuals
        (max_dim : Z) (sv_cutoff : Q) (nlp ngl : Z) (ex ey : list Q)
        (verbose : bool) (r : impl_result) :
  Generator.generate_ir_basis_functions_impl NDEBUG sqrt BDCSVD gauss_legendre_nodes
    normalized_legendre_p normalized_legendre_p_derivatives kernel
    max_dim sv_cutoff nlp ngl ex ey verbose = Ok r ->
  exists Kmat_even Kmat_odd s0 Uvec Vvec,
    Generator.matrix_rep sqrt gauss_legendre_nodes normalized_legendre_p
      (fun x y => (kernel x y + kernel x (- y))%Q) ex ey ngl nlp = Ok Kmat_even
    /\ Generator.matrix_rep sqrt gauss_legendre_nodes normalized_legendre_p
         (fun x y => (kernel x y - kernel x (- y))%Q) ex ey ngl nlp = Ok Kmat_odd
    /\ at_ (singularValues (BDCSVD Kmat_even)) 0 = Ok s0
    /\ Generator.pick_up (length (singularValues (BDCSVD Kmat_even))) 0 max_dim
         sv_cutoff s0 (BDCSVD Kmat_even) (BDCSVD Kmat_odd) ([], [], [])
       = Ok (sv_ r, Uvec, Vvec)
    /\ size Uvec = size (sv_ r) /\ size Vvec = size (sv_ r)
    /\ size (residual_x_ r) = Z.max 0 (size ex - 1)
    /\ size (residual_y_ r) = Z.max 0 (size ey - 1)
    /\ (forall s, (0 <= s < size ex - 1)%Z ->
          exists hi lo u x,
            at_ ex (s + 1) = Ok hi /\ at_ ex s = Ok lo
            /\ at_ Uvec (size (sv_ r) - 1) = Ok u
            /\ at_ u (s * nlp + nlp - 1) = Ok x
            /\ at_ (residual_x_ r) s
               = Ok (Qabs (x * sqrt ((2 * inject_Z (size (sv_ r) - 1) + 1)
                                     / (hi - lo))))
            /\ spec_tail_residual sqrt nlp ex u s
               = Ok (Qabs x * sqrt ((2 * inject_Z nlp - 1) / (hi - lo)))%Q)
    /\ (forall s, (0 <= s < size ey - 1)%Z ->
          exists hi lo v y,
            at_ ey (s + 1) = Ok hi /\ at_ ey s = Ok lo
            /\ at_ Vvec (size (sv_ r) - 1) = Ok v
            /\ at_ v (s * nlp + nlp - 1) = Ok y
            /\ at_ (residual_y_ r) s
               = Ok (Qabs (y * sqrt ((2 * inject_Z (size (sv_ r) - 1) + 1)
                                     / (hi - lo))))
            /\ spec_tail_residual sqrt nlp ey v s
               = Ok (Qabs y * sqrt ((2 * inject_Z nlp - 1) / (hi - lo)))%Q).
Proof.
  intro H. apply impl_Ok_inv_matrices in H.
  destruct H as (Ke & Ko & s0 & Uvec & Vvec & EKe & EKo & Es0 & Epick & HU & HV
                 & Ex & Ey).
  apply tail_residuals_against_spec in Ex. destruct Ex as [Lx Ex].
  apply tail_residuals_against_spec in Ey. destruct Ey as [Ly Ey].
  exists Ke, Ko, s0, Uvec, Vvec. repeat split; assumption.
Qed.

End PassFacts.

(** ** Runs of the generator on the concrete instances *)

Definition pass2 : outcome impl_result :=
  Generator.generate_ir_basis_functions_impl false sqrt_exact svd2 one_point_rule
    unit_legendre deriv2 unit_kernel 2 (1 # 10) 2 1 [0; 1]%Q [0; 1]%Q false.

(** A pass on four sections of width 1/4 with num_local_poly = 5 and five
    nodes per section that picks 13 singular triples from [svd20]; the
    last one is column 6 of the even sector, the unit vector e_9. *)
Definition pass13 : outcome impl_result :=
  Generator.generate_ir_basis_functions_impl false sqrt_exact svd20 five_point_rule
    unit_legendre deriv5 unit_kernel 13 (1 # 100) 5 5
    [0; 1 # 4; 1 # 2; 3 # 4; 1]%Q [0; 1 # 4; 1 # 2; 3 # 4; 1]%Q false.

Definition result2 : impl_result :=
  mk_impl [2; 2]%Q
          [mk_pp 1 1 [0; 1]%Q [[1; 0]%Q] true; mk_pp 1 1 [0; 1]%Q [[1; 0]%Q] true]
          [mk_pp 1 1 [0; 1]%Q [[1; 0]%Q] true; mk_pp 1 1 [0; 1]%Q [[1; 0]%Q] true]
          [0%Q] [0%Q] (16 # 16, 16 # 16)%Q.

Lemma generate_returns_at_least_two_witness :
  (2 <= size (sv_ result2))%Z
  /\ size (u_basis_pp_ result2) = size (sv_ result2)
  /\ size (v_basis_pp_ result2) = size (sv_ result2).
Proof.
  apply (generate_returns_at_least_two false 3 sqrt_exact (fun x => x) (fun x => x)
           (fun x => x) svd2 one_point_rule unit_legendre deriv2 unit_kernel
           5 2 (1 # 10) false 1 2 1 result2).
  vm_compute. reflexivity.
Defined.

Lemma pass2_returns : pass2 = Ok result2.
Proof. vm_compute. reflexivity. Qed.

Definition result13 : impl_result :=
  Eval vm_compute in
    match pass13 with
    | Ok r => r
    | _ => mk_impl [] [] [] [] [] (0%Q, 0%Q)
    end.

Lemma pass13_returns : pass13 = Ok result13.
Proof. vm_compute. reflexivity. Qed.

Lemma impl_tail_residuals_witness :
  exists Kmat_even Kmat_odd s0 Uvec Vvec,
    Generator.matrix_rep sqrt_exact five_point_rule unit_legendre
      (fun x y => (unit_kernel x y + unit_kernel x (- y))%Q)
      [0; 1 # 4; 1 # 2; 3 # 4; 1]%Q [0; 1 # 4; 1 # 2; 3 # 4; 1]%Q 5 5 = Ok Kmat_even
    /\ Generator.matrix_rep sqrt_exact five_point_rule unit_legendre
         (fun x y => (unit_kernel x y - unit_kernel x (- y))%Q)
         [0; 1 # 4; 1 # 2; 3 # 4; 1]%Q [0; 1 # 4; 1 # 2; 3 # 4; 1]%Q 5 5 = Ok Kmat_odd
    /\ at_ (singularValues (svd20 Kmat_even)) 0 = Ok s0
    /\ Generator.pick_up (length (singularValues (svd20 Kmat_even))) 0 13
         (1 # 100) s0 (svd20 Kmat_even) (svd20 Kmat_odd) ([], [], [])
       = Ok (sv_ result13, Uvec, Vvec)
    /\ size Uvec = size (sv_ result13) /\ size Vvec = size (sv_ result13)
    /\ size (residual_x_ result13) = Z.max 0 (size [0; 1 # 4; 1 # 2; 3 # 4; 1]%Q - 1)
    /\ size (residual_y_ result13) = Z.max 0 (size [0; 1 # 4; 1 # 2; 3 # 4; 1]%Q - 1)
    /\ (forall s, (0 <= s < size [0; 1 # 4; 1 # 2; 3 # 4; 1]%Q - 1)%Z ->
          exists hi lo u x,
            at_ [0; 1 # 4; 1 # 2; 3 # 4; 1]%Q (s + 1) = Ok hi
            /\ at_ [0; 1 # 4; 1 # 2; 3 # 4; 1]%Q s = Ok lo
            /\ at_ Uvec (size (sv_ result13) - 1) = Ok u
            /\ at_ u (s * 5 + 5 - 1) = Ok x
            /\ at_ (residual_x_ result13) s
               = Ok (Qabs (x * sqrt_exact
                                 ((2 * inject_Z (size (sv_ result13) - 1) + 1)
                                  / (hi - lo))))
            /\ spec_tail_residual sqrt_exact 5 [0; 1 # 4; 1 # 2; 3 # 4; 1]%Q u s
               = Ok (Qabs x * sqrt_exact ((2 * inject_Z 5 - 1) / (hi - lo)))%Q)
    /\ (forall s, (0 <= s < size [0; 1 # 4; 1 # 2; 3 # 4; 1]%Q - 1)%Z ->
          exists hi lo v y,
            at_ [0; 1 # 4; 1 # 2; 3 # 4; 1]%Q (s + 1) = Ok hi
            /\ at_ [0; 1 # 4; 1 # 2; 3 # 4; 1]%Q s = Ok lo
            /\ at_ Vvec (size (sv_ result13) - 1) = Ok v
            /\ at_ v (s * 5 + 5 - 1) = Ok y
            /\ at_ (residual_y_ result13) s
               = Ok (Qabs (y * sqrt_exact
                                 ((2 * inject_Z (size (sv_ result13) - 1) + 1)
                                  / (hi - lo))))
            /\ spec_tail_residual sqrt_exact 5 [0; 1 # 4; 1 # 2; 3 # 4; 1]%Q v s
               = Ok (Qabs y * sqrt_exact ((2 * inject_Z 5 - 1) / (hi - lo)))%Q).
Proof.
  apply (impl_tail_residuals false sqrt_exact svd20 five_point_rule unit_legendre
           deriv5 unit_kernel 13 (1 # 100) 5 5
           [0; 1 # 4; 1 # 2; 3 # 4; 1]%Q [0; 1 # 4; 1 # 2; 3 # 4; 1]%Q false result13).
  vm_compute. reflexivity.
Defined.

(** On that pass L = 13 and the last picked U vector is e_9, whose entry
    at 1 * 5 + 5 - 1 is 1.  The residual reported for x-section 1 is
    |1 * sqrt((2*12 + 1) / (1/4))| = 10, while the formula of the
    specification, |1| * sqrt((2*5 - 1) / (1/4)), is 6. *)
Lemma tail_residual_not_as_specified :
  pass13 = Ok result13
  /\ size (sv_ result13) = 13%Z
  /\ mat_col (matrixU (svd20 [])) 6 = Ok e9
  /\ at_ e9 (1 * 5 + 5 - 1) = Ok 1%Q
  /\ residual_x_ result13 = [0; 10; 0; 0]%Q
  /\ mapM (spec_tail_residual sqrt_exact 5 [0; 1 # 4; 1 # 2; 3 # 4; 1]%Q e9) (seqZ 4)
     = Ok [0; 6; 0; 0]%Q.
Proof.
  split; [exact pass13_returns |].
  repeat split; vm_compute; reflexivity.
Qed.

(** C3 at the failing input, on the stand-ins: with max_dim = 1 and
    sv_cutoff = 1 one pass picks exactly one pair, and the generator then
    reads V[-1]; with sv_cutoff = 2 nothing is picked and sv[0] is read
    from the empty vector. *)
Lemma generate_cutoff_1_undefined :
  (exists r, Generator.generate_ir_basis_functions_impl false sqrt_exact svd2
               one_point_rule unit_legendre deriv2 unit_kernel 1 1 2 1
               [0; 1]%Q [0; 1]%Q false = Ok r
             /\ size (sv_ r) = 1%Z /\ size (u_basis_pp_ r) = 1%Z)
  /\ Generator.generate_ir_basis_functions false 3 sqrt_exact (fun x => x)
       (fun x => x) (fun x => x) svd2 one_point_rule unit_legendre deriv2
       unit_kernel 5 1 1 false 1 2 1 = Some Undefined
  /\ Generator.generate_ir_basis_functions_impl false sqrt_exact svd2
       one_point_rule unit_legendre deriv2 unit_kernel 1 2 2 1
       [0; 1]%Q [0; 1]%Q false = Undefined.
Proof.
  split; [| split; vm_compute; reflexivity].
  eexists. split; [lazy; reflexivity |]. split; reflexivity.
Qed.

(** * Further properties of the code *)

(** ** Weighted sums and polynomial evaluation *)

Lemma Qpow_ext (x y : Q) (n : nat) : (x == y)%Q -> (Qpow x n == Qpow y n)%Q.
Proof.
  intro H. induction n as [| n IH]; cbn [Qpow]; [reflexivity |].
  rewrite IH, H. reflexivity.
Qed.

Lemma Qpow_add (x : Q) (n m : nat) : (Qpow x (n + m) == Qpow x n * Qpow x m)%Q.
Proof.
  induction n as [| n IH]; cbn [Qpow Nat.add]; [ring |]. rewrite IH. ring.
Qed.

Lemma wsum_from_ext (w w' : nat -> Q) :
  forall (c : list Q) (q : nat),
    (forall j, (q <= j < q + length c)%nat -> (w j == w' j)%Q) ->
    (wsum_from w q c == wsum_from w' q c)%Q.
Proof.
  induction c as [| a t IH]; intros q H; cbn [wsum_from]; [reflexivity |].
  rewrite (H q) by (cbn [length]; lia).
  rewrite (IH (S q)); [reflexivity |].
  intros j Hj. apply H. cbn [length]. lia.
Qed.

Lemma wsum_from_app (w : nat -> Q) :
  forall (a b : list Q) (q : nat),
    (wsum_from w q (a ++ b) == wsum_from w q a + wsum_from w (q + length a) b)%Q.
Proof.
  induction a as [| x a IH]; intros b q; cbn [app wsum_from length].
  - rewrite Nat.add_0_r. ring.
  - rewrite IH. replace (S q + length a)%nat with (q + S (length a))%nat by lia. ring.
Qed.

Lemma wsum_from_scale (w : nat -> Q) (k : Q) :
  forall (c : list Q) (q : nat),
    (wsum_from (fun j => k * w j) q c == k * wsum_from w q c)%Q.
Proof.
  induction c as [| a t IH]; intros q; cbn [wsum_from]; [ring |].
  rewrite IH. ring.
Qed.

Lemma wsum_from_pow_shift (y : Q) :
  forall (c : list Q) (q : nat),
    (wsum_from (Qpow y) (S q) c == y * wsum_from (Qpow y) q c)%Q.
Proof.
  induction c as [| a t IH]; intros q; cbn [wsum_from]; [ring |].
  rewrite (IH (S q)). cbn [Qpow]. ring.
Qed.

Lemma poly_eval_wsum (c : list Q) (y : Q) : (poly_eval c y == wsum (Qpow y) c)%Q.
Proof.
  unfold wsum. induction c as [| a t IH]; cbn [poly_eval wsum_from]; [reflexivity |].
  rewrite wsum_from_pow_shift, IH. cbn [Qpow]. ring.
Qed.

Lemma poly_eval_ext (c : list Q) (y y' : Q) :
  (y == y')%Q -> (poly_eval c y == poly_eval c y')%Q.
Proof.
  intro H. induction c as [| a t IH]; cbn [poly_eval]; [reflexivity |].
  rewrite IH, H. reflexivity.
Qed.

(** The loop of [power_sum] over the coefficients [t], started at power
    [x_pow] with the partial sum [r]. *)
Lemma power_sum_loop (c : Z -> outcome Q) (dx : Q) :
  forall (t : list Q) (lo : Z) (r xp : Q),
    (forall j, (j < length t)%nat -> c (lo + Z.of_nat j)%Z = Ok (nth j t 0%Q)) ->
    exists st,
      for_loop (length t) lo
        (fun p (st : Q * Q) =>
           let (r, x_pow) := st in
           cp <- c p ;; Ok (r + cp * x_pow, x_pow * dx)%Q)
        (r, xp) = Ok st
      /\ (fst st == r + xp * poly_eval t dx)%Q.
Proof.
  induction t as [| a t IH]; intros lo r xp H; cbn [length for_loop poly_eval].
  - exists (r, xp). split; [reflexivity |]. cbn [fst]. ring.
  - pose proof (H 0%nat ltac:(cbn [length]; lia)) as H0.
    rewrite Z.add_0_r in H0. rewrite H0. cbn [bind nth].
    destruct (IH (lo + 1)%Z (r + a * xp)%Q (xp * dx)%Q) as (st & E & Hst).
    { intros j Hj.
      replace (lo + 1 + Z.of_nat j)%Z with (lo + Z.of_nat (S j))%Z by lia.
      rewrite H by (cbn [length]; lia). reflexivity. }
    exists st. split; [exact E |]. rewrite Hst. ring.
Qed.

Lemma power_sum_eval (c : Z -> outcome Q) (rowl : list Q) (k : Z) (dx : Q) :
  size rowl = (k + 1)%Z ->
  (forall q, (0 <= q <= k)%Z -> c q = Ok (nth (Z.to_nat q) rowl 0%Q)) ->
  exists r, PP.power_sum c k dx = Ok r /\ (r == poly_eval rowl dx)%Q.
Proof.
  intros L Hc. unfold PP.power_sum, for_range. unfold size in L.
  replace (Z.to_nat (k + 1 - 0)) with (length rowl) by lia.
  destruct (power_sum_loop c dx rowl 0 0 1) as (st & E & Hst).
  { intros j Hj. rewrite Z.add_0_l. rewrite Hc by lia. now rewrite Nat2Z.id. }
  rewrite E. cbn [bind]. exists (fst st). split; [reflexivity |].
  rewrite Hst. ring.
Qed.

(** ** Rows of a well-formed piecewise polynomial *)

Lemma row_size (p : piecewise_polynomial) (s : Z) :
  well_formed p -> (0 <= s < n_sections_ p)%Z -> size (row p s) = (k_ p + 1)%Z.
Proof.
  intros W Hs. destruct (well_formed_facts p W) as (_ & _ & _ & Hr & Hc & _).
  rewrite Forall_forall in Hc. apply Hc. unfold row. apply nth_In.
  unfold size in Hr. lia.
Qed.

Lemma mat_at_row (p : piecewise_polynomial) (s q : Z) :
  well_formed p -> (0 <= s < n_sections_ p)%Z -> (0 <= q <= k_ p)%Z ->
  mat_at (coeff_ p) s q = Ok (nth (Z.to_nat q) (row p s) 0%Q).
Proof. intros W Hs Hq. exact (mat_at_coef p s q W Hs Hq). Qed.

Lemma well_formed_edges (p : piecewise_polynomial) :
  well_formed p ->
  (1 <= n_sections_ p)%Z
  /\ Z.of_nat (length (section_edges_ p)) = (n_sections_ p + 1)%Z
  /\ PP.ascending (section_edges_ p) = true.
Proof.
  intro W. destruct (well_formed_facts p W) as (_ & Hn & Hsz & _ & _ & Hasc).
  repeat split; assumption.
Qed.

(** ** Evaluation: [find_section], [compute_value] *)

(** Inside the half-open section [S[s], S[s+1]) the bisection finds [s]. *)
Lemma find_section_inside (NDEBUG : bool) (p : piecewise_polynomial) (s : Z) (x : Q) :
  well_formed p -> (0 <= s < n_sections_ p)%Z ->
  (edge (section_edges_ p) (Z.to_nat s) <= x)%Q ->
  (x < edge (section_edges_ p) (Z.to_nat (s + 1)))%Q ->
  PP.find_section NDEBUG p x = Ok s.
Proof.
  intros W Hs Hlo Hhi.
  destruct (well_formed_edges p W) as (Hn & Hlen & Hasc).
  assert (Hsz : size (section_edges_ p) = (n_sections_ p + 1)%Z) by exact Hlen.
  set (E := section_edges_ p) in *.
  assert (HxN : (x < edge E (Z.to_nat (n_sections_ p)))%Q).
  { apply Qlt_le_trans with (edge E (Z.to_nat (s + 1))); [exact Hhi |].
    apply ascending_le; [exact Hasc | lia | lia]. }
  unfold PP.find_section. fold E.
  rewrite (check_validity_dbg_well_formed NDEBUG p W). cbn [bind].
  rewrite (edge_at E 0) by lia. cbn [bind]. change (Z.to_nat 0) with 0%nat.
  destruct (Qeq_bool x (edge E 0)) eqn:E0.
  - apply Qeq_bool_iff in E0. f_equal.
    destruct (Z.eq_dec s 0) as [-> | Hs0]; [reflexivity | exfalso].
    assert (edge E 0 < edge E (Z.to_nat s))%Q
      by (apply ascending_lt; [exact Hasc | lia | lia]).
    rewrite <- E0 in H. exact (Qlt_not_le _ _ H Hlo).
  - rewrite (edge_at E (size E - 1)) by lia. cbn [bind]. rewrite Hsz.
    replace (Z.to_nat (n_sections_ p + 1 - 1)) with (Z.to_nat (n_sections_ p)) by lia.
    replace (Qeq_bool x (edge E (Z.to_nat (n_sections_ p)))) with false.
    2:{ symmetry. apply Qeq_bool_false_iff. intro Eq. rewrite Eq in HxN.
        exact (Qlt_irrefl _ HxN). }
    destruct (upper_bound_spec E x Hasc) as (Hr & Hbelow & Habove).
    assert (U : upper_bound E x = S (Z.to_nat s)).
    { destruct (Nat.lt_trichotomy (upper_bound E x) (S (Z.to_nat s))) as [L | [Eq | G]].
      - exfalso. assert (x < edge E (Z.to_nat s))%Q by (apply Habove; lia).
        exact (Qlt_not_le _ _ H Hlo).
      - exact Eq.
      - exfalso. assert (H : (edge E (S (Z.to_nat s)) <= x)%Q) by (apply Hbelow; lia).
        replace (Z.to_nat (s + 1)) with (S (Z.to_nat s)) in Hhi by lia.
        exact (Qlt_not_le _ _ Hhi H). }
    rewrite U. f_equal. lia.
Qed.

Lemma find_section_in_section (NDEBUG : bool) (p : piecewise_polynomial) (s : Z) (x : Q) :
  well_formed p -> in_section p s x -> PP.find_section NDEBUG p x = Ok s.
Proof.
  intros W (Hs & Hlo & [Hhi | [-> HxN]]).
  - now apply find_section_inside.
  - destruct (well_formed_edges p W) as (Hn & _ & _).
    pose proof (find_section_edge NDEBUG p (n_sections_ p) x W ltac:(lia) HxN) as F.
    unfold section_of_edge in F. now rewrite Z.eqb_refl in F.
Qed.

Lemma in_section_bounds (p : piecewise_polynomial) (s : Z) (x : Q) :
  well_formed p -> in_section p s x ->
  (edge (section_edges_ p) (Z.to_nat s) <= x)%Q
  /\ (x <= edge (section_edges_ p) (Z.to_nat (s + 1)))%Q.
Proof.
  intros W (Hs & Hlo & [Hhi | [-> HxN]]); split; try assumption.
  - now apply Qlt_le_weak.
  - replace (n_sections_ p - 1 + 1)%Z with (n_sections_ p) by lia.
    rewrite HxN. apply Qle_refl.
Qed.

(** Evaluation in a given section: the polynomial of that section at
    [x - S[s]]. *)
Lemma compute_value_in_eval (NDEBUG : bool) (p : piecewise_polynomial) (x : Q) (s : Z) :
  well_formed p -> (0 <= s < n_sections_ p)%Z ->
  (edge (section_edges_ p) (Z.to_nat s) <= x)%Q ->
  (x <= edge (section_edges_ p) (Z.to_nat (s + 1)))%Q ->
  exists v,
    PP.compute_value_in NDEBUG p x s = Ok v
    /\ (v == poly_eval (row p s) (x - edge (section_edges_ p) (Z.to_nat s)))%Q.
Proof.
  intros W Hs Hlo Hhi.
  destruct (well_formed_edges p W) as (Hn & Hlen & _).
  assert (Hsz : size (section_edges_ p) = (n_sections_ p + 1)%Z) by exact Hlen.
  unfold PP.compute_value_in.
  rewrite (check_validity_dbg_well_formed NDEBUG p W). cbn [bind].
  rewrite (edge_at (section_edges_ p) s) by lia.
  rewrite (edge_at (section_edges_ p) (s + 1)) by lia.
  cbn [bind].
  apply Qle_bool_iff in Hlo. apply Qle_bool_iff in Hhi. rewrite Hlo, Hhi.
  unfold PP.c_assert. rewrite orb_true_r.
  replace (if NDEBUG then Ok tt else Ok tt) with (@Ok unit tt) by (now destruct NDEBUG).
  cbn [bind].
  apply power_sum_eval; [now apply row_size |].
  intros q Hq. now apply mat_at_row.
Qed.

(** X3: [find_section] returns the section whose half-open interval
    [S[s], S[s+1]) contains [x]; the right end [S[N]] of the domain
    belongs to the last section. *)
Theorem find_section_locates (NDEBUG : bool) (p : piecewise_polynomial) (s : Z) (x : Q) :
  well_formed p ->
  (0 <= s < n_sections_ p)%Z ->
  (edge (section_edges_ p) (Z.to_nat s) <= x)%Q ->
  ((x < edge (section_edges_ p) (Z.to_nat (s + 1)))%Q
   \/ ((s = n_sections_ p - 1)%Z
       /\ (x == edge (section_edges_ p) (Z.to_nat (n_sections_ p)))%Q)) ->
  PP.find_section NDEBUG p x = Ok s.
Proof.
  intros W Hs Hlo Hhi. apply find_section_in_section; [exact W |].
  split; [exact Hs |]. split; assumption.
Qed.

Lemma find_section_locates_witness :
  PP.find_section false pp_three (2 # 5) = Ok 1%Z.
Proof.
  apply (find_section_locates false pp_three 1 (2 # 5)).
  - exact pp_three_well_formed.
  - simpl. lia.
  - vm_compute. discriminate.
  - left. vm_compute. reflexivity.
Defined.

Lemma compute_value_in_section (NDEBUG : bool) (p : piecewise_polynomial) (s : Z) (x : Q) :
  well_formed p -> in_section p s x ->
  exists v,
    PP.compute_value NDEBUG p x = Ok v
    /\ (v == poly_eval (row p s) (x - edge (section_edges_ p) (Z.to_nat s)))%Q.
Proof.
  intros W Hin.
  destruct (in_section_bounds p s x W Hin) as [Hlo Hhi].
  unfold PP.compute_value.
  rewrite (check_validity_dbg_well_formed NDEBUG p W). cbn [bind].
  rewrite (find_section_in_section NDEBUG p s x W Hin). cbn [bind].
  destruct Hin as (Hs & _). now apply compute_value_in_eval.
Qed.

(** X4: for [x] in section [s] of a well-formed piecewise polynomial,
    [compute_value] returns the value of that section's polynomial,
    [sum_q a[s,q] (x - S[s])^q]. *)
Theorem compute_value_evaluates (NDEBUG : bool) (p : piecewise_polynomial) (s : Z) (x : Q) :
  well_formed p ->
  (0 <= s < n_sections_ p)%Z ->
  (edge (section_edges_ p) (Z.to_nat s) <= x)%Q ->
  ((x < edge (section_edges_ p) (Z.to_nat (s + 1)))%Q
   \/ ((s = n_sections_ p - 1)%Z
       /\ (x == edge (section_edges_ p) (Z.to_nat (n_sections_ p)))%Q)) ->
  exists v,
    PP.compute_value NDEBUG p x = Ok v
    /\ (v == poly_eval (row p s) (x - edge (section_edges_ p) (Z.to_nat s)))%Q.
Proof.
  intros W Hs Hlo Hhi. apply compute_value_in_section; [exact W |].
  split; [exact Hs |]. split; assumption.
Qed.

Lemma compute_value_evaluates_witness :
  exists v,
    PP.compute_value false pp_three (2 # 5) = Ok v
    /\ (v == poly_eval [1; 2] ((2 # 5) - (1 # 3)))%Q.
Proof.
  apply (compute_value_evaluates false pp_three 1 (2 # 5)).
  - exact pp_three_well_formed.
  - simpl. lia.
  - vm_compute. discriminate.
  - left. vm_compute. reflexivity.
Defined.

(** ** The constructor *)

(** X5: the constructor from edges and coefficients never hands out an
    object that breaks the class invariant.  It returns the object made of
    exactly the given data when these satisfy the invariant; otherwise a
    release build throws and a debug build stops at an assertion. *)
Theorem make_establishes_invariant (NDEBUG : bool) (n_section : Z) (edges : list Q)
        (coeff : matrix) :
  match PP.make NDEBUG n_section edges coeff with
  | Ok p =>
      well_formed p
      /\ p = mk_pp (mat_cols coeff - 1) (size edges - 1) edges coeff true
  | Throw w =>
      NDEBUG = true /\ w = invalid_msg
      /\ PP.validity (mat_cols coeff - 1) (size edges - 1) edges coeff = false
  | Undefined => NDEBUG = false
  end.
Proof.
  unfold PP.make, PP.construct, PP.check_validity, PP.c_assert.
  cbn [valid_ section_edges_].
  destruct NDEBUG; cbn [orb bind].
  - destruct (PP.validity (mat_cols coeff - 1) (size edges - 1) edges coeff) eqn:V.
    + split; [split; [reflexivity | exact V] | reflexivity].
    + repeat split.
  - destruct (n_section =? size edges - 1)%Z; cbn [bind]; [| reflexivity].
    destruct (PP.validity (mat_cols coeff - 1) (size edges - 1) edges coeff) eqn:V;
      cbn [bind]; [| reflexivity].
    assert (H0 : (0 <? size edges)%Z = true).
    { unfold PP.validity in V.
      repeat (apply andb_true_iff in V; destruct V as [V ?]).
      apply Z.leb_le in V. apply Z.ltb_lt. lia. }
    rewrite H0. cbn [bind].
    split; [split; [reflexivity | exact V] | reflexivity].
Qed.

(** ** Calls that end the same way *)

Lemma outcome_rel_bind {A B A' B' : Type} (R : A -> A' -> Prop) (R' : B -> B' -> Prop)
      (m : outcome A) (m' : outcome A') (f : A -> outcome B) (f' : A' -> outcome B') :
  outcome_rel R m m' ->
  (forall a a', R a a' -> outcome_rel R' (f a) (f' a')) ->
  outcome_rel R' (bind m f) (bind m' f').
Proof.
  intros Hm Hf. destruct m as [a | w |], m' as [a' | w' |]; cbn in *;
    try contradiction; try discriminate; auto.
Qed.

Lemma outcome_rel_eq {A : Type} (m : outcome A) : outcome_rel eq m m.
Proof. destruct m; cbn; auto. Qed.

Lemma outcome_rel_same {A B : Type} (R : A -> A -> Prop) (R' : B -> B -> Prop)
      (m : outcome A) (f f' : A -> outcome B) :
  (forall a, outcome_rel R' (f a) (f' a)) ->
  outcome_rel R' (bind m f) (bind m f').
Proof. intro Hf. destruct m as [a | w |]; cbn; auto. Qed.

Lemma outcome_rel_for_loop {S S' : Type} (R : S -> S' -> Prop)
      (body : Z -> S -> outcome S) (body' : Z -> S' -> outcome S') :
  (forall i s s', R s s' -> outcome_rel R (body i s) (body' i s')) ->
  forall n i s s', R s s' -> outcome_rel R (for_loop n i body s) (for_loop n i body' s').
Proof.
  intro Hb. induction n as [| n IH]; intros i s s' Hs; cbn [for_loop].
  - exact Hs.
  - apply (outcome_rel_bind R R); [now apply Hb |].
    intros a a' Ha. now apply IH.
Qed.

Lemma at_map {A B : Type} (f : A -> B) (v : list A) (i : Z) :
  at_ (map f v) i = (a <- at_ v i ;; Ok (f a)).
Proof.
  unfold at_. destruct (i <? 0)%Z; [reflexivity |].
  rewrite nth_error_map. destruct (nth_error v (Z.to_nat i)); reflexivity.
Qed.

Lemma mat_at_map (f : Q -> Q) (m : matrix) (i j : Z) :
  mat_at (map (map f) m) i j = (a <- mat_at m i j ;; Ok (f a)).
Proof.
  unfold mat_at. rewrite at_map.
  destruct (at_ m i) as [r | w |]; cbn [bind]; [| reflexivity | reflexivity].
  apply at_map.
Qed.

(** ** Multiplication by a scalar *)

Lemma power_sum_scaled (c c' : Z -> outcome Q) (k : Z) (dx scalar : Q) :
  (forall q, c' q = (a <- c q ;; Ok (a * scalar)%Q)) ->
  outcome_rel (fun v v' => (v' == v * scalar)%Q)
              (PP.power_sum c k dx) (PP.power_sum c' k dx).
Proof.
  intro Hc. unfold PP.power_sum, for_range.
  apply (outcome_rel_bind
           (fun st st' : Q * Q => (fst st' == fst st * scalar)%Q /\ snd st' = snd st)).
  - apply outcome_rel_for_loop.
    + intros i [r xp] [r' xp'] [Hr Hx]. cbn [fst snd] in *. subst xp'.
      rewrite Hc. destruct (c i) as [a | w |]; cbn; auto.
      split; [| reflexivity]. rewrite Hr. ring.
    + cbn [fst snd]. split; [ring | reflexivity].
  - intros [r xp] [r' xp'] [Hr _]. cbn in *. exact Hr.
Qed.

Lemma compute_value_scale (NDEBUG : bool) (scalar : Q) (p : piecewise_polynomial) (x : Q) :
  outcome_rel (fun v v' => (v' == v * scalar)%Q)
              (PP.compute_value NDEBUG p x)
              (PP.compute_value NDEBUG (PP.scale scalar p) x).
Proof.
  unfold PP.compute_value.
  change (PP.check_validity_dbg NDEBUG (PP.scale scalar p))
    with (PP.check_validity_dbg NDEBUG p).
  change (PP.find_section NDEBUG (PP.scale scalar p) x)
    with (PP.find_section NDEBUG p x).
  apply (outcome_rel_same eq). intros _.
  apply (outcome_rel_same eq). intros s.
  unfold PP.compute_value_in.
  change (PP.check_validity_dbg NDEBUG (PP.scale scalar p))
    with (PP.check_validity_dbg NDEBUG p).
  cbn [PP.scale section_edges_ k_ coeff_].
  apply (outcome_rel_same eq). intros _.
  apply (outcome_rel_same eq). intros _.
  apply (outcome_rel_same eq). intros lo.
  apply power_sum_scaled. intro q. apply mat_at_map.
Qed.

Lemma scale_well_formed (scalar : Q) (p : piecewise_polynomial) :
  well_formed p -> well_formed (PP.scale scalar p).
Proof.
  intros [Hv H]. split; [exact Hv |].
  unfold PP.scale. cbn [k_ n_sections_ section_edges_ coeff_].
  unfold PP.validity in *. unfold mat_rows, size in *. rewrite length_map.
  repeat (apply andb_true_iff in H; destruct H as [H ?]).
  repeat (apply andb_true_iff; split); try assumption.
  rewrite forallb_forall in *. intros r Hr. apply in_map_iff in Hr.
  destruct Hr as (r0 & <- & Hr0). rewrite length_map.
  match goal with F : forall x, In x (coeff_ p) -> _ |- _ => exact (F r0 Hr0) end.
Qed.

Lemma row_scale (scalar : Q) (p : piecewise_polynomial) (s : Z) :
  row (PP.scale scalar p) s = map (fun c => (c * scalar)%Q) (row p s).
Proof.
  unfold row, PP.scale. cbn [coeff_].
  change (@nil Q) with (map (fun c => (c * scalar)%Q) []) at 1.
  apply map_nth.
Qed.

Lemma outcome_rel_weaken {A B : Type} (R R' : A -> B -> Prop)
      (m : outcome A) (m' : outcome B) :
  (forall a b, R a b -> R' a b) -> outcome_rel R m m' -> outcome_rel R' m m'.
Proof. intros H. destruct m, m'; cbn; auto. Qed.

(** X6: [scalar * pp] is again a well-formed object over the same
    partition and of the same order, whose coefficient of power [q] in
    section [s] is [a[s,q] * scalar].  Evaluating it ends the same way as
    evaluating [pp] (a value, the same exception, or the same out-of-range
    access), and for [x] in section [s] its value is the value at
    [x - S[s]] of the polynomial with the coefficients [a[s,q] * scalar]. *)
Theorem scale_scales_coefficients (NDEBUG : bool) (scalar : Q) (p : piecewise_polynomial) :
  (well_formed p -> well_formed (PP.scale scalar p))
  /\ section_edges_ (PP.scale scalar p) = section_edges_ p
  /\ n_sections_ (PP.scale scalar p) = n_sections_ p
  /\ k_ (PP.scale scalar p) = k_ p
  /\ (forall s q,
        well_formed p -> (0 <= s < n_sections_ p)%Z -> (0 <= q <= k_ p)%Z ->
        coef (PP.scale scalar p) s q = (coef p s q * scalar)%Q)
  /\ (forall x,
        outcome_rel (fun _ _ => True)
                    (PP.compute_value NDEBUG p x)
                    (PP.compute_value NDEBUG (PP.scale scalar p) x))
  /\ (forall s x,
        well_formed p -> in_section p s x ->
        exists v,
          PP.compute_value NDEBUG (PP.scale scalar p) x = Ok v
          /\ (v == poly_eval (map (fun c => (c * scalar)%Q) (row p s))
                             (x - edge (section_edges_ p) (Z.to_nat s)))%Q).
Proof.
  split; [apply scale_well_formed |]. split; [reflexivity |].
  split; [reflexivity |]. split; [reflexivity |]. split; [| split].
  - intros s q W Hs Hq. unfold coef. fold (row (PP.scale scalar p) s). fold (row p s).
    rewrite row_scale.
    pose proof (row_size p s W Hs) as L. unfold size in L.
    rewrite (nth_indep _ 0%Q (0 * scalar)%Q) by (rewrite length_map; lia).
    apply (map_nth (fun c => (c * scalar)%Q)).
  - intro x. apply (outcome_rel_weaken (fun v v' => (v' == v * scalar)%Q)); [auto |].
    apply compute_value_scale.
  - intros s x W Hin.
    destruct (compute_value_in_section NDEBUG (PP.scale scalar p) s x
                (scale_well_formed scalar p W) Hin) as (v & Ev & Hv).
    exists v. split; [exact Ev |]. rewrite Hv, row_scale. reflexivity.
Qed.

(** ** Derivatives *)

Lemma last_cons_default {A : Type} (b : A) (t : list A) (a : A) :
  last (b :: t) a = last t b.
Proof.
  revert a b. induction t as [| c t IH]; intros a b; [reflexivity |].
  change (last (b :: c :: t) a) with (last (c :: t) a).
  now rewrite (IH a c), (IH b c).
Qed.

Lemma scale_from_length (q : Z) (c : list Q) : length (scale_from q c) = length c.
Proof.
  revert q. induction c as [| a t IH]; intro q; cbn [scale_from length]; [reflexivity |].
  now rewrite IH.
Qed.

Lemma poly_deriv_length (c : list Q) : length (poly_deriv c) = length c.
Proof.
  destruct c as [| a t]; [reflexivity |]. cbn [poly_deriv].
  rewrite length_app, scale_from_length. cbn [length]. lia.
Qed.

Lemma iter_poly_deriv_length (n : nat) (c : list Q) :
  length (Nat.iter n poly_deriv c) = length c.
Proof.
  induction n as [| n IH]; [reflexivity |].
  rewrite Nat.iter_succ. now rewrite poly_deriv_length.
Qed.

(** The in-place shift [coeff_deriv[p] = (p + 1) * coeff_deriv[p + 1]]. *)
Lemma derivative_shift_loop :
  forall (t pre : list Q) (a : Q),
    for_loop (length t) (Z.of_nat (length pre))
      (fun q cd => c <- at_ cd (q + 1) ;; set_at cd q (inject_Z (q + 1) * c)%Q)
      (pre ++ a :: t)
    = Ok (pre ++ scale_from (Z.of_nat (length pre) + 1) t ++ [last t a]).
Proof.
  induction t as [| b t IH]; intros pre a; [reflexivity |].
  cbn [length for_loop].
  replace (at_ (pre ++ a :: b :: t) (Z.of_nat (length pre) + 1)) with (Ok b).
  2:{ replace (pre ++ a :: b :: t) with ((pre ++ [a]) ++ b :: t)
        by (now rewrite <- app_assoc).
      replace (Z.of_nat (length pre) + 1)%Z with (Z.of_nat (length (pre ++ [a])))
        by (rewrite length_app; simpl; lia).
      now rewrite at_app_head. }
  cbn [bind]. rewrite set_at_app. cbn [bind].
  set (v := (inject_Z (Z.of_nat (length pre) + 1) * b)%Q).
  replace (pre ++ v :: b :: t) with ((pre ++ [v]) ++ b :: t)
    by (now rewrite <- app_assoc).
  replace (Z.of_nat (length pre) + 1)%Z with (Z.of_nat (length (pre ++ [v])))
    by (rewrite length_app; simpl; lia).
  rewrite IH. rewrite <- app_assoc. cbn [app scale_from].
  rewrite last_cons_default.
  replace (Z.of_nat (length (pre ++ [v]))) with (Z.of_nat (length pre) + 1)%Z
    by (rewrite length_app; simpl; lia).
  reflexivity.
Qed.

(** One pass of the loop over [m] in [derivative]. *)
Lemma derivative_step (k : Z) (cd : list Q) :
  (0 <= k)%Z -> Z.of_nat (length cd) = (k + 1)%Z ->
  (cd' <- for_range 0 k
            (fun q cd => c <- at_ cd (q + 1) ;; set_at cd q (inject_Z (q + 1) * c)%Q)
            cd ;;
   set_at cd' k 0%Q)
  = Ok (poly_deriv cd).
Proof.
  intros Hk L. destruct cd as [| a t]; [cbn [length] in L; lia |].
  cbn [length] in L. unfold for_range.
  replace (Z.to_nat (k - 0)) with (length t) by lia.
  pose proof (derivative_shift_loop t [] a) as E.
  cbn [length app Z.of_nat] in E. rewrite E. clear E. cbn [bind].
  replace k with (Z.of_nat (length (scale_from (0 + 1) t)))
    by (rewrite scale_from_length; lia).
  rewrite set_at_app. reflexivity.
Qed.

Lemma derivative_passes (k : Z) :
  (0 <= k)%Z ->
  forall (n : nat) (i : Z) (cd : list Q),
    Z.of_nat (length cd) = (k + 1)%Z ->
    for_loop n i
      (fun _ cd =>
         cd' <- for_range 0 k
                  (fun q cd => c <- at_ cd (q + 1) ;; set_at cd q (inject_Z (q + 1) * c)%Q)
                  cd ;;
         set_at cd' k 0%Q)
      cd
    = Ok (Nat.iter n poly_deriv cd).
Proof.
  intros Hk. induction n as [| n IH]; intros i cd L; [reflexivity |].
  cbn [for_loop]. rewrite (derivative_step k cd Hk L). cbn [bind].
  rewrite IH by (now rewrite poly_deriv_length).
  now rewrite Nat.iter_succ_r.
Qed.

Lemma map_nth_seqZ (l : list Q) :
  map (fun q => nth (Z.to_nat q) l 0%Q) (seqZ (Z.of_nat (length l))) = l.
Proof.
  apply (nth_ext _ _ 0%Q 0%Q).
  - rewrite length_map_seqZ. lia.
  - intros n Hn. rewrite length_map_seqZ in Hn.
    rewrite <- (Nat2Z.id n) at 1.
    rewrite (nth_map_seqZ (fun q => nth (Z.to_nat q) l 0%Q)) by lia.
    now rewrite Nat2Z.id.
Qed.

Lemma derivative_in_section (NDEBUG : bool) (p : piecewise_polynomial)
      (x : Q) (ord s : Z) :
  well_formed p -> (0 <= k_ p)%Z -> (0 <= s < n_sections_ p)%Z ->
  exists r,
    (lo <- at_ (section_edges_ p) s ;;
     let dx := (x - lo)%Q in
     coeff_deriv <- for_range 0 (k_ p + 1)
                      (fun q cd => c <- mat_at (coeff_ p) s q ;; set_at cd q c)
                      (repeat 0%Q (Z.to_nat (k_ p + 1))) ;;
     coeff_deriv <- for_range 0 ord
                      (fun _ cd =>
                         cd <- for_range 0 (k_ p)
                                 (fun q cd =>
                                    c <- at_ cd (q + 1) ;;
                                    set_at cd q (inject_Z (q + 1) * c)%Q)
                                 cd ;;
                         set_at cd (k_ p) 0%Q)
                      coeff_deriv ;;
     PP.power_sum (fun q => at_ coeff_deriv q) (k_ p) dx) = Ok r
    /\ (r == poly_eval (Nat.iter (Z.to_nat ord) poly_deriv (row p s))
                       (x - edge (section_edges_ p) (Z.to_nat s)))%Q.
Proof.
  intros W Hk Hs.
  destruct (well_formed_edges p W) as (Hn & Hlen & _).
  assert (Hsz : size (section_edges_ p) = (n_sections_ p + 1)%Z) by exact Hlen.
  pose proof (row_size p s W Hs) as Lrow. unfold size in Lrow.
  rewrite (edge_at (section_edges_ p) s) by lia. cbn [bind].
  rewrite (write_loop _ (fun q => nth (Z.to_nat q) (row p s) 0%Q) (k_ p + 1)).
  2:{ rewrite repeat_length. lia. }
  2:{ intros q v Hq. rewrite (mat_at_row p s q W Hs) by lia. reflexivity. }
  cbn [bind]. rewrite skipn_all_length by (rewrite repeat_length; lia).
  rewrite app_nil_r. rewrite <- Lrow. rewrite map_nth_seqZ.
  unfold for_range at 1. rewrite (derivative_passes (k_ p) Hk) by exact Lrow.
  cbn [bind]. replace (ord - 0)%Z with ord by lia.
  apply power_sum_eval.
  - unfold size. now rewrite iter_poly_deriv_length.
  - intros q Hq. apply at_in_range. unfold size.
    rewrite iter_poly_deriv_length. lia.
Qed.

(** X7: [derivative(x, order, section)] returns the value at [x - S[s]] of
    the [order]-th formal derivative of the polynomial of section [s],
    where [s] is the section handed in, or for [section < 0] the section
    that contains [x].  With an explicit section no range is checked. *)
Theorem derivative_evaluates (NDEBUG : bool) (p : piecewise_polynomial)
        (x : Q) (ord section s : Z) :
  well_formed p -> (0 <= k_ p)%Z ->
  (0 <= s < n_sections_ p)%Z ->
  section = s \/ ((section < 0)%Z /\ in_section p s x) ->
  exists r,
    PP.derivative NDEBUG p x ord section = Ok r
    /\ (r == poly_eval (Nat.iter (Z.to_nat ord) poly_deriv (row p s))
                       (x - edge (section_edges_ p) (Z.to_nat s)))%Q.
Proof.
  intros W Hk Hs Hsec. unfold PP.derivative.
  rewrite (check_validity_dbg_well_formed NDEBUG p W). cbn [bind].
  assert (E : (if (0 <=? section)%Z then Ok section else PP.find_section NDEBUG p x)
              = Ok s).
  { destruct Hsec as [-> | [Hneg Hin]].
    - replace (0 <=? s)%Z with true by (symmetry; apply Z.leb_le; lia). reflexivity.
    - replace (0 <=? section)%Z with false by (symmetry; apply Z.leb_gt; lia).
      now apply find_section_in_section. }
  rewrite E. cbn [bind].
  exact (derivative_in_section NDEBUG p x ord s W Hk Hs).
Qed.

Lemma derivative_evaluates_witness :
  exists r,
    PP.derivative false pp_three (2 # 5) 1 1 = Ok r
    /\ (r == poly_eval [2; 0] ((2 # 5) - (1 # 3)))%Q.
Proof.
  apply (derivative_evaluates false pp_three (2 # 5) 1 1 1).
  - exact pp_three_well_formed.
  - simpl. lia.
  - simpl. lia.
  - left. reflexivity.
Defined.

(** ** Two objects over one partition *)

Lemma vec_eqb_edge (a b : list Q) :
  vec_eqb a b = true -> forall i, (edge a i == edge b i)%Q.
Proof.
  revert b. induction a as [| x a IH]; intros [| y b] H i; try discriminate.
  - reflexivity.
  - cbn [vec_eqb] in H. apply andb_true_iff in H. destruct H as [Hxy H].
    apply Qeq_bool_iff in Hxy. unfold edge in *.
    destruct i as [| i]; cbn [nth]; [exact Hxy | exact (IH b H i)].
Qed.

Lemma in_section_same_edges (f g : piecewise_polynomial) (s : Z) (x : Q) :
  well_formed f -> well_formed g ->
  vec_eqb (section_edges_ f) (section_edges_ g) = true ->
  in_section f s x -> in_section g s x.
Proof.
  intros Wf Wg He (Hs & Hlo & Hhi).
  pose proof (same_sections f g Wf Wg He) as Hn.
  pose proof (vec_eqb_edge _ _ He) as Hedge.
  split; [lia |]. split.
  - now rewrite <- Hedge.
  - destruct Hhi as [Hhi | [Hs' Hx]].
    + left. now rewrite <- Hedge.
    + right. split; [lia |]. rewrite Hn. now rewrite <- Hedge.
Qed.

(** ** Addition and subtraction on well-formed operands *)

(** X8: on two well-formed operands [do_op] (the body of [operator+] and
    [operator-]) throws when their section edges differ; otherwise it
    returns a well-formed object over the same partition, of order
    max(k1, k2), whose coefficient of power [p] is [op a1[s,p] a2[s,p]] for
    p <= min(k1, k2) and 0 for every higher power. *)
Theorem do_op_behaviour (NDEBUG : bool) (op : Q -> Q -> Q)
        (f1 f2 : piecewise_polynomial) :
  well_formed f1 -> well_formed f2 ->
  if vec_eqb (section_edges_ f1) (section_edges_ f2)
  then
    exists r,
      PP.do_op NDEBUG op f1 f2 = Ok r
      /\ well_formed r
      /\ k_ r = Z.max (k_ f1) (k_ f2)
      /\ section_edges_ r = section_edges_ f1
      /\ forall s p, (0 <= s < n_sections_ f1)%Z -> (0 <= p <= Z.max (k_ f1) (k_ f2))%Z ->
           coef r s p = if (p <=? Z.min (k_ f1) (k_ f2))%Z
                        then op (coef f1 s p) (coef f2 s p)
                        else 0%Q
  else
    PP.do_op NDEBUG op f1 f2
    = Throw "Cannot add two numerical functions with different sections!".
Proof.
  intros W1 W2.
  destruct (vec_eqb (section_edges_ f1) (section_edges_ f2)) eqn:He.
  - destruct (do_op_coefficients NDEBUG op f1 f2 W1 W2 He)
      as (r & Er & Wr & Kr & _ & Sr & Cr).
    exists r. split; [exact Er |]. split; [exact Wr |]. split; [exact Kr |].
    split; [exact Sr | exact Cr].
  - unfold PP.do_op. rewrite He. reflexivity.
Qed.

Lemma do_op_behaviour_witness :
  exists r,
    PP.do_op false Qplus pp_x pp_five = Ok r
    /\ well_formed r
    /\ k_ r = 1%Z
    /\ section_edges_ r = [0; 1]%Q
    /\ forall s p, (0 <= s < 1)%Z -> (0 <= p <= 1)%Z ->
         coef r s p = if (p <=? 0)%Z
                      then Qplus (coef pp_x s p) (coef pp_five s p)
                      else 0%Q.
Proof.
  apply (do_op_behaviour false Qplus pp_x pp_five); split; reflexivity.
Defined.

Lemma poly_eval_zeros (c : list Q) (y : Q) :
  (forall i, (nth i c 0 == 0)%Q) -> (poly_eval c y == 0)%Q.
Proof.
  induction c as [| a t IH]; intro H; cbn [poly_eval]; [reflexivity |].
  rewrite IH by (intro i; exact (H (S i))).
  rewrite (H 0%nat : (a == 0)%Q). ring.
Qed.

(** Two coefficient lists that agree entry by entry (entries past the end
    count as 0) give the same polynomial. *)
Lemma poly_eval_nth_ext (y : Q) :
  forall c c' : list Q,
    (forall i, (nth i c 0 == nth i c' 0)%Q) -> (poly_eval c y == poly_eval c' y)%Q.
Proof.
  induction c as [| a t IH]; intros c' H.
  - symmetry. apply poly_eval_zeros. intro i. rewrite <- (H i). now destruct i.
  - destruct c' as [| b t'].
    + apply poly_eval_zeros. intro i. rewrite (H i). now destruct i.
    + cbn [poly_eval]. rewrite (IH t') by (intro i; exact (H (S i))).
      rewrite (H 0%nat : (a == b)%Q). reflexivity.
Qed.

(** X9: the value of the result of [do_op] (the body of [operator+] and
    [operator-]).  For well-formed operands over one partition and [x] in
    section [s], evaluating the result at [x] gives
    [sum_{q <= min(k1, k2)} op a1[s,q] a2[s,q] * (x - S[s])^q]: the powers
    above the lower of the two orders do not contribute. *)
Theorem do_op_evaluates (NDEBUG : bool) (op : Q -> Q -> Q)
        (f1 f2 : piecewise_polynomial) (s : Z) (x : Q) :
  well_formed f1 -> well_formed f2 ->
  vec_eqb (section_edges_ f1) (section_edges_ f2) = true ->
  in_section f1 s x ->
  exists r v,
    PP.do_op NDEBUG op f1 f2 = Ok r
    /\ PP.compute_value NDEBUG r x = Ok v
    /\ (v == poly_eval (map (fun q => op (coef f1 s q) (coef f2 s q))
                            (seqZ (Z.min (k_ f1) (k_ f2) + 1)))
                       (x - edge (section_edges_ f1) (Z.to_nat s)))%Q.
Proof.
  intros W1 W2 He Hin.
  assert (Hs : (0 <= s < n_sections_ f1)%Z) by (destruct Hin as [H _]; exact H).
  pose proof (well_formed_order f1 W1) as O1.
  pose proof (well_formed_order f2 W2) as O2.
  destruct (do_op_coefficients NDEBUG op f1 f2 W1 W2 He)
    as (r & Er & Wr & Kr & Nr & Sr & Cr).
  assert (Hinr : in_section r s x).
  { unfold in_section in *. now rewrite Nr, Sr. }
  destruct (compute_value_in_section NDEBUG r s x Wr Hinr) as (v & Ev & Hv).
  exists r, v. split; [exact Er |]. split; [exact Ev |].
  rewrite Hv, Sr. apply poly_eval_nth_ext. intro i.
  pose proof (row_size r s Wr ltac:(lia)) as Lr. unfold size in Lr.
  set (m := Z.min (k_ f1) (k_ f2)) in *.
  destruct (Z_le_gt_dec (Z.of_nat i) m) as [Hi | Hi].
  - pose proof (nth_map_seqZ (fun q => op (coef f1 s q) (coef f2 s q)) (m + 1)
                  (Z.of_nat i) 0%Q ltac:(lia)) as E.
    rewrite Nat2Z.id in E. rewrite E.
    pose proof (Cr s (Z.of_nat i) Hs ltac:(lia)) as C.
    replace (Z.of_nat i <=? m)%Z with true in C by (symmetry; apply Z.leb_le; lia).
    unfold coef in C at 1. fold (row r s) in C. rewrite Nat2Z.id in C.
    rewrite C. reflexivity.
  - rewrite (nth_overflow (map _ (seqZ (m + 1)))) by (rewrite length_map_seqZ; lia).
    destruct (Z_le_gt_dec (Z.of_nat i) (k_ r)) as [Hk | Hk].
    + pose proof (Cr s (Z.of_nat i) Hs ltac:(lia)) as C.
      replace (Z.of_nat i <=? m)%Z with false in C by (symmetry; apply Z.leb_gt; lia).
      unfold coef in C. fold (row r s) in C. rewrite Nat2Z.id in C.
      rewrite C. reflexivity.
    + rewrite nth_overflow by lia. reflexivity.
Qed.

(** [x + 5] evaluated at 1/2 by the code: the sum of the coefficients of
    power 0 only. *)
Lemma do_op_evaluates_witness :
  exists r v,
    PP.do_op false Qplus pp_x pp_five = Ok r
    /\ PP.compute_value false r (1 # 2) = Ok v
    /\ (v == poly_eval (map (fun q => Qplus (coef pp_x 0 q) (coef pp_five 0 q))
                            (seqZ (Z.min (k_ pp_x) (k_ pp_five) + 1)))
                       ((1 # 2) - edge (section_edges_ pp_x) (Z.to_nat 0)))%Q.
Proof.
  apply (do_op_evaluates false Qplus pp_x pp_five 0 (1 # 2)).
  - split; reflexivity.
  - split; reflexivity.
  - reflexivity.
  - split; [simpl; lia |]. split; [vm_compute; discriminate |].
    left. vm_compute. reflexivity.
Defined.

(** ** Accumulating into a row *)

Lemma add_at_length (c : Q) :
  forall (rw : list Q) (q : nat), length (add_at rw q c) = length rw.
Proof.
  induction rw as [| x t IH]; intros [| q]; cbn [add_at length]; try reflexivity.
  now rewrite IH.
Qed.

Lemma replace_nth_add_at (c : Q) :
  forall (rw : list Q) (q : nat),
    (q < length rw)%nat ->
    replace_nth rw q (nth q rw 0 + c)%Q = Some (add_at rw q c).
Proof.
  induction rw as [| x t IH]; intros [| q] H; cbn [length] in H; try lia.
  - reflexivity.
  - cbn [replace_nth nth add_at]. rewrite IH by lia. reflexivity.
Qed.

Lemma set_at_add_at (rw : list Q) (q : Z) (c : Q) :
  (0 <= q < Z.of_nat (length rw))%Z ->
  set_at rw q (nth (Z.to_nat q) rw 0 + c)%Q = Ok (add_at rw (Z.to_nat q) c).
Proof.
  intro H. unfold set_at.
  replace (q <? 0)%Z with false by (symmetry; apply Z.ltb_ge; lia).
  rewrite replace_nth_add_at by lia. reflexivity.
Qed.

Lemma wsum_from_add_at (w : nat -> Q) (c : Q) :
  forall (rw : list Q) (q j : nat),
    (q < length rw)%nat ->
    (wsum_from w j (add_at rw q c) == wsum_from w j rw + c * w (j + q)%nat)%Q.
Proof.
  induction rw as [| x t IH]; intros [| q] j H; cbn [length] in H; try lia;
    cbn [add_at wsum_from].
  - rewrite Nat.add_0_r. ring.
  - rewrite IH by lia. replace (S j + q)%nat with (j + S q)%nat by lia. ring.
Qed.

Lemma wsum_add_at (w : nat -> Q) (c : Q) (rw : list Q) (q : nat) :
  (q < length rw)%nat ->
  (wsum w (add_at rw q c) == wsum w rw + c * w q)%Q.
Proof. intro H. unfold wsum. now rewrite wsum_from_add_at. Qed.

Lemma wsum_from_zeros (w : nat -> Q) (n : nat) :
  forall j, (wsum_from w j (repeat 0%Q n) == 0)%Q.
Proof.
  induction n as [| n IH]; intro j; cbn [repeat wsum_from]; [reflexivity |].
  rewrite IH. ring.
Qed.

Lemma wsum_firstn_succ (w : nat -> Q) (c : list Q) (i : nat) :
  (i < length c)%nat ->
  (wsum w (firstn (S i) c) == wsum w (firstn i c) + nth i c 0%Q * w i)%Q.
Proof.
  intro H. unfold wsum. rewrite (firstn_succ_nth c i 0%Q H).
  rewrite wsum_from_app. rewrite length_firstn.
  replace (0 + Nat.min i (length c))%nat with i by lia.
  cbn [wsum_from]. ring.
Qed.

Lemma wsum_ext (w w' : nat -> Q) (c : list Q) :
  (forall j, (w j == w' j)%Q) -> (wsum w c == wsum w' c)%Q.
Proof. intro H. unfold wsum. apply wsum_from_ext. intros j _. apply H. Qed.

Lemma set_at_repeat {A : Type} (a : A) (n : nat) (q : Z) :
  (0 <= q < Z.of_nat n)%Z -> set_at (repeat a n) q a = Ok (repeat a n).
Proof.
  intro H.
  assert (E : repeat a n
              = repeat a (Z.to_nat q) ++ a :: repeat a (n - Z.to_nat q - 1)).
  { replace n with (Z.to_nat q + S (n - Z.to_nat q - 1))%nat at 1 by lia.
    now rewrite repeat_app. }
  rewrite E.
  pose proof (set_at_app (repeat a (Z.to_nat q)) a a
                         (repeat a (n - Z.to_nat q - 1))) as Hs.
  rewrite repeat_length, Z2Nat.id in Hs by lia. exact Hs.
Qed.

(** ** Rows of a matrix *)

Lemma mat_at_mid (pre post : matrix) (rw : list Q) (q : Z) :
  mat_at (pre ++ rw :: post) (Z.of_nat (length pre)) q = at_ rw q.
Proof. unfold mat_at. now rewrite at_app_head. Qed.

Lemma mat_set_mid (pre post : matrix) (rw : list Q) (q : Z) (v : Q) :
  mat_set (pre ++ rw :: post) (Z.of_nat (length pre)) q v
  = (rw' <- set_at rw q v ;; Ok (pre ++ rw' :: post)).
Proof.
  unfold mat_set. rewrite at_app_head. cbn [bind].
  destruct (set_at rw q v) as [rw' | |]; cbn [bind]; try reflexivity.
  apply set_at_app.
Qed.

(** ** Accessors on well-formed objects *)

Lemma coefficient_valid (NDEBUG : bool) (K N : Z) (E : list Q) (M : matrix) (s q : Z) :
  (0 <= s < size E)%Z -> (0 <= q <= K)%Z ->
  PP.coefficient NDEBUG (mk_pp K N E M true) s q = mat_at M s q.
Proof.
  intros Hs Hq.
  unfold PP.coefficient, PP.check_validity_dbg, PP.check_validity, PP.c_assert.
  cbn [section_edges_ k_ valid_ coeff_].
  replace (0 <=? s)%Z with true by (symmetry; apply Z.leb_le; lia).
  replace (s <? size E)%Z with true by (symmetry; apply Z.ltb_lt; lia).
  replace (0 <=? q)%Z with true by (symmetry; apply Z.leb_le; lia).
  replace (q <=? K)%Z with true by (symmetry; apply Z.leb_le; lia).
  replace (0 <? size E)%Z with true by (symmetry; apply Z.ltb_lt; lia).
  destruct NDEBUG; reflexivity.
Qed.

Lemma coefficient_row (NDEBUG : bool) (p : piecewise_polynomial) (s q : Z) :
  well_formed p -> (0 <= s < n_sections_ p)%Z -> (0 <= q <= k_ p)%Z ->
  PP.coefficient NDEBUG p s q = Ok (nth (Z.to_nat q) (row p s) 0%Q).
Proof.
  intros W Hs Hq. destruct (well_formed_edges p W) as (_ & Hlen & _).
  rewrite <- (mat_at_row p s q W Hs Hq).
  destruct W as [Hv _]. destruct p as [K N E M v]. cbn [valid_] in Hv. subst v.
  cbn [section_edges_ n_sections_ k_ coeff_] in *.
  apply coefficient_valid; [unfold size; lia | exact Hq].
Qed.

Lemma section_edge_well_formed (NDEBUG : bool) (p : piecewise_polynomial) (i : Z) :
  well_formed p -> (0 <= i <= n_sections_ p)%Z ->
  PP.section_edge NDEBUG p i = Ok (edge (section_edges_ p) (Z.to_nat i)).
Proof.
  intros W Hi. destruct (well_formed_edges p W) as (_ & Hlen & _).
  unfold PP.section_edge, PP.c_assert.
  rewrite (check_validity_dbg_well_formed NDEBUG p W).
  replace (0 <=? i)%Z with true by (symmetry; apply Z.leb_le; lia).
  replace (i <? size (section_edges_ p))%Z with true
    by (symmetry; apply Z.ltb_lt; unfold size; lia).
  rewrite orb_true_r. cbn [bind]. apply edge_at. unfold size. lia.
Qed.

Lemma num_sections_well_formed (NDEBUG : bool) (p : piecewise_polynomial) :
  well_formed p -> PP.num_sections NDEBUG p = Ok (n_sections_ p).
Proof.
  intro W. unfold PP.num_sections.
  now rewrite (check_validity_dbg_well_formed NDEBUG p W).
Qed.

Lemma section_edges_well_formed (NDEBUG : bool) (p : piecewise_polynomial) :
  well_formed p -> PP.section_edges NDEBUG p = Ok (section_edges_ p).
Proof.
  intro W. unfold PP.section_edges.
  now rewrite (check_validity_dbg_well_formed NDEBUG p W).
Qed.

Lemma check_validity_well_formed (NDEBUG : bool) (p : piecewise_polynomial) :
  well_formed p -> PP.check_validity NDEBUG p = Ok tt.
Proof.
  intro W. destruct (well_formed_edges p W) as (Hn & Hlen & _).
  destruct W as [Hv _].
  unfold PP.check_validity, PP.c_assert.
  replace (0 <? size (section_edges_ p))%Z with true
    by (symmetry; apply Z.ltb_lt; unfold size; lia).
  rewrite orb_true_r. cbn [bind]. now rewrite Hv.
Qed.

(** The zero object made by the constructor [piecewise_polynomial(k, edges)]. *)
Lemma make_zero_ok (NDEBUG : bool) (k n : Z) (E : list Q) :
  (1 <= n)%Z -> size E = (n + 1)%Z -> PP.ascending E = true -> (0 <= k + 1)%Z ->
  PP.make_zero NDEBUG k E
  = Ok (mk_pp k n E (repeat (repeat 0%Q (Z.to_nat (k + 1))) (Z.to_nat n)) true).
Proof.
  intros Hn Hsz Hasc Hk. unfold PP.make_zero. rewrite Hsz.
  replace (n + 1 - 1)%Z with n by lia.
  replace (n <? 0)%Z with false by (symmetry; apply Z.ltb_ge; lia).
  replace (k + 1 <? 0)%Z with false by (symmetry; apply Z.ltb_ge; lia).
  cbn [orb]. unfold PP.construct. rewrite Hsz.
  replace (n + 1 - 1)%Z with n by lia.
  assert (V : PP.validity k n E (mat_zero n (k + 1)) = true).
  { unfold PP.validity, mat_zero, mat_rows, size. rewrite repeat_length.
    repeat (apply andb_true_iff; split).
    - apply Z.leb_le. lia.
    - apply Z.eqb_eq. exact Hsz.
    - apply Z.eqb_eq. lia.
    - apply forallb_forall. intros r Hr. apply repeat_spec in Hr. subst r.
      rewrite repeat_length. apply Z.eqb_eq. lia.
    - exact Hasc. }
  rewrite V. unfold PP.c_assert at 1. rewrite orb_true_r. cbn [bind].
  unfold PP.check_validity, PP.c_assert. cbn [section_edges_ valid_].
  replace (0 <? size E)%Z with true by (symmetry; apply Z.ltb_lt; lia).
  rewrite orb_true_r. reflexivity.
Qed.

(** ** Sums over the sections *)

Lemma Qsum_app (a b : list Q) : (Qsum (a ++ b) == Qsum a + Qsum b)%Q.
Proof.
  unfold Qsum. induction a as [| x a IH]; cbn [app fold_right]; [ring |].
  rewrite IH. ring.
Qed.

Lemma sum_upto_succ (s : Z) (F : Z -> Q) :
  (0 <= s)%Z -> (sum_upto (s + 1) F == sum_upto s F + F s)%Q.
Proof.
  intro H. unfold sum_upto. rewrite (seqZ_succ s H), map_app, Qsum_app.
  cbn [map Qsum fold_right]. ring.
Qed.

Lemma sum_upto_ext (n : Z) (F G : Z -> Q) :
  (forall s, (0 <= s < n)%Z -> (F s == G s)%Q) ->
  (sum_upto n F == sum_upto n G)%Q.
Proof.
  intro H. destruct (Z_lt_le_dec n 0) as [L | L].
  - unfold sum_upto, seqZ. replace (Z.to_nat n) with 0%nat by lia. reflexivity.
  - rewrite <- (Z2Nat.id n L) in *. induction (Z.to_nat n) as [| m IH].
    + reflexivity.
    + replace (Z.of_nat (S m)) with (Z.of_nat m + 1)%Z in * by lia.
      rewrite !sum_upto_succ by lia. rewrite IH.
      * rewrite (H (Z.of_nat m)) by lia. reflexivity.
      * intros s Hs. apply H. lia.
Qed.

(** A loop over the sections that adds [F s] in pass [s]. *)
Lemma section_sum_loop (body : Z -> Q -> outcome Q) (F : Z -> Q) (n : Z) :
  (0 <= n)%Z ->
  (forall s r, (0 <= s < n)%Z -> exists r', body s r = Ok r' /\ (r' == r + F s)%Q) ->
  exists r, for_range 0 n body 0%Q = Ok r /\ (r == sum_upto n F)%Q.
Proof.
  intros Hn Hb.
  destruct (for_range_total (fun s r => (r == sum_upto s F)%Q) body n 0%Q Hn)
    as (r & E & Hr).
  - intros s r Hs Ir. destruct (Hb s r Hs) as (r' & E' & Hr').
    exists r'. split; [exact E' |]. rewrite sum_upto_succ by lia.
    rewrite Hr', Ir. reflexivity.
  - reflexivity.
  - exists r. split; assumption.
Qed.

(** ** [multiply] *)

Section Multiply.

Variable NDEBUG : bool.
Variables f1 f2 : piecewise_polynomial.
Hypothesis W1 : well_formed f1.
Hypothesis W2 : well_formed f2.
Hypothesis Hedges : vec_eqb (section_edges_ f1) (section_edges_ f2) = true.
Hypothesis Hk1 : (0 <= k_ f1)%Z.
Hypothesis Hk2 : (0 <= k_ f2)%Z.

(** The three loop bodies of [multiply]. *)
Definition zero_cell (s q : Z) (r : piecewise_polynomial) : outcome piecewise_polynomial :=
  PP.coefficient NDEBUG r s q ;;;
  m <- mat_set (coeff_ r) s q 0%Q ;;
  Ok (mk_pp (k_ r) (n_sections_ r) (section_edges_ r) m (valid_ r)).

Definition product_cell (s p1 p2 : Z) (r : piecewise_polynomial)
  : outcome piecewise_polynomial :=
  old <- PP.coefficient NDEBUG r s (p1 + p2) ;;
  a <- PP.coefficient NDEBUG f1 s p1 ;;
  b <- PP.coefficient NDEBUG f2 s p2 ;;
  m <- mat_set (coeff_ r) s (p1 + p2) (old + a * b)%Q ;;
  Ok (mk_pp (k_ r) (n_sections_ r) (section_edges_ r) m (valid_ r)).

Definition multiply_section (s : Z) (r : piecewise_polynomial)
  : outcome piecewise_polynomial :=
  r <- for_range 0 (k_ f1 + k_ f2 + 1) (zero_cell s) r ;;
  for_range 0 (k_ f1 + 1)
    (fun p1 r => for_range 0 (k_ f2 + 1) (product_cell s p1) r) r.

(** The object under construction, with coefficient matrix [M]. *)
Definition product_with (M : matrix) : piecewise_polynomial :=
  mk_pp (k_ f1 + k_ f2) (n_sections_ f1) (section_edges_ f1) M true.

Definition product_row_ok (s : Z) (rw : list Q) : Prop :=
  Z.of_nat (length rw) = (k_ f1 + k_ f2 + 1)%Z
  /\ forall w, (wsum w rw == conv_sum w (row f1 s) (row f2 s))%Q.

Lemma multiply_unfold :
  PP.multiply NDEBUG f1 f2
  = (e1 <- PP.section_edges NDEBUG f1 ;;
     e2 <- PP.section_edges NDEBUG f2 ;;
     if negb (vec_eqb e1 e2)
     then Throw "Two pieacewise_polynomial objects with different sections cannot be multiplied."
     else
       edges <- PP.section_edges NDEBUG f1 ;;
       r <- PP.make_zero NDEBUG (k_ f1 + k_ f2) edges ;;
       ns <- PP.num_sections NDEBUG f1 ;;
       for_range 0 ns multiply_section r).
Proof. reflexivity. Qed.

Lemma zero_cell_ok (s q : Z) (pre post : matrix) :
  Z.of_nat (length pre) = s -> (0 <= s < n_sections_ f1)%Z ->
  (0 <= q <= k_ f1 + k_ f2)%Z ->
  zero_cell s q
    (product_with (pre ++ repeat 0%Q (Z.to_nat (k_ f1 + k_ f2 + 1)) :: post))
  = Ok (product_with (pre ++ repeat 0%Q (Z.to_nat (k_ f1 + k_ f2 + 1)) :: post)).
Proof.
  intros Hpre Hs Hq. destruct (well_formed_edges f1 W1) as (_ & Hlen & _).
  unfold zero_cell, product_with. cbn [coeff_ k_ n_sections_ section_edges_ valid_].
  rewrite coefficient_valid by (unfold size; lia).
  rewrite <- Hpre. rewrite mat_at_mid, mat_set_mid.
  rewrite (at_in_range _ q 0%Q) by (unfold size; rewrite repeat_length; lia).
  cbn [bind]. rewrite set_at_repeat by lia. reflexivity.
Qed.

Lemma product_cell_ok (s p1 p2 : Z) (pre post : matrix) (rw : list Q) :
  Z.of_nat (length pre) = s -> (0 <= s < n_sections_ f1)%Z ->
  (0 <= p1 <= k_ f1)%Z -> (0 <= p2 <= k_ f2)%Z ->
  Z.of_nat (length rw) = (k_ f1 + k_ f2 + 1)%Z ->
  product_cell s p1 p2 (product_with (pre ++ rw :: post))
  = Ok (product_with
          (pre ++ add_at rw (Z.to_nat p1 + Z.to_nat p2)
                         (nth (Z.to_nat p1) (row f1 s) 0
                          * nth (Z.to_nat p2) (row f2 s) 0)%Q
               :: post)).
Proof.
  intros Hpre Hs Hp1 Hp2 Lrw. destruct (well_formed_edges f1 W1) as (_ & Hlen & _).
  pose proof (same_sections f1 f2 W1 W2 Hedges) as Hn.
  unfold product_cell, product_with. cbn [coeff_ k_ n_sections_ section_edges_ valid_].
  rewrite coefficient_valid by (unfold size; lia).
  rewrite (coefficient_row NDEBUG f1 s p1 W1 Hs Hp1).
  rewrite (coefficient_row NDEBUG f2 s p2 W2) by lia.
  rewrite <- Hpre. rewrite mat_at_mid.
  rewrite (at_in_range rw (p1 + p2) 0%Q) by (unfold size; lia).
  cbn [bind]. rewrite mat_set_mid.
  rewrite set_at_add_at by lia. cbn [bind].
  replace (Z.to_nat (p1 + p2)) with (Z.to_nat p1 + Z.to_nat p2)%nat by lia.
  reflexivity.
Qed.

Lemma product_inner_loop (s p1 : Z) (pre post : matrix) (rw : list Q) :
  Z.of_nat (length pre) = s -> (0 <= s < n_sections_ f1)%Z ->
  (0 <= p1 <= k_ f1)%Z ->
  Z.of_nat (length rw) = (k_ f1 + k_ f2 + 1)%Z ->
  exists rw',
    for_range 0 (k_ f2 + 1) (product_cell s p1) (product_with (pre ++ rw :: post))
    = Ok (product_with (pre ++ rw' :: post))
    /\ Z.of_nat (length rw') = (k_ f1 + k_ f2 + 1)%Z
    /\ forall w,
         (wsum w rw'
          == wsum w rw
             + nth (Z.to_nat p1) (row f1 s) 0
               * wsum (fun p2 => w (Z.to_nat p1 + p2)%nat) (row f2 s))%Q.
Proof.
  intros Hpre Hs Hp1 Lrw.
  pose proof (same_sections f1 f2 W1 W2 Hedges) as Hn.
  pose proof (row_size f2 s W2 ltac:(lia)) as L2. unfold size in L2.
  destruct (for_range_total
              (fun q2 st =>
                 exists rw',
                   st = product_with (pre ++ rw' :: post)
                   /\ Z.of_nat (length rw') = (k_ f1 + k_ f2 + 1)%Z
                   /\ forall w,
                        (wsum w rw'
                         == wsum w rw
                            + nth (Z.to_nat p1) (row f1 s) 0
                              * wsum (fun p2 => w (Z.to_nat p1 + p2)%nat)
                                     (firstn (Z.to_nat q2) (row f2 s)))%Q)
              (product_cell s p1) (k_ f2 + 1)
              (product_with (pre ++ rw :: post)))
    as (st & E & rw' & -> & L' & Hw).
  - lia.
  - intros q2 st Hq2 (rw1 & -> & L1 & Hw1).
    rewrite (product_cell_ok s p1 q2 pre post rw1) by (try assumption; lia).
    eexists. split; [reflexivity |].
    eexists. split; [reflexivity |]. split.
    + now rewrite add_at_length.
    + intro w. rewrite wsum_add_at by lia. rewrite Hw1.
      replace (Z.to_nat (q2 + 1)) with (S (Z.to_nat q2)) by lia.
      rewrite (wsum_firstn_succ _ (row f2 s)) by lia. ring.
  - exists rw. split; [reflexivity |]. split; [exact Lrw |].
    intro w. cbn [Z.to_nat firstn]. unfold wsum at 3. cbn [wsum_from]. ring.
  - exists rw'. split; [exact E |]. split; [exact L' |].
    intro w. rewrite Hw. rewrite firstn_all2 by lia. reflexivity.
Qed.

Lemma multiply_section_ok (s : Z) (pre post : matrix) :
  Z.of_nat (length pre) = s -> (0 <= s < n_sections_ f1)%Z ->
  exists rw,
    multiply_section s
      (product_with (pre ++ repeat 0%Q (Z.to_nat (k_ f1 + k_ f2 + 1)) :: post))
    = Ok (product_with (pre ++ rw :: post))
    /\ product_row_ok s rw.
Proof.
  intros Hpre Hs. unfold multiply_section.
  pose proof (row_size f1 s W1 Hs) as L1. unfold size in L1.
  set (zeros := repeat 0%Q (Z.to_nat (k_ f1 + k_ f2 + 1))).
  destruct (for_range_total
              (fun _ st => st = product_with (pre ++ zeros :: post))
              (zero_cell s) (k_ f1 + k_ f2 + 1)
              (product_with (pre ++ zeros :: post)))
    as (st & E & ->).
  - lia.
  - intros q st Hq ->. exists (product_with (pre ++ zeros :: post)).
    split; [| reflexivity]. apply zero_cell_ok; try assumption. lia.
  - reflexivity.
  - rewrite E. cbn [bind].
    destruct (for_range_total
                (fun p1 st =>
                   exists rw,
                     st = product_with (pre ++ rw :: post)
                     /\ Z.of_nat (length rw) = (k_ f1 + k_ f2 + 1)%Z
                     /\ forall w,
                          (wsum w rw
                           == wsum (fun p1 => wsum (fun p2 => w (p1 + p2)%nat) (row f2 s))
                                   (firstn (Z.to_nat p1) (row f1 s)))%Q)
                (fun p1 r => for_range 0 (k_ f2 + 1) (product_cell s p1) r)
                (k_ f1 + 1) (product_with (pre ++ zeros :: post)))
      as (st & E1 & rw & -> & Lrw & Hw).
    + lia.
    + intros p1 st Hp1 (rw1 & -> & Lrw1 & Hw1).
      destruct (product_inner_loop s p1 pre post rw1 Hpre Hs ltac:(lia) Lrw1)
        as (rw2 & E2 & Lrw2 & Hw2).
      exists (product_with (pre ++ rw2 :: post)). split; [exact E2 |].
      exists rw2. split; [reflexivity |]. split; [exact Lrw2 |].
      intro w. rewrite Hw2, Hw1.
      replace (Z.to_nat (p1 + 1)) with (S (Z.to_nat p1)) by lia.
      rewrite (wsum_firstn_succ _ (row f1 s)) by lia. reflexivity.
    + exists zeros. split; [reflexivity |]. split.
      * unfold zeros. rewrite repeat_length. lia.
      * intro w. cbn [Z.to_nat firstn]. unfold wsum at 1 2.
        cbn [wsum_from]. apply wsum_from_zeros.
    + exists rw. split; [exact E1 |]. split; [exact Lrw |].
      intro w. rewrite Hw. rewrite firstn_all2 by lia. reflexivity.
Qed.

(** On well-formed operands over one partition [multiply] returns a
    well-formed object of order k1 + k2 whose rows are the products of the
    rows of the operands. *)
Lemma multiply_spec :
  exists r,
    PP.multiply NDEBUG f1 f2 = Ok r
    /\ well_formed r
    /\ k_ r = (k_ f1 + k_ f2)%Z
    /\ n_sections_ r = n_sections_ f1
    /\ section_edges_ r = section_edges_ f1
    /\ forall s, (0 <= s < n_sections_ f1)%Z -> product_row_ok s (row r s).
Proof.
  destruct (well_formed_edges f1 W1) as (Hn & Hlen & Hasc).
  rewrite multiply_unfold.
  rewrite (section_edges_well_formed NDEBUG f1 W1).
  rewrite (section_edges_well_formed NDEBUG f2 W2). cbn [bind].
  rewrite Hedges. cbn [negb].
  rewrite (make_zero_ok NDEBUG (k_ f1 + k_ f2) (n_sections_ f1)) by (try assumption; lia).
  rewrite (num_sections_well_formed NDEBUG f1 W1). cbn [bind].
  set (zeros := repeat 0%Q (Z.to_nat (k_ f1 + k_ f2 + 1))).
  fold (product_with (repeat zeros (Z.to_nat (n_sections_ f1)))).
  destruct (for_range_total
              (fun s st =>
                 exists done,
                   st = product_with
                          (done ++ repeat zeros (Z.to_nat (n_sections_ f1 - s)))
                   /\ Z.of_nat (length done) = s
                   /\ forall s', (0 <= s' < s)%Z ->
                                 product_row_ok s' (nth (Z.to_nat s') done []))
              multiply_section (n_sections_ f1)
              (product_with (repeat zeros (Z.to_nat (n_sections_ f1)))))
    as (st & E & done & -> & Ldone & Hdone).
  - lia.
  - intros s st Hs (done & -> & Ldone & Hdone).
    replace (Z.to_nat (n_sections_ f1 - s))
      with (S (Z.to_nat (n_sections_ f1 - (s + 1)))) by lia.
    cbn [repeat].
    destruct (multiply_section_ok s done
                (repeat zeros (Z.to_nat (n_sections_ f1 - (s + 1)))) Ldone Hs)
      as (rw & Erw & Hrw).
    fold zeros in Erw. rewrite Erw.
    eexists. split; [reflexivity |].
    exists (done ++ [rw]). split; [now rewrite <- app_assoc |]. split.
    + rewrite length_app. cbn [length]. lia.
    + intros s' Hs'. destruct (Z.eq_dec s' s) as [-> | Hne].
      * rewrite app_nth2 by lia.
        replace (Z.to_nat s - length done)%nat with 0%nat by lia. exact Hrw.
      * rewrite app_nth1 by lia. apply Hdone. lia.
  - exists []. split; [| split; [reflexivity | intros; lia]].
    now rewrite Z.sub_0_r.
  - rewrite E. replace (Z.to_nat (n_sections_ f1 - n_sections_ f1)) with 0%nat by lia.
    cbn [repeat]. rewrite app_nil_r.
    exists (product_with done). split; [reflexivity |].
    split; [| split; [reflexivity | split; [reflexivity | split; [reflexivity |]]]].
    + split; [reflexivity |]. unfold product_with.
      cbn [k_ n_sections_ section_edges_ coeff_].
      unfold PP.validity, mat_rows, size.
      repeat (apply andb_true_iff; split).
      * apply Z.leb_le. lia.
      * apply Z.eqb_eq. exact Hlen.
      * apply Z.eqb_eq. exact Ldone.
      * apply forallb_forall. intros rw Hin.
        destruct (In_nth done rw [] Hin) as (i & Hi & <-).
        destruct (Hdone (Z.of_nat i) ltac:(lia)) as [L _].
        rewrite Nat2Z.id in L. apply Z.eqb_eq. exact L.
      * exact Hasc.
    + intros s Hs. unfold row, product_with. cbn [coeff_]. now apply Hdone.
Qed.

End Multiply.

Lemma conv_sum_pow (y : Q) (a b : list Q) :
  (conv_sum (Qpow y) a b == poly_eval a y * poly_eval b y)%Q.
Proof.
  unfold conv_sum. rewrite !poly_eval_wsum.
  rewrite (wsum_ext _ (fun p1 => wsum (Qpow y) b * Qpow y p1)%Q).
  - unfold wsum at 1. rewrite wsum_from_scale. fold (wsum (Qpow y) a). ring.
  - intro p1.
    rewrite (wsum_ext _ (fun p2 => Qpow y p1 * Qpow y p2)%Q)
      by (intro p2; apply Qpow_add).
    unfold wsum at 1. rewrite wsum_from_scale. fold (wsum (Qpow y) b). ring.
Qed.

Lemma wsum_from_indicator (p : nat) :
  forall (c : list Q) (q : nat),
    (wsum_from (fun j => if Nat.eqb j p then 1 else 0) q c
     == if (q <=? p)%nat then nth (p - q) c 0 else 0)%Q.
Proof.
  induction c as [| a t IH]; intro q; cbn [wsum_from].
  - destruct (q <=? p)%nat; [destruct (p - q)%nat |]; reflexivity.
  - rewrite IH. destruct (Nat.eqb q p) eqn:E.
    + apply Nat.eqb_eq in E. subst q.
      replace (S p <=? p)%nat with false by (symmetry; apply Nat.leb_gt; lia).
      rewrite Nat.leb_refl, Nat.sub_diag. cbn [nth]. ring.
    + apply Nat.eqb_neq in E. destruct (q <=? p)%nat eqn:L.
      * apply Nat.leb_le in L.
        replace (S q <=? p)%nat with true by (symmetry; apply Nat.leb_le; lia).
        replace (p - q)%nat with (S (p - S q)) by lia. cbn [nth]. ring.
      * apply Nat.leb_gt in L.
        replace (S q <=? p)%nat with false by (symmetry; apply Nat.leb_gt; lia).
        ring.
Qed.

Lemma wsum_indicator (p : nat) (c : list Q) :
  (wsum (fun j => if Nat.eqb j p then 1 else 0) c == nth p c 0)%Q.
Proof.
  unfold wsum. rewrite wsum_from_indicator. cbn [Nat.leb]. now rewrite Nat.sub_0_r.
Qed.

(** X10: for well-formed operands over one partition, [multiply(f, g)]
    returns a well-formed object of order k_f + k_g over the same
    partition.  Its coefficient of power [p] in section [s] is
    [sum_{p1 + p2 = p} a_f[s,p1] * a_g[s,p2]], and for [x] in section [s],
    with [y = x - S[s]], its value is
    [sum_{p1, p2} a_f[s,p1] * a_g[s,p2] * y^(p1 + p2)]. *)
Theorem multiply_convolves_coefficients (NDEBUG : bool) (f g : piecewise_polynomial) :
  well_formed f -> well_formed g ->
  vec_eqb (section_edges_ f) (section_edges_ g) = true ->
  (0 <= k_ f)%Z -> (0 <= k_ g)%Z ->
  exists m,
    PP.multiply NDEBUG f g = Ok m
    /\ well_formed m
    /\ k_ m = (k_ f + k_ g)%Z
    /\ section_edges_ m = section_edges_ f
    /\ (forall s p,
          (0 <= s < n_sections_ f)%Z -> (0 <= p <= k_ f + k_ g)%Z ->
          (coef m s p == product_coefficient (row f s) (row g s) (Z.to_nat p))%Q)
    /\ (forall s x,
          in_section f s x ->
          exists v,
            PP.compute_value NDEBUG m x = Ok v
            /\ (v == conv_sum (Qpow (x - edge (section_edges_ f) (Z.to_nat s)))
                              (row f s) (row g s))%Q).
Proof.
  intros Wf Wg He Hkf Hkg.
  destruct (multiply_spec NDEBUG f g Wf Wg He Hkf Hkg)
    as (m & Em & Wm & Km & Nm & Sm & Hrows).
  exists m. repeat (split; [assumption |]). split.
  - intros s p Hs Hp. destruct (Hrows s Hs) as [_ Hw].
    unfold product_coefficient. rewrite <- Hw, wsum_indicator. reflexivity.
  - intros s x Hin.
    assert (Hs : (0 <= s < n_sections_ f)%Z) by (destruct Hin as [H _]; exact H).
    assert (Hinm : in_section m s x).
    { unfold in_section in *. now rewrite Nm, Sm. }
    destruct (compute_value_in_section NDEBUG m s x Wm Hinm) as (v & Ev & Hv).
    exists v. split; [exact Ev |].
    destruct (Hrows s Hs) as [_ Hw].
    rewrite Hv, Sm, poly_eval_wsum. apply Hw.
Qed.

Lemma multiply_convolves_coefficients_witness :
  exists m,
    PP.multiply false pp_three pp_three = Ok m
    /\ well_formed m
    /\ k_ m = (k_ pp_three + k_ pp_three)%Z
    /\ section_edges_ m = section_edges_ pp_three
    /\ (forall s p,
          (0 <= s < n_sections_ pp_three)%Z -> (0 <= p <= k_ pp_three + k_ pp_three)%Z ->
          (coef m s p
           == product_coefficient (row pp_three s) (row pp_three s) (Z.to_nat p))%Q)
    /\ (forall s x,
          in_section pp_three s x ->
          exists v,
            PP.compute_value false m x = Ok v
            /\ (v == conv_sum (Qpow (x - edge (section_edges_ pp_three) (Z.to_nat s)))
                              (row pp_three s) (row pp_three s))%Q).
Proof.
  apply (multiply_convolves_coefficients false pp_three pp_three).
  - exact pp_three_well_formed.
  - exact pp_three_well_formed.
  - reflexivity.
  - simpl. lia.
  - simpl. lia.
Defined.

(** ** [integrate] *)

Section Integrate.

Variable NDEBUG : bool.
Variable y : piecewise_polynomial.
Hypothesis W : well_formed y.

(** The loop bodies of [integrate]. *)
Definition integrate_cell (s : Z) (dx : Q) (q : Z) (st : list Q * Q)
  : outcome (list Q * Q) :=
  let (rvec, dx_power) := st in
  c <- PP.coefficient NDEBUG y s q ;;
  old <- at_ rvec q ;;
  rvec <- set_at rvec q (old + dx_power * c)%Q ;;
  Ok (rvec, (dx_power * dx)%Q).

Definition integrate_section (s : Z) (rvec : list Q) : outcome (list Q) :=
  hi <- PP.section_edge NDEBUG y (s + 1) ;;
  lo <- PP.section_edge NDEBUG y s ;;
  let dx := (hi - lo)%Q in
  st <- for_range 0 (k_ y + 1) (integrate_cell s dx) (rvec, dx) ;;
  Ok (fst st).

Lemma integrate_unfold :
  PP.integrate NDEBUG y
  = (ns <- PP.num_sections NDEBUG y ;;
     rvec <- for_range 0 ns integrate_section (repeat 0%Q (Z.to_nat (k_ y + 1))) ;;
     for_range 0 (k_ y + 1)
       (fun q r => v <- at_ rvec q ;; Ok (r + v / inject_Z (q + 1))%Q)
       0%Q).
Proof. reflexivity. Qed.

Lemma integrate_section_ok (s : Z) (rvec : list Q) :
  (0 <= s < n_sections_ y)%Z ->
  Z.of_nat (length rvec) = (k_ y + 1)%Z ->
  exists rvec',
    integrate_section s rvec = Ok rvec'
    /\ Z.of_nat (length rvec') = (k_ y + 1)%Z
    /\ (wsum inv_succ rvec'
        == wsum inv_succ rvec + poly_integral (row y s) (width y s))%Q.
Proof.
  intros Hs L. unfold integrate_section.
  pose proof (well_formed_order y W) as Hk.
  pose proof (row_size y s W Hs) as Lrow. unfold size in Lrow.
  rewrite (section_edge_well_formed NDEBUG y (s + 1) W) by lia.
  rewrite (section_edge_well_formed NDEBUG y s W) by lia.
  cbn [bind]. fold (width y s).
  destruct (for_range_total
              (fun q (st : list Q * Q) =>
                 Z.of_nat (length (fst st)) = (k_ y + 1)%Z
                 /\ (snd st == Qpow (width y s) (S (Z.to_nat q)))%Q
                 /\ (wsum inv_succ (fst st)
                     == wsum inv_succ rvec
                        + wsum (integral_weight (width y s))
                               (firstn (Z.to_nat q) (row y s)))%Q)
              (integrate_cell s (width y s)) (k_ y + 1) (rvec, width y s))
    as ([rv dxp] & E & L' & _ & Hw).
  - lia.
  - intros q [rv dxp] Hq (Lrv & Hdxp & Hw). cbn [fst snd] in *.
    unfold integrate_cell.
    rewrite (coefficient_row NDEBUG y s q W Hs) by lia.
    rewrite (at_in_range rv q 0%Q) by (unfold size; lia).
    cbn [bind]. rewrite set_at_add_at by lia. cbn [bind].
    eexists. split; [reflexivity |]. cbn [fst snd]. split; [| split].
    + now rewrite add_at_length.
    + replace (Z.to_nat (q + 1)) with (S (Z.to_nat q)) by lia.
      rewrite Hdxp. cbn [Qpow]. ring.
    + rewrite wsum_add_at by lia. rewrite Hw.
      replace (Z.to_nat (q + 1)) with (S (Z.to_nat q)) by lia.
      rewrite (wsum_firstn_succ _ (row y s)) by lia.
      rewrite Hdxp. unfold inv_succ, integral_weight, Qdiv. ring.
  - cbn [fst snd Z.to_nat firstn]. split; [exact L |]. split.
    + cbn [Qpow]. ring.
    + unfold wsum at 3. cbn [wsum_from]. ring.
  - rewrite E. cbn [bind fst]. exists rv. cbn [fst] in *.
    split; [reflexivity |]. split; [exact L' |].
    rewrite Hw. rewrite firstn_all2 by lia. reflexivity.
Qed.

Lemma integrate_final_loop (rvec : list Q) :
  Z.of_nat (length rvec) = (k_ y + 1)%Z ->
  exists r,
    for_range 0 (k_ y + 1)
      (fun q r => v <- at_ rvec q ;; Ok (r + v / inject_Z (q + 1))%Q) 0%Q = Ok r
    /\ (r == wsum inv_succ rvec)%Q.
Proof.
  intro L.
  destruct (for_range_total
              (fun q r => (r == wsum inv_succ (firstn (Z.to_nat q) rvec))%Q)
              (fun q r => v <- at_ rvec q ;; Ok (r + v / inject_Z (q + 1))%Q)
              (k_ y + 1) 0%Q)
    as (r & E & Hr).
  - lia.
  - intros q r Hq Ir.
    rewrite (at_in_range rvec q 0%Q) by (unfold size; lia). cbn [bind].
    eexists. split; [reflexivity |].
    replace (Z.to_nat (q + 1)) with (S (Z.to_nat q)) by lia.
    rewrite wsum_firstn_succ by lia. rewrite Ir.
    unfold inv_succ, Qdiv. rewrite Z2Nat.id by lia. ring.
  - cbn [Z.to_nat firstn]. reflexivity.
  - exists r. split; [exact E |]. rewrite Hr. rewrite firstn_all2 by lia. reflexivity.
Qed.

(** [integrate] returns the sum over the sections of the integrals of
    the section polynomials over the section widths. *)
Lemma integrate_spec :
  exists r,
    PP.integrate NDEBUG y = Ok r
    /\ (r == sum_upto (n_sections_ y)
                      (fun s => poly_integral (row y s) (width y s)))%Q.
Proof.
  destruct (well_formed_edges y W) as (Hn & _ & _).
  pose proof (well_formed_order y W) as Hk.
  rewrite integrate_unfold.
  rewrite (num_sections_well_formed NDEBUG y W). cbn [bind].
  destruct (for_range_total
              (fun s rvec =>
                 Z.of_nat (length rvec) = (k_ y + 1)%Z
                 /\ (wsum inv_succ rvec
                     == sum_upto s (fun s => poly_integral (row y s) (width y s)))%Q)
              integrate_section (n_sections_ y)
              (repeat 0%Q (Z.to_nat (k_ y + 1))))
    as (rvec & E & L & Hw).
  - lia.
  - intros s rvec Hs (L & Hw).
    destruct (integrate_section_ok s rvec Hs L) as (rvec' & E' & L' & Hw').
    exists rvec'. split; [exact E' |]. split; [exact L' |].
    rewrite Hw', Hw. rewrite sum_upto_succ by lia. reflexivity.
  - split; [rewrite repeat_length; lia |].
    unfold wsum. rewrite wsum_from_zeros. reflexivity.
  - rewrite E. cbn [bind].
    destruct (integrate_final_loop rvec L) as (r & Er & Hr).
    exists r. split; [exact Er |]. now rewrite Hr.
Qed.

End Integrate.

(** X11: on a well-formed object [integrate] returns its integral over the
    whole domain: the sum over the sections [s] of
    [sum_q a[s,q] * dx_s^(q+1) / (q+1)] with [dx_s = S[s+1] - S[s]]. *)
Theorem integrate_is_the_integral (NDEBUG : bool) (y : piecewise_polynomial) :
  well_formed y ->
  exists r,
    PP.integrate NDEBUG y = Ok r
    /\ (r == sum_upto (n_sections_ y)
                      (fun s => poly_integral (row y s) (width y s)))%Q.
Proof. intro W. exact (integrate_spec NDEBUG y W). Qed.

Lemma integrate_is_the_integral_witness :
  exists r,
    PP.integrate false pp_three = Ok r
    /\ (r == sum_upto 3 (fun s => poly_integral (row pp_three s) (width pp_three s)))%Q.
Proof.
  apply (integrate_is_the_integral false pp_three). exact pp_three_well_formed.
Defined.

(** ** [overlap] *)

Lemma nth_pow_table (dx : Q) (n i : nat) :
  (i < n)%nat -> nth i (map (Qpow dx) (seq 0 n)) 0%Q = Qpow dx i.
Proof.
  intro H.
  rewrite (nth_indep _ 0%Q (Qpow dx 0)) by (rewrite length_map, length_seq; lia).
  rewrite map_nth. now rewrite seq_nth by lia.
Qed.

Lemma pow_table_loop (dx : Q) :
  forall (n : nat) (pre rest : list Q),
    pre = map (Qpow dx) (seq 0 (length pre)) ->
    (1 <= length pre)%nat ->
    (n <= length rest)%nat ->
    for_loop n (Z.of_nat (length pre))
      (fun q dp => prev <- at_ dp (q - 1) ;; set_at dp q (dx * prev)%Q)
      (pre ++ rest)
    = Ok (map (Qpow dx) (seq 0 (length pre + n)) ++ skipn n rest).
Proof.
  induction n as [| n IH]; intros pre rest Hpre L1 Ln.
  - cbn [for_loop skipn]. rewrite Nat.add_0_r. now rewrite <- Hpre.
  - destruct rest as [| x rest]; [cbn [length] in Ln; lia |].
    cbn [for_loop].
    assert (Eprev : at_ (pre ++ x :: rest) (Z.of_nat (length pre) - 1)
                    = Ok (Qpow dx (length pre - 1))).
    { rewrite (at_in_range _ _ 0%Q) by (unfold size; rewrite length_app; lia).
      f_equal. rewrite app_nth1 by lia.
      replace (Z.to_nat (Z.of_nat (length pre) - 1)) with (length pre - 1)%nat by lia.
      replace (nth (length pre - 1) pre 0%Q)
        with (nth (length pre - 1) (map (Qpow dx) (seq 0 (length pre))) 0%Q)
        by (now rewrite <- Hpre).
      apply nth_pow_table. lia. }
    rewrite Eprev. cbn [bind]. rewrite set_at_app. cbn [bind].
    set (v := (dx * Qpow dx (length pre - 1))%Q).
    assert (Ev : v = Qpow dx (length pre)).
    { unfold v. destruct (length pre) as [| m] eqn:Em; [lia |].
      cbn [Qpow]. now replace (S m - 1)%nat with m by lia. }
    replace (pre ++ v :: rest) with ((pre ++ [v]) ++ rest)
      by (now rewrite <- app_assoc).
    replace (Z.of_nat (length pre) + 1)%Z with (Z.of_nat (length (pre ++ [v])))
      by (rewrite length_app; simpl; lia).
    rewrite IH.
    + rewrite length_app. cbn [length skipn].
      now replace (length pre + 1 + n)%nat with (length pre + S n)%nat by lia.
    + rewrite length_app. cbn [length].
      replace (length pre + 1)%nat with (S (length pre)) by lia.
      rewrite seq_S, map_app. cbn [map Nat.add]. now rewrite <- Hpre, Ev.
    + rewrite length_app. cbn [length]. lia.
    + cbn [length] in Ln. lia.
Qed.

(** The table [dx_power[p] = dx^p] built at the head of every pass. *)
Lemma pow_table (dx : Q) (n : Z) :
  (1 <= n)%Z ->
  (dx_power <- set_at (repeat 0%Q (Z.to_nat n)) 0 1%Q ;;
   for_range 1 n
     (fun q dp => prev <- at_ dp (q - 1) ;; set_at dp q (dx * prev)%Q)
     dx_power)
  = Ok (map (Qpow dx) (seq 0 (Z.to_nat n))).
Proof.
  intro Hn.
  replace (Z.to_nat n) with (S (Z.to_nat (n - 1))) at 1 by lia.
  cbn [repeat]. change (set_at (0%Q :: repeat 0%Q (Z.to_nat (n - 1))) 0 1%Q)
    with (Ok (1%Q :: repeat 0%Q (Z.to_nat (n - 1)))).
  cbn [bind]. unfold for_range.
  pose proof (pow_table_loop dx (Z.to_nat (n - 1)) [1%Q]
                (repeat 0%Q (Z.to_nat (n - 1))) eq_refl ltac:(cbn [length]; lia)
                ltac:(rewrite repeat_length; lia)) as E.
  cbn [length app Z.of_nat Pos.of_succ_nat] in E. rewrite E.
  rewrite skipn_all_length by (rewrite repeat_length; lia).
  rewrite app_nil_r. now replace (1 + Z.to_nat (n - 1))%nat with (Z.to_nat n) by lia.
Qed.

Section Overlap.

Variable NDEBUG : bool.
Variables f1 f2 : piecewise_polynomial.
Hypothesis W1 : well_formed f1.
Hypothesis W2 : well_formed f2.
Hypothesis Hedges : vec_eqb (section_edges_ f1) (section_edges_ f2) = true.
Hypothesis Hk1 : (0 <= k_ f1)%Z.
Hypothesis Hk2 : (0 <= k_ f2)%Z.

(** The loop bodies of [overlap]. *)
Definition overlap_cell (s : Z) (dx_power : list Q) (q q2 : Z) (r : Q) : outcome Q :=
  a <- mat_at (coeff_ f1) s q ;;
  b <- mat_at (coeff_ f2) s q2 ;;
  d <- at_ dx_power (q + q2 + 1) ;;
  Ok (r + (a * b) * d / inject_Z (q + q2 + 1))%Q.

Definition overlap_section (s : Z) (r : Q) : outcome Q :=
  hi <- at_ (section_edges_ f1) (s + 1) ;;
  lo <- at_ (section_edges_ f1) s ;;
  let dx := (hi - lo)%Q in
  dx_power <- set_at (repeat 0%Q (Z.to_nat (k_ f1 + k_ f2 + 2))) 0 1%Q ;;
  dx_power <- for_range 1 (k_ f1 + k_ f2 + 2)
                (fun q dp => prev <- at_ dp (q - 1) ;; set_at dp q (dx * prev)%Q)
                dx_power ;;
  for_range 0 (k_ f1 + 1)
    (fun q r => for_range 0 (k_ f2 + 1) (overlap_cell s dx_power q) r) r.

Lemma overlap_unfold :
  PP.overlap NDEBUG f1 f2
  = (PP.check_validity NDEBUG f1 ;;;
     if negb (vec_eqb (section_edges_ f1) (section_edges_ f2))
     then Throw "Computing overlap between piecewise polynomials with different section edges are not supported"
     else for_range 0 (n_sections_ f1) overlap_section 0%Q).
Proof. reflexivity. Qed.

Lemma overlap_cell_ok (s q q2 : Z) (dx r : Q) :
  (0 <= s < n_sections_ f1)%Z -> (0 <= q <= k_ f1)%Z -> (0 <= q2 <= k_ f2)%Z ->
  exists r',
    overlap_cell s (map (Qpow dx) (seq 0 (Z.to_nat (k_ f1 + k_ f2 + 2)))) q q2 r = Ok r'
    /\ (r' == r + nth (Z.to_nat q) (row f1 s) 0
                  * (nth (Z.to_nat q2) (row f2 s) 0
                     * integral_weight dx (Z.to_nat q + Z.to_nat q2)))%Q.
Proof.
  intros Hs Hq Hq2.
  pose proof (same_sections f1 f2 W1 W2 Hedges) as Hn.
  unfold overlap_cell.
  rewrite (mat_at_row f1 s q W1 Hs Hq).
  rewrite (mat_at_row f2 s q2 W2) by lia.
  rewrite (at_in_range _ (q + q2 + 1) 0%Q)
    by (unfold size; rewrite length_map, length_seq; lia).
  cbn [bind]. eexists. split; [reflexivity |].
  rewrite nth_pow_table by lia.
  unfold integral_weight, Qdiv.
  replace (Z.to_nat (q + q2 + 1)) with (S (Z.to_nat q + Z.to_nat q2)) by lia.
  replace (Z.of_nat (Z.to_nat q + Z.to_nat q2) + 1)%Z with (q + q2 + 1)%Z by lia.
  ring.
Qed.

Lemma overlap_section_ok (s : Z) (r : Q) :
  (0 <= s < n_sections_ f1)%Z ->
  exists r',
    overlap_section s r = Ok r'
    /\ (r' == r + conv_sum (integral_weight (width f1 s)) (row f1 s) (row f2 s))%Q.
Proof.
  intro Hs. destruct (well_formed_edges f1 W1) as (_ & Hlen & _).
  pose proof (same_sections f1 f2 W1 W2 Hedges) as Hn.
  pose proof (row_size f1 s W1 Hs) as L1. unfold size in L1.
  pose proof (row_size f2 s W2 ltac:(lia)) as L2. unfold size in L2.
  unfold overlap_section.
  rewrite (edge_at (section_edges_ f1) (s + 1)) by (unfold size; lia).
  rewrite (edge_at (section_edges_ f1) s) by (unfold size; lia).
  cbn [bind]. fold (width f1 s).
  pose proof (pow_table (width f1 s) (k_ f1 + k_ f2 + 2) ltac:(lia)) as Etab.
  destruct (set_at (repeat 0%Q (Z.to_nat (k_ f1 + k_ f2 + 2))) 0 1%Q)
    as [dp0 | |]; cbn [bind] in Etab |- *; try discriminate.
  rewrite Etab. cbn [bind].
  set (tab := map (Qpow (width f1 s)) (seq 0 (Z.to_nat (k_ f1 + k_ f2 + 2)))).
  set (w := integral_weight (width f1 s)).
  destruct (for_range_total
              (fun q r' =>
                 (r' == r + wsum (fun p1 => wsum (fun p2 => w (p1 + p2)%nat) (row f2 s))
                                 (firstn (Z.to_nat q) (row f1 s)))%Q)
              (fun q r => for_range 0 (k_ f2 + 1) (overlap_cell s tab q) r)
              (k_ f1 + 1) r)
    as (r' & E & Hr').
  - lia.
  - intros q rq Hq Iq.
    destruct (for_range_total
                (fun q2 r' =>
                   (r' == rq + nth (Z.to_nat q) (row f1 s) 0
                               * wsum (fun p2 => w (Z.to_nat q + p2)%nat)
                                      (firstn (Z.to_nat q2) (row f2 s)))%Q)
                (overlap_cell s tab q) (k_ f2 + 1) rq)
      as (r2 & E2 & Hr2).
    + lia.
    + intros q2 r2 Hq2 I2.
      destruct (overlap_cell_ok s q q2 (width f1 s) r2 Hs ltac:(lia) ltac:(lia))
        as (r3 & E3 & Hr3).
      exists r3. split; [exact E3 |]. rewrite Hr3, I2.
      replace (Z.to_nat (q2 + 1)) with (S (Z.to_nat q2)) by lia.
      rewrite (wsum_firstn_succ _ (row f2 s)) by lia. fold w. ring.
    + cbn [Z.to_nat firstn]. unfold wsum. cbn [wsum_from]. ring.
    + exists r2. split; [exact E2 |]. rewrite Hr2, Iq.
      rewrite (firstn_all2 (row f2 s)) by lia.
      replace (Z.to_nat (q + 1)) with (S (Z.to_nat q)) by lia.
      rewrite (wsum_firstn_succ _ (row f1 s)) by lia. ring.
  - cbn [Z.to_nat firstn]. unfold wsum at 1. cbn [wsum_from]. ring.
  - exists r'. split; [exact E |]. rewrite Hr'.
    rewrite (firstn_all2 (row f1 s)) by lia. reflexivity.
Qed.

(** [overlap] returns the sum over the sections of the integrals of the
    products of the section polynomials. *)
Lemma overlap_spec :
  exists r,
    PP.overlap NDEBUG f1 f2 = Ok r
    /\ (r == sum_upto (n_sections_ f1)
                      (fun s => conv_sum (integral_weight (width f1 s))
                                         (row f1 s) (row f2 s)))%Q.
Proof.
  destruct (well_formed_edges f1 W1) as (Hn & _ & _).
  rewrite overlap_unfold.
  rewrite (check_validity_well_formed NDEBUG f1 W1). cbn [bind].
  rewrite Hedges. cbn [negb].
  apply section_sum_loop; [lia |].
  intros s r Hs. now apply overlap_section_ok.
Qed.

End Overlap.

(** X12: for well-formed operands over one partition, [f.overlap(g)]
    returns the sum over the sections [s] of
    [sum_{p, p2} a_f[s,p] * a_g[s,p2] * dx_s^(p+p2+1) / (p+p2+1)] with
    [dx_s = S[s+1] - S[s]]: the integral over the domain of the product of
    the two piecewise polynomials. *)
Theorem overlap_is_the_integral_of_the_product
        (NDEBUG : bool) (f g : piecewise_polynomial) :
  well_formed f -> well_formed g ->
  vec_eqb (section_edges_ f) (section_edges_ g) = true ->
  (0 <= k_ f)%Z -> (0 <= k_ g)%Z ->
  exists r,
    PP.overlap NDEBUG f g = Ok r
    /\ (r == sum_upto (n_sections_ f)
                      (fun s => conv_sum (integral_weight (width f s))
                                         (row f s) (row g s)))%Q.
Proof.
  intros Wf Wg He Hkf Hkg. exact (overlap_spec NDEBUG f g Wf Wg He Hkf Hkg).
Qed.

Lemma overlap_is_the_integral_of_the_product_witness :
  exists r,
    PP.overlap false pp_three pp_three = Ok r
    /\ (r == sum_upto (n_sections_ pp_three)
                      (fun s => conv_sum (integral_weight (width pp_three s))
                                         (row pp_three s) (row pp_three s)))%Q.
Proof.
  apply (overlap_is_the_integral_of_the_product false pp_three pp_three).
  - exact pp_three_well_formed.
  - exact pp_three_well_formed.
  - reflexivity.
  - simpl. lia.
  - simpl. lia.
Defined.

(** ** The composite Gauss-Legendre rule *)

Lemma mapM_all_Ok {A B : Type} (f : A -> outcome B) (g : A -> B) :
  forall l : list A, (forall a, In a l -> f a = Ok (g a)) -> mapM f l = Ok (map g l).
Proof.
  induction l as [| a l IH]; intro H; cbn [mapM map]; [reflexivity |].
  rewrite (H a) by (left; reflexivity). cbn [bind].
  rewrite IH by (intros b Hb; apply H; right; exact Hb). reflexivity.
Qed.

Lemma In_seqZ (n i : Z) : In i (seqZ n) -> (0 <= i < n)%Z.
Proof.
  unfold seqZ. intro H. apply in_map_iff in H. destruct H as (j & <- & Hj).
  apply in_seq in Hj. lia.
Qed.

Lemma length_concat_uniform {A : Type} (m : nat) :
  forall blocks : list (list A),
    (forall b, In b blocks -> length b = m) ->
    length (concat blocks) = (length blocks * m)%nat.
Proof.
  induction blocks as [| b bs IH]; intro H; cbn [concat length]; [reflexivity |].
  rewrite length_app, (H b) by (left; reflexivity).
  rewrite IH by (intros c Hc; apply H; right; exact Hc). lia.
Qed.

Lemma nth_concat_uniform {A : Type} (m : nat) (d : A) :
  forall (blocks : list (list A)) (i j : nat),
    (forall b, In b blocks -> length b = m) ->
    (i < length blocks)%nat -> (j < m)%nat ->
    nth (i * m + j) (concat blocks) d = nth j (nth i blocks []) d.
Proof.
  induction blocks as [| b bs IH]; intros i j H Hi Hj; cbn [length] in Hi; [lia |].
  cbn [concat]. pose proof (H b (or_introl eq_refl)) as Lb.
  destruct i as [| i].
  - cbn [Nat.mul Nat.add nth]. apply app_nth1. lia.
  - rewrite app_nth2 by (rewrite Lb; cbn [Nat.mul]; lia).
    replace (S i * m + j - length b)%nat with (i * m + j)%nat
      by (rewrite Lb; cbn [Nat.mul]; lia).
    cbn [nth]. apply IH; [| lia | exact Hj].
    intros c Hc. apply H. right. exact Hc.
Qed.

(** The node of the composite rule that the local node [nd] gives in
    the section [a, b]. *)
Definition composite_node (a b : Q) (nd : Q * Q) : Q * Q :=
  (a + ((b - a) / 2) * (fst nd + 1), ((b - a) / 2) * snd nd)%Q.

Lemma composite_gauss_legendre_nodes_Ok (E : list Q) (nodes : list (Q * Q)) :
  (1 <= size E)%Z ->
  composite_gauss_legendre_nodes E nodes
  = Ok (concat (map (fun s => map (composite_node (edge E (Z.to_nat s))
                                                 (edge E (Z.to_nat (s + 1))))
                                  nodes)
                    (seqZ (size E - 1)))).
Proof.
  intro H. unfold composite_gauss_legendre_nodes.
  rewrite (mapM_all_Ok _ (fun s => map (composite_node (edge E (Z.to_nat s))
                                                       (edge E (Z.to_nat (s + 1))))
                                        nodes)).
  - reflexivity.
  - intros s Hs. apply In_seqZ in Hs.
    rewrite (edge_at E s) by lia. rewrite (edge_at E (s + 1)) by lia. reflexivity.
Qed.

(** X13: for a partition with at least one edge,
    [composite_gauss_legendre_nodes] returns [(|S| - 1) * n] nodes; the
    node [s * n + j] is the local node [j] mapped affinely into section
    [s], [(a + (b - a)/2 * (x_j + 1), (b - a)/2 * w_j)], and when the
    edges ascend and [x_j] lies in [-1, 1] it lies in [[a, b]]. *)
Theorem composite_nodes_layout (E : list Q) (nodes : list (Q * Q)) :
  (1 <= size E)%Z ->
  exists all,
    composite_gauss_legendre_nodes E nodes = Ok all
    /\ size all = ((size E - 1) * size nodes)%Z
    /\ forall s j, (0 <= s < size E - 1)%Z -> (0 <= j < size nodes)%Z ->
         let a := edge E (Z.to_nat s) in
         let b := edge E (Z.to_nat (s + 1)) in
         let nd := nth (Z.to_nat j) nodes (0, 0)%Q in
         let x := (a + ((b - a) / 2) * (fst nd + 1))%Q in
         at_ all (s * size nodes + j) = Ok (x, ((b - a) / 2) * snd nd)%Q
         /\ (PP.ascending E = true -> (-1 <= fst nd)%Q -> (fst nd <= 1)%Q ->
             (a <= x)%Q /\ (x <= b)%Q).
Proof.
  intro H. rewrite (composite_gauss_legendre_nodes_Ok E nodes H).
  eexists. split; [reflexivity |].
  set (blocks := map (fun s => map (composite_node (edge E (Z.to_nat s))
                                                   (edge E (Z.to_nat (s + 1))))
                                    nodes)
                     (seqZ (size E - 1))).
  assert (Hu : forall b, In b blocks -> length b = length nodes).
  { intros b Hb. unfold blocks in Hb. apply in_map_iff in Hb.
    destruct Hb as (s & <- & _). apply length_map. }
  assert (Lb : length blocks = Z.to_nat (size E - 1))
    by (unfold blocks; apply length_map_seqZ).
  split.
  - unfold size at 1. rewrite (length_concat_uniform (length nodes) blocks Hu).
    rewrite Lb. unfold size in *. rewrite Nat2Z.inj_mul, Z2Nat.id by lia. reflexivity.
  - intros s j Hs Hj a b nd x. split.
    + rewrite (at_in_range _ _ (0, 0)%Q).
      2:{ unfold size in *.
          rewrite (length_concat_uniform (length nodes) blocks Hu), Lb.
          rewrite Nat2Z.inj_mul, Z2Nat.id by lia. nia. }
      f_equal.
      replace (Z.to_nat (s * size nodes + j))
        with (Z.to_nat s * length nodes + Z.to_nat j)%nat by (unfold size in *; nia).
      rewrite (nth_concat_uniform (length nodes) (0, 0)%Q blocks
                 (Z.to_nat s) (Z.to_nat j) Hu) by (unfold size in *; lia).
      unfold blocks.
      rewrite (nth_map_seqZ (fun s => map (composite_node (edge E (Z.to_nat s))
                                                          (edge E (Z.to_nat (s + 1))))
                                          nodes)
                            (size E - 1) s []) by lia.
      rewrite (nth_indep _ (0, 0)%Q (composite_node a b (0, 0)%Q))
        by (rewrite length_map; unfold size in *; lia).
      rewrite map_nth. reflexivity.
    + intros Hasc Hlo Hhi.
      assert (Hab : (a <= b)%Q).
      { apply ascending_le; [exact Hasc | lia | unfold size in *; lia]. }
      unfold x. clearbody a b nd.
      setoid_replace ((b - a) / 2)%Q with ((b - a) * (1 # 2))%Q by field.
      split; nra.
Qed.

Lemma composite_nodes_layout_witness :
  exists all,
    composite_gauss_legendre_nodes [0; 1]%Q [(0, 2)%Q] = Ok all
    /\ size all = ((size [0; 1]%Q - 1) * size [(0, 2)%Q])%Z
    /\ forall s j, (0 <= s < size [0; 1]%Q - 1)%Z -> (0 <= j < size [(0, 2)%Q])%Z ->
         let a := edge [0; 1]%Q (Z.to_nat s) in
         let b := edge [0; 1]%Q (Z.to_nat (s + 1)) in
         let nd := nth (Z.to_nat j) [(0, 2)%Q] (0, 0)%Q in
         let x := (a + ((b - a) / 2) * (fst nd + 1))%Q in
         at_ all (s * size [(0, 2)%Q] + j) = Ok (x, ((b - a) / 2) * snd nd)%Q
         /\ (PP.ascending [0; 1]%Q = true -> (-1 <= fst nd)%Q -> (fst nd <= 1)%Q ->
             (a <= x)%Q /\ (x <= b)%Q).
Proof.
  apply (composite_nodes_layout [0; 1]%Q [(0, 2)%Q]). unfold size. simpl. lia.
Defined.

(** ** [integrate_gauss_legendre] *)

Lemma Qsum_map_concat {A : Type} (F : A -> Q) :
  forall blocks : list (list A),
    (Qsum (map F (concat blocks)) == Qsum (map (fun b => Qsum (map F b)) blocks))%Q.
Proof.
  induction blocks as [| b bs IH]; cbn [concat map]; [reflexivity |].
  rewrite map_app, Qsum_app, IH. unfold Qsum at 4. cbn [fold_right]. reflexivity.
Qed.

Lemma Qsum_map_scale {A : Type} (F : A -> Q) (k : Q) :
  forall l : list A, (Qsum (map (fun a => k * F a) l) == k * Qsum (map F l))%Q.
Proof.
  unfold Qsum. induction l as [| a l IH]; cbn [map fold_right]; [ring |].
  rewrite IH. ring.
Qed.

Lemma Qsum_map_ext {A : Type} (F G : A -> Q) :
  forall l : list A,
    (forall a, In a l -> (F a == G a)%Q) -> (Qsum (map F l) == Qsum (map G l))%Q.
Proof.
  unfold Qsum. induction l as [| a l IH]; intro H; cbn [map fold_right]; [reflexivity |].
  rewrite (H a) by (left; reflexivity).
  rewrite IH by (intros b Hb; apply H; right; exact Hb). reflexivity.
Qed.

(** A loop that adds [F] of every element of a vector. *)
Lemma sum_over_vector {A : Type} (F : A -> Q) (l : list A) :
  exists r,
    for_range 0 (size l) (fun n r => x <- at_ l n ;; Ok (r + F x)%Q) 0%Q = Ok r
    /\ (r == Qsum (map F l))%Q.
Proof.
  destruct l as [| d l'] eqn:El.
  { exists 0%Q. split; reflexivity. }
  rewrite <- El. clear El l'.
  destruct (for_range_total
              (fun n r => (r == Qsum (map F (firstn (Z.to_nat n) l)))%Q)
              (fun n r => x <- at_ l n ;; Ok (r + F x)%Q) (size l) 0%Q)
    as (r & E & Hr).
  - unfold size. lia.
  - intros n r Hn Ir. rewrite (at_in_range l n d) by lia. cbn [bind].
    eexists. split; [reflexivity |].
    replace (Z.to_nat (n + 1)) with (S (Z.to_nat n)) by lia.
    rewrite (firstn_succ_nth l (Z.to_nat n) d) by (unfold size in Hn; lia).
    rewrite map_app, Qsum_app, Ir. unfold Qsum at 3. cbn [map fold_right]. ring.
  - reflexivity.
  - exists r. split; [exact E |]. rewrite Hr.
    rewrite firstn_all2 by (unfold size; lia). reflexivity.
Qed.

Lemma widths_telescope (E : list Q) (n : nat) :
  (sum_upto (Z.of_nat n)
            (fun s => edge E (Z.to_nat (s + 1)) - edge E (Z.to_nat s))
   == edge E n - edge E 0)%Q.
Proof.
  induction n as [| n IH].
  - unfold sum_upto, seqZ, Qsum. cbn. ring.
  - replace (Z.of_nat (S n)) with (Z.of_nat n + 1)%Z by lia.
    rewrite sum_upto_succ by lia. rewrite IH.
    replace (Z.to_nat (Z.of_nat n + 1)) with (S n) by lia.
    rewrite Nat2Z.id. ring.
Qed.

(** X14: applied to a constant function [c], [integrate_gauss_legendre]
    returns [c * (S[N] - S[0]) * (sum of the local weights) / 2]: a local
    rule whose weights add up to 2 integrates constants exactly over the
    whole partition. *)
Theorem integrate_gauss_legendre_constant
        (gauss_legendre_nodes : Z -> list (Q * Q)) (E : list Q) (c : Q)
        (num_local_nodes : Z) :
  (1 <= size E)%Z ->
  exists r,
    integrate_gauss_legendre gauss_legendre_nodes E (fun _ => c) num_local_nodes = Ok r
    /\ (r == c * (edge E (Z.to_nat (size E - 1)) - edge E 0)
            * (Qsum (map snd (gauss_legendre_nodes num_local_nodes)) / 2))%Q.
Proof.
  intro H. unfold integrate_gauss_legendre.
  rewrite (composite_gauss_legendre_nodes_Ok E _ H). cbn [bind].
  set (nodes := gauss_legendre_nodes num_local_nodes).
  set (all := concat _).
  destruct (sum_over_vector (fun nd : Q * Q => (c * snd nd)%Q) all) as (r & Er & Hr).
  exists r. split; [exact Er |]. rewrite Hr. unfold all.
  rewrite Qsum_map_concat. rewrite map_map.
  rewrite (Qsum_map_ext _ (fun s => (c * (Qsum (map snd nodes) / 2))
                                    * (edge E (Z.to_nat (s + 1)) - edge E (Z.to_nat s)))%Q).
  - rewrite Qsum_map_scale.
    fold (sum_upto (size E - 1)
                   (fun s => edge E (Z.to_nat (s + 1)) - edge E (Z.to_nat s))%Q).
    replace (size E - 1)%Z with (Z.of_nat (Z.to_nat (size E - 1))) at 1 by lia.
    rewrite widths_telescope. field.
  - intros s _. rewrite map_map. unfold composite_node. cbn [snd].
    rewrite (Qsum_map_ext _ (fun nd : Q * Q =>
                               (c * ((edge E (Z.to_nat (s + 1)) - edge E (Z.to_nat s)) / 2))
                               * snd nd)%Q)
      by (intros; ring).
    rewrite Qsum_map_scale. field.
Qed.

Lemma integrate_gauss_legendre_constant_witness :
  exists r,
    integrate_gauss_legendre one_point_rule [0; 1 # 2; 1]%Q (fun _ => 3%Q) 1 = Ok r
    /\ (r == 3 * (edge [0; 1 # 2; 1]%Q (Z.to_nat (size [0; 1 # 2; 1]%Q - 1))
                  - edge [0; 1 # 2; 1]%Q 0)
            * (Qsum (map snd (one_point_rule 1)) / 2))%Q.
Proof.
  apply (integrate_gauss_legendre_constant one_point_rule [0; 1 # 2; 1]%Q 3 1).
  unfold size. simpl. lia.
Defined.

(** ** [linspace] *)



(** ** Loops that return *)

Lemma for_loop_invariant_idx {T : Type} (I : Z -> T -> Prop)
      (body : Z -> T -> outcome T) :
  forall (n : nat) (lo : Z) (s s' : T),
    (forall i s s', (lo <= i < lo + Z.of_nat n)%Z -> I i s -> body i s = Ok s' ->
                    I (i + 1)%Z s') ->
    I lo s -> for_loop n lo body s = Ok s' -> I (lo + Z.of_nat n)%Z s'.
Proof.
  induction n as [| n IH]; intros lo s s' Hb Hs H; cbn [for_loop] in H.
  - injection H as <-. now replace (lo + Z.of_nat 0)%Z with lo by lia.
  - apply bind_Ok_inv in H. destruct H as (s1 & E1 & H).
    replace (lo + Z.of_nat (S n))%Z with (lo + 1 + Z.of_nat n)%Z by lia.
    apply (IH (lo + 1)%Z s1 s'); [| | exact H].
    + intros i t t' Hi. apply Hb. lia.
    + apply (Hb lo s s1); [lia | exact Hs | exact E1].
Qed.

Lemma for_range_invariant_idx {S : Type} (I : Z -> S -> Prop)
      (body : Z -> S -> outcome S) (n : Z) (s s' : S) :
  (0 <= n)%Z ->
  (forall i s s', (0 <= i < n)%Z -> I i s -> body i s = Ok s' -> I (i + 1)%Z s') ->
  I 0%Z s -> for_range 0 n body s = Ok s' -> I n s'.
Proof.
  intros Hn Hb Hs H. unfold for_range in H.
  pose proof (for_loop_invariant_idx I body (Z.to_nat (n - 0)) 0 s s') as L.
  replace (0 + Z.of_nat (Z.to_nat (n - 0)))%Z with n in L by lia.
  apply L; [| exact Hs | exact H].
  intros i t t' Hi. apply Hb. lia.
Qed.

Lemma for_adjacent_Ok_inv {A S : Type} (v : list A) (body : Z -> S -> outcome S)
      (s s' : S) :
  for_adjacent v body s = Ok s' ->
  (1 <= size v)%Z /\ for_range 0 (size v - 1) body s = Ok s'.
Proof.
  unfold for_adjacent. destruct (size v =? 0)%Z eqn:E.
  - destruct v as [| a t]; [discriminate |].
    apply Z.eqb_eq in E. unfold size in E. cbn [length] in E. lia.
  - apply Z.eqb_neq in E. intro H. split; [unfold size in *; lia | exact H].
Qed.

Lemma Forall_at {A : Type} (P : A -> Prop) (l : list A) :
  (forall i, (0 <= i < size l)%Z -> exists a, at_ l i = Ok a /\ P a) -> Forall P l.
Proof.
  intro H. apply Forall_forall. intros a Ha.
  destruct (In_nth l a a Ha) as (i & Hi & Hnth).
  destruct (H (Z.of_nat i) ltac:(unfold size; lia)) as (b & Eb & Pb).
  rewrite (at_in_range l (Z.of_nat i) a) in Eb by (unfold size; lia).
  rewrite Nat2Z.id, Hnth in Eb. injection Eb as <-. exact Pb.
Qed.

Lemma mapM_Forall {A B : Type} (f : A -> outcome B) (P : B -> Prop) :
  (forall a b, f a = Ok b -> P b) ->
  forall (l : list A) (bs : list B), mapM f l = Ok bs -> Forall P bs.
Proof.
  intro Hf. induction l as [| a l IH]; intros bs H; cbn [mapM] in H.
  - injection H as <-. constructor.
  - apply bind_Ok_inv in H. destruct H as (b & Eb & H).
    apply bind_Ok_inv in H. destruct H as (bs' & Ebs & H).
    injection H as <-. constructor; [exact (Hf a b Eb) | exact (IH bs' Ebs)].
Qed.

(** ** The refinement of a partition: the lambda [u] *)

Lemma insert_sorted_length (x : Q) (l : list Q) :
  length (insert_sorted x l) = S (length l).
Proof.
  induction l as [| h t IH]; [reflexivity |].
  cbn [insert_sorted]. destruct (Qlt_bool h x); cbn [length]; [now rewrite IH | reflexivity].
Qed.

Lemma sort_length (l : list Q) : length (sort l) = length l.
Proof.
  induction l as [| h t IH]; [reflexivity |].
  cbn [sort fold_right]. fold (sort t). now rewrite insert_sorted_length, IH.
Qed.

(** [u] never drops an edge, and it returns as many edges as it was
    given only when no residual exceeds [eps]. *)
Lemma u_growth (edges residual : list Q) (eps : Q) (new : list Q) :
  Generator.u edges residual eps = Ok new ->
  (size edges <= size new)%Z
  /\ (size new = size edges ->
      forall s, (0 <= s < size edges - 1)%Z ->
                exists r, at_ residual s = Ok r /\ (r <= eps)%Q).
Proof.
  unfold Generator.u. intro H.
  apply bind_Ok_inv in H. destruct H as (new0 & E & H). injection H as <-.
  apply for_adjacent_Ok_inv in E. destruct E as [Hne E].
  assert (Ls : size (sort new0) = size new0) by (unfold size; now rewrite sort_length).
  rewrite Ls.
  refine (for_range_invariant_idx
            (fun s n =>
               (size edges <= size n)%Z
               /\ (size n = size edges ->
                   forall s', (0 <= s' < s)%Z ->
                              exists r, at_ residual s' = Ok r /\ (r <= eps)%Q))
            _ (size edges - 1) edges new0 _ _ _ E).
  - lia.
  - intros s n n' Hs [Hle Hall] Hb.
    apply bind_Ok_inv in Hb. destruct Hb as (r & Er & Hb).
    destruct (Qlt_bool eps r) eqn:Elt.
    + apply bind_Ok_inv in Hb. destruct Hb as (lo & _ & Hb).
      apply bind_Ok_inv in Hb. destruct Hb as (hi & _ & Hb).
      injection Hb as <-. rewrite size_app_one. split; [lia |]. intro; lia.
    + injection Hb as <-. split; [exact Hle |].
      intros Hsz s' Hs'. destruct (Z.eq_dec s' s) as [-> | Hne'].
      * exists r. split; [exact Er |]. now apply Qlt_bool_false_iff.
      * apply (Hall Hsz). lia.
  - split; [lia |]. intros _ s' Hs'. lia.
Qed.

(** ** The pick-up loop *)

Lemma no_descent_adjacent {A : Type} (gt : A -> A -> bool) :
  forall (v : list A) (i : nat) (a b : A),
    no_descent gt v = true ->
    nth_error v i = Some a -> nth_error v (S i) = Some b -> gt a b = false.
Proof.
  induction v as [| x [| y t] IH]; intros i a b H Ha Hb.
  - destruct i; discriminate.
  - destruct i as [| i]; cbn in Hb; [discriminate | destruct i; discriminate].
  - change (negb (gt x y) && no_descent gt (y :: t) = true) in H.
    apply andb_true_iff in H. destruct H as [Hxy H].
    destruct i as [| i].
    + cbn in Ha, Hb. injection Ha as <-. injection Hb as <-.
      now apply negb_true_iff.
    + exact (IH i a b H Ha Hb).
Qed.

Section PickUp.

Variable max_dim : Z.
Variables sv_cutoff s0 : Q.
Variables svd_even svd_odd : svd_result.
Hypothesis Hs0 : at_ (singularValues svd_even) 0 = Ok s0.

(** What the pick-up loop keeps true of the values picked so far. *)
Definition picked_ok (i : Z) (sv : list Q) : Prop :=
  ((0 <= max_dim)%Z -> (size sv <= max_dim)%Z)
  /\ Forall (fun e => Qlt_bool (e / s0) sv_cutoff = false) sv
  /\ (sv = [] -> i = 0%Z)
  /\ (sv <> [] -> nth 0 sv 0%Q = s0).

Lemma picked_ok_push (i : Z) (sv : list Q) (e : Q) :
  picked_ok i sv ->
  (size sv =? max_dim)%Z = false ->
  Qlt_bool (e / s0) sv_cutoff = false ->
  (sv = [] -> e = s0) ->
  forall j, picked_ok j (sv ++ [e]).
Proof.
  intros (Hb & Hc & Hi & Hh) Hne He Hes j. apply Z.eqb_neq in Hne.
  split; [| split; [| split]].
  - intro Hm. specialize (Hb Hm). rewrite size_app_one. lia.
  - apply Forall_app. split; [exact Hc | now constructor].
  - intro E. destruct sv; discriminate.
  - intros _. destruct sv as [| x t]; [cbn; now apply Hes |].
    cbn [app nth]. apply (Hh ltac:(discriminate)).
Qed.

Lemma pick_up_picked_ok :
  forall (n : nat) (i : Z) (sv : list Q) (Uvec Vvec : list (list Q))
         (sv' : list Q) (Uvec' Vvec' : list (list Q)),
    (0 <= i)%Z ->
    picked_ok i sv ->
    Generator.pick_up n i max_dim sv_cutoff s0 svd_even svd_odd (sv, Uvec, Vvec)
    = Ok (sv', Uvec', Vvec') ->
    exists j, picked_ok j sv'.
Proof.
  induction n as [| n IH]; intros i sv Uvec Vvec sv' Uvec' Vvec' Hi Hok H;
    cbn [Generator.pick_up] in H.
  - injection H as <- <- <-. now exists i.
  - destruct (size sv =? max_dim)%Z eqn:E1; [injection H as <- <- <-; now exists i |].
    apply bind_Ok_inv in H. destruct H as (e & Ee & H).
    destruct (Qlt_bool (e / s0) sv_cutoff) eqn:Ce;
      [injection H as <- <- <-; now exists i |].
    apply bind_Ok_inv in H. destruct H as (ue & _ & H).
    apply bind_Ok_inv in H. destruct H as (ve & _ & H).
    assert (Hes : sv = [] -> e = s0).
    { intro Hnil. destruct Hok as (_ & _ & Hi0 & _). rewrite (Hi0 Hnil) in Ee.
      congruence. }
    pose proof (picked_ok_push i sv e Hok E1 Ce Hes) as Hok1.
    destruct (size (sv ++ [e]) =? max_dim)%Z eqn:E2;
      [injection H as <- <- <-; now exists i |].
    apply bind_Ok_inv in H. destruct H as (o & Eo & H).
    destruct (Qlt_bool (o / s0) sv_cutoff) eqn:Co;
      [injection H as <- <- <-; now exists i |].
    apply bind_Ok_inv in H. destruct H as (uo & _ & H).
    apply bind_Ok_inv in H. destruct H as (vo & _ & H).
    apply (IH (i + 1)%Z _ _ _ _ _ _ ltac:(lia)) in H; [exact H |].
    apply (picked_ok_push (i + 1) (sv ++ [e]) o (Hok1 (i + 1)%Z) E2 Co).
    intro Hnil. destruct sv; discriminate.
Qed.

End PickUp.

(** ** Lifting singular vectors to piecewise polynomials *)

Lemma replace_nth_Forall {A : Type} (P : A -> Prop) (x : A) :
  forall (v : list A) (n : nat) (v' : list A),
    replace_nth v n x = Some v' -> Forall P v -> P x -> Forall P v'.
Proof.
  induction v as [| h t IH]; intros n v' H Hv Hx; [discriminate |].
  inversion Hv as [| ? ? Hh Ht]; subst.
  destruct n as [| n]; cbn [replace_nth] in H.
  - injection H as <-. now constructor.
  - destruct (replace_nth t n x) as [t' |] eqn:E; [| discriminate].
    injection H as <-. constructor; [exact Hh | exact (IH n t' E Ht Hx)].
Qed.

Lemma set_at_Forall {A : Type} (P : A -> Prop) (v : list A) (i : Z) (x : A)
      (v' : list A) :
  set_at v i x = Ok v' -> Forall P v -> P x -> Forall P v'.
Proof.
  unfold set_at. destruct (i <? 0)%Z; [discriminate |].
  destruct (replace_nth v (Z.to_nat i) x) as [v1 |] eqn:E; [| discriminate].
  intros [= <-]. exact (replace_nth_Forall P x v (Z.to_nat i) v1 E).
Qed.

Lemma mat_set_rows (c : Z) (m : matrix) (i j : Z) (x : Q) (m' : matrix) :
  mat_set m i j x = Ok m' ->
  Forall (fun r => size r = c) m -> Forall (fun r => size r = c) m'.
Proof.
  unfold mat_set. intros H Hm.
  apply bind_Ok_inv in H. destruct H as (r & Er & H).
  apply bind_Ok_inv in H. destruct H as (r' & Er' & H).
  apply (set_at_Forall _ _ _ _ _ H Hm).
  rewrite (set_at_size _ _ _ _ Er').
  apply at_Ok_inv in Er. destruct Er as [_ Er]. apply nth_error_In in Er.
  rewrite Forall_forall in Hm. exact (Hm r Er).
Qed.

Lemma make_Ok_inv (NDEBUG : bool) (n_section : Z) (edges : list Q) (coeff : matrix)
      (p : piecewise_polynomial) :
  PP.make NDEBUG n_section edges coeff = Ok p ->
  well_formed p
  /\ p = mk_pp (mat_cols coeff - 1) (size edges - 1) edges coeff true.
Proof.
  unfold PP.make. intro H. apply bind_Ok_inv in H. destruct H as (? & _ & H).
  pose proof (construct_well_formed NDEBUG _ _ _ _ H) as W. split; [exact W |].
  unfold PP.construct in H.
  apply bind_Ok_inv in H. destruct H as (? & _ & H).
  apply bind_Ok_inv in H. destruct H as (? & _ & H). injection H as <-.
  destruct W as [Hv _]. cbn [valid_] in Hv. now rewrite Hv.
Qed.

(** A basis function as the generator makes them: a well-formed object
    over the given partition, of order [num_local_poly - 1]. *)
Definition basis_function_on (edges : list Q) (nlp : Z) (p : piecewise_polynomial)
  : Prop :=
  well_formed p /\ section_edges_ p = edges /\ k_ p = (nlp - 1)%Z.

Lemma gen_pp_elements (NDEBUG : bool) (sqrt : Q -> Q) (nlp : Z)
      (deriv : list (list Q)) (inv_fact edges : list Q)
      (vectors : list (list Q)) (pps : list piecewise_polynomial) :
  (0 <= nlp)%Z ->
  Generator.gen_pp NDEBUG sqrt nlp deriv inv_fact edges vectors = Ok pps ->
  Forall (basis_function_on edges nlp) pps.
Proof.
  intros Hnlp H. unfold Generator.gen_pp in H.
  refine (mapM_Forall _ _ _ vectors pps H).
  intros vec p Hp.
  apply bind_Ok_inv in Hp. destruct Hp as (coeff & Ec & Hp).
  apply make_Ok_inv in Hp. destruct Hp as [W ->].
  split; [exact W |]. split; [reflexivity |]. cbn [k_].
  assert (Hrows : Forall (fun r => size r = nlp) coeff).
  { apply for_adjacent_Ok_inv in Ec. destruct Ec as [_ Ec]. unfold for_range in Ec.
    refine (for_loop_invariant (Forall (fun r : list Q => size r = nlp)) _ _ _ _ _ _ _ Ec).
    - intros s c c' Hc Hb. unfold for_range in Hb.
      refine (for_loop_invariant (Forall (fun r : list Q => size r = nlp)) _ _ _ _ _ _ Hc Hb).
      intros l c1 c1' Hc1 Hb1.
      apply bind_Ok_inv in Hb1. destruct Hb1 as (hi & _ & Hb1).
      apply bind_Ok_inv in Hb1. destruct Hb1 as (lo & _ & Hb1).
      apply bind_Ok_inv in Hb1. destruct Hb1 as ([c2 cf] & Est & Hb1).
      injection Hb1 as <-. unfold for_range in Est.
      refine (for_loop_invariant
                (fun st : matrix * Q => Forall (fun r : list Q => size r = nlp) (fst st))
                _ _ _ _ (c1, _) (c2, cf) Hc1 Est).
      intros d [c3 f3] [c4 f4] Hc3 Hb3. cbn [fst] in *.
      apply bind_Ok_inv in Hb3. destruct Hb3 as (f & _ & Hb3).
      apply bind_Ok_inv in Hb3. destruct Hb3 as (x & _ & Hb3).
      apply bind_Ok_inv in Hb3. destruct Hb3 as (dl & _ & Hb3).
      apply bind_Ok_inv in Hb3. destruct Hb3 as (dld & _ & Hb3).
      apply bind_Ok_inv in Hb3. destruct Hb3 as (old & _ & Hb3).
      apply bind_Ok_inv in Hb3. destruct Hb3 as (c5 & Eset & Hb3).
      injection Hb3 as <- _. exact (mat_set_rows nlp _ _ _ _ _ Eset Hc3).
    - unfold mat_zero. apply Forall_forall. intros r Hr.
      apply repeat_spec in Hr. subst r. unfold size. rewrite repeat_length. lia. }
  destruct (well_formed_facts _ W) as (_ & Hn & _ & Hr & _).
  cbn [n_sections_ coeff_] in Hn, Hr.
  destruct coeff as [| r0 rows]; [unfold size in *; cbn [length] in Hr; lia |].
  cbn [mat_cols]. apply Forall_inv in Hrows. lia.
Qed.

Lemma basis_function_on_scale (edges : list Q) (nlp : Z) (scalar : Q)
      (p : piecewise_polynomial) :
  basis_function_on edges nlp p -> basis_function_on edges nlp (PP.scale scalar p).
Proof.
  intros (W & He & Hk). split; [now apply scale_well_formed |]. split; assumption.
Qed.

(** The value at 1 exists and is not negative. *)
Definition nonnegative_at_1 (NDEBUG : bool) (p : piecewise_polynomial) : Prop :=
  exists v, PP.compute_value NDEBUG p 1 = Ok v /\ (0 <= v)%Q.

(** The loop that fixes the signs: [u_i(1) >= 0] afterwards. *)
Lemma sign_loop (NDEBUG : bool) (ex ey : list Q) (nlp : Z)
      (u1 v1 us vs : list piecewise_polynomial) :
  Forall (basis_function_on ex nlp) u1 ->
  Forall (basis_function_on ey nlp) v1 ->
  for_range 0 (size u1)
    (fun i (uv : list piecewise_polynomial * list piecewise_polynomial) =>
       let (us, vs) := uv in
       ui <- at_ us i ;;
       val <- PP.compute_value NDEBUG ui 1 ;;
       if Qlt_bool val 0
       then
         us' <- set_at us i (PP.scale (-1) ui) ;;
         vi <- at_ vs i ;;
         vs' <- set_at vs i (PP.scale (-1) vi) ;;
         Ok (us', vs')
       else Ok uv)
    (u1, v1) = Ok (us, vs) ->
  Forall (fun p => basis_function_on ex nlp p /\ nonnegative_at_1 NDEBUG p) us
  /\ Forall (basis_function_on ey nlp) vs.
Proof.
  intros Hu Hv H.
  pose (Inv := fun (i : Z) (uv : list piecewise_polynomial * list piecewise_polynomial) =>
                 size (fst uv) = size u1
                 /\ Forall (basis_function_on ex nlp) (fst uv)
                 /\ Forall (basis_function_on ey nlp) (snd uv)
                 /\ forall j p, (0 <= j < i)%Z -> at_ (fst uv) j = Ok p ->
                                nonnegative_at_1 NDEBUG p).
  assert (L : Inv (size u1) (us, vs)).
  { refine (for_range_invariant_idx Inv _ (size u1) (u1, v1) (us, vs) _ _ _ H);
      unfold Inv; [unfold size; lia | |].
    2:{ split; [reflexivity |]. split; [exact Hu |]. split; [exact Hv |].
        intros j p Hj. lia. }
    intros i [us0 vs0] [us1 vs1] Hi (Hsz & Hus & Hvs & Hpos) Hb. cbn [fst snd] in *.
    apply bind_Ok_inv in Hb. destruct Hb as (ui & Eui & Hb).
    apply bind_Ok_inv in Hb. destruct Hb as (val & Evl & Hb).
    destruct (Qlt_bool val 0) eqn:Elt.
    + apply bind_Ok_inv in Hb. destruct Hb as (us' & Eus & Hb).
      apply bind_Ok_inv in Hb. destruct Hb as (vi & Evi & Hb).
      apply bind_Ok_inv in Hb. destruct Hb as (vs' & Evs & Hb).
      injection Hb as <- <-.
      assert (Gui : basis_function_on ex nlp ui).
      { apply at_Ok_inv in Eui. destruct Eui as [_ Eui]. apply nth_error_In in Eui.
        rewrite Forall_forall in Hus. exact (Hus ui Eui). }
      assert (Gvi : basis_function_on ey nlp vi).
      { apply at_Ok_inv in Evi. destruct Evi as [_ Evi]. apply nth_error_In in Evi.
        rewrite Forall_forall in Hvs. exact (Hvs vi Evi). }
      split; [now rewrite (set_at_size _ _ _ _ Eus) |].
      split; [exact (set_at_Forall _ _ _ _ _ Eus Hus
                       (basis_function_on_scale ex nlp _ ui Gui)) |].
      split; [exact (set_at_Forall _ _ _ _ _ Evs Hvs
                       (basis_function_on_scale ey nlp _ vi Gvi)) |].
      intros j p Hj Hp. destruct (Z.eq_dec j i) as [-> | Hne].
      * rewrite (set_at_same _ _ _ _ Eus) in Hp. injection Hp as <-.
        pose proof (compute_value_scale NDEBUG (-1) ui 1) as R.
        rewrite Evl in R.
        destruct (PP.compute_value NDEBUG (PP.scale (-1) ui) 1) as [v' | |] eqn:Ev';
          cbn in R; try contradiction.
        exists v'. split; [exact Ev' |].
        apply Qlt_bool_iff in Elt. rewrite R. lra.
      * rewrite (set_at_other _ _ _ _ j Eus Hne) in Hp. apply (Hpos j p); [lia | exact Hp].
    + injection Hb as <- <-.
      split; [exact Hsz |]. split; [exact Hus |]. split; [exact Hvs |].
      intros j p Hj Hp. destruct (Z.eq_dec j i) as [-> | Hne].
      * rewrite Eui in Hp. injection Hp as <-.
        exists val. split; [exact Evl |]. now apply Qlt_bool_false_iff.
      * apply (Hpos j p); [lia | exact Hp]. }
  unfold Inv in L. cbn [fst snd] in L. destruct L as (Hsz & Hus & Hvs & Hpos).
  split; [| exact Hvs].
  apply Forall_at. intros i Hi.
  destruct (at_ us i) as [p | |] eqn:Ep.
  - exists p. split; [reflexivity |]. split.
    + apply at_Ok_inv in Ep. destruct Ep as [_ Ep]. apply nth_error_In in Ep.
      rewrite Forall_forall in Hus. exact (Hus p Ep).
    + apply (Hpos i p); [lia | exact Ep].
  - exfalso. exact (at_never_throws us i what Ep).
  - exfalso. rewrite (at_in_range us i (mk_pp 0 0 [] [] false)) in Ep by lia.
    discriminate.
Qed.

(** ** What a pass and the generator return *)

Section PassProperties.

Variable NDEBUG : bool.
Variable pi : Q.
Variable sqrt tanh sinh cosh : Q -> Q.
Variable BDCSVD : matrix -> svd_result.
Variable gauss_legendre_nodes : Z -> list (Q * Q).
Variable normalized_legendre_p : Z -> Q -> Q.
Variable normalized_legendre_p_derivatives : Z -> Q -> list (list Q).
Variable kernel : Q -> Q -> Q.

(** X16: a pass of [generate_ir_basis_functions_impl] that returns has
    picked at least one and (for [max_dim >= 0]) at most [max_dim] singular
    values, with as many U and V basis functions; the values do not
    increase along the list, and none of them failed the cutoff test:
    [sv[i] / sv[0] < sv_cutoff] holds for no [i]. *)
Theorem pass_singular_values
        (max_dim : Z) (sv_cutoff : Q) (nlp ngl : Z) (ex ey : list Q)
        (verbose : bool) (r : impl_result) :
  Generator.generate_ir_basis_functions_impl NDEBUG sqrt BDCSVD gauss_legendre_nodes
    normalized_legendre_p normalized_legendre_p_derivatives kernel
    max_dim sv_cutoff nlp ngl ex ey verbose = Ok r ->
  (1 <= size (sv_ r))%Z
  /\ ((0 <= max_dim)%Z -> (size (sv_ r) <= max_dim)%Z)
  /\ size (u_basis_pp_ r) = size (sv_ r)
  /\ size (v_basis_pp_ r) = size (sv_ r)
  /\ (forall i a b, at_ (sv_ r) i = Ok a -> at_ (sv_ r) (i + 1) = Ok b -> (b <= a)%Q)
  /\ (forall e, In e (sv_ r) -> ~ (e / nth 0 (sv_ r) 0 < sv_cutoff)%Q).
Proof.
  intro H. apply impl_Ok_inv in H.
  destruct H as (se & so & s0 & Uvec & Vvec & Es0 & Epick & Hne & Hdesc & _ & _
                 & Hu & Hv & _).
  assert (Hok : picked_ok max_dim sv_cutoff s0 0 []).
  { split; [intros; unfold size; cbn; lia |]. split; [constructor |].
    split; [reflexivity | congruence]. }
  destruct (pick_up_picked_ok max_dim sv_cutoff s0 se so Es0 _ 0 [] [] []
              (sv_ r) Uvec Vvec ltac:(lia) Hok Epick) as (j & Hb & Hc & _ & Hh).
  split; [destruct (sv_ r); [congruence | unfold size; cbn [length]; lia] |].
  split; [exact Hb |]. split; [exact Hu |]. split; [exact Hv |]. split.
  - intros i a b Ha Hb'.
    apply at_Ok_inv in Ha. destruct Ha as [Hi Ha].
    apply at_Ok_inv in Hb'. destruct Hb' as [_ Hb'].
    replace (Z.to_nat (i + 1)) with (S (Z.to_nat i)) in Hb' by lia.
    pose proof (no_descent_adjacent Qlt_bool _ _ a b Hdesc Ha Hb') as Hab.
    now apply Qlt_bool_false_iff.
  - intros e He Hlt. rewrite (Hh Hne) in Hlt.
    rewrite Forall_forall in Hc. specialize (Hc e He).
    apply Qlt_bool_iff in Hlt. congruence.
Qed.

(** X17: after a pass that returns, every U basis function is a
    well-formed piecewise polynomial over the x-partition of the pass, of
    order [num_local_poly - 1], whose value at 1 exists and is not negative
    (the sign convention); every V basis function is a well-formed object
    of the same order over the y-partition. *)
Theorem pass_basis_functions
        (max_dim : Z) (sv_cutoff : Q) (nlp ngl : Z) (ex ey : list Q)
        (verbose : bool) (r : impl_result) :
  Generator.generate_ir_basis_functions_impl NDEBUG sqrt BDCSVD gauss_legendre_nodes
    normalized_legendre_p normalized_legendre_p_derivatives kernel
    max_dim sv_cutoff nlp ngl ex ey verbose = Ok r ->
  Forall (fun u => well_formed u /\ section_edges_ u = ex /\ k_ u = (nlp - 1)%Z
                   /\ exists v, PP.compute_value NDEBUG u 1 = Ok v /\ (0 <= v)%Q)
         (u_basis_pp_ r)
  /\ Forall (fun v => well_formed v /\ section_edges_ v = ey /\ k_ v = (nlp - 1)%Z)
            (v_basis_pp_ r).
Proof.
  intro H. unfold Generator.generate_ir_basis_functions_impl in H.
  destruct (nlp <? 2)%Z eqn:Enlp; [discriminate |]. apply Z.ltb_ge in Enlp.
  apply bind_Ok_inv in H. destruct H as (Ke & _ & H).
  apply bind_Ok_inv in H. destruct H as (Ko & _ & H).
  apply bind_Ok_inv in H. destruct H as (s0 & _ & H).
  apply bind_Ok_inv in H. destruct H as ([[sv Uvec] Vvec] & _ & H).
  apply bind_Ok_inv in H. destruct H as (? & _ & H).
  apply bind_Ok_inv in H. destruct H as ([] & _ & H).
  apply bind_Ok_inv in H. destruct H as (u1 & Eu & H).
  apply bind_Ok_inv in H. destruct H as (v1 & Ev & H).
  apply bind_Ok_inv in H. destruct H as ([us vs] & Euv & H).
  apply bind_Ok_inv in H. destruct H as (ub & _ & H).
  apply bind_Ok_inv in H. destruct H as (vb & _ & H).
  apply bind_Ok_inv in H. destruct H as (sb & _ & H).
  apply bind_Ok_inv in H. destruct H as (r1 & _ & H).
  apply bind_Ok_inv in H. destruct H as (r2 & _ & H).
  apply bind_Ok_inv in H. destruct H as (rx & _ & H).
  apply bind_Ok_inv in H. destruct H as (ry & _ & H).
  injection H as <-. cbn [u_basis_pp_ v_basis_pp_].
  apply gen_pp_elements in Eu; [| lia]. apply gen_pp_elements in Ev; [| lia].
  destruct (sign_loop NDEBUG ex ey nlp u1 v1 us vs Eu Ev Euv) as [Hus Hvs].
  split.
  - apply Forall_forall. intros u Hu. rewrite Forall_forall in Hus.
    destruct (Hus u Hu) as [(W & He & Hk) Hp].
    split; [exact W |]. split; [exact He |]. split; [exact Hk | exact Hp].
  - exact Hvs.
Qed.

(** X18: the generator returns only from a pass in which no section asked
    for a split: every reported x-residual is at most
    [r_tol * |u_last(1)|] and every reported y-residual at most
    [r_tol * max(|v(1)|, |v(0)|)], with [u_last] the last U basis function
    and [v] the V basis function of index [2 * (dim / 2) - 1]. *)
Theorem generator_returns_within_tolerance
        (fuel : nat) (max_dim : Z) (sv_cutoff : Q) (verbose : bool) (r_tol : Q)
        (nlp ngl : Z) (r : impl_result) :
  Generator.generate_ir_basis_functions NDEBUG pi sqrt tanh sinh cosh BDCSVD
    gauss_legendre_nodes normalized_legendre_p normalized_legendre_p_derivatives
    kernel fuel max_dim sv_cutoff verbose r_tol nlp ngl = Some (Ok r) ->
  exists ub ub1 vy vy1 vy0,
    back (u_basis_pp_ r) = Ok ub
    /\ PP.compute_value NDEBUG ub 1 = Ok ub1
    /\ at_ (v_basis_pp_ r) (2 * Z.quot (size (u_basis_pp_ r)) 2 - 1) = Ok vy
    /\ PP.compute_value NDEBUG vy 1 = Ok vy1
    /\ PP.compute_value NDEBUG vy 0 = Ok vy0
    /\ Forall (fun res => (res <= r_tol * Qabs ub1)%Q) (residual_x_ r)
    /\ Forall (fun res => (res <= r_tol * Qmax (Qabs vy1) (Qabs vy0))%Q) (residual_y_ r).
Proof.
  intro H. unfold Generator.generate_ir_basis_functions in H.
  destruct (Generator.initial_section_edges _ _ _ _ _ _ _ _ _)
    as [[ex0 ey0] | w |]; try discriminate.
  apply refine_loop_Ok in H. destruct H as (ex & ey & H).
  unfold Generator.refine_once in H.
  apply bind_Ok_inv in H. destruct H as (r' & Er & H).
  apply bind_Ok_inv in H. destruct H as (ub & Eub & H).
  apply bind_Ok_inv in H. destruct H as (ub1 & Eub1 & H).
  apply bind_Ok_inv in H. destruct H as (vy & Evy & H).
  apply bind_Ok_inv in H. destruct H as (vy1 & Evy1 & H).
  apply bind_Ok_inv in H. destruct H as (vy0 & Evy0 & H).
  apply bind_Ok_inv in H. destruct H as (ex' & Eex & H).
  apply bind_Ok_inv in H. destruct H as (ey' & Eey & H).
  destruct (size ex' + size ey' =? size ex + size ey)%Z eqn:Esz; [| discriminate].
  injection H as <-. apply Z.eqb_eq in Esz.
  destruct (u_growth _ _ _ _ Eex) as [Gx Hx].
  destruct (u_growth _ _ _ _ Eey) as [Gy Hy].
  apply impl_Ok_inv in Er.
  destruct Er as (se & so & s0 & Uvec & Vvec & _ & _ & _ & _ & _ & _ & _ & _ & Ex & Ey).
  apply (tail_residuals_entries sqrt) in Ex. destruct Ex as [Lx _].
  apply (tail_residuals_entries sqrt) in Ey. destruct Ey as [Ly _].
  exists ub, ub1, vy, vy1, vy0.
  repeat (split; [assumption |]). split.
  - apply Forall_at. intros i Hi. apply Hx; lia.
  - apply Forall_at. intros i Hi. apply Hy; lia.
Qed.

End PassProperties.

Lemma pass_singular_values_witness :
  (1 <= size (sv_ result2))%Z
  /\ ((0 <= 2)%Z -> (size (sv_ result2) <= 2)%Z)
  /\ size (u_basis_pp_ result2) = size (sv_ result2)
  /\ size (v_basis_pp_ result2) = size (sv_ result2)
  /\ (forall i a b, at_ (sv_ result2) i = Ok a -> at_ (sv_ result2) (i + 1) = Ok b ->
                    (b <= a)%Q)
  /\ (forall e, In e (sv_ result2) -> ~ (e / nth 0 (sv_ result2) 0 < 1 # 10)%Q).
Proof.
  apply (pass_singular_values false sqrt_exact svd2 one_point_rule unit_legendre deriv2
           unit_kernel 2 (1 # 10) 2 1 [0; 1]%Q [0; 1]%Q false result2).
  vm_compute. reflexivity.
Defined.

Lemma pass_basis_functions_witness :
  Forall (fun u => well_formed u /\ section_edges_ u = [0; 1]%Q /\ k_ u = (2 - 1)%Z
                   /\ exists v, PP.compute_value false u 1 = Ok v /\ (0 <= v)%Q)
         (u_basis_pp_ result2)
  /\ Forall (fun v => well_formed v /\ section_edges_ v = [0; 1]%Q /\ k_ v = (2 - 1)%Z)
            (v_basis_pp_ result2).
Proof.
  apply (pass_basis_functions false sqrt_exact svd2 one_point_rule unit_legendre deriv2
           unit_kernel 2 (1 # 10) 2 1 [0; 1]%Q [0; 1]%Q false result2).
  vm_compute. reflexivity.
Defined.

Lemma generator_returns_within_tolerance_witness :
  exists ub ub1 vy vy1 vy0,
    back (u_basis_pp_ result2) = Ok ub
    /\ PP.compute_value false ub 1 = Ok ub1
    /\ at_ (v_basis_pp_ result2) (2 * Z.quot (size (u_basis_pp_ result2)) 2 - 1) = Ok vy
    /\ PP.compute_value false vy 1 = Ok vy1
    /\ PP.compute_value false vy 0 = Ok vy0
    /\ Forall (fun res => (res <= 1 * Qabs ub1)%Q) (residual_x_ result2)
    /\ Forall (fun res => (res <= 1 * Qmax (Qabs vy1) (Qabs vy0))%Q)
              (residual_y_ result2).
Proof.
  apply (generator_returns_within_tolerance false 3 sqrt_exact (fun x => x)
           (fun x => x) (fun x => x) svd2 one_point_rule unit_legendre deriv2
           unit_kernel 5 2 (1 # 10) false 1 2 1 result2).
  vm_compute. reflexivity.
Defined.

(** ** The kernels are symmetric under (x, y) -> (-x, -y) *)

Lemma Qlt_bool_eq_iff (a b c d : Q) :
  ((a < b)%Q <-> (c < d)%Q) -> Qlt_bool a b = Qlt_bool c d.
Proof.
  intro H. destruct (Qlt_bool a b) eqn:E1, (Qlt_bool c d) eqn:E2; try reflexivity.
  - apply Qlt_bool_iff in E1. apply H in E1. apply Qlt_bool_iff in E1. congruence.
  - apply Qlt_bool_iff in E2. apply H in E2. apply Qlt_bool_iff in E2. congruence.
Qed.

Lemma kernel_branch_above (L y : Q) :
  Qlt_bool 100 (L * - y) = Qlt_bool (L * y) (- (100)).
Proof.
  apply Qlt_bool_eq_iff.
  setoid_replace (L * - y)%Q with (- (L * y))%Q by ring.
  split; intro H; lra.
Qed.

Lemma kernel_branch_below (L y : Q) :
  Qlt_bool (L * - y) (- (100)) = Qlt_bool 100 (L * y).
Proof.
  apply Qlt_bool_eq_iff.
  setoid_replace (L * - y)%Q with (- (L * y))%Q by ring.
  split; intro H; lra.
Qed.

Lemma kernel_branches_exclusive (L y : Q) :
  Qlt_bool 100 (L * y) = true -> Qlt_bool (L * y) (- (100)) = false.
Proof.
  intro H. apply Qlt_bool_iff in H. apply Qlt_bool_false_iff. lra.
Qed.

(** X19: both kernels are unchanged when the signs of both arguments are
    flipped, K(-x, -y) = K(x, y), in each of their branches, for an [exp]
    that respects equality, an even [cosh] and an odd [sinh]. *)
Theorem kernels_symmetric (exp cosh sinh : Q -> Q) (Lambda_ x y : Q) :
  (forall a b, (a == b)%Q -> (exp a == exp b)%Q) ->
  (forall a b, (a == - b)%Q -> (cosh a == cosh b)%Q) ->
  (forall a b, (a == - b)%Q -> (sinh a == - sinh b)%Q) ->
  (fermionic_kernel exp cosh Lambda_ (- x) (- y)
   == fermionic_kernel exp cosh Lambda_ x y)%Q
  /\ (bosonic_kernel exp sinh Lambda_ (- x) (- y)
      == bosonic_kernel exp sinh Lambda_ x y)%Q.
Proof.
  intros Hexp Hcosh Hsinh.
  assert (Ea : (- (1 # 2) * Lambda_ * - x * - y + (1 # 2) * Lambda_ * - y
                == - (1 # 2) * Lambda_ * x * y - (1 # 2) * Lambda_ * y)%Q) by ring.
  assert (Eb : (- (1 # 2) * Lambda_ * - x * - y - (1 # 2) * Lambda_ * - y
                == - (1 # 2) * Lambda_ * x * y + (1 # 2) * Lambda_ * y)%Q) by ring.
  assert (Ec : (- (1 # 2) * Lambda_ * - x * - y == - (1 # 2) * Lambda_ * x * y)%Q)
    by ring.
  assert (Ed : ((1 # 2) * Lambda_ * - y == - ((1 # 2) * Lambda_ * y))%Q) by ring.
  split.
  - unfold fermionic_kernel. cbv zeta.
    rewrite kernel_branch_above, kernel_branch_below.
    destruct (Qlt_bool 100 (Lambda_ * y)) eqn:E1.
    + rewrite (kernel_branches_exclusive _ _ E1). exact (Hexp _ _ Ea).
    + destruct (Qlt_bool (Lambda_ * y) (- (100))) eqn:E2.
      * exact (Hexp _ _ Eb).
      * rewrite (Hexp _ _ Ec), (Hcosh _ _ Ed). reflexivity.
  - unfold bosonic_kernel. cbv zeta.
    assert (E0 : Qlt_bool (Qabs (Lambda_ * - y)) (1 # 10000000000)
                 = Qlt_bool (Qabs (Lambda_ * y)) (1 # 10000000000)).
    { apply Qlt_bool_eq_iff.
      setoid_replace (Lambda_ * - y)%Q with (- (Lambda_ * y))%Q by ring.
      rewrite Qabs_opp. reflexivity. }
    rewrite E0, kernel_branch_above, kernel_branch_below.
    destruct (Qlt_bool (Qabs (Lambda_ * y)) (1 # 10000000000)).
    + rewrite (Hexp _ _ Ec). reflexivity.
    + destruct (Qlt_bool 100 (Lambda_ * y)) eqn:E1.
      * rewrite (kernel_branches_exclusive _ _ E1), (Hexp _ _ Ea). ring.
      * destruct (Qlt_bool (Lambda_ * y) (- (100))) eqn:E2.
        -- rewrite (Hexp _ _ Eb). ring.
        -- rewrite (Hexp _ _ Ec), (Hsinh _ _ Ed).
           set (e := exp (- (1 # 2) * Lambda_ * x * y)%Q).
           set (s := sinh ((1 # 2) * Lambda_ * y)%Q).
           destruct (Qeq_dec s 0) as [Z0 | NZ].
           ++ rewrite Z0. unfold Qdiv.
              change (/ (2 * - 0))%Q with 0%Q. change (/ (2 * 0))%Q with 0%Q. ring.
           ++ field. exact NZ.
Qed.

Lemma kernels_symmetric_witness :
  (fermionic_kernel (fun t => 1 + t * t) (fun t => 1 + t * t) 1 (- (1 # 2)) (- (1 # 3))
   == fermionic_kernel (fun t => 1 + t * t) (fun t => 1 + t * t) 1 (1 # 2) (1 # 3))%Q
  /\ (bosonic_kernel (fun t => 1 + t * t) (fun t => t) 1 (- (1 # 2)) (- (1 # 3))
      == bosonic_kernel (fun t => 1 + t * t) (fun t => t) 1 (1 # 2) (1 # 3))%Q.
Proof.
  apply (kernels_symmetric (fun t => 1 + t * t)%Q (fun t => 1 + t * t)%Q (fun t => t)
           1 (1 # 2) (1 # 3)).
  - intros a b H. rewrite H. reflexivity.
  - intros a b H. rewrite H. ring.
  - intros a b H. exact H.
Defined.

(** ** The validity check of the member functions *)

(** X20: on an object that a constructor has built (well-formed) or that
    the default constructor has left empty, none of [num_sections],
    [section_edge], [section_edges], [coefficient], [compute_value] and
    [derivative] throws, in either build: their validity check is compiled
    only without [NDEBUG], and there the empty object fails the
    [assert] before the [throw].  [overlap] checks in every build: in a
    release build it throws on the empty object. *)
Theorem member_functions_never_throw
        (NDEBUG : bool) (p : piecewise_polynomial) (x : Q) (ord section i j : Z)
        (w : string) :
  well_formed p \/ p = default_pp ->
  PP.num_sections NDEBUG p <> Throw w
  /\ PP.section_edge NDEBUG p i <> Throw w
  /\ PP.section_edges NDEBUG p <> Throw w
  /\ PP.coefficient NDEBUG p i j <> Throw w
  /\ PP.compute_value NDEBUG p x <> Throw w
  /\ PP.derivative NDEBUG p x ord section <> Throw w
  /\ (forall q, PP.overlap true default_pp q
                = Throw "pieacewise_polynomial object is not properly constructed!").
Proof.
  intro H.
  assert (G : PP.check_validity_dbg NDEBUG p = Ok tt
              \/ PP.check_validity_dbg NDEBUG p = Undefined).
  { destruct H as [W | ->].
    - left. now apply check_validity_dbg_well_formed.
    - destruct NDEBUG; [left | right]; reflexivity. }
  destruct G as [G | G].
  - pose proof (or_introl (In invalid_msg []) G) as V.
    split; [exact (fun E => throws_in_num_sections NDEBUG [] p V w E) |].
    split; [exact (fun E => throws_in_section_edge NDEBUG [] p V i w E) |].
    split; [exact (fun E => throws_in_section_edges NDEBUG [] p V w E) |].
    split; [exact (fun E => throws_in_coefficient NDEBUG [] p V i j w E) |].
    split; [exact (fun E => throws_in_compute_value NDEBUG [] p V x w E) |].
    split; [exact (fun E => throws_in_derivative NDEBUG [] p V x ord section w E) |].
    intro q. reflexivity.
  - split; [unfold PP.num_sections; rewrite G; discriminate |].
    split.
    { unfold PP.section_edge, PP.c_assert.
      destruct (NDEBUG || _); cbn [bind]; [rewrite G |]; discriminate. }
    split; [unfold PP.section_edges; rewrite G; discriminate |].
    split.
    { unfold PP.coefficient, PP.c_assert.
      destruct (NDEBUG || ((0 <=? i)%Z && _)); cbn [bind]; [| discriminate].
      destruct (NDEBUG || _); cbn [bind]; [rewrite G |]; discriminate. }
    split; [unfold PP.compute_value; rewrite G; discriminate |].
    split; [unfold PP.derivative; rewrite G; discriminate |].
    intro q. reflexivity.
Qed.

Lemma member_functions_never_throw_witness :
  PP.num_sections false pp_x <> Throw "Give x is out of the range."
  /\ PP.section_edge false pp_x 5 <> Throw "Give x is out of the range."
  /\ PP.section_edges false pp_x <> Throw "Give x is out of the range."
  /\ PP.coefficient false pp_x 0 7 <> Throw "Give x is out of the range."
  /\ PP.compute_value false pp_x 2 <> Throw "Give x is out of the range."
  /\ PP.derivative false pp_x 2 1 (-1) <> Throw "Give x is out of the range."
  /\ (forall q, PP.overlap true default_pp q
                = Throw "pieacewise_polynomial object is not properly constructed!").
Proof.
  apply (member_functions_never_throw false pp_x 2 1 (-1) 5 7
           "Give x is out of the range.").
  left. split; reflexivity.
Defined.

(** ** [ir_basis_set::value] *)

(** X21: the argument checks of [ir_basis_set::value(x, l)].  An index
    outside [0, dim) throws the index error in a release build and fails
    the [assert] in a debug build; with the index in range, an [x] outside
    [-1, 1] throws the error on [x], except that a debug build fails the
    [assert] first when [x] is also outside [-1.00001, 1.00001]; with both
    in range the result is [compute_value(x)] of basis function [l]. *)
Theorem ir_basis_set_value_checks
        (NDEBUG : bool) (basis_functions_ : list piecewise_polynomial) (x : Q) (l : Z) :
  (((l < 0)%Z \/ (size basis_functions_ <= l)%Z) ->
   ir_basis_set_value NDEBUG basis_functions_ x l
   = if NDEBUG then Throw "Invalid index of basis function!" else Undefined)
  /\ ((0 <= l < size basis_functions_)%Z -> ((x < -1)%Q \/ (1 < x)%Q) ->
      ir_basis_set_value NDEBUG basis_functions_ x l
      = if NDEBUG
           || (Qle_bool (- (100001 # 100000)) x && Qle_bool x (100001 # 100000))
        then Throw "Invalid value of x!" else Undefined)
  /\ ((0 <= l < size basis_functions_)%Z -> (-1 <= x)%Q -> (x <= 1)%Q ->
      exists b, at_ basis_functions_ l = Ok b
                /\ ir_basis_set_value NDEBUG basis_functions_ x l
                   = PP.compute_value NDEBUG b x).
Proof.
  unfold ir_basis_set_value. cbv zeta. unfold PP.c_assert.
  split; [| split].
  - intro Hl.
    assert (E1 : ((0 <=? l)%Z && (l <? size basis_functions_)%Z) = false).
    { apply andb_false_iff. destruct Hl; [left; apply Z.leb_gt | right; apply Z.ltb_ge];
        lia. }
    assert (E2 : ((l <? 0)%Z || (size basis_functions_ <=? l)%Z) = true).
    { apply orb_true_iff. destruct Hl; [left; apply Z.ltb_lt | right; apply Z.leb_le];
        lia. }
    rewrite E1, E2. destruct NDEBUG; cbn [orb bind]; [reflexivity |].
    destruct (Qle_bool _ x && Qle_bool x _); reflexivity.
  - intros Hl Hx.
    assert (E1 : ((0 <=? l)%Z && (l <? size basis_functions_)%Z) = true).
    { apply andb_true_iff. split; [apply Z.leb_le | apply Z.ltb_lt]; lia. }
    assert (E2 : ((l <? 0)%Z || (size basis_functions_ <=? l)%Z) = false).
    { apply orb_false_iff. split; [apply Z.ltb_ge | apply Z.leb_gt]; lia. }
    assert (E3 : (Qlt_bool x (-1) || Qlt_bool 1 x) = true).
    { apply orb_true_iff. destruct Hx as [Hx | Hx]; [left | right];
        now apply Qlt_bool_iff. }
    rewrite E1, E2, E3, orb_true_r.
    destruct NDEBUG; cbn [orb bind]; [reflexivity |].
    destruct (Qle_bool _ x && Qle_bool x _); reflexivity.
  - intros Hl Hlo Hhi.
    assert (E1 : ((0 <=? l)%Z && (l <? size basis_functions_)%Z) = true).
    { apply andb_true_iff. split; [apply Z.leb_le | apply Z.ltb_lt]; lia. }
    assert (E2 : ((l <? 0)%Z || (size basis_functions_ <=? l)%Z) = false).
    { apply orb_false_iff. split; [apply Z.ltb_ge | apply Z.leb_gt]; lia. }
    assert (E3 : (Qlt_bool x (-1) || Qlt_bool 1 x) = false).
    { apply orb_false_iff. split; now apply Qlt_bool_false_iff. }
    assert (E4 : (Qle_bool (- (100001 # 100000)) x && Qle_bool x (100001 # 100000))
                 = true).
    { apply andb_true_iff. split; apply Qle_bool_iff; lra. }
    rewrite E1, E2, E3, E4, !orb_true_r. cbn [bind].
    exists (nth (Z.to_nat l) basis_functions_ default_pp).
    rewrite (at_in_range basis_functions_ l default_pp) by lia. cbn [bind].
    split; reflexivity.
Qed.

(** ** The checks and errors of the Matsubara transformation *)

Lemma num_tail_small (k : Z) : (k < 4)%Z -> (Z.min (2 * (k ÷ 2)) 4 <? 4)%Z = true.
Proof.
  intro H. apply Z.ltb_lt.
  assert (k ÷ 2 <= 1)%Z; [| lia].
  destruct (Z_lt_le_dec k 0) as [N | P].
  - pose proof (Z.quot_opp_l k 2 ltac:(lia)) as E.
    assert (0 <= (- k) ÷ 2)%Z by (apply Z.quot_pos; lia). lia.
  - rewrite Z.quot_div_nonneg by lia.
    apply Z.lt_succ_r. apply Z.div_lt_upper_bound; lia.
Qed.

(** X22: the argument checks of [compute_transformation_matrix_to_matsubara]
    behind the ordering check.  For a non-empty [n_vec] that passes the
    ordering check: a negative first entry throws; otherwise an empty
    [bf_src] is read out of range, and a first basis function of order below
    4 throws the error on [num_tail].  An empty [n_vec] returns with [Tnl]
    as it was passed in. *)
Theorem transformation_argument_checks
        (NDEBUG : bool) (pi : Q) (sqrt : Q -> Q) (rpow : Q -> Q -> Q) (cexp : C -> C)
        (n0 : Z) (rest : list Z) (statis : statistics_type)
        (bf_src : list piecewise_polynomial) (Tnl : cmatrix) :
  no_descent Z.gtb (n0 :: rest) = true ->
  ((n0 < 0)%Z ->
   Matsubara.compute_transformation_matrix_to_matsubara
     NDEBUG pi sqrt rpow cexp (n0 :: rest) statis bf_src Tnl
   = Throw "n_vec cannot be negative!")
  /\ ((0 <= n0)%Z -> bf_src = [] ->
      Matsubara.compute_transformation_matrix_to_matsubara
        NDEBUG pi sqrt rpow cexp (n0 :: rest) statis bf_src Tnl
      = Undefined)
  /\ ((0 <= n0)%Z -> forall b0 bs, bf_src = b0 :: bs -> (PP.order b0 < 4)%Z ->
      Matsubara.compute_transformation_matrix_to_matsubara
        NDEBUG pi sqrt rpow cexp (n0 :: rest) statis bf_src Tnl
      = Throw "num_tail < 4.")
  /\ Matsubara.compute_transformation_matrix_to_matsubara
       NDEBUG pi sqrt rpow cexp [] statis bf_src Tnl
     = Ok Tnl.
Proof.
  intro D.
  assert (E : forall k : outcome cmatrix,
             Matsubara.compute_transformation_matrix_to_matsubara
               NDEBUG pi sqrt rpow cexp (n0 :: rest) statis bf_src Tnl = k
             <-> (if (n0 <? 0)%Z then Throw "n_vec cannot be negative!"
                  else
                    b0 <- at_ bf_src 0 ;;
                    if (Z.min (2 * (PP.order b0 ÷ 2)) 4 <? 4)%Z
                    then Throw "num_tail < 4."
                    else Matsubara.compute_transformation_matrix_to_matsubara
                           NDEBUG pi sqrt rpow cexp (n0 :: rest) statis bf_src Tnl)
                 = k).
  { intro k. unfold Matsubara.compute_transformation_matrix_to_matsubara at 1.
    replace (size (n0 :: rest) =? 0)%Z with false
      by (symmetry; apply Z.eqb_neq; unfold size; cbn [length]; lia).
    rewrite (check_order_no_descent Z.gtb _ (n0 :: rest)) by discriminate.
    rewrite D. cbn [bind]. change (at_ (n0 :: rest) 0) with (Ok n0). cbn [bind].
    destruct (n0 <? 0)%Z eqn:En; [reflexivity |].
    destruct (at_ bf_src 0) as [b0 | |] eqn:Eb; cbn [bind]; [| reflexivity | reflexivity].
    destruct (Z.min (2 * (PP.order b0 ÷ 2)) 4 <? 4)%Z eqn:Et; [reflexivity |].
    unfold Matsubara.compute_transformation_matrix_to_matsubara.
    replace (size (n0 :: rest) =? 0)%Z with false
      by (symmetry; apply Z.eqb_neq; unfold size; cbn [length]; lia).
    rewrite (check_order_no_descent Z.gtb _ (n0 :: rest)) by discriminate.
    rewrite D. cbn [bind]. change (at_ (n0 :: rest) 0) with (Ok n0). cbn [bind].
    rewrite En, Eb. cbn [bind]. rewrite Et. reflexivity. }
  split; [| split; [| split]].
  - intro Hn. apply E. replace (n0 <? 0)%Z with true by (symmetry; now apply Z.ltb_lt).
    reflexivity.
  - intros Hn ->. apply E.
    replace (n0 <? 0)%Z with false by (symmetry; now apply Z.ltb_ge). reflexivity.
  - intros Hn b0 bs -> Hk. apply E.
    replace (n0 <? 0)%Z with false by (symmetry; now apply Z.ltb_ge).
    change (at_ (b0 :: bs) 0) with (Ok b0). cbn [bind].
    rewrite (num_tail_small _ Hk). reflexivity.
  - reflexivity.
Qed.

Lemma transformation_argument_checks_witness :
  ((0 < 0)%Z ->
   Matsubara.compute_transformation_matrix_to_matsubara
     false 3 sqrt_exact (fun a b => a) cexp_unit [0; 1]%Z FERMIONIC [pp_x] []
   = Throw "n_vec cannot be negative!")
  /\ ((0 <= 0)%Z -> [pp_x] = [] ->
      Matsubara.compute_transformation_matrix_to_matsubara
        false 3 sqrt_exact (fun a b => a) cexp_unit [0; 1]%Z FERMIONIC [pp_x] []
      = Undefined)
  /\ ((0 <= 0)%Z -> forall b0 bs, [pp_x] = b0 :: bs -> (PP.order b0 < 4)%Z ->
      Matsubara.compute_transformation_matrix_to_matsubara
        false 3 sqrt_exact (fun a b => a) cexp_unit [0; 1]%Z FERMIONIC [pp_x] []
      = Throw "num_tail < 4.")
  /\ Matsubara.compute_transformation_matrix_to_matsubara
       false 3 sqrt_exact (fun a b => a) cexp_unit [] FERMIONIC [pp_x] []
     = Ok [].
Proof.
  apply (transformation_argument_checks false 3 sqrt_exact (fun a b => a) cexp_unit
           0 [1]%Z FERMIONIC [pp_x] []).
  reflexivity.
Defined.

(** X23: every exception that leaves
    [compute_transformation_matrix_to_matsubara] carries one of nine
    messages, and every exception that leaves [compute_Tbar_ol] one of six;
    in particular neither raises the range error of [check_range] nor the
    zero-frequency error of the tail formula. *)
Theorem matsubara_error_catalogue
        (NDEBUG : bool) (pi : Q) (sqrt : Q -> Q) (rpow : Q -> Q -> Q) (cexp : C -> C)
        (v : list Z) (statis : statistics_type) (bf_src : list piecewise_polynomial)
        (T : cmatrix) (w : string) :
  (Matsubara.compute_transformation_matrix_to_matsubara
     NDEBUG pi sqrt rpow cexp v statis bf_src T = Throw w ->
   In w [n_order_msg; n_negative_msg; num_tail_msg; o_order_msg; invalid_msg;
         same_order_msg; unit_interval_msg; w_order_msg; overlap_msg])
  /\ (Matsubara.compute_Tbar_ol NDEBUG pi sqrt cexp v bf_src T = Throw w ->
      In w [o_order_msg; invalid_msg; same_order_msg; unit_interval_msg;
            w_order_msg; overlap_msg]).
Proof.
  split; intro H.
  - assert (G : In w (n_order_msg :: o_order_msg :: n_negative_msg :: num_tail_msg
                        :: Tbar_other_msgs)).
    { apply (throws_in_matsubara_after_check NDEBUG pi sqrt rpow cexp _ v statis bf_src T);
        [apply incl_tl; apply incl_refl | right; right; simpl; tauto | exact H]. }
    simpl in G. simpl. tauto.
  - assert (G : In w (o_order_msg :: Tbar_other_msgs)).
    { apply (throws_in_compute_Tbar_ol_after_check NDEBUG pi sqrt cexp
               (o_order_msg :: Tbar_other_msgs) ltac:(simpl; tauto) v bf_src T);
        first [exact H | simpl; tauto]. }
    simpl in G. simpl. tauto.
Qed.

(** ** [find_zeros]: the bisection of a sign change *)






Lemma midpoint_between_le (a b : Q) :
  (a <= b)%Q -> (a <= (a + b) / 2)%Q /\ ((a + b) / 2 <= b)%Q.
Proof.
  intro H. setoid_replace ((a + b) / 2)%Q with ((a + b) * (1 # 2))%Q by field.
  split; lra.
Qed.

(** What the loop [while (x_right - x_left > delta)] leaves when it is
    entered at [[a, b]] with [p_left]: the loop test fails on
    [[x_left, x_right]]; the left end is [a] or a midpoint at which the test
    [p_left * p(x_mid) > 0] held, the right end is [b] or a midpoint at
    which it failed; and the ends stay between [a] and [b]. *)
Definition bracket (NDEBUG : bool) (p : piecewise_polynomial)
           (p_left delta a b x_left x_right : Q) : Prop :=
  ~ (delta < x_right - x_left)%Q
  /\ (x_left = a
      \/ exists v, PP.compute_value NDEBUG p x_left = Ok v /\ (0 < p_left * v)%Q)
  /\ (x_right = b
      \/ exists v, PP.compute_value NDEBUG p x_right = Ok v /\ ~ (0 < p_left * v)%Q)
  /\ ((a <= b)%Q -> (a <= x_left)%Q /\ (x_left <= x_right)%Q /\ (x_right <= b)%Q).

Lemma bisect_Ok_inv (NDEBUG : bool) (p : piecewise_polynomial) (p_left delta : Q) :
  forall (fuel : nat) (a b x_left x_right : Q),
    bisect NDEBUG fuel p p_left delta a b = Some (Ok (x_left, x_right)) ->
    bracket NDEBUG p p_left delta a b x_left x_right.
Proof.
  induction fuel as [| fuel IH]; intros a b xl xr H; cbn [bisect] in H;
    destruct (Qlt_bool delta (b - a)) eqn:Ec; try discriminate.
  1, 3: injection H as <- <-; apply Qlt_bool_false_iff in Ec;
    (split; [now apply Qle_not_lt |]);
    (split; [now left |]); (split; [now left |]);
    intro Hab; split; [apply Qle_refl | split; [exact Hab | apply Qle_refl]].
  cbv zeta in H.
  destruct (PP.compute_value NDEBUG p ((a + b) / 2)) as [v | w |] eqn:Ev;
    try discriminate.
  destruct (Qlt_bool 0 (p_left * v)) eqn:Es.
  - apply Qlt_bool_iff in Es. apply IH in H.
    destruct H as (Hd & Hl & Hr & Hin).
    split; [exact Hd |]. split; [| split].
    + right. destruct Hl as [-> | Hl]; [exists v; now split | exact Hl].
    + exact Hr.
    + intro Hab. destruct (midpoint_between_le a b Hab) as [M1 M2].
      destruct (Hin M2) as (I1 & I2 & I3).
      split; [exact (Qle_trans _ _ _ M1 I1) | split; assumption].
  - apply Qlt_bool_false_iff in Es. apply IH in H.
    destruct H as (Hd & Hl & Hr & Hin).
    split; [exact Hd |]. split; [| split].
    + exact Hl.
    + right. destruct Hr as [-> | Hr]; [| exact Hr].
      exists v. split; [exact Ev | now apply Qle_not_lt].
    + intro Hab. destruct (midpoint_between_le a b Hab) as [M1 M2].
      destruct (Hin M1) as (I1 & I2 & I3).
      split; [exact I1 | split; [exact I2 | exact (Qle_trans _ _ _ I3 M2)]].
Qed.

(** The test [p(x_vec[i]) * p(x_vec[i+1]) < 0] of [find_zeros]. *)
Definition sign_change (NDEBUG : bool) (p : piecewise_polynomial) (x_vec : list Q)
           (i : Z) : bool :=
  match at_ x_vec i, at_ x_vec (i + 1) with
  | Ok a, Ok b =>
      match PP.compute_value NDEBUG p a, PP.compute_value NDEBUG p b with
      | Ok va, Ok vb => Qlt_bool (va * vb) 0
      | _, _ => false
      end
  | _, _ => false
  end.

(** A zero as [find_zeros] reports it for the samples [a], [b]: the
    product of the values at [a] and [b] is negative, and [z] is the
    midpoint of the bracket that the bisection leaves when it is entered
    at [[a, b]] with the value at [a]. *)
Definition located_zero (NDEBUG : bool) (p : piecewise_polynomial) (delta a b z : Q)
  : Prop :=
  exists va vb x_left x_right,
    PP.compute_value NDEBUG p a = Ok va
    /\ PP.compute_value NDEBUG p b = Ok vb
    /\ (va * vb < 0)%Q
    /\ bracket NDEBUG p va delta a b x_left x_right
    /\ z = ((x_left + x_right) / 2)%Q.

(** [i, i + 1, ..., i + n - 1] *)
Fixpoint Zrange (i : Z) (n : nat) : list Z :=
  match n with
  | O => []
  | S n' => i :: Zrange (i + 1) n'
  end.

Lemma Zrange_map (n : nat) :
  forall i, Zrange i n = map (fun j => (i + Z.of_nat j)%Z) (seq 0 n).
Proof.
  induction n as [| n IH]; intro i; [reflexivity |].
  cbn [Zrange seq map]. f_equal; [lia |].
  rewrite IH, <- seq_shift, map_map. apply map_ext. intro j. lia.
Qed.

Lemma Zrange_seqZ (n : Z) : Zrange 0 (Z.to_nat n) = seqZ n.
Proof. rewrite Zrange_map. unfold seqZ. apply map_ext. intro j. lia. Qed.

Lemma find_zeros_loop_Ok_inv (NDEBUG : bool) (p : piecewise_polynomial) (delta : Q)
      (x_vec : list Q) (fuel : nat) :
  forall (n : nat) (i : Z) (zeros zeros' : list Q),
    find_zeros_loop NDEBUG fuel n i p delta x_vec zeros = Some (Ok zeros') ->
    exists found : list (Z * Q),
      zeros' = zeros ++ map snd found
      /\ map fst found = filter (sign_change NDEBUG p x_vec) (Zrange i n)
      /\ Forall (fun iz =>
                   exists a b,
                     at_ x_vec (fst iz) = Ok a /\ at_ x_vec (fst iz + 1) = Ok b
                     /\ located_zero NDEBUG p delta a b (snd iz))
                found.
Proof.
  induction n as [| n IH]; intros i zeros zeros' H; cbn [find_zeros_loop] in H.
  - injection H as <-. exists []. cbn. rewrite app_nil_r. repeat split. constructor.
  - cbn [Zrange filter]. unfold sign_change at 1.
    destruct (at_ x_vec i) as [a | w |] eqn:Ea; cbn [bind] in H; try discriminate.
    destruct (PP.compute_value NDEBUG p a) as [va | w |] eqn:Eva; cbn [bind] in H;
      try discriminate.
    destruct (at_ x_vec (i + 1)) as [b | w |] eqn:Eb; cbn [bind] in H; try discriminate.
    destruct (PP.compute_value NDEBUG p b) as [vb | w |] eqn:Evb; cbn [bind] in H;
      try discriminate.
    destruct (Qlt_bool (va * vb) 0) eqn:Es.
    + destruct (bisect NDEBUG fuel p va delta a b) as [[[xl xr] | w |] |] eqn:Ebis;
        try discriminate.
      apply IH in H. destruct H as (found & -> & Hidx & Hall).
      exists ((i, ((xl + xr) / 2)%Q) :: found).
      split; [cbn [map snd]; now rewrite <- app_assoc |].
      split; [cbn [map fst]; now rewrite Hidx |].
      constructor; [| exact Hall].
      exists a, b. cbn [fst snd]. split; [exact Ea |]. split; [exact Eb |].
      exists va, vb, xl, xr. split; [exact Eva |]. split; [exact Evb |].
      split; [now apply Qlt_bool_iff |].
      split; [exact (bisect_Ok_inv NDEBUG p va delta fuel a b xl xr Ebis) | reflexivity].
    + apply IH in H. exact H.
Qed.

(** X24: when [find_zeros] returns, it has reported exactly one zero for
    each index [i] at which the values of [p] at the adjacent samples
    [x_vec[i]], [x_vec[i+1]] have a negative product, in the order of the
    samples.  The zero reported for [i] is the midpoint of the bracket
    [[x_left, x_right]] left by the bisection: the loop test
    [x_right - x_left > delta] fails on it, its left end is [x_vec[i]] or a
    midpoint at which [p_left * p(x_mid) > 0] held, its right end is
    [x_vec[i+1]] or a midpoint at which that test failed, and it lies
    between the two samples when they are in order. *)
Theorem find_zeros_brackets
        (NDEBUG : bool) (pi : Q) (tanh sinh : Q -> Q) (fuel : nat)
        (p : piecewise_polynomial) (delta : Q) (zeros : list Q) :
  find_zeros NDEBUG pi tanh sinh fuel p delta = Some (Ok zeros) ->
  exists found : list (Z * Q),
    zeros = map snd found
    /\ map fst found
       = filter (sign_change NDEBUG p (find_zeros_samples pi tanh sinh)) (seqZ 9999)
    /\ Forall (fun iz =>
                 exists a b,
                   at_ (find_zeros_samples pi tanh sinh) (fst iz) = Ok a
                   /\ at_ (find_zeros_samples pi tanh sinh) (fst iz + 1) = Ok b
                   /\ located_zero NDEBUG p delta a b (snd iz))
              found.
Proof.
  intro H. unfold find_zeros in H. cbv zeta in H.
  replace (10000 - 1)%Z with 9999%Z in H by reflexivity.
  apply find_zeros_loop_Ok_inv in H. destruct H as (found & -> & Hidx & Hall).
  rewrite (Zrange_seqZ 9999) in Hidx.
  exists found. split; [reflexivity |]. split; [exact Hidx | exact Hall].
Qed.

(** The zero of [x - 1/2] found with tolerance 1e-5 on the samples
    [i / 9999]. *)
Definition zeros_half : list Q :=
  [1288776545983361031811236556845779836212793344
   # 2577569203385385088581772679727411553935949824]%Q.

Lemma find_zeros_brackets_witness :
  exists found : list (Z * Q),
    zeros_half = map snd found
    /\ map fst found
       = filter (sign_change false pp_half
                   (find_zeros_samples (2 # 3) (fun t => t) (fun t => t)))
                (seqZ 9999)
    /\ Forall (fun iz =>
                 exists a b,
                   at_ (find_zeros_samples (2 # 3) (fun t => t) (fun t => t)) (fst iz)
                   = Ok a
                   /\ at_ (find_zeros_samples (2 # 3) (fun t => t) (fun t => t))
                          (fst iz + 1) = Ok b
                   /\ located_zero false pp_half (1 # 100000) a b (snd iz))
              found.
Proof.
  apply (find_zeros_brackets false (2 # 3) (fun t => t) (fun t => t) 20 pp_half
           (1 # 100000) zeros_half).
  vm_compute. reflexivity.
Defined.

(** One zero is reported, within 1e-5 of 1/2. *)
Lemma find_zeros_half :
  exists z, zeros_half = [z] /\ (Qabs (z - (1 # 2)) <= 1 # 100000)%Q.
Proof. eexists. split; [reflexivity |]. vm_compute. discriminate. Qed.



(** ** The refinement step [u] of the generator *)

Lemma In_insert_sorted (x y : Q) (l : list Q) :
  In y (insert_sorted x l) <-> y = x \/ In y l.
Proof.
  induction l as [| h t IH]; cbn [insert_sorted].
  - cbn. intuition congruence.
  - destruct (Qlt_bool h x); cbn [In]; [rewrite IH |]; intuition congruence.
Qed.

Lemma In_sort (y : Q) (l : list Q) : In y (sort l) <-> In y l.
Proof.
  induction l as [| h t IH]; [reflexivity |].
  cbn [sort fold_right]. fold (sort t). rewrite In_insert_sorted, IH.
  cbn [In]. intuition congruence.
Qed.

(** No entry is greater than its successor. *)
Definition sorted (l : list Q) : bool := no_descent (fun a b => Qlt_bool b a) l.

Lemma sorted_cons (a b : Q) (t : list Q) :
  sorted (a :: b :: t) = true <-> (a <= b)%Q /\ sorted (b :: t) = true.
Proof.
  change (sorted (a :: b :: t)) with (negb (Qlt_bool b a) && sorted (b :: t)).
  rewrite andb_true_iff, negb_true_iff, Qlt_bool_false_iff. reflexivity.
Qed.

Lemma insert_sorted_sorted (x : Q) (l : list Q) :
  sorted l = true -> sorted (insert_sorted x l) = true.
Proof.
  induction l as [| h t IH]; intro Hl; [reflexivity |].
  cbn [insert_sorted]. destruct (Qlt_bool h x) eqn:E.
  - apply Qlt_bool_iff in E. destruct t as [| b t'].
    + cbn [insert_sorted]. apply sorted_cons. split; [now apply Qlt_le_weak | reflexivity].
    + apply sorted_cons in Hl. destruct Hl as [Hhb Ht]. specialize (IH Ht).
      cbn [insert_sorted] in *.
      destruct (Qlt_bool b x); apply sorted_cons; split;
        [exact Hhb | exact IH | now apply Qlt_le_weak | exact IH].
  - apply Qlt_bool_false_iff in E. apply sorted_cons. split; [exact E | exact Hl].
Qed.

Lemma sort_sorted (l : list Q) : sorted (sort l) = true.
Proof.
  induction l as [| a t IH]; [reflexivity |].
  cbn [sort fold_right]. fold (sort t). now apply insert_sorted_sorted.
Qed.

(** A midpoint added by [u]: the middle of section [s], whose residual
    exceeds [eps]. *)
Definition split_point (edges residual : list Q) (eps x : Q) : Prop :=
  exists s r,
    (0 <= s < size edges - 1)%Z
    /\ x = ((edge edges (Z.to_nat s) + edge edges (Z.to_nat (s + 1))) / 2)%Q
    /\ at_ residual s = Ok r /\ (eps < r)%Q.

(** X26: on a non-empty vector of edges with a residual for each section,
    the lambda [u] of [generate_ir_basis_functions] returns a vector in
    which no entry is greater than its successor.  Its entries are the old
    edges and the midpoints [(S[s] + S[s+1]) / 2] of the sections whose
    residual exceeds [eps], and it has one entry more than the old vector
    for each such section. *)
Theorem u_refines_partition (edges residual : list Q) (eps : Q) :
  (1 <= size edges)%Z ->
  (size edges - 1 <= size residual)%Z ->
  exists new,
    Generator.u edges residual eps = Ok new
    /\ sorted new = true
    /\ (forall x, In x new <-> In x edges \/ split_point edges residual eps x)
    /\ size new
       = (size edges
          + Z.of_nat (length (filter (Qlt_bool eps)
                                     (firstn (Z.to_nat (size edges - 1)) residual))))%Z.
Proof.
  intros Hn Hres. unfold Generator.u, for_adjacent.
  replace (size edges =? 0)%Z with false by (symmetry; apply Z.eqb_neq; lia).
  set (mid := fun s => ((edge edges (Z.to_nat s) + edge edges (Z.to_nat (s + 1))) / 2)%Q).
  destruct (for_range_total
              (fun s new =>
                 exists mids,
                   new = edges ++ mids
                   /\ length mids
                      = length (filter (Qlt_bool eps) (firstn (Z.to_nat s) residual))
                   /\ (forall x, In x mids <->
                                 exists s' r, (0 <= s' < s)%Z /\ x = mid s'
                                              /\ at_ residual s' = Ok r /\ (eps < r)%Q))
              (fun s new =>
                 r <- at_ residual s ;;
                 if Qlt_bool eps r
                 then
                   lo <- at_ edges s ;;
                   hi <- at_ edges (s + 1) ;;
                   Ok (new ++ [((lo + hi) / 2)%Q])
                 else Ok new)
              (size edges - 1) edges ltac:(lia)) as (new0 & E0 & mids & -> & Lm & Hm).
  - intros s new Hs (mids & -> & Lm & Hm).
    assert (Er : at_ residual s = Ok (nth (Z.to_nat s) residual 0%Q))
      by (apply at_in_range; lia).
    rewrite Er. cbn [bind].
    replace (Z.to_nat (s + 1)) with (S (Z.to_nat s)) by lia.
    rewrite (firstn_succ_nth residual (Z.to_nat s) 0%Q) by (unfold size in *; lia).
    rewrite filter_app, length_app. cbn [filter].
    destruct (Qlt_bool eps (nth (Z.to_nat s) residual 0%Q)) eqn:Ec.
    + rewrite (edge_at edges s) by lia. cbn [bind].
      rewrite (edge_at edges (s + 1)) by lia. cbn [bind].
      eexists. split; [reflexivity |].
      exists (mids ++ [mid s]). split; [unfold mid; now rewrite app_assoc |].
      split; [rewrite length_app; cbn [length]; lia |].
      intro x. rewrite in_app_iff, Hm. cbn [In]. split.
      * intros [(s' & r & Hs' & Hx & Hr & Hlt) | [<- | []]].
        -- exists s', r. repeat split; try assumption; lia.
        -- exists s, (nth (Z.to_nat s) residual 0%Q).
           split; [lia |]. split; [reflexivity |]. split; [exact Er |].
           now apply Qlt_bool_iff.
      * intros (s' & r & Hs' & Hx & Hr & Hlt).
        destruct (Z.eq_dec s' s) as [-> | Hne].
        -- right. left. symmetry. exact Hx.
        -- left. exists s', r. repeat split; try assumption; lia.
    + eexists. split; [reflexivity |]. exists mids.
      split; [reflexivity |]. split; [cbn [length]; lia |].
      intro x. rewrite Hm. split.
      * intros (s' & r & Hs' & Hx & Hr & Hlt). exists s', r.
        repeat split; try assumption; lia.
      * intros (s' & r & Hs' & Hx & Hr & Hlt).
        destruct (Z.eq_dec s' s) as [-> | Hne].
        -- exfalso. rewrite Er in Hr. injection Hr as <-.
           apply Qlt_bool_iff in Hlt. congruence.
        -- exists s', r. repeat split; try assumption; lia.
  - exists []. split; [now rewrite app_nil_r |]. split; [reflexivity |].
    intro x. split; [intros [] |]. intros (s' & r & Hs' & _). lia.
  - rewrite E0. cbn [bind]. eexists. split; [reflexivity |].
    split; [apply sort_sorted |]. split.
    + intro x. rewrite In_sort, in_app_iff, Hm. unfold split_point, mid. reflexivity.
    + unfold size in *. rewrite sort_length, length_app, Lm. lia.
Qed.

Lemma u_refines_partition_witness :
  exists new,
    Generator.u [0; 1 # 2; 1]%Q [2; 0]%Q 1 = Ok new
    /\ sorted new = true
    /\ (forall x, In x new <->
                  In x [0; 1 # 2; 1]%Q \/ split_point [0; 1 # 2; 1]%Q [2; 0]%Q 1 x)
    /\ size new
       = (size [0; 1 # 2; 1]%Q
          + Z.of_nat (length (filter (Qlt_bool 1)
                                     (firstn (Z.to_nat (size [0; 1 # 2; 1]%Q - 1))
                                             [2; 0]%Q))))%Z.
Proof.
  apply (u_refines_partition [0; 1 # 2; 1]%Q [2; 0]%Q 1).
  - unfold size. cbn [length]. lia.
  - unfold size. cbn [length]. lia.
Defined.

(** ** [compute_integral_with_exp] returns *)

Lemma set_at_total {A : Type} (v : list A) (i : Z) (x : A) :
  (0 <= i < size v)%Z -> exists v', set_at v i x = Ok v' /\ length v' = length v.
Proof.
  intro Hi. unfold set_at.
  replace (i <? 0)%Z with false by (symmetry; apply Z.ltb_ge; lia).
  assert (Hn : (Z.to_nat i < length v)%nat) by (unfold size in Hi; lia).
  generalize dependent (Z.to_nat i). clear Hi i.
  induction v as [| h t IH]; intros n Hn; [cbn [length] in Hn; lia |].
  destruct n as [| n]; cbn [replace_nth].
  - eexists. split; reflexivity.
  - destruct (IH n ltac:(cbn [length] in Hn; lia)) as (t' & Et & Lt).
    destruct (replace_nth t n x) as [t'' |]; [| discriminate].
    injection Et as <-. eexists. split; [reflexivity |]. cbn [length]. now rewrite Lt.
Qed.

Lemma for_range_total_from {T : Type} (I : Z -> T -> Prop) (body : Z -> T -> outcome T)
      (lo hi : Z) (s : T) :
  (lo <= hi)%Z ->
  (forall i s, (lo <= i < hi)%Z -> I i s ->
               exists s', body i s = Ok s' /\ I (i + 1)%Z s') ->
  I lo s ->
  exists s', for_range lo hi body s = Ok s' /\ I hi s'.
Proof.
  intros Hn Hb Hs. unfold for_range.
  destruct (for_loop_total I body (Z.to_nat (hi - lo)) lo s) as (s' & E & H').
  - intros i s0 Hi. apply Hb. lia.
  - exact Hs.
  - exists s'. split; [exact E |].
    now replace (lo + Z.of_nat (Z.to_nat (hi - lo)))%Z with hi in H' by lia.
Qed.

Lemma mapM_total {A B : Type} (f : A -> outcome B) (P : B -> Prop) :
  forall l : list A,
    (forall a, In a l -> exists b, f a = Ok b /\ P b) ->
    exists bs, mapM f l = Ok bs /\ length bs = length l /\ Forall P bs.
Proof.
  induction l as [| a l IH]; intro H; cbn [mapM].
  - exists []. split; [reflexivity |]. split; [reflexivity | constructor].
  - destruct (H a ltac:(now left)) as (b & Eb & Pb). rewrite Eb. cbn [bind].
    destruct (IH ltac:(intros c Hc; apply H; now right)) as (bs & Ebs & Lbs & Pbs).
    rewrite Ebs. cbn [bind]. exists (b :: bs).
    split; [reflexivity |]. split; [cbn [length]; now rewrite Lbs | now constructor].
Qed.

Lemma at_total {A : Type} (P : A -> Prop) (v : list A) (i : Z) :
  Forall P v -> (0 <= i < size v)%Z -> exists a, at_ v i = Ok a /\ P a.
Proof.
  intros HP Hi. destruct v as [| d t] eqn:Ev; [unfold size in Hi; cbn in Hi; lia |].
  rewrite <- Ev in *. exists (nth (Z.to_nat i) v d).
  split; [now apply at_in_range |].
  rewrite Forall_forall in HP. apply HP. apply nth_In. unfold size in Hi. lia.
Qed.

Lemma length_cmat_zero (r c : Z) :
  length (cmat_zero r c) = Z.to_nat r
  /\ Forall (fun row => length row = Z.to_nat c) (cmat_zero r c).
Proof.
  unfold cmat_zero. split; [apply repeat_length |].
  apply Forall_forall. intros row Hr. apply repeat_spec in Hr. subst row.
  apply repeat_length.
Qed.

Section IntegralWithExp.

Variable NDEBUG : bool.
Variable pi : Q.
Variable cexp : C -> C.

(** The table [pre_factor] and the tensor [coeffs] are filled without an
    access out of range. *)
Lemma construct_exp_functions_coeff_returns (w edges : list Q) (k : Z) :
  (0 <= k)%Z -> (1 <= size edges)%Z ->
  exists c,
    Matsubara.construct_exp_functions_coeff cexp w edges k = Ok c
    /\ length c = length w
    /\ Forall (fun en => length en = Z.to_nat (size edges - 1)
                         /\ Forall (fun es : list C => length es = Z.to_nat (k + 1)) en)
              c.
Proof.
  intros Hk He. unfold Matsubara.construct_exp_functions_coeff. cbv zeta.
  destruct (set_at_total (repeat 0%Q (Z.to_nat (k + 1))) 0 1%Q) as (pf0 & E0 & L0).
  { unfold size. rewrite repeat_length. lia. }
  rewrite E0. cbn [bind]. rewrite repeat_length in L0.
  destruct (for_range_total_from
              (fun _ (pf : list Q) => length pf = Z.to_nat (k + 1))
              (fun j pf => prev <- at_ pf (j - 1) ;; set_at pf j (prev / inject_Z j)%Q)
              1 (k + 1) pf0 ltac:(lia)) as (pf & E1 & L1).
  { intros j v Hj Lv.
    rewrite (at_in_range v (j - 1) 0%Q) by (unfold size; lia). cbn [bind].
    destruct (set_at_total v j (nth (Z.to_nat (j - 1)) v 0 / inject_Z j)%Q)
      as (v' & Ev & Lv'); [unfold size; lia |].
    exists v'. split; [exact Ev | congruence]. }
  { exact L0. }
  rewrite E1. cbn [bind].
  apply mapM_total. intros wn _.
  destruct (mapM_total
              (fun section =>
                 x <- at_ edges section ;;
                 st <- for_range 0 (k + 1)
                         (fun j (st : list C * C) =>
                            let (row, z_power) := st in
                            pf' <- at_ pf j ;;
                            Ok (row ++ [Cmul_real (Cmul (cexp (Cmul_real (0%Q, wn) (x + 1)%Q))
                                                        z_power) pf'],
                                Cmul z_power (0%Q, wn)))
                         ([], C_of_real 1) ;;
                 Ok (fst st))
              (fun es : list C => length es = Z.to_nat (k + 1))
              (seqZ (size edges - 1))) as (en & Een & Len & Pen).
  { intros section Hs. apply In_seqZ in Hs.
    rewrite (at_in_range edges section 0%Q) by lia. cbn [bind].
    destruct (for_range_total
                (fun j (st : list C * C) => length (fst st) = Z.to_nat j)
                (fun j (st : list C * C) =>
                   let (row, z_power) := st in
                   pf' <- at_ pf j ;;
                   Ok (row ++ [Cmul_real
                                 (Cmul (cexp (Cmul_real (0%Q, wn)
                                                (nth (Z.to_nat section) edges 0 + 1)%Q))
                                       z_power) pf'],
                       Cmul z_power (0%Q, wn)))
                (k + 1) ([], C_of_real 1) ltac:(lia)) as (st & Est & Lst).
    { intros j [row zp] Hj Lr. cbn [fst] in Lr.
      rewrite (at_in_range pf j 0%Q) by (unfold size; lia). cbn [bind].
      eexists. split; [reflexivity |]. cbn [fst].
      rewrite length_app. cbn [length]. lia. }
    { reflexivity. }
    rewrite Est. cbn [bind]. eexists. split; [reflexivity | exact Lst]. }
  exists en. split; [exact Een |]. split; [| exact Pen].
  rewrite Len, length_seqZ. reflexivity.
Qed.

(** [compute_Ik] fills [Ik[0 .. K]] of a vector of [K + 1] entries. *)
Lemma compute_Ik_returns (x0 dx w : Q) (K : Z) (Ik : list C) :
  (0 <= K)%Z -> length Ik = Z.to_nat (K + 1) ->
  exists Ik', Matsubara.compute_Ik cexp x0 dx w K Ik = Ok Ik' /\ length Ik' = length Ik.
Proof.
  intros HK L. unfold Matsubara.compute_Ik. cbv zeta.
  match goal with
  | |- context [set_at Ik 0 ?x] =>
      destruct (set_at_total Ik 0 x) as (Ik0 & E0 & L0); [unfold size; lia |]
  end.
  rewrite E0. cbn [bind].
  match goal with
  | |- context [for_range 1 (K + 1) ?b (Ik0, dx)] =>
      destruct (for_range_total_from
                  (fun _ (st : list C * Q) => length (fst st) = length Ik)
                  b 1 (K + 1) (Ik0, dx) ltac:(lia)) as (st & Est & Lst)
  end.
  - intros k [v dxk] Hk Lv. cbn [fst] in Lv.
    rewrite (at_in_range v (k - 1) (0%Q, 0%Q)) by (unfold size; lia). cbn [bind].
    match goal with
    | |- context [set_at v k ?x] =>
        destruct (set_at_total v k x) as (v' & Ev & Lv'); [unfold size; lia |]
    end.
    rewrite Ev. cbn [bind]. eexists. split; [reflexivity |]. cbn [fst]. congruence.
  - exact L0.
  - rewrite Est. cbn [bind]. eexists. split; [reflexivity | exact Lst].
Qed.

(** A basis function as [compute_integral_with_exp] needs it: well-formed,
    of the order of the first one and over its section edges. *)
Definition like_first (p0 pl : piecewise_polynomial) : Prop :=
  well_formed pl /\ k_ pl = k_ p0 /\ section_edges_ pl = section_edges_ p0.

Lemma like_first_sections (p0 pl : piecewise_polynomial) :
  well_formed p0 -> like_first p0 pl -> n_sections_ pl = n_sections_ p0.
Proof.
  intros W0 (Wl & _ & El).
  destruct (well_formed_edges p0 W0) as (_ & L0 & _).
  destruct (well_formed_edges pl Wl) as (_ & Ll & _).
  rewrite El in Ll. lia.
Qed.

(** Every access of [compute_integral_with_exp] is in range for basis
    functions like the first one. *)
Lemma compute_integral_with_exp_total
      (w : list Q) (p0 : piecewise_polynomial) (rest : list piecewise_polynomial) :
  Forall (like_first p0) (p0 :: rest) ->
  (0 <= k_ p0)%Z ->
  (edge (section_edges_ p0) 0 == 0)%Q ->
  (edge (section_edges_ p0) (Z.to_nat (n_sections_ p0)) == 1)%Q ->
  w <> [] ->
  no_descent (fun a b => Qlt_bool b a) w = true ->
  exists T,
    Matsubara.compute_integral_with_exp NDEBUG pi cexp w (p0 :: rest) = Ok T
    /\ size T = size w
    /\ Forall (fun row => size row = size (p0 :: rest)) T.
Proof.
  intros Hall Hk H0 H1 Hw Hord.
  assert (W0 : well_formed p0) by (exact (proj1 (Forall_inv Hall))).
  destruct (well_formed_edges p0 W0) as (Hn & Hlen & Hasc).
  assert (Hsw : (1 <= size w)%Z)
    by (destruct w; [congruence | unfold size; cbn [length]; lia]).
  set (pp_func := p0 :: rest) in *.
  assert (Hpp : (1 <= size pp_func)%Z) by (unfold size, pp_func; cbn [length]; lia).
  unfold Matsubara.compute_integral_with_exp. cbv zeta. unfold PP.order.
  change (at_ pp_func 0) with (Ok p0). cbn [bind].
  rewrite (num_sections_well_formed NDEBUG p0 W0). cbn [bind].
  (* the checks of the order and of the end points *)
  match goal with
  | |- context [for_range 0 (size pp_func) ?b tt] =>
      destruct (for_range_total (fun _ _ => True) b (size pp_func) tt)
        as ([] & E1 & _); [lia | | exact I |]
  end.
  { intros l [] Hl _. cbv beta.
    destruct (at_total (like_first p0) pp_func l Hall Hl) as (pl & Epl & Lpl).
    pose proof (like_first_sections p0 pl W0 Lpl) as Npl.
    destruct Lpl as (Wl & Kl & El).
    rewrite Epl. cbn [bind]. rewrite Kl, Z.eqb_refl. cbn [negb].
    rewrite (section_edge_well_formed NDEBUG pl 0 Wl) by lia. cbn [bind].
    rewrite El. change (Z.to_nat 0) with 0%nat.
    rewrite (proj2 (Qeq_bool_iff _ _) H0). cbn [negb].
    rewrite (section_edge_well_formed NDEBUG pl (n_sections_ p0) Wl) by lia.
    cbn [bind]. rewrite El, (proj2 (Qeq_bool_iff _ _) H1). cbn [negb].
    exists tt. split; [reflexivity | exact I]. }
  rewrite E1. cbn [bind].
  rewrite (check_order_no_descent (fun a b => Qlt_bool b a) _ w Hw), Hord. cbn [bind].
  rewrite (section_edges_well_formed NDEBUG p0 W0). cbn [bind].
  destruct (construct_exp_functions_coeff_returns w (section_edges_ p0) 16
              ltac:(lia) ltac:(unfold size; lia)) as (ec & Eec & Lec & Pec).
  rewrite Eec. cbn [bind].
  (* the loop over the sections *)
  match goal with
  | |- context [for_range 0 (n_sections_ p0) ?b ?r0] =>
      destruct (for_range_total
                  (fun _ (r : cmatrix) =>
                     length r = length w
                     /\ Forall (fun row : list C => length row = length pp_func) r)
                  b (n_sections_ p0) r0) as (T & ET & LT & PT); [lia | | |]
  end.
  - intros s r Hs (Lr & Pr). cbv beta.
    rewrite (section_edge_well_formed NDEBUG p0 s W0) by lia. cbn [bind].
    rewrite (section_edge_well_formed NDEBUG p0 (s + 1) W0) by lia. cbn [bind].
    set (x0 := edge (section_edges_ p0) (Z.to_nat s)).
    set (dx := (edge (section_edges_ p0) (Z.to_nat (s + 1)) - x0)%Q).
    destruct (set_at_total (repeat 0%Q (Z.to_nat (k_ p0 + 16 + 2))) 0 1%Q)
      as (v0 & Ev0 & _); [unfold size; rewrite repeat_length; lia |].
    pose proof (pow_table dx (k_ p0 + 16 + 2) ltac:(lia)) as Tab.
    rewrite Ev0 in Tab. cbn [bind] in Tab. rewrite Ev0. cbn [bind].
    rewrite Tab. cbn [bind].
    set (dxp := map (Qpow dx) (seq 0 (Z.to_nat (k_ p0 + 16 + 2)))).
    assert (Ldxp : length dxp = Z.to_nat (k_ p0 + 16 + 2))
      by (unfold dxp; now rewrite length_map, length_seq).
    match goal with
    | |- context [for_range 0 (size w) ?b (-1)%Z] =>
        destruct (for_range_total (fun i (nm : Z) => (-1 <= nm < i)%Z) b (size w) (-1)%Z)
          as (nmax & En & Hnm); [lia | | lia |]
    end.
    { intros i nm Hi Hnm. cbv beta.
      rewrite (at_in_range w i 0%Q) by lia. cbn [bind].
      eexists. split; [reflexivity |]. destruct (Qle_bool _ _); lia. }
    rewrite En. cbn [bind].
    match goal with
    | |- context [mapM ?f (seqZ (nmax + 1))] =>
        destruct (mapM_total f (fun row : list C => length row = Z.to_nat (k_ p0 + 1))
                    (seqZ (nmax + 1))) as (low & Elow & Llow & Plow)
    end.
    { intros n Hn'. apply In_seqZ in Hn'. cbv beta.
      match goal with
      | |- context [mapM ?g (seqZ (k_ p0 + 1))] =>
          destruct (mapM_total g (fun _ => True) (seqZ (k_ p0 + 1)))
            as (rw & Erw & Lrw & _)
      end.
      - intros p2 Hp2. apply In_seqZ in Hp2. cbv beta.
        match goal with
        | |- context [mapM ?h (seqZ (16 + 1))] =>
            destruct (mapM_total h (fun _ => True) (seqZ (16 + 1)))
              as (terms & Et & _ & _)
        end.
        + intros p Hp. apply In_seqZ in Hp. cbv beta.
          destruct (at_total _ ec n Pec) as (en & Een & Len & Pen);
            [unfold size in *; lia |].
          rewrite Een. cbn [bind].
          destruct (at_total _ en s Pen) as (es & Ees & Les); [unfold size in *; lia |].
          rewrite Ees. cbn [bind].
          rewrite (at_in_range es p (0%Q, 0%Q)) by (unfold size in *; lia). cbn [bind].
          rewrite (at_in_range dxp (p + p2 + 1) 0%Q) by (unfold size in *; lia).
          cbn [bind].
          eexists. split; [reflexivity | exact I].
        + rewrite Et. cbn [bind]. eexists. split; [reflexivity | exact I].
      - rewrite Erw. eexists. split; [reflexivity |]. now rewrite Lrw, length_seqZ. }
    rewrite Elow. cbn [bind]. rewrite length_seqZ in Llow.
    match goal with
    | |- context [for_range ?lo ?hi ?b (?Ik0, low)] =>
        destruct (for_range_total_from
                    (fun i (st : list C * cmatrix) =>
                       length (fst st) = Z.to_nat (k_ p0 + 1)
                       /\ length (snd st) = Z.to_nat i
                       /\ Forall (fun row : list C => length row = Z.to_nat (k_ p0 + 1))
                                 (snd st))
                    b lo hi (Ik0, low)) as ([Ik lm] & Est & LIk & Llm & Plm); [lia | | |]
    end.
    { intros n [Ik rows] Hn' (L1 & L2 & P2). cbn [fst snd] in *.
      rewrite (at_in_range w n 0%Q) by lia. cbn [bind].
      destruct (compute_Ik_returns x0 dx (nth (Z.to_nat n) w 0%Q) (k_ p0) Ik Hk L1)
        as (Ik' & EIk & LIk').
      rewrite EIk. cbn [bind]. eexists. split; [reflexivity |]. cbn [fst snd].
      split; [congruence |]. split; [rewrite length_app; cbn [length]; lia |].
      apply Forall_app. split; [exact P2 |]. constructor; [| constructor].
      rewrite length_firstn. lia. }
    { cbn [fst snd]. split; [apply repeat_length |]. split; [lia | exact Plow]. }
    cbn [fst snd] in LIk, Llm, Plm.
    rewrite Est. cbn [bind snd].
    match goal with
    | |- context [mapM ?f (seqZ (size pp_func))] =>
        destruct (mapM_total f (fun _ => True) (seqZ (size pp_func)))
          as (rm & Erm & Lrm & _)
    end.
    { intros l Hl. apply In_seqZ in Hl. cbv beta.
      destruct (at_total (like_first p0) pp_func l Hall Hl) as (pl & Epl & Lpl).
      pose proof (like_first_sections p0 pl W0 Lpl) as Npl.
      destruct Lpl as (Wl & Kl & El).
      rewrite Epl. cbn [bind].
      match goal with
      | |- context [mapM ?g (seqZ (k_ p0 + 1))] =>
          destruct (mapM_total g (fun _ => True) (seqZ (k_ p0 + 1)))
            as (cs & Ecs & _ & _)
      end.
      - intros p2 Hp2. apply In_seqZ in Hp2. cbv beta.
        rewrite (coefficient_row NDEBUG pl s p2 Wl) by lia.
        eexists. split; [reflexivity | exact I].
      - rewrite Ecs. eexists. split; [reflexivity | exact I]. }
    rewrite Erm. cbn [bind]. rewrite length_seqZ in Lrm.
    eexists. split; [reflexivity |]. split.
    + rewrite length_map, length_combine, Lr, Llm. unfold size in *. lia.
    + apply Forall_forall. intros row Hrow. apply in_map_iff in Hrow.
      destruct Hrow as ([r_row lm_row] & <- & Hin). apply in_combine_l in Hin.
      rewrite length_map, length_combine.
      rewrite Forall_forall in Pr. rewrite (Pr r_row Hin), Lrm.
      unfold size. lia.
  - destruct (length_cmat_zero (size w) (size pp_func)) as [A B].
    split; [rewrite A; unfold size; lia |].
    apply Forall_forall. intros row Hrow. rewrite Forall_forall in B.
    rewrite (B row Hrow). unfold size. lia.
  - exists T. split; [exact ET |]. split; [unfold size; now rewrite LT |].
    apply Forall_forall. intros row Hrow. rewrite Forall_forall in PT.
    unfold size. now rewrite (PT row Hrow).
Qed.

(** X27: [compute_integral_with_exp] returns, without an exception and
    without an access out of range, a matrix with one row per frequency and
    one column per basis function, when the frequencies are a non-empty
    vector in which no entry is greater than its successor and the basis
    functions are well-formed piecewise polynomials of one order [k >= 0]
    over one vector of section edges that starts at 0 and ends at 1. *)
Theorem compute_integral_with_exp_returns
        (w : list Q) (p0 : piecewise_polynomial) (rest : list piecewise_polynomial) :
  Forall (like_first p0) (p0 :: rest) ->
  (0 <= k_ p0)%Z ->
  (edge (section_edges_ p0) 0 == 0)%Q ->
  (edge (section_edges_ p0) (Z.to_nat (n_sections_ p0)) == 1)%Q ->
  w <> [] ->
  no_descent (fun a b => Qlt_bool b a) w = true ->
  exists T,
    Matsubara.compute_integral_with_exp NDEBUG pi cexp w (p0 :: rest) = Ok T
    /\ size T = size w
    /\ Forall (fun row => size row = size (p0 :: rest)) T.
Proof.
  intros Hall Hk H0 H1 Hw Hord.
  exact (compute_integral_with_exp_total w p0 rest Hall Hk H0 H1 Hw Hord).
Qed.

End IntegralWithExp.

Lemma compute_integral_with_exp_returns_witness :
  exists T,
    Matsubara.compute_integral_with_exp false 3 cexp_unit [1]%Q [pp_x] = Ok T
    /\ size T = size [1]%Q
    /\ Forall (fun row => size row = size [pp_x]) T.
Proof.
  apply (compute_integral_with_exp_returns false 3 cexp_unit [1]%Q pp_x []).
  - constructor; [| constructor].
    split; [split; reflexivity | split; reflexivity].
  - cbn [k_ pp_x]. lia.
  - reflexivity.
  - reflexivity.
  - discriminate.
  - reflexivity.
Defined.

(** ** [compute_Tbar_ol] returns *)

(** [T] has [R] rows of [Cn] entries. *)
Definition shape (R Cn : nat) (T : cmatrix) : Prop :=
  length T = R /\ Forall (fun row : list C => length row = Cn) T.

Lemma cmat_at_total (R Cn : nat) (T : cmatrix) (i l : Z) :
  shape R Cn T -> (0 <= i < Z.of_nat R)%Z -> (0 <= l < Z.of_nat Cn)%Z ->
  exists t, cmat_at T i l = Ok t.
Proof.
  intros [LT PT] Hi Hl. unfold cmat_at.
  destruct (at_total _ T i PT) as (row & Er & Lr); [unfold size; lia |].
  rewrite Er. cbn [bind]. exists (nth (Z.to_nat l) row (0%Q, 0%Q)).
  apply at_in_range. unfold size. lia.
Qed.

Lemma cmat_set_total (R Cn : nat) (T : cmatrix) (i l : Z) (x : C) :
  shape R Cn T -> (0 <= i < Z.of_nat R)%Z -> (0 <= l < Z.of_nat Cn)%Z ->
  exists T', cmat_set T i l x = Ok T' /\ shape R Cn T'.
Proof.
  intros [LT PT] Hi Hl. unfold cmat_set.
  destruct (at_total _ T i PT) as (row & Er & Lr); [unfold size; lia |].
  rewrite Er. cbn [bind].
  destruct (set_at_total row l x) as (row' & Erow & Lrow); [unfold size; lia |].
  rewrite Erow. cbn [bind].
  destruct (set_at_total T i row') as (T' & ET & LT'); [unfold size; lia |].
  exists T'. split; [exact ET |]. split; [congruence |].
  apply (set_at_Forall _ T i row' T' ET PT). congruence.
Qed.

Lemma vec_eqb_refl (v : list Q) : vec_eqb v v = true.
Proof.
  induction v as [| a t IH]; [reflexivity |].
  cbn [vec_eqb]. rewrite IH, andb_true_r. apply Qeq_bool_iff. reflexivity.
Qed.

(** Frequencies [pi/2 * o] do not descend when the [o] do not and
    [pi >= 0]. *)
Lemma frequencies_no_descent (pi : Q) (o_vec : list Z) :
  (0 <= pi)%Q -> no_descent Z.gtb o_vec = true ->
  no_descent (fun a b => Qlt_bool b a)
             (map (fun o => ((1 # 2) * pi * inject_Z o)%Q) o_vec) = true.
Proof.
  intros Hpi. induction o_vec as [| a [| b t] IH]; intro H; try reflexivity.
  change (negb (a >? b)%Z && no_descent Z.gtb (b :: t) = true) in H.
  apply andb_true_iff in H. destruct H as [Hab H].
  change (negb (Qlt_bool ((1 # 2) * pi * inject_Z b) ((1 # 2) * pi * inject_Z a))
          && no_descent (fun x y => Qlt_bool y x)
               (map (fun o => ((1 # 2) * pi * inject_Z o)%Q) (b :: t)) = true).
  apply andb_true_iff. split; [| exact (IH H)].
  apply negb_true_iff. apply Qlt_bool_false_iff.
  apply negb_true_iff in Hab. rewrite Z.gtb_ltb in Hab. apply Z.ltb_ge in Hab.
  rewrite Zle_Qle in Hab. nra.
Qed.

(** Every access of [compute_Tbar_ol] is in range for basis functions
    like the first one. *)
Lemma compute_Tbar_ol_total
      (NDEBUG : bool) (pi : Q) (sqrt : Q -> Q) (cexp : C -> C)
      (o_vec : list Z) (p0 : piecewise_polynomial) (rest : list piecewise_polynomial)
      (T0 : cmatrix) :
  Forall (like_first p0) (p0 :: rest) ->
  (0 <= k_ p0)%Z ->
  (edge (section_edges_ p0) 0 == 0)%Q ->
  (edge (section_edges_ p0) (Z.to_nat (n_sections_ p0)) == 1)%Q ->
  o_vec <> [] ->
  no_descent Z.gtb o_vec = true ->
  (0 <= pi)%Q ->
  exists T,
    Matsubara.compute_Tbar_ol NDEBUG pi sqrt cexp o_vec (p0 :: rest) T0 = Ok T
    /\ size T = size o_vec
    /\ Forall (fun row => size row = size (p0 :: rest)) T.
Proof.
  intros Hall Hk H0 H1 Ho Hord Hpi.
  assert (Hso : (1 <= size o_vec)%Z)
    by (destruct o_vec; [congruence | unfold size; cbn [length]; lia]).
  unfold Matsubara.compute_Tbar_ol. cbv zeta.
  replace (size o_vec =? 0)%Z with false by (symmetry; apply Z.eqb_neq; lia).
  rewrite (check_order_no_descent Z.gtb _ o_vec Ho), Hord. cbn [bind].
  set (w := map (fun o => ((1 # 2) * pi * inject_Z o)%Q) o_vec).
  assert (Lw : length w = length o_vec) by (unfold w; apply length_map).
  destruct (compute_integral_with_exp_total NDEBUG pi cexp w p0 rest Hall Hk H0 H1)
    as (raw & Eraw & Sraw & Praw).
  { intro E. apply Ho. destruct o_vec; [reflexivity | discriminate]. }
  { now apply frequencies_no_descent. }
  rewrite Eraw. cbn [bind].
  set (pp_func := p0 :: rest) in *.
  assert (Sh : shape (length o_vec) (length pp_func) raw).
  { split; [unfold size in Sraw; lia |].
    apply Forall_forall. intros row Hrow. rewrite Forall_forall in Praw.
    specialize (Praw row Hrow). unfold size in Praw. lia. }
  (* symmetrisation *)
  match goal with
  | |- context [for_range 0 (size pp_func) ?b raw] =>
      destruct (for_range_total
                  (fun _ T => shape (length o_vec) (length pp_func) T)
                  b (size pp_func) raw) as (T1 & E1 & S1);
        [unfold size; lia | | exact Sh |]
  end.
  { intros l T Hl ST. cbv beta.
    match goal with
    | |- context [for_range 0 (size o_vec) ?b T] =>
        apply (for_range_total
                 (fun _ T => shape (length o_vec) (length pp_func) T)
                 b (size o_vec) T); [lia | | exact ST]
    end.
    intros i T' Hi ST'. cbv beta.
    rewrite (at_in_range o_vec i 0%Z) by lia. cbn [bind].
    destruct (cmat_at_total _ _ T' i l ST') as [t Et]; [unfold size in *; lia.. |].
    rewrite Et. cbn [bind].
    apply cmat_set_total; [exact ST' | unfold size in *; lia..]. }
  rewrite E1. cbn [bind].
  (* the norms *)
  match goal with
  | |- context [mapM ?f (seqZ (size pp_func))] =>
      destruct (mapM_total f (fun _ => True) (seqZ (size pp_func)))
        as (inv_norm & Einv & Linv & _)
  end.
  { intros l Hl. apply In_seqZ in Hl. cbv beta.
    destruct (at_total (like_first p0) pp_func l Hall Hl) as (pl & Epl & Wl & Kl & El).
    rewrite Epl. cbn [bind].
    destruct (overlap_spec NDEBUG pl pl Wl Wl (vec_eqb_refl _)
                ltac:(lia) ltac:(lia)) as (ov & Eov & _).
    rewrite Eov. cbn [bind]. eexists. split; [reflexivity | exact I]. }
  rewrite Einv. cbn [bind]. rewrite length_seqZ in Linv.
  (* normalisation *)
  match goal with
  | |- context [for_range 0 (size w) ?b T1] =>
      destruct (for_range_total
                  (fun _ T => shape (length o_vec) (length pp_func) T)
                  b (size w) T1) as (T2 & E2 & [L2 P2]);
        [unfold size; lia | | exact S1 |]
  end.
  { intros n T Hn ST. cbv beta.
    match goal with
    | |- context [for_range 0 (size pp_func) ?b T] =>
        apply (for_range_total
                 (fun _ T => shape (length o_vec) (length pp_func) T)
                 b (size pp_func) T); [unfold size; lia | | exact ST]
    end.
    intros l T' Hl ST'. cbv beta.
    destruct (cmat_at_total _ _ T' n l ST') as [t Et]; [unfold size in *; lia.. |].
    rewrite Et. cbn [bind].
    rewrite (at_in_range inv_norm l 0%Q) by (unfold size in *; lia). cbn [bind].
    apply cmat_set_total; [exact ST' | unfold size in *; lia..]. }
  exists T2. split; [exact E2 |]. split; [unfold size; now rewrite L2 |].
  apply Forall_forall. intros row Hrow. rewrite Forall_forall in P2.
  unfold size. now rewrite (P2 row Hrow).
Qed.

(** X28: [compute_Tbar_ol] returns, without an exception and without an
    access out of range, a matrix with one row per entry of [o_vec] and one
    column per basis function, when [o_vec] is non-empty with no entry
    greater than its successor and the basis functions are well-formed
    piecewise polynomials of one order [k >= 0] over one vector of section
    edges that starts at 0 and ends at 1 (and the constant [pi] is not
    negative). *)
Theorem compute_Tbar_ol_returns
        (NDEBUG : bool) (pi : Q) (sqrt : Q -> Q) (cexp : C -> C)
        (o_vec : list Z) (p0 : piecewise_polynomial) (rest : list piecewise_polynomial)
        (T0 : cmatrix) :
  Forall (like_first p0) (p0 :: rest) ->
  (0 <= k_ p0)%Z ->
  (edge (section_edges_ p0) 0 == 0)%Q ->
  (edge (section_edges_ p0) (Z.to_nat (n_sections_ p0)) == 1)%Q ->
  o_vec <> [] ->
  no_descent Z.gtb o_vec = true ->
  (0 <= pi)%Q ->
  exists T,
    Matsubara.compute_Tbar_ol NDEBUG pi sqrt cexp o_vec (p0 :: rest) T0 = Ok T
    /\ size T = size o_vec
    /\ Forall (fun row => size row = size (p0 :: rest)) T.
Proof.
  intros Hall Hk H0 H1 Ho Hord Hpi.
  exact (compute_Tbar_ol_total NDEBUG pi sqrt cexp o_vec p0 rest T0
           Hall Hk H0 H1 Ho Hord Hpi).
Qed.

Lemma compute_Tbar_ol_returns_witness :
  exists T,
    Matsubara.compute_Tbar_ol false 3 sqrt_exact cexp_unit [1; 2]%Z [pp_x] [] = Ok T
    /\ size T = size [1; 2]%Z
    /\ Forall (fun row => size row = size [pp_x]) T.
Proof.
  apply (compute_Tbar_ol_returns false 3 sqrt_exact cexp_unit [1; 2]%Z pp_x [] []).
  - constructor; [| constructor].
    split; [split; reflexivity | split; reflexivity].
  - cbn [k_ pp_x]. lia.
  - reflexivity.
  - reflexivity.
  - discriminate.
  - reflexivity.
  - discriminate.
Defined.

(** ** [compute_transformation_matrix_to_matsubara] returns *)

Lemma derivative_total (NDEBUG : bool) (p : piecewise_polynomial) (x : Q) (ord s : Z) :
  well_formed p -> (0 <= k_ p)%Z -> in_section p s x ->
  exists r, PP.derivative NDEBUG p x ord (-1) = Ok r.
Proof.
  intros W Hk Hin. unfold PP.derivative.
  rewrite (check_validity_dbg_well_formed NDEBUG p W). cbn [bind].
  change (0 <=? -1)%Z with false. cbv iota.
  rewrite (find_section_in_section NDEBUG p s x W Hin). cbn [bind].
  destruct Hin as (Hs & _).
  destruct (derivative_in_section NDEBUG p x ord s W Hk Hs) as (r & Er & _).
  exists r. exact Er.
Qed.

Lemma fold_left_max_bounds (hi : Z) (t : list Z) (h : Z) :
  (0 <= h <= hi)%Z -> Forall (fun c => (0 <= c <= hi)%Z) t ->
  (0 <= fold_left Z.max t h <= hi)%Z.
Proof.
  revert h. induction t as [| a t IH]; intros h Hh Ht; [exact Hh |].
  cbn [fold_left]. apply IH; [| exact (Forall_inv_tail Ht)].
  pose proof (Forall_inv Ht) as Ha. cbv beta in Ha. lia.
Qed.

Lemma no_descent_tail {A : Type} (gt : A -> A -> bool) (a : A) (t : list A) :
  no_descent gt (a :: t) = true -> no_descent gt t = true.
Proof.
  destruct t as [| b t]; [reflexivity |].
  change (negb (gt a b) && no_descent gt (b :: t) = true -> no_descent gt (b :: t) = true).
  intro H. apply andb_true_iff in H. exact (proj2 H).
Qed.

(** The odd or even frequencies [2 n + offset] of the first entries of
    [n_vec] do not descend when [n_vec] does not. *)
Lemma low_frequencies_no_descent (offset : Z) (n_vec : list Z) (m : nat) :
  no_descent Z.gtb n_vec = true ->
  no_descent Z.gtb (map (fun n => (2 * n + offset)%Z) (firstn m n_vec)) = true.
Proof.
  revert m. induction n_vec as [| a t IH]; intros m H.
  - now rewrite firstn_nil.
  - destruct m as [| m]; [reflexivity |].
    pose proof (IH m (no_descent_tail Z.gtb a t H)) as IHm.
    cbn [firstn map].
    destruct t as [| b t]; [rewrite firstn_nil; reflexivity |].
    destruct m as [| m]; [reflexivity |].
    change (negb (a >? b)%Z && no_descent Z.gtb (b :: t) = true) in H.
    apply andb_true_iff in H. destruct H as [Hab _].
    cbn [firstn map] in *.
    change (negb (2 * a + offset >? 2 * b + offset)%Z
            && no_descent Z.gtb ((2 * b + offset)%Z
                                 :: map (fun n => (2 * n + offset)%Z) (firstn m t))
            = true).
    apply andb_true_iff. split; [| exact IHm].
    apply negb_true_iff in Hab. rewrite Z.gtb_ltb in Hab. apply Z.ltb_ge in Hab.
    apply negb_true_iff. rewrite Z.gtb_ltb. apply Z.ltb_ge. lia.
Qed.

Lemma num_tail_is_4 (k : Z) : (4 <= k)%Z -> Z.min (2 * (k ÷ 2)) 4 = 4%Z.
Proof.
  intro H. rewrite Z.quot_div_nonneg by lia.
  assert (2 <= k / 2)%Z by (apply Z.div_le_lower_bound; lia). lia.
Qed.

Lemma no_descent_lower_bound (t : list Z) :
  forall a, no_descent Z.gtb (a :: t) = true -> Forall (fun n => (a <= n)%Z) (a :: t).
Proof.
  induction t as [| b t IH]; intros a H; [repeat constructor; lia |].
  change (negb (a >? b)%Z && no_descent Z.gtb (b :: t) = true) in H.
  apply andb_true_iff in H. destruct H as [Hab Ht].
  apply negb_true_iff in Hab. rewrite Z.gtb_ltb in Hab. apply Z.ltb_ge in Hab.
  constructor; [lia |].
  eapply Forall_impl; [| exact (IH b Ht)]. cbv beta. intros n Hn. lia.
Qed.

Lemma in_long_Ok (z : Z) :
  (- 9223372036854775808 <= z < 9223372036854775808)%Z -> Matsubara.in_long z = Ok z.
Proof.
  intro H. unfold Matsubara.in_long.
  destruct (_ && _) eqn:E; [reflexivity | exfalso].
  apply andb_false_iff in E. destruct E as [E | E].
  - apply Z.leb_gt in E. change (- 2 ^ 63)%Z with (- 9223372036854775808)%Z in E. lia.
  - apply Z.ltb_ge in E. change (2 ^ 63)%Z with 9223372036854775808%Z in E. lia.
Qed.

Lemma twice_plus_Ok (n offset : Z) :
  (0 <= n < 2 ^ 62)%Z -> (0 <= offset <= 1)%Z ->
  Matsubara.twice_plus n offset = Ok (2 * n + offset)%Z.
Proof.
  change (2 ^ 62)%Z with 4611686018427387904%Z. intros Hn Ho.
  unfold Matsubara.twice_plus.
  rewrite in_long_Ok by lia. cbn [bind]. apply in_long_Ok. lia.
Qed.

(** Every access of [compute_transformation_matrix_to_matsubara] is in
    range for basis functions like the first one, and no [2*n+offset]
    leaves the range of [long]. *)
Lemma transformation_total
      (NDEBUG : bool) (pi : Q) (sqrt : Q -> Q) (rpow : Q -> Q -> Q) (cexp : C -> C)
      (n0 : Z) (nrest : list Z) (statis : statistics_type)
      (p0 : piecewise_polynomial) (rest : list piecewise_polynomial) (Tnl : cmatrix) :
  Forall (like_first p0) (p0 :: rest) ->
  (4 <= k_ p0)%Z ->
  (edge (section_edges_ p0) 0 == 0)%Q ->
  (edge (section_edges_ p0) (Z.to_nat (n_sections_ p0)) == 1)%Q ->
  (0 <= n0)%Z ->
  no_descent Z.gtb (n0 :: nrest) = true ->
  Forall (fun n => (n < 2 ^ 62)%Z) (n0 :: nrest) ->
  (0 <= pi)%Q ->
  exists T,
    Matsubara.compute_transformation_matrix_to_matsubara
      NDEBUG pi sqrt rpow cexp (n0 :: nrest) statis (p0 :: rest) Tnl = Ok T
    /\ size T = size (n0 :: nrest)
    /\ Forall (fun row => size row = size (p0 :: rest)) T.
Proof.
  intros Hall Hk H0 H1 Hn0 Hord Hlong Hpi.
  assert (W0 : well_formed p0) by (exact (proj1 (Forall_inv Hall))).
  assert (Hrange : forall n, In n (n0 :: nrest) -> (0 <= n < 2 ^ 62)%Z).
  { intros n Hin. pose proof (no_descent_lower_bound nrest n0 Hord) as Hge.
    rewrite Forall_forall in Hge, Hlong.
    specialize (Hge n Hin). specialize (Hlong n Hin). cbv beta in *. lia. }
  destruct (well_formed_edges p0 W0) as (Hn & Hlen & Hasc).
  set (n_vec := n0 :: nrest) in *. set (pp_func := p0 :: rest) in *.
  assert (Hsn : (1 <= size n_vec)%Z) by (unfold size, n_vec; cbn [length]; lia).
  assert (Hpp : (1 <= size pp_func)%Z) by (unfold size, pp_func; cbn [length]; lia).
  unfold Matsubara.compute_transformation_matrix_to_matsubara. cbv zeta.
  unfold PP.order.
  replace (size n_vec =? 0)%Z with false by (symmetry; apply Z.eqb_neq; lia).
  rewrite (check_order_no_descent Z.gtb _ n_vec) by discriminate.
  rewrite Hord. cbn [bind].
  change (at_ n_vec 0) with (Ok n0). cbn [bind].
  replace (n0 <? 0)%Z with false by (symmetry; apply Z.ltb_ge; lia).
  change (at_ pp_func 0) with (Ok p0). cbn [bind].
  rewrite (num_tail_is_4 _ Hk). change (4 <? 4)%Z with false. cbv iota.
  set (offset := if statistics_eqb statis FERMIONIC then 1%Z else 0%Z).
  assert (Hoff : (0 <= offset <= 1)%Z)
    by (unfold offset; destruct (statistics_eqb statis FERMIONIC); lia).
  (* the tails *)
  match goal with
  | |- context [mapM ?f (seqZ (size pp_func))] =>
      destruct (mapM_total f (fun row : list C => length row = 4%nat)
                  (seqZ (size pp_func))) as (tails & Etails & Ltails & Ptails)
  end.
  { intros l Hl. apply In_seqZ in Hl. cbv beta.
    destruct (at_total (like_first p0) pp_func l Hall Hl) as (bl & Ebl & Lbl).
    pose proof (like_first_sections p0 bl W0 Lbl) as Nbl.
    destruct Lbl as (Wl & Kl & El).
    rewrite Ebl. cbn [bind].
    assert (Hin : in_section bl (n_sections_ bl - 1) 1).
    { split; [lia |]. rewrite El, Nbl. split.
      - rewrite <- H1. apply Qlt_le_weak.
        apply ascending_lt; [exact Hasc | lia | lia].
      - right. split; [reflexivity |]. symmetry. exact H1. }
    match goal with
    | |- context [for_range 0 4 ?b ?s0] =>
        destruct (for_range_total
                    (fun m (st : list C * C) => length (fst st) = Z.to_nat m)
                    b 4 s0) as (st & Est & Lst); [lia | | reflexivity |]
    end.
    - intros m [row ztmp] Hm Lr. cbn [fst] in Lr.
      destruct (derivative_total NDEBUG bl 1 m _ Wl ltac:(lia) Hin) as [d Ed].
      rewrite Ed. cbn [bind]. eexists. split; [reflexivity |]. cbn [fst].
      rewrite length_app. cbn [length]. lia.
    - rewrite Est. cbn [bind]. eexists. split; [reflexivity | exact Lst]. }
  rewrite Etails. cbn [bind]. rewrite length_seqZ in Ltails.
  assert (Sht : shape (length pp_func) 4 tails)
    by (split; [unfold size in Ltails; lia | exact Ptails]).
  (* the number of low frequencies of each basis function *)
  match goal with
  | |- context [mapM ?f (seqZ (size pp_func))] =>
      destruct (mapM_total f (fun c => (0 <= c <= size n_vec)%Z)
                  (seqZ (size pp_func))) as (nlf & Enlf & Lnlf & Pnlf)
  end.
  { intros l Hl. apply In_seqZ in Hl. cbv beta zeta.
    destruct (cmat_at_total _ _ tails l
                (if (Z.rem (l + offset - 1) 2 =? 0)%Z then 0 else 1)%Z Sht)
      as [tl Etl]; [unfold size in *; lia | destruct (_ =? 0)%Z; lia |].
    rewrite Etl. cbn [bind].
    destruct (cmat_at_total _ _ tails l
                (if (Z.rem (l + offset - 1) 2 =? 0)%Z then 4 - 2 else 4 - 1)%Z Sht)
      as [th Eth]; [unfold size in *; lia | destruct (_ =? 0)%Z; lia |].
    rewrite Eth. cbn [bind]. eexists. split; [reflexivity |].
    unfold size. split; [lia |]. apply inj_le. apply filter_length_le. }
  rewrite Enlf. cbn [bind]. rewrite length_seqZ in Lnlf.
  destruct nlf as [| h t]; [cbn [length] in Lnlf; lia |].
  cbn [bind].
  set (mx := fold_left Z.max t h).
  assert (Hmx : (0 <= mx <= size n_vec)%Z)
    by (apply fold_left_max_bounds; [exact (Forall_inv Pnlf) | exact (Forall_inv_tail Pnlf)]).
  rewrite (mapM_all_Ok (fun n => Matsubara.twice_plus n offset)
             (fun n => (2 * n + offset)%Z) (firstn (Z.to_nat mx) n_vec)).
  2:{ intros n Hin. apply twice_plus_Ok; [| exact Hoff]. apply Hrange.
      rewrite <- (firstn_skipn (Z.to_nat mx) n_vec). apply in_or_app. now left. }
  cbn [bind].
  set (ovec := map (fun n => (2 * n + offset)%Z) (firstn (Z.to_nat mx) n_vec)).
  assert (Lo : length ovec = Z.to_nat mx).
  { unfold ovec. rewrite length_map, length_firstn. unfold size in Hmx. lia. }
  (* the low-frequency block *)
  assert (Hlow : exists Tl,
             Matsubara.compute_Tbar_ol NDEBUG pi sqrt cexp ovec pp_func [] = Ok Tl
             /\ ((0 < mx)%Z -> shape (Z.to_nat mx) (length pp_func) Tl)).
  { destruct ovec as [| o os] eqn:Eo.
    - exists []. split; [reflexivity |]. cbn [length] in Lo. lia.
    - rewrite <- Eo in *.
      destruct (compute_Tbar_ol_total NDEBUG pi sqrt cexp ovec p0 rest []
                  Hall ltac:(lia) H0 H1) as (Tl & ETl & STl & PTl).
      + rewrite Eo. discriminate.
      + apply low_frequencies_no_descent. exact Hord.
      + exact Hpi.
      + exists Tl. split; [exact ETl |]. intros _. split.
        * unfold size in STl. lia.
        * apply Forall_forall. intros row Hrow. rewrite Forall_forall in PTl.
          specialize (PTl row Hrow). unfold size in PTl. fold pp_func in PTl. lia. }
  destruct Hlow as (Tl & ETl & STl). rewrite ETl. cbn [bind].
  (* copying the low-frequency block *)
  match goal with
  | |- context [for_range 0 (size pp_func) ?b (cmat_zero ?r ?c)] =>
      destruct (for_range_total
                  (fun _ T => shape (length n_vec) (length pp_func) T)
                  b (size pp_func) (cmat_zero r c)) as (T1 & E1 & S1); [lia | | |]
  end.
  { intros l T Hl ST. cbv beta.
    match goal with
    | |- context [for_range 0 mx ?b T] =>
        apply (for_range_total
                 (fun _ T => shape (length n_vec) (length pp_func) T)
                 b mx T); [lia | | exact ST]
    end.
    intros i T' Hi ST'. cbv beta.
    destruct (cmat_at_total _ _ Tl i l (STl ltac:(lia))) as [tv Etv];
      [lia | unfold size in *; lia |].
    rewrite Etv. cbn [bind].
    apply cmat_set_total; [exact ST' | unfold size in *; lia..]. }
  { destruct (length_cmat_zero (size n_vec) (size pp_func)) as [A B].
    split; [rewrite A; unfold size; lia |].
    apply Forall_forall. intros row Hrow. rewrite Forall_forall in B.
    rewrite (B row Hrow). unfold size. lia. }
  rewrite E1. cbn [bind].
  (* the tails replace the high frequencies *)
  match goal with
  | |- context [for_range 0 (size pp_func) ?b T1] =>
      destruct (for_range_total
                  (fun _ T => shape (length n_vec) (length pp_func) T)
                  b (size pp_func) T1) as (T2 & E2 & [L2 P2]); [lia | | exact S1 |]
  end.
  { intros l T Hl ST. cbv beta.
    destruct (at_total _ (h :: t) l Pnlf) as (c & Ec & Hc);
      [unfold size in *; lia |].
    rewrite Ec. cbn [bind].
    match goal with
    | |- context [for_range c (size n_vec) ?b T] =>
        apply (for_range_total_from
                 (fun _ T => shape (length n_vec) (length pp_func) T)
                 b c (size n_vec) T); [lia | | exact ST]
    end.
    intros i T' Hi ST'. cbv beta.
    rewrite (at_in_range n_vec i 0%Z) by lia. cbn [bind].
    rewrite twice_plus_Ok;
      [| apply Hrange; apply nth_In; unfold size in *; lia | exact Hoff].
    cbn [bind].
    destruct (cmat_set_total _ _ T' i l (0%Q, 0%Q) ST') as (T'' & ET'' & ST'');
      [unfold size in *; lia.. |].
    rewrite ET''. cbn [bind].
    match goal with
    | |- context [for_range 0 4 ?b T''] =>
        apply (for_range_total
                 (fun _ T => shape (length n_vec) (length pp_func) T)
                 b 4 T''); [lia | | exact ST'']
    end.
    intros m T3 Hm ST3. cbv beta.
    destruct (cmat_at_total _ _ T3 i l ST3) as [old Eold]; [unfold size in *; lia.. |].
    rewrite Eold. cbn [bind].
    destruct (cmat_at_total _ _ tails l m Sht) as [tv Etv]; [unfold size in *; lia.. |].
    rewrite Etv. cbn [bind].
    apply cmat_set_total; [exact ST3 | unfold size in *; lia..]. }
  exists T2. split; [exact E2 |]. split; [unfold size; now rewrite L2 |].
  apply Forall_forall. intros row Hrow. rewrite Forall_forall in P2.
  unfold size. now rewrite (P2 row Hrow).
Qed.

(** X29: [compute_transformation_matrix_to_matsubara] returns, without an
    exception and without an access out of range, a matrix with one row
    per entry of [n_vec] and one column per basis function, when [n_vec] is
    non-empty, starts with a non-negative entry and has no entry greater
    than its successor and none from 2^62 on (so that [2*n+offset] stays
    in the range of the 64-bit [long]), and the basis
    functions are well-formed piecewise polynomials of one order [k >= 4]
    over one vector of section edges that starts at 0 and ends at 1 (and
    the constant [pi] is not negative). *)
Theorem transformation_returns
        (NDEBUG : bool) (pi : Q) (sqrt : Q -> Q) (rpow : Q -> Q -> Q) (cexp : C -> C)
        (n0 : Z) (nrest : list Z) (statis : statistics_type)
        (p0 : piecewise_polynomial) (rest : list piecewise_polynomial) (Tnl : cmatrix) :
  Forall (like_first p0) (p0 :: rest) ->
  (4 <= k_ p0)%Z ->
  (edge (section_edges_ p0) 0 == 0)%Q ->
  (edge (section_edges_ p0) (Z.to_nat (n_sections_ p0)) == 1)%Q ->
  (0 <= n0)%Z ->
  no_descent Z.gtb (n0 :: nrest) = true ->
  Forall (fun n => (n < 2 ^ 62)%Z) (n0 :: nrest) ->
  (0 <= pi)%Q ->
  exists T,
    Matsubara.compute_transformation_matrix_to_matsubara
      NDEBUG pi sqrt rpow cexp (n0 :: nrest) statis (p0 :: rest) Tnl = Ok T
    /\ size T = size (n0 :: nrest)
    /\ Forall (fun row => size row = size (p0 :: rest)) T.
Proof.
  intros Hall Hk H0 H1 Hn0 Hord Hlong Hpi.
  exact (transformation_total NDEBUG pi sqrt rpow cexp n0 nrest statis p0 rest Tnl
           Hall Hk H0 H1 Hn0 Hord Hlong Hpi).
Qed.

(** x^4 on [0, 1]: order 4. *)
Definition pp_x4 : piecewise_polynomial :=
  mk_pp 4 1 [0; 1]%Q [[0; 0; 0; 0; 1]%Q] true.

(** With [n_vec = (0, 2^62)] the frequency [2*n+1] of the second entry
    leaves the range of [long]. *)
Lemma transformation_long_overflow :
  Matsubara.compute_transformation_matrix_to_matsubara
    false 3 sqrt_exact (fun a b => a) cexp_unit [0; 2 ^ 62]%Z FERMIONIC [pp_x4] []
  = Undefined.
Proof. vm_compute. reflexivity. Qed.

Lemma transformation_returns_witness :
  exists T,
    Matsubara.compute_transformation_matrix_to_matsubara
      false 3 sqrt_exact (fun a b => a) cexp_unit [0; 1]%Z FERMIONIC [pp_x4] [] = Ok T
    /\ size T = size [0; 1]%Z
    /\ Forall (fun row => size row = size [pp_x4]) T.
Proof.
  apply (transformation_returns false 3 sqrt_exact (fun a b => a) cexp_unit
           0 [1]%Z FERMIONIC pp_x4 [] []).
  - constructor; [| constructor].
    split; [split; reflexivity | split; reflexivity].
  - cbn [k_ pp_x4]. lia.
  - reflexivity.
  - reflexivity.
  - lia.
  - reflexivity.
  - repeat constructor.
  - discriminate.
Defined.
